(** * DaCe: SDFG nesting transformations and source mapping

    A shallow embedding of
      - dace/transformation/interstate/sdfg_nesting.py
        (InlineSDFG and NestSDFG), and
      - dace/sourcemap.py (MapCpp, MapPython, create_cpp_map),
    together with the properties of the specification that concern them.

    Python objects are modelled by values carrying an explicit identity
    (node ids, edge ids); exceptions by the [result] type; in-place
    mutation by explicit state passing. *)

From Stdlib Require Import ZArith List String Ascii Bool Lia DecimalString.
From stdpp Require Import gmap strings list fin_maps.

Open Scope string_scope.
Open Scope list_scope.

(** ** Exceptions and results *)

Inductive Exn : Type :=
| ValueError
| NotImplementedError
| KeyError
| IndexError
| StopIteration
| UnboundLocalError
| SubsetError
| FileNotFoundError
| ConnectionRefusedError
| OutOfFuel.

Inductive result (A : Type) : Type :=
| Ok (a : A)
| Raise (e : Exn).
Arguments Ok {A} a.
Arguments Raise {A} e.

Definition is_ok {A} (r : result A) : bool :=
  match r with Ok _ => true | Raise _ => false end.

Definition is_raise {A} (r : result A) : bool := negb (is_ok r).

#[global] Instance result_ret : MRet result := fun A a => Ok a.
#[global] Instance result_bind : MBind result := fun A B f r =>
  match r with Ok a => f a | Raise e => Raise e end.

#[global] Instance result_fmap : FMap result := fun A B f r =>
  match r with Ok a => Ok (f a) | Raise e => Raise e end.

Definition of_option {A} (e : Exn) (o : option A) : result A :=
  match o with Some a => Ok a | None => Raise e end.

(** Loops over a list whose body may raise. *)
Fixpoint foldR {A B} (f : B -> A -> result B) (l : list A) (b : B) : result B :=
  match l with
  | [] => Ok b
  | x :: l' => match f b x with
               | Ok b' => foldR f l' b'
               | Raise e => Raise e
               end
  end.

(** ** Subset / range algebra *)

Module Subsets.

(** One dimension: (start, end, step), the end being inclusive.  The source
    tests an inner range against [(0, 0, 1)] for "a range of size 1". *)
Definition Range : Type := (Z * Z * Z)%type.
Definition Subset : Type := list Range.

Definition range_eqb (r1 r2 : Range) : bool :=
  let '(b1, e1, s1) := r1 in
  let '(b2, e2, s2) := r2 in
  ((b1 =? b2) && (e1 =? e2) && (s1 =? s2))%Z.

Definition unit_range : Range := (0, 0, 1)%Z.

(** [a:b] written as in the specification: start [a], exclusive end [b]. *)
Definition slice (a b : Z) : Range := (a, b - 1, 1)%Z.

(** Modelled from the spec: Subset.size lives in the subset algebra, which
    is not among the sources.  "size(): ordered extents"; the extent of one
    dimension is the number of elements of the inclusive range. *)
Definition extent (r : Range) : Z :=
  let '(b, e, s) := r in ((e - b + s) / s)%Z.

Definition size (s : Subset) : list Z := map extent s.

Fixpoint insert_sorted (p : nat) (l : list nat) : list nat :=
  match l with
  | [] => [p]
  | q :: l' => if (p <=? q)%nat then p :: l else q :: insert_sorted p l'
  end.

Definition sorted (l : list nat) : list nat := fold_right insert_sorted [] l.

Fixpoint insert_at {A} (p : nat) (x : A) (l : list A) : list A :=
  match p, l with
  | O, _ => x :: l
  | S p', y :: l' => y :: insert_at p' x l'
  | S _, [] => [x]
  end.

(** Modelled from the spec: Subset.unsqueeze is not among the sources.
    "unsqueeze(positions): inserts unit-extent dimensions at sorted
    positions, increasing rank; fails if a position exceeds the resulting
    rank". *)
Definition unsqueeze (s : Subset) (positions : list nat) : result Subset :=
  foldR (fun (acc : Subset) (p : nat) =>
           if (p <=? length acc)%nat then Ok (insert_at p unit_range acc)
           else Raise SubsetError)
        (sorted positions) s.

Definition min_element (s : Subset) : list Z := map (fun r => fst (fst r)) s.

(** Modelled from the spec: Subset.offset is not among the sources.
    "offset(by): shifts each dimension's start/end by the matching entry of
    by; requires equal rank".  The source always calls it with
    [negative = False], with another subset whose starts are the offsets. *)
Definition offset (s by_ : Subset) : result Subset :=
  if (length s =? length by_)%nat then
    Ok (map (fun '((b, e, st), o) => ((b + o)%Z, (e + o)%Z, st))
            (combine s (min_element by_)))
  else Raise SubsetError.

End Subsets.
Export Subsets.

(** ** Memlets *)

Record Memlet : Type := mkMemlet {
  data : option string;          (* None for the empty memlet *)
  subset : Subset;
  other_subset : option Subset;
  volume : Z;
  wcr : option string;
  dynamic : bool
}.

Definition set_data (d : option string) (m : Memlet) : Memlet :=
  mkMemlet d (subset m) (other_subset m) (volume m) (wcr m) (dynamic m).

Definition set_subset (s : Subset) (m : Memlet) : Memlet :=
  mkMemlet (data m) s (other_subset m) (volume m) (wcr m) (dynamic m).

Definition EmptyMemlet : Memlet := mkMemlet None [] None 0 None false.

(** Positions [i] of [shape] with [shape[i] == 1]. *)
Fixpoint ones_from (i : nat) (shape : list Z) : list nat :=
  match shape with
  | [] => []
  | d :: rest => if (d =? 1)%Z then i :: ones_from (S i) rest
                 else ones_from (S i) rest
  end.

(** InlineSDFG._modify_memlet, the choice of the positions to unsqueeze. *)
Definition to_unsqueeze (internal_memlet external_memlet : Memlet) : list nat :=
  let shape := size (subset external_memlet) in
  let ones := ones_from 0 shape in
  match subset internal_memlet with
  | [r] => if range_eqb r unit_range then tl ones else ones
  | _ => ones
  end.

(** InlineSDFG._modify_memlet, over any implementation [off] of
    [Subset.offset]. *)
Definition _modify_memlet_with (off : Subset -> Subset -> result Subset)
    (internal_memlet external_memlet : Memlet) : result Memlet :=
  let result0 := set_data (data external_memlet) internal_memlet in
  result1 ←
    (if (length (subset internal_memlet) <? length (subset external_memlet))%nat
     then
       s ← unsqueeze (subset result0)
                     (to_unsqueeze internal_memlet external_memlet);
       Ok (set_subset s result0)
     else if (length (subset external_memlet) <? length (subset internal_memlet))%nat
     then Raise ValueError
     else Ok result0);
  s ← off (subset result1) (subset external_memlet);
  match other_subset external_memlet with
  | Some _ => Raise NotImplementedError
  | None => Ok (set_subset s result1)
  end.

Definition _modify_memlet : Memlet -> Memlet -> result Memlet :=
  _modify_memlet_with offset.

(** ** Data descriptors, nodes, edges, states, SDFGs *)

Record ArrayDesc : Type := mkArray {
  dtype : string;
  shape : list Z;
  strides : list Z;
  storage : string;
  transient : bool
}.

Definition set_transient (t : bool) (a : ArrayDesc) : ArrayDesc :=
  mkArray (dtype a) (shape a) (strides a) (storage a) t.

(** Python object identity of nodes and edges. *)
Definition NodeId : Type := nat.
Definition EdgeId : Type := nat.

Record Edge : Type := mkEdge {
  eid : EdgeId;
  src : NodeId;
  src_conn : option string;
  dst : NodeId;
  dst_conn : option string;
  edata : Memlet
}.

Definition set_edata (m : Memlet) (e : Edge) : Edge :=
  mkEdge (eid e) (src e) (src_conn e) (dst e) (dst_conn e) m.

(** The node kinds; a NestedSDFG node owns its child SDFG.  Maps are
    referred to by the identity of the shared map descriptor. *)
Inductive NodeKind : Type :=
| AccessNode (adata : string)
| Tasklet (tlabel : string)
| MapEntry (map : nat)
| MapExit (map : nat)
| NestedSDFG (nlabel : string) (child : SDFG)
| LibraryNode (llabel : string)
with Node : Type :=
| mkNode (nid : NodeId) (kind : NodeKind)
         (in_connectors out_connectors : list string)
with SDFGState : Type :=
| mkState (slabel : string) (nodes : list Node) (edges : list Edge)
          (next_eid : EdgeId)
with SDFG : Type :=
| mkSDFG (label : string) (arrays : gmap string ArrayDesc)
         (states : list SDFGState) (interstate : list (nat * nat)).

Definition nid (n : Node) : NodeId := let 'mkNode i _ _ _ := n in i.
Definition kind (n : Node) : NodeKind := let 'mkNode _ k _ _ := n in k.
Definition in_connectors (n : Node) : list string :=
  let 'mkNode _ _ i _ := n in i.
Definition out_connectors (n : Node) : list string :=
  let 'mkNode _ _ _ o := n in o.

Definition slabel (s : SDFGState) : string := let 'mkState l _ _ _ := s in l.
Definition nodes (s : SDFGState) : list Node := let 'mkState _ n _ _ := s in n.
Definition edges (s : SDFGState) : list Edge := let 'mkState _ _ e _ := s in e.
Definition next_eid (s : SDFGState) : EdgeId := let 'mkState _ _ _ k := s in k.

Definition label (g : SDFG) : string := let 'mkSDFG l _ _ _ := g in l.
Definition arrays (g : SDFG) : gmap string ArrayDesc :=
  let 'mkSDFG _ a _ _ := g in a.
Definition states (g : SDFG) : list SDFGState := let 'mkSDFG _ _ s _ := g in s.
Definition interstate (g : SDFG) : list (nat * nat) :=
  let 'mkSDFG _ _ _ i := g in i.

Definition set_nodes (ns : list Node) (s : SDFGState) : SDFGState :=
  mkState (slabel s) ns (edges s) (next_eid s).
Definition set_edges (es : list Edge) (s : SDFGState) : SDFGState :=
  mkState (slabel s) (nodes s) es (next_eid s).
Definition set_arrays (a : gmap string ArrayDesc) (g : SDFG) : SDFG :=
  mkSDFG (label g) a (states g) (interstate g).
Definition set_states (ss : list SDFGState) (g : SDFG) : SDFG :=
  mkSDFG (label g) (arrays g) ss (interstate g).

Definition is_access (k : NodeKind) : bool :=
  match k with AccessNode _ => true | _ => false end.
Definition is_nested (k : NodeKind) : bool :=
  match k with NestedSDFG _ _ => true | _ => false end.
Definition is_entry (k : NodeKind) : bool :=
  match k with MapEntry _ => true | _ => false end.
Definition is_exit (k : NodeKind) : bool :=
  match k with MapExit _ => true | _ => false end.
Definition is_scope (k : NodeKind) : bool := is_entry k || is_exit k.

(** [isinstance(n, (CodeNode, AccessNode))]: tasklets, nested SDFGs and
    library nodes are code nodes. *)
Definition is_code_or_access (k : NodeKind) : bool := negb (is_scope k).

Definition access_data (k : NodeKind) : option string :=
  match k with AccessNode d => Some d | _ => None end.

Definition set_node_data (d : string) (n : Node) : Node :=
  match kind n with
  | AccessNode _ => mkNode (nid n) (AccessNode d) (in_connectors n) (out_connectors n)
  | _ => n
  end.

Definition opt_str_eqb (a b : option string) : bool :=
  match a, b with
  | Some x, Some y => String.eqb x y
  | None, None => true
  | _, _ => false
  end.

Definition mem_str (x : string) (l : list string) : bool :=
  existsb (String.eqb x) l.

Definition mem_ostr (x : option string) (l : list (option string)) : bool :=
  existsb (opt_str_eqb x) l.

Definition mem_nat (x : nat) (l : list nat) : bool := existsb (Nat.eqb x) l.

(** ** The graph container

    The state graph (dace/sdfg, dace/graph) is not among the sources; its
    operations are modelled from section 4.2 of the specification.  Nodes
    and edges are kept in insertion order; removal is by identity. *)

Module Graph.

Definition find_node (st : SDFGState) (n : NodeId) : option Node :=
  List.find (fun x => nid x =? n)%nat (nodes st).

Definition kind_of (st : SDFGState) (n : NodeId) : option NodeKind :=
  kind <$> find_node st n.

Definition has_node (st : SDFGState) (n : NodeId) : bool :=
  mem_nat n (map nid (nodes st)).

Definition find_edge (st : SDFGState) (i : EdgeId) : option Edge :=
  List.find (fun e => eid e =? i)%nat (edges st).

(** The edge object [e] as it is now: its memlet may have been rebound
    since [e] was recorded. *)
Definition current (st : SDFGState) (e : Edge) : Edge :=
  match find_edge st (eid e) with Some e' => e' | None => e end.

(** Modelled from the spec: in_edges / out_edges and the degrees of the
    dataflow multigraph (section 4.2). *)
Definition in_edges (st : SDFGState) (n : NodeId) : list Edge :=
  List.filter (fun e => dst e =? n)%nat (edges st).

Definition out_edges (st : SDFGState) (n : NodeId) : list Edge :=
  List.filter (fun e => src e =? n)%nat (edges st).

Definition in_degree (st : SDFGState) (n : NodeId) : nat :=
  length (in_edges st n).

Definition out_degree (st : SDFGState) (n : NodeId) : nat :=
  length (out_edges st n).

(** Modelled from the spec: "source_nodes()/sink_nodes() (zero in/out-degree
    within the state)". *)
Definition source_nodes (st : SDFGState) : list Node :=
  List.filter (fun n => in_degree st (nid n) =? 0)%nat (nodes st).

Definition sink_nodes (st : SDFGState) : list Node :=
  List.filter (fun n => out_degree st (nid n) =? 0)%nat (nodes st).

(** Modelled from the spec: add node (section 4.2); adding a node that is
    already in the state changes nothing. *)
Definition add_node (n : Node) (st : SDFGState) : SDFGState :=
  if has_node st (nid n) then st else set_nodes (nodes st ++ [n]) st.

Definition add_nodes_from (ns : list Node) (st : SDFGState) : SDFGState :=
  fold_left (fun s n => add_node n s) ns st.

(** Modelled from the spec: add edge (section 4.2); a new edge object is
    created and returned. *)
Definition add_edge (st : SDFGState) (s : NodeId) (sc : option string)
    (d : NodeId) (dc : option string) (m : Memlet) : Edge * SDFGState :=
  let e := mkEdge (next_eid st) s sc d dc m in
  (e, mkState (slabel st) (nodes st) (edges st ++ [e]) (S (next_eid st))).

Definition remove_edge (e : Edge) (st : SDFGState) : SDFGState :=
  set_edges (List.filter (fun x => negb (eid x =? eid e)%nat) (edges st)) st.

Definition remove_str (c : string) (l : list string) : list string :=
  List.filter (fun x => negb (String.eqb x c)) l.

Definition drop_out_connector (n : NodeId) (c : option string)
    (st : SDFGState) : SDFGState :=
  match c with
  | None => st
  | Some c =>
      set_nodes (map (fun x => if (nid x =? n)%nat
                               then mkNode (nid x) (kind x) (in_connectors x)
                                           (remove_str c (out_connectors x))
                               else x) (nodes st)) st
  end.

Definition drop_in_connector (n : NodeId) (c : option string)
    (st : SDFGState) : SDFGState :=
  match c with
  | None => st
  | Some c =>
      set_nodes (map (fun x => if (nid x =? n)%nat
                               then mkNode (nid x) (kind x)
                                           (remove_str c (in_connectors x))
                                           (out_connectors x)
                               else x) (nodes st)) st
  end.

(** Modelled from the spec: remove edge; the connectors the edge was
    attached to are removed from its end nodes as well. *)
Definition remove_edge_and_connectors (e : Edge) (st : SDFGState) : SDFGState :=
  drop_in_connector (dst e) (dst_conn e)
    (drop_out_connector (src e) (src_conn e) (remove_edge e st)).

(** Modelled from the spec: remove node (section 4.2); the edges incident
    to the node disappear with it. *)
Definition remove_node (n : NodeId) (st : SDFGState) : SDFGState :=
  mkState (slabel st)
          (List.filter (fun x => negb (nid x =? n)%nat) (nodes st))
          (List.filter (fun e => negb (src e =? n)%nat && negb (dst e =? n)%nat)
                       (edges st))
          (next_eid st).

Definition is_scope_node (st : SDFGState) (n : NodeId) : bool :=
  match kind_of st n with Some k => is_scope k | None => false end.

Fixpoint strip_prefix (p s : string) : option string :=
  match p, s with
  | EmptyString, _ => Some s
  | String a p', String b s' =>
      if Ascii.eqb a b then strip_prefix p' s' else None
  | String _ _, EmptyString => None
  end.

Definition is_empty_memlet_edge (e : Edge) : bool :=
  match src_conn e, dst_conn e, data (edata e) with
  | None, None, None => true
  | _, _, _ => false
  end.

(** Walking a memlet path against the edges: through a scope node, the
    edge leaving connector OUT_x continues the edge entering IN_x. *)
Fixpoint path_up (fuel : nat) (st : SDFGState) (cur : Edge)
    (acc : list Edge) : result (list Edge) :=
  match fuel with
  | O => Raise OutOfFuel
  | S fuel' =>
      if is_scope_node st (src cur) then
        match src_conn cur with
        | None => Raise ValueError
        | Some c =>
            match strip_prefix "OUT_" c with
            | None => Raise ValueError
            | Some x =>
                match List.find (fun e => opt_str_eqb (dst_conn e)
                                            (Some ("IN_" +:+ x)))
                                (in_edges st (src cur)) with
                | None => Raise StopIteration
                | Some e' => path_up fuel' st e' (e' :: acc)
                end
            end
        end
      else Ok acc
  end.

Fixpoint path_down (fuel : nat) (st : SDFGState) (cur : Edge)
    (acc : list Edge) : result (list Edge) :=
  match fuel with
  | O => Raise OutOfFuel
  | S fuel' =>
      if is_scope_node st (dst cur) then
        match dst_conn cur with
        | None => Raise ValueError
        | Some c =>
            match strip_prefix "IN_" c with
            | None => Ok acc
            | Some x =>
                match List.find (fun e => opt_str_eqb (src_conn e)
                                            (Some ("OUT_" +:+ x)))
                                (out_edges st (dst cur)) with
                | None => Raise StopIteration
                | Some e' => path_down fuel' st e' (acc ++ [e'])
                end
            end
        end
      else Ok acc
  end.

(** Modelled from the spec: memlet_path(edge) (sections 3 and 4.2): the
    "ordered edges from an AccessNode/boundary to the innermost compute node
    through scope boundaries"; an empty memlet is a path of its own.  A
    state is acyclic, so a path has at most as many edges as the state. *)
Definition memlet_path (st : SDFGState) (e : Edge) : result (list Edge) :=
  if is_empty_memlet_edge e then Ok [e]
  else
    up ← path_up (S (length (edges st))) st e [e];
    path_down (S (length (edges st))) st e up.

End Graph.
Export Graph.

Module Scopes.

(** The edges that continue [e] downwards through scope nodes (fan-out),
    each followed by its own continuation. *)
Fixpoint down_edges (fuel : nat) (st : SDFGState) (e : Edge) : list Edge :=
  match fuel with
  | O => []
  | S fuel' =>
      if is_scope_node st (dst e) then
        match dst_conn e with
        | None => []
        | Some c =>
            match strip_prefix "IN_" c with
            | None => []
            | Some x =>
                flat_map (fun e' => e' :: down_edges fuel' st e')
                  (List.filter (fun e' => opt_str_eqb (src_conn e')
                                            (Some ("OUT_" +:+ x)))
                               (out_edges st (dst e)))
            end
        end
      else []
  end.

(** The edges that lead to [e] through scope nodes (fan-in), each preceded
    by the edges leading to it. *)
Fixpoint up_edges (fuel : nat) (st : SDFGState) (e : Edge) : list Edge :=
  match fuel with
  | O => []
  | S fuel' =>
      if is_scope_node st (src e) then
        match src_conn e with
        | None => []
        | Some c =>
            match strip_prefix "OUT_" c with
            | None => []
            | Some x =>
                flat_map (fun e' => up_edges fuel' st e' ++ [e'])
                  (List.filter (fun e' => opt_str_eqb (dst_conn e')
                                            (Some ("IN_" +:+ x)))
                               (in_edges st (src e)))
            end
        end
      else []
  end.

(** Modelled from the spec: memlet_tree(edge) (sections 3 and 4.2), the
    "set of paths sharing a common root edge".  The callers use the list by
    position: what comes after the given edge is "going forward", what comes
    before it "going backward".  The list therefore holds the memlet paths
    through the given edge, ordered along the paths: the edges leading to
    it, the edge, the edges continuing it.  A state is acyclic, so the
    traversal is no deeper than the number of its edges. *)
Definition memlet_tree (st : SDFGState) (e : Edge) : list Edge :=
  if is_empty_memlet_edge e then [e]
  else up_edges (length (edges st)) st e ++ [e]
       ++ down_edges (length (edges st)) st e.

(** [l[l.index(e) + 1:]] and [l[:l.index(e)]], edges compared by identity. *)
Fixpoint after_edge (e : Edge) (l : list Edge) : list Edge :=
  match l with
  | [] => []
  | x :: l' => if (eid x =? eid e)%nat then l' else after_edge e l'
  end.

Fixpoint before_edge (e : Edge) (l : list Edge) : list Edge :=
  match l with
  | [] => []
  | x :: l' => if (eid x =? eid e)%nat then [] else x :: before_edge e l'
  end.

(** Walking against the edges from a node; [depth] counts the inner scopes
    that were entered through their exit and not yet left. *)
Fixpoint scope_up (fuel : nat) (st : SDFGState) (n : NodeId) (depth : nat)
    : option NodeId :=
  match fuel with
  | O => None
  | S fuel' =>
      match in_edges st n with
      | [] => None
      | e :: _ =>
          match kind_of st (src e) with
          | Some (MapEntry _) =>
              match depth with
              | O => Some (src e)
              | S d => scope_up fuel' st (src e) d
              end
          | Some (MapExit _) => scope_up fuel' st (src e) (S depth)
          | _ => scope_up fuel' st (src e) depth
          end
      end
  end.

(** Modelled from the spec: scope_of(node) (section 4.2): the entry node of
    the innermost map scope around the node, None at top level. *)
Definition entry_node (st : SDFGState) (n : NodeId) : option NodeId :=
  scope_up (S (length (nodes st))) st n 0.

(** Modelled from the spec: the exit node paired with an entry node: the
    MapExit sharing its map descriptor (section 3). *)
Definition exit_nodes (st : SDFGState) (entry : NodeId) : result NodeId :=
  match kind_of st entry with
  | Some (MapEntry m) =>
      match List.find (fun x => match kind x with
                                | MapExit m' => (m' =? m)%nat
                                | _ => false
                                end) (nodes st) with
      | Some x => Ok (nid x)
      | None => Raise StopIteration
      end
  | _ => Raise ValueError
  end.

(** Kahn's algorithm, ties broken by the order of the nodes in the state. *)
Fixpoint topo (fuel : nat) (st : SDFGState) (remaining : list Node)
    : list Node :=
  match fuel with
  | O => []
  | S fuel' =>
      match List.find
              (fun n => forallb (fun e => negb (mem_nat (src e)
                                                  (map nid remaining)))
                                (in_edges st (nid n))) remaining with
      | None => []
      | Some n =>
          n :: topo fuel' st
                 (List.filter (fun x => negb (nid x =? nid n)%nat) remaining)
      end
  end.

(** Modelled from the spec: "topological order" of a state (section 4.2). *)
Definition topological_sort (st : SDFGState) : list Node :=
  topo (length (nodes st)) st (nodes st).

End Scopes.
Export Scopes.

Module Tables.

(** Python dictionaries that are iterated: association lists in insertion
    order; assigning to an existing key keeps its position. *)
Fixpoint dict_set {K V} (eqb : K -> K -> bool) (k : K) (v : V)
    (d : list (K * V)) : list (K * V) :=
  match d with
  | [] => [(k, v)]
  | (k', v') :: d' => if eqb k' k then (k, v) :: d'
                      else (k', v') :: dict_set eqb k v d'
  end.

Fixpoint dict_get {K V} (eqb : K -> K -> bool) (k : K) (d : list (K * V))
    : option V :=
  match d with
  | [] => None
  | (k', v') :: d' => if eqb k' k then Some v' else dict_get eqb k d'
  end.

Definition dict_has {K V} (eqb : K -> K -> bool) (k : K) (d : list (K * V))
    : bool :=
  match dict_get eqb k d with Some _ => true | None => false end.

Definition dict_update {K V} (eqb : K -> K -> bool) (d new : list (K * V))
    : list (K * V) :=
  fold_left (fun acc kv => dict_set eqb (fst kv) (snd kv) acc) new d.

Definition str_of_nat (n : nat) : string :=
  NilEmpty.string_of_uint (Nat.to_uint n).

Fixpoint find_index (fuel : nat) (name : string)
    (names : gmap string ArrayDesc) (index : nat) : string :=
  match fuel with
  | O => name +:+ "_" +:+ str_of_nat index
  | S fuel' =>
      match names !! (name +:+ "_" +:+ str_of_nat index) with
      | Some _ => find_index fuel' name names (S index)
      | None => name +:+ "_" +:+ str_of_nat index
      end
  end.

(** Modelled from the spec: add_datadesc with find_new_name (section 4.4,
    step 2): "allocate a uniquely-named ArrayDescriptor in the parent table
    (suffix on collision)".  Among [size + 1] candidate suffixes one is
    free. *)
Definition add_datadesc (name : string) (desc : ArrayDesc)
    (arrs : gmap string ArrayDesc) : string * gmap string ArrayDesc :=
  let name' := match arrs !! name with
               | Some _ => find_index (S (base.size arrs)) name arrs 0
               | None => name
               end in
  (name', <[name' := desc]> arrs).

End Tables.
Export Tables.

(** ** Mutation and exceptions

    A computation over a mutable world [S]: it returns the world as it is
    when the computation ends, normally or by an exception (what was
    mutated before an exception stays mutated). *)

Definition M (S A : Type) : Type := S -> S * result A.

Definition retM {S A} (a : A) : M S A := fun w => (w, Ok a).

Definition bindM {S A B} (c : M S A) (k : A -> M S B) : M S B :=
  fun w => match c w with
           | (w', Ok a) => k a w'
           | (w', Raise e) => (w', Raise e)
           end.

Notation "x <- c ;; k" := (bindM c (fun x => k))
  (at level 100, c at next level, right associativity).
Notation "c ;;; k" := (bindM c (fun _ => k))
  (at level 100, right associativity).

Definition throw {S A} (e : Exn) : M S A := fun w => (w, Raise e).
Definition lift {S A} (r : result A) : M S A := fun w => (w, r).
Definition gets {S A} (f : S -> A) : M S A := fun w => (w, Ok (f w)).
Definition modify {S} (f : S -> S) : M S unit := fun w => (f w, Ok tt).

Fixpoint forM {S A} (f : A -> M S unit) (l : list A) : M S unit :=
  match l with
  | [] => retM tt
  | x :: l' => f x ;;; forM f l'
  end.

Fixpoint foldM {S A B} (f : B -> A -> M S B) (l : list A) (b : B) : M S B :=
  match l with
  | [] => retM b
  | x :: l' => b' <- f b x ;; foldM f l' b'
  end.

(** ** InlineSDFG *)

Module InlineSDFG.

(** What [can_be_applied] is handed: the state graph, the candidate (the
    index of the node bound to the pattern's only node) and the SDFG. *)
Record Match : Type := mkMatch {
  m_graph : SDFGState;
  m_candidate : nat;
  m_sdfg : SDFG
}.

(** [for c in conns: if c in seen: return False; seen.add(c)]: true when the
    loop ends without returning. *)
Fixpoint scan_connectors (conns seen : list (option string)) : bool :=
  match conns with
  | [] => true
  | c :: rest => if mem_ostr c seen then false
                 else scan_connectors rest (c :: seen)
  end.

Definition child_of (n : Node) : result SDFG :=
  match kind n with
  | NestedSDFG _ c => Ok c
  | _ => Raise ValueError
  end.

(** InlineSDFG.can_be_applied (lines 48-66). *)
Definition can_be_applied (expr_index : nat) (strict : bool) : M Match bool :=
  graph <- gets m_graph ;;
  candidate <- gets m_candidate ;;
  nested_sdfg <- lift (of_option IndexError (nth_error (nodes graph) candidate)) ;;
  nsdfg <- lift (child_of nested_sdfg) ;;
  if negb (length (states nsdfg) =? 1)%nat then retM false
  else
    ins <- gets (fun w => in_edges (m_graph w) (nid nested_sdfg)) ;;
    if negb (scan_connectors (map dst_conn ins) []) then retM false
    else
      outs <- gets (fun w => out_edges (m_graph w) (nid nested_sdfg)) ;;
      if negb (scan_connectors (map src_conn outs) []) then retM false
      else retM true.

(** The transformation instance: the state and the node it was matched on. *)
Record Transformation : Type := mkTransformation {
  state_id : nat;
  subgraph : nat
}.

(** What [apply] mutates: the array table of the SDFG, the state in which
    the nested SDFG node lives, and the only state of the nested SDFG.  The
    node objects and the memlet objects of the nested state are shared with
    their copies in the outer state. *)
Record World : Type := mkWorld {
  w_arrays : gmap string ArrayDesc;
  w_state : SDFGState;
  w_nstate : SDFGState
}.

Definition on_arrays (f : gmap string ArrayDesc -> gmap string ArrayDesc)
    (w : World) : World := mkWorld (f (w_arrays w)) (w_state w) (w_nstate w).
Definition on_state (f : SDFGState -> SDFGState) (w : World) : World :=
  mkWorld (w_arrays w) (f (w_state w)) (w_nstate w).
Definition on_nstate (f : SDFGState -> SDFGState) (w : World) : World :=
  mkWorld (w_arrays w) (w_state w) (f (w_nstate w)).

Definition add_edgeM (s : NodeId) (sc : option string) (d : NodeId)
    (dc : option string) (m : Memlet) : M World Edge :=
  fun w => let '(e, st') := add_edge (w_state w) s sc d dc m in
           (mkWorld (w_arrays w) st' (w_nstate w), Ok e).

Definition add_datadescM (name : string) (desc : ArrayDesc) : M World string :=
  fun w => let '(name', arrs) := add_datadesc name desc (w_arrays w) in
           (mkWorld arrs (w_state w) (w_nstate w), Ok name').

(** [edge._data = m] on an edge object of the outer state. *)
Definition rebind (e : Edge) (m : Memlet) (st : SDFGState) : SDFGState :=
  set_edges (map (fun x => if (eid x =? eid e)%nat then set_edata m x else x)
                 (edges st)) st.

(** The siblings of [pedge] in [_remove_edge_path]:
    [[e for e in edge_func(pedge) if edge_pred(pedge, e)]]. *)
Definition siblings (reverse : bool) (st : SDFGState) (pedge : Edge)
    : list Edge :=
  if reverse then
    List.filter (fun e => opt_str_eqb (src_conn e) (src_conn pedge))
                (out_edges st (src pedge))
  else
    List.filter (fun e => opt_str_eqb (dst_conn e) (dst_conn pedge))
                (in_edges st (dst pedge)).

(** The inner for loop of [_remove_edge_path]; true when it ends without
    [break]. *)
Fixpoint remove_along (reverse : bool) (path : list Edge) : M World bool :=
  match path with
  | [] => retM true
  | pedge :: rest =>
      st <- gets w_state ;;
      if (length (siblings reverse st pedge) =? 1)%nat then
        modify (on_state (remove_edge_and_connectors pedge)) ;;;
        remove_along reverse rest
      else retM false
  end.

(** InlineSDFG._remove_edge_path (lines 111-164). *)
Definition _remove_edge_path (edge_map : list (option string * Edge))
    (unused : list (option string)) (reverse : bool) : M World (list Edge) :=
  foldM (fun (result : list Edge) (item : option string * Edge) =>
    let '(identifier, edge) := item in
    if mem_ostr identifier unused then
      st <- gets w_state ;;
      path <- lift (memlet_path st edge) ;;
      let path' := if reverse then rev path else path in
      finished <- remove_along reverse path' ;;
      if finished then
        match last path' with
        | None => retM result
        | Some pedge =>
            let node := if reverse then src pedge else dst pedge in
            st' <- gets w_state ;;
            let result' :=
              result ++ (if reverse then in_edges st' node
                         else out_edges st' node) in
            modify (on_state (remove_node node)) ;;;
            retM result'
        end
      else retM result
    else retM result) edge_map [].

(** InlineSDFG._modify_memlet_path, lines 496-499: the body of the loop
    over the memlet tree. *)
Definition modify_tree_edge (top_edge : Edge) (result : list EdgeId)
    (tree_edge : Edge) : M World (list EdgeId) :=
  st2 <- gets w_state ;;
  m <- lift (_modify_memlet (edata (current st2 tree_edge))
                            (edata (current st2 top_edge))) ;;
  modify (on_state (rebind tree_edge m)) ;;;
  retM (result ++ [eid tree_edge]).

(** InlineSDFG._modify_memlet_path, lines 479-499: the body of the loop
    over the inner edges of one boundary access node. *)
Definition reconnect_edge (inputs : bool) (top_edge : Edge)
    (result : list EdgeId) (inner_edge : Edge) : M World (list EdgeId) :=
  st <- gets w_state ;;
  new_memlet <- lift (_modify_memlet (edata inner_edge)
                                     (edata (current st top_edge))) ;;
  new_edge <-
    (if inputs then
       add_edgeM (src top_edge) (src_conn top_edge)
                 (dst inner_edge) (dst_conn inner_edge) new_memlet
     else
       add_edgeM (src inner_edge) (src_conn inner_edge)
                 (dst top_edge) (dst_conn top_edge) new_memlet) ;;
  st1 <- gets w_state ;;
  let mtree := memlet_tree st1 new_edge in
  let mtree := if inputs then after_edge new_edge mtree
               else before_edge new_edge mtree in
  foldM (modify_tree_edge top_edge) mtree result.

(** InlineSDFG._modify_memlet_path, lines 476-499: the body of the loop
    over the boundary access nodes. *)
Definition reconnect_node (inputs : bool) (result : list EdgeId)
    (item : NodeId * Edge) : M World (list EdgeId) :=
  let '(node, top_edge) := item in
  nstate <- gets w_nstate ;;
  let inner_edges :=
    if inputs then out_edges nstate node else in_edges nstate node in
  foldM (reconnect_edge inputs top_edge) inner_edges result.

(** InlineSDFG._modify_memlet_path (lines 468-500).  [new_edges] maps the
    boundary access nodes of the nested state to the outer edge of their
    connector. *)
Definition _modify_memlet_path (new_edges : list (NodeId * Edge))
    (inputs : bool) : M World (list EdgeId) :=
  foldM (reconnect_node inputs) new_edges [].

Definition EdgeDict : Type := list (option string * Edge).
Definition NameDict : Type := list (option string * option string).

(** Lines 181-190: the outer edge of every connector, and the connector of
    every outer array. *)
Definition collect_in (st : SDFGState) (n : NodeId) : EdgeDict * NameDict :=
  fold_left (fun (acc : EdgeDict * NameDict) (e : Edge) =>
               (dict_set opt_str_eqb (dst_conn e) e (fst acc),
                dict_set opt_str_eqb (data (edata e)) (dst_conn e) (snd acc)))
            (in_edges st n) ([], []).

Definition collect_out (st : SDFGState) (n : NodeId) : EdgeDict * NameDict :=
  fold_left (fun (acc : EdgeDict * NameDict) (e : Edge) =>
               (dict_set opt_str_eqb (src_conn e) e (fst acc),
                dict_set opt_str_eqb (data (edata e)) (src_conn e) (snd acc)))
            (out_edges st n) ([], []).

(** Lines 192-204: every transient of the nested state becomes a transient
    of the parent, under a name that is free there. *)
Definition collect_transients (nlabel : string)
    (narrays : gmap string ArrayDesc) : M World (list (string * string)) :=
  nstate <- gets w_nstate ;;
  foldM (fun (transients : list (string * string)) (node : Node) =>
    match kind node with
    | AccessNode d =>
        datadesc <- lift (of_option KeyError (narrays !! d)) ;;
        if negb (dict_has String.eqb d transients) && transient datadesc then
          name <- add_datadescM (nlabel +:+ "_" +:+ d) datadesc ;;
          retM (dict_set String.eqb d name transients)
        else retM transients
    | _ => retM transients
    end) (nodes nstate) [].

(** Lines 210-221: the source (sink) access nodes that stand for an input
    (output) connector, with the outer edge of that connector. *)
Definition boundary_edges (candidates : list Node)
    (transients : list (string * string)) (conn_edges : EdgeDict)
    : result (list (NodeId * Edge)) :=
  foldR (fun (acc : list (NodeId * Edge)) (node : Node) =>
    match kind node with
    | AccessNode d =>
        if negb (dict_has String.eqb d transients) then
          e ← of_option KeyError (dict_get opt_str_eqb (Some d) conn_edges);
          Ok (dict_set Nat.eqb (nid node) e acc)
        else Ok acc
    | _ => Ok acc
    end) candidates [].

(** SubgraphView(nstate, ns).edges(). *)
Definition subgraph_edges (nstate : SDFGState) (ns : list NodeId) : list Edge :=
  List.filter (fun e => mem_nat (src e) ns && mem_nat (dst e) ns) (edges nstate).

Definition replace_node (name new_name : option string) (n : Node) : Node :=
  match name, new_name, kind n with
  | Some a, Some b, AccessNode d => if String.eqb d a then set_node_data b n else n
  | _, _, _ => n
  end.

Definition replace_edge (name new_name : option string) (e : Edge) : Edge :=
  if opt_str_eqb (data (edata e)) name
  then set_edata (set_data new_name (edata e)) e else e.

(** Modelled from the spec: sd.replace over a subgraph view (section 4.4,
    step 4): the data references of its access nodes and memlets are
    renamed. *)
Definition replace_in (ns : list NodeId) (es : list EdgeId)
    (name new_name : option string) (st : SDFGState) : SDFGState :=
  mkState (slabel st)
    (map (fun n => if mem_nat (nid n) ns then replace_node name new_name n
                   else n) (nodes st))
    (map (fun e => if mem_nat (eid e) es then replace_edge name new_name e
                   else e) (edges st))
    (next_eid st).

(** Lines 246-247 on the shared objects: the nodes of the view are the
    nodes added to the outer state, and the copied edges [copied] carry the
    memlet objects of the edges of the view. *)
Definition replace_shared (ns : list NodeId) (copied : list EdgeId)
    (name new_name : option string) (w : World) : World :=
  mkWorld (w_arrays w)
    (replace_in ns copied name new_name (w_state w))
    (replace_in ns (map eid (subgraph_edges (w_nstate w) ns)) name new_name
                (w_nstate w)).

(** Lines 261-273 for one direction: the edges leaving (entering) an
    inlined access node that carries the name of an outer array. *)
Definition modify_other (inputs_side : bool) (conn_edges : EdgeDict)
    (name_set : NameDict) (modified_edges : list EdgeId) (node : NodeId)
    (d : string) : M World unit :=
  if dict_has opt_str_eqb (Some d) name_set then
    st <- gets w_state ;;
    forM (fun edge : Edge =>
      if mem_nat (eid edge) modified_edges then retM tt
      else
        st' <- gets w_state ;;
        conn <- lift (of_option KeyError (dict_get opt_str_eqb (Some d) name_set)) ;;
        top <- lift (of_option KeyError (dict_get opt_str_eqb conn conn_edges)) ;;
        m <- lift (_modify_memlet (edata (current st' edge))
                                  (edata (current st' top))) ;;
        modify (on_state (rebind edge m)))
      (if inputs_side then out_edges st node else in_edges st node)
  else retM tt.

(** [set(edge_map.keys()) - accesses] at lines 296 and 298: the keys are
    connector names and [accesses] holds node objects, so no key equals a
    member of [accesses] and the difference keeps every key. *)
Definition keys_minus_nodes (edge_map : EdgeDict) (accesses : list NodeId)
    : list (option string) := map fst edge_map.

(** The body of InlineSDFG.apply (lines 172-318) once the state, the nested
    SDFG node and the nested state have been fetched. *)
Definition apply_body (nsdfg_node : Node) (nsdfg : SDFG) : M World unit :=
  state0 <- gets w_state ;;
  let nsdfg_scope_entry := entry_node state0 (nid nsdfg_node) in
  nsdfg_scope_exit <-
    lift (match nsdfg_scope_entry with
          | Some entry => x ← exit_nodes state0 entry; Ok (Some x)
          | None => Ok None
          end) ;;
  (* Collect and update top-level SDFG metadata *)
  let '(inputs, input_set) := collect_in state0 (nid nsdfg_node) in
  let '(outputs, output_set) := collect_out state0 (nid nsdfg_node) in
  transients <- collect_transients (label nsdfg) (arrays nsdfg) ;;
  (* Collect nodes to add to top-level graph *)
  nstate <- gets w_nstate ;;
  new_incoming_edges <-
    lift (boundary_edges (source_nodes nstate) transients inputs) ;;
  let source_accesses := map fst new_incoming_edges in
  new_outgoing_edges <-
    lift (boundary_edges (sink_nodes nstate) transients outputs) ;;
  let sink_accesses := map fst new_outgoing_edges in
  (* Add nested nodes into original state *)
  let sub_nodes :=
    List.filter (fun n => negb (mem_nat (nid n) (source_accesses ++ sink_accesses)))
                (nodes nstate) in
  let sub := map nid sub_nodes in
  modify (on_state (add_nodes_from sub_nodes)) ;;;
  copied <- foldM (fun (acc : list EdgeId) (edge : Edge) =>
                     e <- add_edgeM (src edge) (src_conn edge) (dst edge)
                                    (dst_conn edge) (edata edge) ;;
                     retM (acc ++ [eid e]))
                  (subgraph_edges nstate sub) [] ;;
  (* Replace data names with their top-level counterparts *)
  let repldict : NameDict :=
    dict_update opt_str_eqb
      (dict_update opt_str_eqb []
         (map (fun kv => (Some (fst kv), Some (snd kv))) transients))
      (dict_update opt_str_eqb []
         (map (fun kv => (fst kv, data (edata (snd kv)))) (inputs ++ outputs))) in
  forM (fun kv : option string * option string =>
          modify (replace_shared sub copied (fst kv) (snd kv))) repldict ;;;
  (* Reconnect inlined SDFG *)
  modified_in <- _modify_memlet_path new_incoming_edges true ;;
  modified_out <- _modify_memlet_path new_outgoing_edges false ;;
  let modified_edges := modified_in ++ modified_out in
  (* Modify all other internal edges pertaining to input/output nodes *)
  forM (fun n : NodeId =>
          nstate' <- gets w_nstate ;;
          match kind_of nstate' n with
          | Some (AccessNode d) =>
              modify_other true inputs input_set modified_edges n d ;;;
              modify_other false outputs output_set modified_edges n d
          | _ => retM tt
          end) sub ;;;
  (* Connect to the enclosing scope with empty memlets *)
  match nsdfg_scope_entry, nsdfg_scope_exit with
  | Some entry, Some exit_ =>
      forM (fun n : NodeId =>
              st <- gets w_state ;;
              (if (in_degree st n =? 0)%nat
               then add_edgeM entry None n None EmptyMemlet ;;; retM tt
               else retM tt) ;;;
              st' <- gets w_state ;;
              (if (out_degree st' n =? 0)%nat
               then add_edgeM n None exit_ None EmptyMemlet ;;; retM tt
               else retM tt)) sub
  | _, _ => retM tt
  end ;;;
  (* Lines 287-291 re-point the parent references of nested SDFG nodes;
     these back-references are not part of the model. *)
  (* Remove all unused external inputs/output memlet paths *)
  removed_in_edges <-
    _remove_edge_path inputs (keys_minus_nodes inputs source_accesses) true ;;
  removed_out_edges <-
    _remove_edge_path outputs (keys_minus_nodes outputs sink_accesses) false ;;
  (* Re-add in/out edges to first/last nodes in subgraph *)
  nstate'' <- gets w_nstate ;;
  let order := List.filter (fun x => is_access (kind x))
                           (topological_sort nstate'') in
  let refers (edge : Edge) (n : Node) :=
    opt_str_eqb (access_data (kind n)) (data (edata edge)) in
  forM (fun edge : Edge =>
          node <- lift (of_option StopIteration (List.find (refers edge) order)) ;;
          add_edgeM (src edge) (src_conn edge) (nid node) (dst_conn edge)
                    (edata edge) ;;; retM tt) removed_in_edges ;;;
  forM (fun edge : Edge =>
          node <- lift (of_option StopIteration
                          (List.find (refers edge) (rev order))) ;;
          add_edgeM (nid node) (src_conn edge) (dst edge) (dst_conn edge)
                    (edata edge) ;;; retM tt) removed_out_edges ;;;
  (* Remove nested SDFG node *)
  modify (on_state (remove_node (nid nsdfg_node))).

Definition set_nth {A} (i : nat) (x : A) (l : list A) : list A := <[i := x]> l.

(** The nested state is owned by the nested SDFG node: as long as the node
    is in the outer state, what happened to the nested state is seen
    through it. *)
Definition store_child (n : NodeId) (nstate : SDFGState) (st : SDFGState)
    : SDFGState :=
  set_nodes
    (map (fun x =>
            match kind x with
            | NestedSDFG l c =>
                if (nid x =? n)%nat then
                  mkNode (nid x)
                         (NestedSDFG l (set_states (set_nth 0 nstate (states c)) c))
                         (in_connectors x) (out_connectors x)
                else x
            | _ => x
            end) (nodes st)) st.

Definition commit (self : Transformation) (n : NodeId) (w : World)
    (sdfg : SDFG) : SDFG :=
  mkSDFG (label sdfg) (w_arrays w)
         (set_nth (state_id self) (store_child n (w_nstate w) (w_state w))
                  (states sdfg))
         (interstate sdfg).

(** InlineSDFG.apply (lines 166-318): the SDFG as it is when [apply] ends,
    and how it ended. *)
Definition apply (self : Transformation) (sdfg : SDFG) : SDFG * result unit :=
  match nth_error (states sdfg) (state_id self) with
  | None => (sdfg, Raise IndexError)
  | Some state =>
      match nth_error (nodes state) (subgraph self) with
      | None => (sdfg, Raise IndexError)
      | Some nsdfg_node =>
          match child_of nsdfg_node with
          | Raise e => (sdfg, Raise e)
          | Ok nsdfg =>
              match nth_error (states nsdfg) 0 with
              | None => (sdfg, Raise IndexError)
              | Some nstate =>
                  let '(w, r) := apply_body nsdfg_node nsdfg
                                   (mkWorld (arrays sdfg) state nstate) in
                  (commit self (nid nsdfg_node) w sdfg, r)
              end
          end
      end
  end.

End InlineSDFG.

(** ** NestSDFG *)

Module NestSDFG.

(** NestSDFG.can_be_applied (lines 522-524). *)
Definition can_be_applied (expr_index : nat) (strict : bool)
    : M InlineSDFG.Match bool := retM true.

(** The variables of [apply] that the first loop updates: the two array
    tables, the three dictionaries, and the function-scoped variable
    [node_data_name], unbound until its first assignment. *)
Record Vars : Type := mkVars {
  nested_arrays : gmap string ArrayDesc;
  outer_arrays : gmap string ArrayDesc;
  inputs : list (string * string);
  outputs : list (string * string);
  transients : list (string * string);
  node_data_name : option string
}.

Definition str_has (k : string) (d : list (string * string)) : bool :=
  dict_has String.eqb k d.

(** Lines 547-554. *)
Definition as_input (arrname : string) (v : Vars) : result Vars :=
  v' ← (if negb (str_has arrname (inputs v)) then
          arrobj ← of_option KeyError (nested_arrays v !! arrname);
          Ok (mkVars (<[arrname +:+ "_in" := arrobj]> (nested_arrays v))
                     (<[arrname := arrobj]> (outer_arrays v))
                     (dict_set String.eqb arrname (arrname +:+ "_in") (inputs v))
                     (outputs v) (transients v) (node_data_name v))
        else Ok v);
  Ok (mkVars (nested_arrays v') (outer_arrays v') (inputs v') (outputs v')
             (transients v') (Some (arrname +:+ "_in"))).

(** Lines 555-563. *)
Definition as_output (arrname : string) (v : Vars) : result Vars :=
  v' ← (if negb (str_has arrname (outputs v)) then
          arrobj ← of_option KeyError (nested_arrays v !! arrname);
          Ok (mkVars (<[arrname +:+ "_out" := arrobj]> (nested_arrays v))
                     (if negb (str_has arrname (inputs v))
                      then <[arrname := arrobj]> (outer_arrays v)
                      else outer_arrays v)
                     (inputs v)
                     (dict_set String.eqb arrname (arrname +:+ "_out") (outputs v))
                     (transients v) (node_data_name v))
        else Ok v);
  Ok (mkVars (nested_arrays v') (outer_arrays v') (inputs v') (outputs v')
             (transients v') (Some (arrname +:+ "_out"))).

(** Lines 544-564 for one node of [state]: the updated variables and the
    node as it is afterwards. *)
Definition classify (state : SDFGState) (v : Vars) (node : Node)
    : result (Vars * Node) :=
  match kind node with
  | AccessNode d =>
      desc ← of_option KeyError (nested_arrays v !! d);
      if negb (transient desc) then
        v1 ← (if (0 <? out_degree state (nid node))%nat
              then as_input d v else Ok v);
        v2 ← (if (0 <? in_degree state (nid node))%nat
              then as_output d v1 else Ok v1);
        name ← of_option UnboundLocalError (node_data_name v2);
        Ok (v2, set_node_data name node)
      else Ok (v, node)
  | _ => Ok (v, node)
  end.

(** Lines 568-578 for one node of [state]. *)
Definition promote (state : SDFGState) (v : Vars) (node : Node)
    : result (Vars * Node) :=
  match kind node with
  | AccessNode arrname =>
      desc ← of_option KeyError (nested_arrays v !! arrname);
      if transient desc then
        v' ← (if negb (str_has arrname (transients v))
                 && match entry_node state (nid node) with
                    | None => true
                    | Some _ => false
                    end
              then
                arrobj ← of_option KeyError (nested_arrays v !! arrname);
                Ok (mkVars (<[arrname +:+ "_out" := arrobj]> (nested_arrays v))
                           (<[arrname := arrobj]> (outer_arrays v))
                           (inputs v) (outputs v)
                           (dict_set String.eqb arrname (arrname +:+ "_out")
                                     (transients v))
                           (node_data_name v))
              else Ok v);
        Ok (v', set_node_data (arrname +:+ "_out") node)
      else Ok (v, node)
  | _ => Ok (v, node)
  end.

(** A loop over the nodes of a state that may rename them. *)
Fixpoint over_nodes (f : Vars -> Node -> result (Vars * Node)) (v : Vars)
    (ns : list Node) : result (Vars * list Node) :=
  match ns with
  | [] => Ok (v, [])
  | n :: rest =>
      match f v n with
      | Raise e => Raise e
      | Ok (v', n') =>
          match over_nodes f v' rest with
          | Raise e => Raise e
          | Ok (v'', rest') => Ok (v'', n' :: rest')
          end
      end
  end.

(** Lines 542-578 for one state. *)
Definition scan_state (promote_global_trans : bool) (v : Vars)
    (state : SDFGState) : result (Vars * SDFGState) :=
  '(v1, ns1) ← over_nodes (classify state) v (nodes state);
  let state1 := set_nodes ns1 state in
  if promote_global_trans then
    '(v2, ns2) ← over_nodes (promote state1) v1 (nodes state1);
    Ok (v2, set_nodes ns2 state1)
  else Ok (v1, state1).

Fixpoint scan_states (promote_global_trans : bool) (v : Vars)
    (ss : list SDFGState) : result (Vars * list SDFGState) :=
  match ss with
  | [] => Ok (v, [])
  | s :: rest =>
      match scan_state promote_global_trans v s with
      | Raise e => Raise e
      | Ok (v', s') =>
          match scan_states promote_global_trans v' rest with
          | Raise e => Raise e
          | Ok (v'', rest') => Ok (v'', s' :: rest')
          end
      end
  end.

(** [d.pop(k)]: KeyError when the key is missing. *)
Definition pop (k : string) (arrs : gmap string ArrayDesc)
    : result (gmap string ArrayDesc) :=
  match arrs !! k with
  | Some _ => Ok (delete k arrs)
  | None => Raise KeyError
  end.

(** Lines 580-586. *)
Definition drop_old_names (v : Vars) : result (gmap string ArrayDesc) :=
  a1 ← foldR (fun a kv => pop (fst kv) a) (inputs v) (nested_arrays v);
  let a2 := fold_left (fun a kv => delete (fst kv) a) (outputs v) a1 in
  foldR (fun a (kv : string * string) =>
           a' ← pop (fst kv) a;
           d ← of_option KeyError (a' !! snd kv);
           Ok (<[snd kv := set_transient false d]> a'))
        (transients v) a2.

(** Lines 592-605 for one edge: the data name its memlet gets. *)
Definition renamed (ins outs : list (string * string)) (state : SDFGState)
    (edge : Edge) : result (option string) :=
  path ← memlet_path state edge;
  first ← of_option IndexError (head path);
  final ← of_option IndexError (last path);
  let keep := data (edata edge) in
  match data (edata edge) with
  | None => Ok keep
  | Some mem_data =>
      let to_in := dict_get String.eqb mem_data ins in
      let to_out := dict_get String.eqb mem_data outs in
      match kind_of state (src first) with
      | Some (AccessNode src_data) =>
          match to_in, to_out with
          | Some n, _ =>
              if String.eqb src_data n then Ok (Some n)
              else match to_out with
                   | Some n' => if String.eqb src_data n' then Ok (Some n')
                                else Ok keep
                   | None => Ok keep
                   end
          | None, Some n' =>
              if String.eqb src_data n' then Ok (Some n') else Ok keep
          | None, None => Ok keep
          end
      | _ =>
          match kind_of state (dst final), to_out with
          | Some (AccessNode dst_data), Some n' =>
              if String.eqb dst_data n' then Ok (Some n') else Ok keep
          | _, _ => Ok keep
          end
      end
  end.

(** Lines 590-605 for one state. *)
Definition update_memlets (ins outs : list (string * string))
    (state : SDFGState) : result SDFGState :=
  es ← foldR (fun acc edge =>
                d ← renamed ins outs state edge;
                Ok (acc ++ [set_edata (set_data d (edata edge)) edge]))
             (edges state) [];
  Ok (set_edges es state).

Fixpoint product (l : list Z) : Z :=
  match l with
  | [] => 1%Z
  | x :: l' => (x * product l')%Z
  end.

(** Modelled from the spec: Memlet.from_array, "a whole-array memlet"
    (section 4.5): every dimension in full. *)
Definition from_array (name : string) (desc : ArrayDesc) : Memlet :=
  mkMemlet (Some name) (map (fun d => slice 0 d) (shape desc)) None
           (product (shape desc)) None false.

Definition max_nid (ss : list SDFGState) : nat :=
  fold_right Nat.max 0 (flat_map (fun s => map nid (nodes s)) ss).

(** Lines 612-621 for one direction: an access node and an edge per
    boundary array. *)
Definition connect (read : bool) (nested_node : NodeId)
    (arrs : gmap string ArrayDesc) (dict : list (string * string))
    (first_id : NodeId) (st : SDFGState) : result (NodeId * SDFGState) :=
  foldR (fun (acc : NodeId * SDFGState) (kv : string * string) =>
           let '(fresh, s) := acc in
           let s1 := add_node (mkNode fresh (AccessNode (fst kv)) [] []) s in
           desc ← of_option KeyError (arrs !! fst kv);
           let m := from_array (fst kv) desc in
           Ok (S fresh,
               snd (if read
                    then add_edge s1 fresh None nested_node (Some (snd kv)) m
                    else add_edge s1 nested_node (Some (snd kv)) fresh None m)))
        dict (first_id, st).

(** NestSDFG.apply (lines 530-621): the SDFG as [apply] leaves it.  The
    nodes created in the outer state are new objects: their identities are
    taken above every identity in use. *)
Definition apply (promote_global_trans : bool) (sdfg : SDFG) : result SDFG :=
  let nested_sdfg := sdfg in
  '(v, ss) ← scan_states promote_global_trans
               (mkVars (arrays nested_sdfg) ∅ [] [] [] None)
               (states nested_sdfg);
  narrs ← drop_old_names v;
  let outs := dict_update String.eqb (outputs v) (transients v) in
  ss' ← foldR (fun acc s => s' ← update_memlets (inputs v) outs s;
                            Ok (acc ++ [s'])) ss [];
  let nested_sdfg' :=
    mkSDFG (label nested_sdfg) narrs ss' (interstate nested_sdfg) in
  let fresh := S (max_nid ss') in
  let nested_node :=
    mkNode fresh (NestedSDFG (label nested_sdfg') nested_sdfg')
           (map snd (inputs v)) (map snd outs) in
  let outer_state := mkState (label sdfg) [nested_node] [] 0 in
  '(fresh', st1) ← connect true fresh (outer_arrays v) (inputs v)
                     (S fresh) outer_state;
  '(_, st2) ← connect false fresh (outer_arrays v) outs fresh' st1;
  Ok (mkSDFG (label sdfg) (outer_arrays v) [st2] []).

End NestSDFG.

(** ** Source mapping (dace/sourcemap.py) *)

Module SourceMap.

Record SdfgLocation : Type := mkSdfgLocation {
  sdfg_id : string;
  state_id : string;
  node_ids : list string
}.

(** [s.split(sep)] for a one-character separator. *)
Fixpoint split (sep : ascii) (s : string) : list string :=
  match s with
  | EmptyString => [EmptyString]
  | String c s' =>
      if Ascii.eqb c sep then EmptyString :: split sep s'
      else match split sep s' with
           | [] => [String c EmptyString]
           | w :: ws => String c w :: ws
           end
  end.

Definition newline : ascii := ascii_of_nat 10.

Module MapCpp.

Definition is_digit (c : ascii) : bool :=
  (48 <=? nat_of_ascii c)%nat && (nat_of_ascii c <=? 57)%nat.

(** The regular expression of [get_identifiers]: one group made of
      \/\/\/\/__DACE:[0-9]:[0-9]:[0-9]*
    followed by the starred group (,[0-9]); piece by piece.  Each piece returns what it matched and what is left.
    Both starred pieces are greedy and nothing that follows them can fail,
    so the leftmost match is found without backtracking. *)

(** [[0-9]*] *)
Fixpoint star_digit (s : string) : string * string :=
  match s with
  | String c s' =>
      if is_digit c then let '(m, rest) := star_digit s' in (String c m, rest)
      else (EmptyString, s)
  | EmptyString => (EmptyString, s)
  end.

(** The starred group (,[0-9]): what it matched, the last repetition (the text of the
    second group, empty when there was no repetition), and what is left. *)
Fixpoint star_comma_digit (s : string) : string * string * string :=
  match s with
  | String c1 (String c2 s') =>
      if Ascii.eqb c1 "," && is_digit c2 then
        let '(m, g, rest) := star_comma_digit s' in
        (String c1 (String c2 m),
         match m with
         | EmptyString => String c1 (String c2 EmptyString)
         | _ => g
         end, rest)
      else (EmptyString, EmptyString, s)
  | _ => (EmptyString, EmptyString, s)
  end.

Definition prefix : string := "////__DACE:".

(** A match of the whole expression at the start of [s]: the two groups and
    what is left of [s]. *)
Definition match_here (s : string) : option (string * string * string) :=
  match strip_prefix prefix s with
  | Some (String d1 (String c1 (String d2 (String c2 rest)))) =>
      if is_digit d1 && Ascii.eqb c1 ":" && is_digit d2 && Ascii.eqb c2 ":"
      then
        let '(n, rest1) := star_digit rest in
        let '(m, g, rest2) := star_comma_digit rest1 in
        Some (prefix +:+ String d1 (String c1 (String d2 (String c2 (n +:+ m)))),
              g, rest2)
      else None
  | _ => None
  end.

(** [re.findall]: the matches from left to right, not overlapping; with two
    groups in the expression every match is the pair of their texts.  Every
    step consumes a character of the line. *)
Fixpoint findall (fuel : nat) (s : string) : list (string * string) :=
  match fuel with
  | O => []
  | S fuel' =>
      match match_here s with
      | Some (x, y, rest) => (x, y) :: findall fuel' rest
      | None =>
          match s with
          | EmptyString => []
          | String _ s' => findall fuel' s'
          end
      end
  end.

(** MapCpp.get_identifiers (lines 289-299). *)
Definition get_identifiers (line : string) : list string :=
  map fst (findall (S (String.length line)) line).

(** MapCpp.get_nodes (lines 270-287). *)
Definition get_nodes (line_code : string) : result (list SdfgLocation) :=
  foldR (fun nodes identifier =>
           let ids_split := split ":" identifier in
           a ← of_option IndexError (nth_error ids_split 1);
           b ← of_option IndexError (nth_error ids_split 2);
           c ← of_option IndexError (nth_error ids_split 3);
           Ok (nodes ++ [mkSdfgLocation a b (split "," c)]))
        (get_identifiers line_code) [].

(** [self.map] without its 'target' entry: SDFG id, state id, node id to
    the lines (from, to). *)
Definition CppMap : Type := gmap string (gmap string (gmap string (nat * nat))).

(** MapCpp.create_mapping (lines 250-268). *)
Definition create_mapping (node : SdfgLocation) (line_num : nat)
    (m : CppMap) : CppMap :=
  let by_state := default ∅ (m !! sdfg_id node) in
  let state := default ∅ (by_state !! state_id node) in
  let state' :=
    fold_left (fun (st : gmap string (nat * nat)) (node_id : string) =>
                 match st !! node_id with
                 | None => <[node_id := (line_num, line_num)]> st
                 | Some (from, to) =>
                     if (to + 1 =? line_num)%nat
                     then <[node_id := (from, to + 1)]> st
                     else st
                 end) (node_ids node) state in
  <[sdfg_id node := <[state_id node := state']> by_state]> m.

(** MapCpp.mapper (lines 241-248), from the empty mapping. *)
Definition mapper (code : string) : result CppMap :=
  snd <$>
  foldR (fun (acc : nat * CppMap) (line : string) =>
           let '(line_num, m) := acc in
           nodes ← get_nodes line;
           Ok (S line_num,
               fold_left (fun m' node => create_mapping node line_num m')
                         nodes m))
        (split newline code) (1, ∅).

End MapCpp.

(** The temporary record of an SDFG (tmp.json), a JSON object: each key
    may be missing. *)
Record Tmp : Type := mkTmp {
  start_line : option Z;
  end_line : option Z;
  src_file : option string;
  other_sdfgs : option (list string);
  build_folder : option string;
  src_files : option (list string);
  made_with_api : option bool
}.

Record DebugInfo : Type := mkDebugInfo {
  d_start_line : Z;
  d_end_line : Z;
  d_start_column : Z;
  d_end_column : Z;
  filename : string
}.

(** The nodes as [sdfg_debuginfo] and [get_src_files] look at them: their
    kind and their debug information; a MapEntry or MapExit carries that of
    its map, and a nested SDFG node has debug information of its own, which
    only [get_src_files] reads. *)
Inductive DNode : Type :=
| DAccess (debuginfo : option DebugInfo)
| DTasklet (debuginfo : option DebugInfo)
| DLibrary (debuginfo : option DebugInfo)
| DMapEntry (map_debuginfo : option DebugInfo)
| DMapExit (map_debuginfo : option DebugInfo)
| DNested (debuginfo : option DebugInfo) (sdfg : DGraph)
with DGraph : Type :=
| mkDGraph (gname : string) (gid : nat) (gstates : list (list DNode)).

Definition gname (g : DGraph) : string := let 'mkDGraph n _ _ := g in n.

(** MapPython.make_info (lines 382-397). *)
Record Info : Type := make_info {
  i_debuginfo : DebugInfo;
  i_node_id : nat;
  i_state_id : nat;
  i_sdfg_id : nat
}.

Record NodeRef : Type := mkNodeRef {
  r_sdfg_id : nat;
  r_state_id : nat;
  r_node_id : nat
}.

(** [self.map] of MapPython: source file, line, the nodes of that line.  The
    keys [str(line)] are kept as the integers they print. *)
Definition PyMap : Type := gmap string (gmap Z (list NodeRef)).

Inductive Message : Type :=
| registerFunction (name path_cache : string) (path_file : option (list string))
                   (target_name : string) (made_with_api : bool)
| restrictedFeatures (reason : string).

(** What the mapping passes read and write outside the SDFG: the cache
    folders of the build folder (by SDFG name), their tmp.json, the saved
    mappings, the 'cache' setting, the environment variable DACE_port, what
    connecting to a port of this host and sending to it ends in (nothing,
    or the exception that the socket raises, such as ConnectionRefusedError
    where nothing listens), and what the IDE has received. *)
Record Files : Type := mkFiles {
  folders : list string;
  tmps : gmap string Tmp;
  saved_py : gmap string PyMap;
  saved_cpp : gmap string (string * MapCpp.CppMap);
  cache : string;
  DACE_port : option string;
  endpoint : Z -> option Exn;
  sent : list Message
}.

Definition with_tmps (t : gmap string Tmp) (f : Files) : Files :=
  mkFiles (folders f) t (saved_py f) (saved_cpp f) (cache f) (DACE_port f)
          (endpoint f) (sent f).

Definition with_folders (l : list string) (f : Files) : Files :=
  mkFiles l (tmps f) (saved_py f) (saved_cpp f) (cache f) (DACE_port f)
          (endpoint f) (sent f).

Definition create_cache (name : string) (f : Files) : Files :=
  if mem_str name (folders f) then f else with_folders (folders f ++ [name]) f.

(** temporaryInfo (lines 57-67). *)
Definition temporaryInfo (name : string) (data : Tmp) : M Files unit :=
  modify (fun f => with_tmps (<[name := data]> (tmps f)) (create_cache name f)).

(** get_tmp (lines 70-83). *)
Definition get_tmp (name : string) : M Files (option Tmp) :=
  gets (fun f => tmps f !! name).

(** remove_tmp (lines 86-104); [os.remove] raises when the folder of the
    SDFG is there and its tmp.json is not. *)
Definition remove_tmp (name : string) (remove_cache : bool) : M Files unit :=
  f <- gets (fun f => f) ;;
  if negb (mem_str name (folders f)) then retM tt
  else
    match tmps f !! name with
    | None => throw FileNotFoundError
    | Some _ =>
        modify (with_tmps (delete name (tmps f))) ;;;
        if remove_cache
           && negb (bool_decide (is_Some (saved_py f !! name)))
           && negb (bool_decide (is_Some (saved_cpp f !! name)))
        then modify (fun f' => with_folders (remove_str name (folders f')) f')
        else retM tt
    end.

(** [int(s)] for a string, whose characters are read as the code points
    below 256: white space around the number is dropped, a sign may come
    first, and the rest is made of decimal digits, with single underscores
    between digits only. *)
Definition is_space (c : ascii) : bool :=
  let n := nat_of_ascii c in
  ((9 <=? n)%nat && (n <=? 13)%nat) || ((28 <=? n)%nat && (n <=? 32)%nat)
  || (n =? 133)%nat || (n =? 160)%nat.

Fixpoint lstrip (s : list ascii) : list ascii :=
  match s with
  | c :: s' => if is_space c then lstrip s' else s
  | [] => []
  end.

Definition strip (s : list ascii) : list ascii :=
  rev (lstrip (rev (lstrip s))).

(** The digits of a number: [after_digit] says that the character before
    was a digit, [acc] is the number read so far. *)
Fixpoint int_digits (acc : Z) (after_digit : bool) (s : list ascii)
    : option Z :=
  match s with
  | [] => if after_digit then Some acc else None
  | c :: s' =>
      if MapCpp.is_digit c then
        int_digits (10 * acc + Z.of_nat (nat_of_ascii c - 48)) true s'
      else if Ascii.eqb c "_" then
        if after_digit then int_digits acc false s' else None
      else None
  end.

Definition py_int (s : string) : option Z :=
  match strip (list_ascii_of_string s) with
  | c :: digits =>
      if Ascii.eqb c "-" then Z.opp <$> int_digits 0 false digits
      else if Ascii.eqb c "+" then int_digits 0 false digits
      else int_digits 0 false (c :: digits)
  | [] => None
  end.

(** send (lines 107-122): nothing is done when DACE_port is not set;
    otherwise [int(PORT)] raises ValueError for a port that is no number,
    and connecting and sending end as the environment has it. *)
Definition send (data : Message) : M Files unit :=
  port <- gets DACE_port ;;
  match port with
  | None => retM tt
  | Some PORT =>
      n <- lift (of_option ValueError (py_int PORT)) ;;
      answer <- gets (fun f => endpoint f n) ;;
      match answer with
      | Some e => throw e
      | None =>
          modify (fun f => mkFiles (folders f) (tmps f) (saved_py f)
                                   (saved_cpp f) (cache f) (DACE_port f)
                                   (endpoint f) (sent f ++ [data]))
      end
  end.

(** save (lines 125-141): the folder the mapping went to. *)
Definition save_py (name : string) (map : PyMap) (build_folder : option string)
    : M Files string :=
  modify (fun f => mkFiles (folders (create_cache name f)) (tmps f)
                           (<[name := map]> (saved_py f)) (saved_cpp f)
                           (cache f) (DACE_port f) (endpoint f) (sent f)) ;;;
  retM (default name build_folder).

Definition save_cpp (name : string) (map : string * MapCpp.CppMap)
    (build_folder : option string) : M Files string :=
  modify (fun f => mkFiles (folders (create_cache name f)) (tmps f)
                           (saved_py f) (<[name := map]> (saved_cpp f))
                           (cache f) (DACE_port f) (endpoint f) (sent f)) ;;;
  retM (default name build_folder).

Module MapPython.

Definition own_info (dbg : option DebugInfo) (id state_id sdfg_id : nat)
    : list Info :=
  match dbg with
  | Some d => [make_info d id state_id sdfg_id]
  | None => []
  end.

(** MapPython.sdfg_debuginfo (lines 399-435) on one node of a state: the
    nodes of a nested SDFG are its states, the nodes of a state are looked
    at one by one with their index. *)
Fixpoint node_debuginfo (n : DNode) (id state_id sdfg_id : nat) : list Info :=
  match n with
  | DAccess dbg | DTasklet dbg | DLibrary dbg => own_info dbg id state_id sdfg_id
  | DMapEntry dbg | DMapExit dbg => own_info dbg id state_id sdfg_id
  | DNested _ (mkDGraph _ nested_id sts) =>
      (fix over_states (i : nat) (l : list (list DNode)) : list Info :=
         match l with
         | [] => []
         | st :: l' =>
             (fix over_nodes (j : nat) (ns : list DNode) : list Info :=
                match ns with
                | [] => []
                | x :: ns' => node_debuginfo x j i nested_id ++ over_nodes (S j) ns'
                end) 0%nat st
             ++ over_states (S i) l'
         end) 0%nat sts
  end.

(** MapPython.sdfg_debuginfo on the SDFG handed to [mapper]:
    [sdfg_id = 0], and the state id of a state is its index. *)
Definition sdfg_debuginfo (graph : DGraph) : list Info :=
  let 'mkDGraph n _ sts := graph in
  node_debuginfo (DNested None (mkDGraph n 0 sts)) 0 0 0.

(** MapPython.divide (lines 352-369). *)
Fixpoint add_to_source (dbinfo : Info) (divided : list (list Info))
    : list (list Info) :=
  match divided with
  | [] => [[dbinfo]]
  | src_infos :: rest =>
      match src_infos with
      | first :: _ =>
          if String.eqb (filename (i_debuginfo first))
                        (filename (i_debuginfo dbinfo))
          then (src_infos ++ [dbinfo]) :: rest
          else src_infos :: add_to_source dbinfo rest
      | [] => src_infos :: add_to_source dbinfo rest
      end
  end.

Definition divide (debuginfo : list Info) : list (list Info) :=
  fold_left (fun divided dbinfo => add_to_source dbinfo divided) debuginfo [].

Definition key_le (a b : Info) : bool :=
  let ka := i_debuginfo a in
  let kb := i_debuginfo b in
  let lex (x y : Z) (rest : bool) := ((x <? y) || ((x =? y) && rest))%Z in
  lex (d_start_line ka) (d_start_line kb)
    (lex (d_start_column ka) (d_start_column kb)
       (lex (d_end_line ka) (d_end_line kb)
          (d_end_column ka <=? d_end_column kb)%Z)).

Fixpoint insert_by (x : Info) (l : list Info) : list Info :=
  match l with
  | [] => [x]
  | y :: l' => if key_le y x then y :: insert_by x l' else x :: l
  end.

(** MapPython.sorter (lines 371-380): a sorted copy is returned,
    [self.debuginfo] itself is left as it is. *)
Definition sorter (debuginfo : list (list Info)) : list (list Info) :=
  map (fun dbinfo_source => fold_left (fun acc x => insert_by x acc)
                                      dbinfo_source []) debuginfo.

(** [range(a, b + 1)] *)
Definition range_incl (a b : Z) : list Z :=
  map (fun i => (a + Z.of_nat i)%Z) (seq 0 (Z.to_nat (b - a + 1))).

Definition ref_of (node : Info) : NodeRef :=
  mkNodeRef (i_sdfg_id node) (i_state_id node) (i_node_id node).

(** MapPython.create_mapping, lines 442-461. *)
Definition map_debuginfo (debuginfo : list (list Info)) (m : PyMap) : PyMap :=
  fold_left (fun (m1 : PyMap) (file_dbinfo : list Info) =>
    fold_left (fun (m2 : PyMap) (node : Info) =>
      let src_file := filename (i_debuginfo node) in
      let lines := default ∅ (m2 !! src_file) in
      <[src_file :=
          fold_left (fun (ls : gmap Z (list NodeRef)) (line : Z) =>
                       <[line := default [] (ls !! line) ++ [ref_of node]]> ls)
                    (range_incl (d_start_line (i_debuginfo node))
                                (d_end_line (i_debuginfo node)))
                    lines]> m2) file_dbinfo m1) debuginfo m.

(** MapPython.create_mapping, lines 473-486, for one line of a range. *)
Definition fill_line (end_ : Z) (src_map : gmap Z (list NodeRef)) (line : Z)
    : gmap Z (list NodeRef) :=
  match src_map !! line with
  | Some _ => src_map
  | None =>
      match src_map !! (line - 1)%Z with
      | Some prev => <[line := prev]> src_map
      | None =>
          fold_left (fun (sm : gmap Z (list NodeRef)) (line_after : Z) =>
                       match sm !! line_after with
                       | Some nodes => <[line := nodes]> sm
                       | None => sm
                       end) (range_incl (line + 1) end_) src_map
      end
  end.

(** MapPython.create_mapping (lines 437-487). *)
Definition create_mapping (debuginfo : list (list Info))
    (range_dict : option (list (string * list (Z * Z)))) (m : PyMap) : PyMap :=
  let m1 := map_debuginfo debuginfo m in
  match range_dict with
  | None | Some [] => m1
  | Some ranges_of =>
      fold_left (fun (m2 : PyMap) (item : string * list (Z * Z)) =>
        let '(src_file, ranges) := item in
        let src_map := default ∅ (m2 !! src_file) in
        <[src_file :=
            fold_left (fun sm (r : Z * Z) =>
                         fold_left (fill_line (snd r)) (range_incl (fst r) (snd r)) sm)
                      ranges src_map]> m2) ranges_of m1
  end.

(** The three keys that [mapper] requires of a temporary record. *)
Definition provenance (t : Tmp) : option (string * (Z * Z)) :=
  match start_line t, end_line t, src_file t with
  | Some s, Some e, Some f => Some (f, (s, e))
  | _, _, _ => None
  end.

(** MapPython.mapper (lines 311-350): the mapping it leaves in
    [self.map]. *)
Definition mapper (sdfg : DGraph) (line_info : option Tmp) : M Files PyMap :=
  let debuginfo := sdfg_debuginfo sdfg in
  let debuginfo := divide debuginfo in
  let _ := sorter debuginfo in
  match line_info ≫= (fun t => pair t <$> provenance t) with
  | None => retM (create_mapping debuginfo None ∅)
  | Some (info, (file, lines)) =>
      let range_dict := [(file, [lines])] in
      range_dict <-
        match other_sdfgs info with
        | None => retM range_dict
        | Some names =>
            foldM (fun (range_dict : list (string * list (Z * Z)))
                       (other_sdfg_name : string) =>
              other_tmp <- get_tmp other_sdfg_name ;;
              match other_tmp ≫= provenance with
              | None => retM range_dict
              | Some (other_file, other_lines) =>
                  remove_tmp other_sdfg_name true ;;;
                  let ranges :=
                    default [] (dict_get String.eqb other_file range_dict) in
                  retM (dict_set String.eqb other_file
                                 (ranges ++ [other_lines]) range_dict)
              end) names range_dict
        end ;;
      retM (create_mapping debuginfo (Some range_dict) ∅)
  end.

End MapPython.

Definition own_file (dbg : option DebugInfo) : gset string :=
  match dbg with
  | Some d => {[ filename d ]}
  | None => ∅
  end.

(** get_src_files (lines 144-162) on one node: the file of its debug
    information and, for a nested SDFG node, those of every node inside. *)
Fixpoint node_files (n : DNode) : gset string :=
  match n with
  | DAccess dbg | DTasklet dbg | DLibrary dbg => own_file dbg
  | DMapEntry dbg | DMapExit dbg => own_file dbg
  | DNested dbg (mkDGraph _ _ sts) =>
      own_file dbg
      ∪ (fix over_states (l : list (list DNode)) : gset string :=
           match l with
           | [] => ∅
           | st :: l' =>
               (fix over_nodes (ns : list DNode) : gset string :=
                  match ns with
                  | [] => ∅
                  | x :: ns' => node_files x ∪ over_nodes ns'
                  end) st
               ∪ over_states l'
           end) sts
  end.

(** get_src_files (lines 144-162): the set of the file names of the debug
    information found in the SDFG. *)
Definition get_src_files (sdfg : DGraph) : gset string :=
  node_files (DNested None sdfg).

(** create_py_map (lines 165-192). *)
Definition create_py_map (sdfg : DGraph) (sdfg_build_folder : option string)
    : M Files unit :=
  setting <- gets cache ;;
  if negb (String.eqb setting "hash") then
    tmp <- get_tmp (gname sdfg) ;;
    map <- MapPython.mapper sdfg tmp ;;
    save_py (gname sdfg) map sdfg_build_folder ;;;
    (* [src for src in get_src_files(sdfg, set())]: the order in which a
       set is listed is left open; [elements] lists every member once, in
       an order that nothing here relies on. *)
    let sourceFiles := elements (get_src_files sdfg) in
    match tmp with
    | None =>
        temporaryInfo (gname sdfg)
          (mkTmp None None None None sdfg_build_folder (Some sourceFiles)
                 (Some true))
    | Some t =>
        temporaryInfo (gname sdfg)
          (mkTmp (start_line t) (end_line t) (src_file t) (other_sdfgs t)
                 (build_folder t) (Some sourceFiles) (made_with_api t))
    end
  else retM tt.

(** create_cpp_map (lines 195-229). *)
Definition create_cpp_map (code name target_name : string) : M Files unit :=
  tmp <- get_tmp name ;;
  match tmp with
  | None => retM tt
  | Some tmp =>
      remove_tmp name true ;;;
      setting <- gets cache ;;
      if negb (String.eqb setting "hash") then
        map <- lift (MapCpp.mapper code) ;;
        folder <- save_cpp name (target_name, map) (build_folder tmp) ;;
        send (registerFunction name folder (src_files tmp) target_name
                               (default false (made_with_api tmp)))
      else send (restrictedFeatures "config.cache.hash")
  end.

End SourceMap.

(** * Scenarios *)

Module Scenarios.

Definition float_array (sh : list Z) : ArrayDesc :=
  mkArray "float64" sh (map (fun _ => 1%Z) sh) "Default" false.

(** A memlet on [name] with the given subset. *)
Definition memlet_on (name : string) (s : Subset) : Memlet :=
  mkMemlet (Some name) s None (NestSDFG.product (size s)) None false.

(** Scenario B: an inner memlet of rank 1 on [0:1] against an outer memlet
    of rank 2 on [0:10, 0:1]. *)
Definition B_inner : Memlet := memlet_on "in" [slice 0 1].
Definition B_outer : Memlet := memlet_on "A" [slice 0 10; slice 0 1].

(** An offset that does not compare the ranks: every dimension is shifted
    by the matching entry as far as there is one. *)
Fixpoint shift_leading (s : Subset) (by_ : list Z) : Subset :=
  match s, by_ with
  | (b, e, st) :: s', o :: by' => ((b + o)%Z, (e + o)%Z, st) :: shift_leading s' by'
  | _, _ => s
  end.

Definition offset_leading (s by_ : Subset) : result Subset :=
  Ok (shift_leading s (min_element by_)).

(** Scenario A: the state A -> NestedSDFG -> B whose nested SDFG has the
    single state in -> Tasklet -> out, all memlets on [0:10]. *)
Definition A_tasklet : Node := mkNode 11 (Tasklet "tasklet") ["a"] ["b"].

Definition A_child_state : SDFGState :=
  mkState "inner"
    [mkNode 10 (AccessNode "in") [] []; A_tasklet;
     mkNode 12 (AccessNode "out") [] []]
    [mkEdge 0 10 None 11 (Some "a") (memlet_on "in" [slice 0 10]);
     mkEdge 1 11 (Some "b") 12 None (memlet_on "out" [slice 0 10])]
    2.

Definition A_child : SDFG :=
  mkSDFG "nested"
         (<["in" := float_array [10%Z]]> (<["out" := float_array [10%Z]]> ∅))
         [A_child_state] [].

Definition A_node (inner : SDFG) : Node :=
  mkNode 1 (NestedSDFG "nested" inner) ["in"] ["out"].

Definition A_state_with (inner : SDFG) (outer_in : Memlet) : SDFGState :=
  mkState "outer"
    [mkNode 0 (AccessNode "A") [] []; A_node inner;
     mkNode 2 (AccessNode "B") [] []]
    [mkEdge 0 0 None 1 (Some "in") outer_in;
     mkEdge 1 1 (Some "out") 2 None (memlet_on "B" [slice 0 10])]
    2.

Definition A_arrays : gmap string ArrayDesc :=
  <["A" := float_array [10%Z]]> (<["B" := float_array [10%Z]]> ∅).

Definition A_state : SDFGState :=
  A_state_with A_child (memlet_on "A" [slice 0 10]).

Definition A_sdfg : SDFG := mkSDFG "program" A_arrays [A_state] [].

Definition A_match : InlineSDFG.Transformation :=
  InlineSDFG.mkTransformation 0 1.

(** The state of scenario A after inlining. *)
Definition A_inlined : SDFGState :=
  mkState "outer"
    [mkNode 0 (AccessNode "A") [] []; mkNode 2 (AccessNode "B") [] [];
     A_tasklet]
    [mkEdge 2 0 None 11 (Some "a") (memlet_on "A" [slice 0 10]);
     mkEdge 3 11 (Some "b") 2 None (memlet_on "B" [slice 0 10])]
    4.

(** Scenario A with an outer memlet that carries a second subset. *)
Definition other_memlet : Memlet :=
  mkMemlet (Some "A") [slice 0 10] (Some [slice 0 10]) 10 None false.

Definition A_other_state : SDFGState := A_state_with A_child other_memlet.
Definition A_other_sdfg : SDFG := mkSDFG "program" A_arrays [A_other_state] [].

(** A nested SDFG node with an input connector and no edge at all. *)
Definition unbound_state : SDFGState :=
  mkState "outer" [A_node A_child] [] 0.
Definition unbound_sdfg : SDFG := mkSDFG "program" ∅ [unbound_state] [].

(** Scenario C: X is read in the first state and written in the second. *)
Definition C_state1 : SDFGState :=
  mkState "s1"
    [mkNode 0 (AccessNode "X") [] []; mkNode 1 (Tasklet "t") ["a"] ["b"];
     mkNode 2 (AccessNode "Y") [] []]
    [mkEdge 0 0 None 1 (Some "a") (memlet_on "X" [slice 0 10]);
     mkEdge 1 1 (Some "b") 2 None (memlet_on "Y" [slice 0 10])]
    2.

Definition C_state2 : SDFGState :=
  mkState "s2"
    [mkNode 3 (AccessNode "Y") [] []; mkNode 4 (Tasklet "u") ["a"] ["b"];
     mkNode 5 (AccessNode "X") [] []]
    [mkEdge 0 3 None 4 (Some "a") (memlet_on "Y" [slice 0 10]);
     mkEdge 1 4 (Some "b") 5 None (memlet_on "X" [slice 0 10])]
    2.

Definition C_sdfg : SDFG :=
  mkSDFG "program"
         (<["X" := float_array [10%Z]]> (<["Y" := float_array [10%Z]]> ∅))
         [C_state1; C_state2] [(0, 1)].

(** Scenario C after NestSDFG.apply under the default policy. *)
Definition C_outlined : SDFG :=
  match NestSDFG.apply false C_sdfg with
  | Ok g => g
  | Raise _ => C_sdfg
  end.

(** Scenario C in an SDFG that also reads an array named X_in. *)
Definition collision_state1 : SDFGState :=
  mkState "s1"
    [mkNode 0 (AccessNode "X") [] []; mkNode 1 (AccessNode "X_in") [] [];
     mkNode 2 (Tasklet "t") ["a"; "b"] []]
    [mkEdge 0 0 None 2 (Some "a") (memlet_on "X" [slice 0 10]);
     mkEdge 1 1 None 2 (Some "b") (memlet_on "X_in" [slice 0 10])]
    2.

Definition collision_state2 : SDFGState :=
  mkState "s2"
    [mkNode 3 (Tasklet "u") [] ["c"]; mkNode 4 (AccessNode "X") [] []]
    [mkEdge 0 3 (Some "c") 4 None (memlet_on "X" [slice 0 10])]
    1.

Definition collision_sdfg : SDFG :=
  mkSDFG "program"
         (<["X" := float_array [10%Z]]> (<["X_in" := float_array [10%Z]]> ∅))
         [collision_state1; collision_state2] [(0, 1)].

(** An SDFG built with the API: no temporary record was written for it. *)
Definition api_program : SourceMap.DGraph :=
  SourceMap.mkDGraph "program" 0
    [[SourceMap.DAccess None;
      SourceMap.DTasklet
        (Some (SourceMap.mkDebugInfo 3 4 0 10 "program.py"))]].

Definition no_records : SourceMap.Files :=
  SourceMap.mkFiles [] ∅ ∅ ∅ "name" (Some "4242") (fun _ => None) [].

End Scenarios.
Import Scenarios.

(** * Vocabulary of the specification *)

(** The number of edges of [graph] that enter node [n] at connector [c],
    and that leave it at connector [c]. *)
Definition bound_in (graph : SDFGState) (n : NodeId) (c : option string) : nat :=
  length (List.filter (fun e => opt_str_eqb (dst_conn e) c) (in_edges graph n)).

Definition bound_out (graph : SDFGState) (n : NodeId) (c : option string) : nat :=
  length (List.filter (fun e => opt_str_eqb (src_conn e) c) (out_edges graph n)).

(** [k] is the data of an access node of [g]. *)
Definition accessed (g : SDFG) (k : string) : Prop :=
  exists s n, In s (states g) /\ In n (nodes s) /\ kind n = AccessNode k.

(** What NestSDFG.apply maintains on one of its dictionaries: the keys are
    distinct names of access nodes, the value of a key is the key with the
    suffix, the suffixed array is in the nested table and the key is in the
    outer table. *)
Definition entries_ok (P : string -> Prop) (suffix : string)
    (nested outer : gmap string ArrayDesc) (d : list (string * string)) : Prop :=
  List.NoDup (map fst d)
  /\ forall k v, In (k, v) d ->
       P k /\ v = k +:+ suffix /\ is_Some (nested !! v) /\ is_Some (outer !! k).

(** The invariant of the first loop of NestSDFG.apply under the default
    policy, for an array [X] that the nested table holds as a non-transient. *)
Definition outline_inv (P : string -> Prop) (X : string) (v : NestSDFG.Vars)
    : Prop :=
  entries_ok P "_in" (NestSDFG.nested_arrays v) (NestSDFG.outer_arrays v)
             (NestSDFG.inputs v)
  /\ entries_ok P "_out" (NestSDFG.nested_arrays v) (NestSDFG.outer_arrays v)
                (NestSDFG.outputs v)
  /\ NestSDFG.transients v = []
  /\ exists d, NestSDFG.nested_arrays v !! X = Some d /\ transient d = false.

(** What one direction of lines 612-621 adds for the entry [kv] of the
    dictionary: an edge between a new access node of the key and the nested
    SDFG node, at the connector of the value, with a memlet on the key. *)
Definition boundary_edge (read : bool) (nested : NodeId) (st : SDFGState)
    (kv : string * string) (e : Edge) : Prop :=
  data (edata e) = Some (fst kv)
  /\ if read
     then dst e = nested /\ dst_conn e = Some (snd kv)
          /\ kind_of st (src e) = Some (AccessNode (fst kv))
     else src e = nested /\ src_conn e = Some (snd kv)
          /\ kind_of st (dst e) = Some (AccessNode (fst kv)).

(** The child SDFG of the first NestedSDFG node of the first state. *)
Definition nested_child (g : SDFG) : option SDFG :=
  st ← head (states g);
  n ← List.find (fun n => is_nested (kind n)) (nodes st);
  match kind n with NestedSDFG _ c => Some c | _ => None end.

(** Whether the table of that child SDFG has an array named [k]. *)
Definition child_has (g : SDFG) (k : string) : option bool :=
  (fun c => match arrays c !! k with Some _ => true | None => false end)
  <$> nested_child g.

(** [X] is read (has an outgoing edge) or written (has an incoming edge)
    through an access node of [st]. *)
Definition is_read (st : SDFGState) (X : string) : bool :=
  existsb (fun n => opt_str_eqb (access_data (kind n)) (Some X)
                    && (0 <? out_degree st (nid n))%nat) (nodes st).

Definition is_written (st : SDFGState) (X : string) : bool :=
  existsb (fun n => opt_str_eqb (access_data (kind n)) (Some X)
                    && (0 <? in_degree st (nid n))%nat) (nodes st).

(** The edges with a memlet on [X]. *)
Definition on_array (X : string) (e : Edge) : bool :=
  opt_str_eqb (data (edata e)) (Some X).

(** The unsupported combinations of section 4.4, step 5: the inner subset
    has a greater rank than the outer one, or the outer memlet carries a
    second subset. *)
Definition unsupported (inner outer : Memlet) : Prop :=
  length (subset outer) < length (subset inner)
  \/ is_Some (other_subset outer).

(** What of an edge never changes: its identity, its ends, its
    connectors. *)
Definition skeleton (e : Edge)
    : EdgeId * NodeId * option string * NodeId * option string :=
  (eid e, src e, src_conn e, dst e, dst_conn e).

(** Two memlets with the same subsets (the data name may differ). *)
Definition same_shape (m m' : Memlet) : Prop :=
  subset m = subset m' /\ other_subset m = other_subset m'.

(** Well-formedness of the state that holds the nested SDFG node, with
    respect to the nested state: the edges have distinct identities, all
    handed out by the state; they connect nodes of the state; the state is
    acyclic (its nodes can be ranked along the edges); and the objects of
    the nested state are not objects of the outer state. *)
Record well_formed (state nstate : SDFGState) : Prop := mk_well_formed {
  wf_eids : List.NoDup (map eid (edges state));
  wf_fresh : forall e, In e (edges state) -> eid e < next_eid state;
  wf_ends : forall e, In e (edges state) ->
              has_node state (src e) = true /\ has_node state (dst e) = true;
  wf_acyclic : exists rank : NodeId -> nat,
                 forall e, In e (edges state) -> rank (src e) < rank (dst e);
  wf_apart : forall e, In e (edges nstate) ->
               has_node state (src e) = false /\ has_node state (dst e) = false;
  wf_nids : List.NoDup (map nid (nodes nstate))
}.

(** Invariants of the outer state while InlineSDFG.apply reconnects the
    inlined nodes.  [Pn] tells the objects of the outer state as it was,
    [nN] is the nested SDFG node and [rank] ranks the outer nodes along the
    edges. *)
Definition ids_ok (st : SDFGState) : Prop :=
  List.NoDup (map eid (edges st))
  /\ forall e, In e (edges st) -> eid e < next_eid st.

(** An edge that leaves an inlined node enters an inlined node. *)
Definition closed_below (Pn : NodeId -> bool) (st : SDFGState) : Prop :=
  forall e, In e (edges st) -> Pn (src e) = false -> Pn (dst e) = false.

(** The nodes that come before the nested SDFG node, or were inlined. *)
Definition upstream (Pn : NodeId -> bool) (rank : NodeId -> nat) (nN n : NodeId)
    : Prop := Pn n = false \/ rank n < rank nN.

(** An edge that enters such a node leaves such a node. *)
Definition closed_above (Pn : NodeId -> bool) (rank : NodeId -> nat)
    (nN : NodeId) (st : SDFGState) : Prop :=
  forall e, In e (edges st) -> upstream Pn rank nN (dst e) ->
            upstream Pn rank nN (src e).

Definition touches (nN : NodeId) (e : Edge) : Prop := src e = nN \/ dst e = nN.

(** The invariant of the two loops of InlineSDFG._modify_memlet_path; the
    loop over the inputs ([below]) also keeps [closed_below]. *)
Definition loop_inv (Pn : NodeId -> bool) (rank : NodeId -> nat) (nN : NodeId)
    (state0 ns : SDFGState) (below : bool) (w : InlineSDFG.World) : Prop :=
  ids_ok (InlineSDFG.w_state w)
  /\ (below = true -> closed_below Pn (InlineSDFG.w_state w))
  /\ closed_above Pn rank nN (InlineSDFG.w_state w)
  /\ (forall t, In t (edges state0) -> touches nN t ->
                In t (edges (InlineSDFG.w_state w)))
  /\ InlineSDFG.w_nstate w = ns.

(** The edges of two states agree up to the data names of the memlets. *)
Definition same_edges (st st' : SDFGState) : Prop :=
  Forall2 (fun e e' => skeleton e = skeleton e'
                       /\ same_shape (edata e) (edata e'))
          (edges st) (edges st').

(** The invariant of InlineSDFG.apply from its start to the loops of
    _modify_memlet_path. *)
Definition pre_inv (Pn : NodeId -> bool) (rank : NodeId -> nat) (nN : NodeId)
    (state0 nstate0 : SDFGState) (w : InlineSDFG.World) : Prop :=
  loop_inv Pn rank nN state0 (InlineSDFG.w_nstate w) true w
  /\ next_eid state0 <= next_eid (InlineSDFG.w_state w)
  /\ same_edges nstate0 (InlineSDFG.w_nstate w).

(** ** Vocabulary of the source mapping *)

(** The characters of the node ids of an identifier. *)
Definition digit_or_comma (c : ascii) : bool :=
  SourceMap.MapCpp.is_digit c || Ascii.eqb c ",".

Fixpoint all_chars (p : ascii -> bool) (s : string) : bool :=
  match s with
  | EmptyString => true
  | String c s' => p c && all_chars p s'
  end.

(** The location that MapCpp.get_nodes builds from the identifier with the
    digits [d1] and [d2] and the node ids [ids]. *)
Definition location_of (d1 d2 : ascii) (ids : string)
    : SourceMap.SdfgLocation :=
  SourceMap.mkSdfgLocation (String d1 "") (String d2 "")
                           (SourceMap.split "," ids).

Definition located (identifier : string) (loc : SourceMap.SdfgLocation)
    : Prop :=
  exists d1 d2 ids,
    SourceMap.MapCpp.is_digit d1 = true /\ SourceMap.MapCpp.is_digit d2 = true
    /\ all_chars digit_or_comma ids = true
    /\ identifier
       = SourceMap.MapCpp.prefix
         +:+ String d1 (String ":" (String d2 (String ":" ids)))
    /\ loc = location_of d1 d2 ids.

(** The lines [(from, to)] that the C++ mapping holds for a node. *)
Definition cpp_range (m : SourceMap.MapCpp.CppMap) (sdfg state node : string)
    : option (nat * nat) :=
  match m !! sdfg with
  | Some by_state =>
      match by_state !! state with
      | Some st => st !! node
      | None => None
      end
  | None => None
  end.

(** What one more line [line_num] makes of the lines of a node: the first
    line of a node opens its range, the line that follows the range extends
    it, any other line is dropped. *)
Definition extend (line_num : nat) (o : option (nat * nat)) : nat * nat :=
  match o with
  | None => (line_num, line_num)
  | Some (from, to) =>
      if (to + 1 =? line_num)%nat then (from, (to + 1)%nat) else (from, to)
  end.

(** Every range of the mapping is a range of lines of a text of [n] lines. *)
Definition ranges_within (n : nat) (m : SourceMap.MapCpp.CppMap) : Prop :=
  forall a b c from to,
    cpp_range m a b c = Some (from, to) -> 1 <= from <= to /\ to <= n.

Definition file_of (i : SourceMap.Info) : string :=
  SourceMap.filename (SourceMap.i_debuginfo i).

(** The records of one source file, in the order of the list. *)
Definition of_file (f : string) (l : list SourceMap.Info)
    : list SourceMap.Info :=
  List.filter (fun i => String.eqb (file_of i) f) l.

(** The entry of the Python mapping for a line of a file. *)
Definition py_entry (m : SourceMap.PyMap) (file : string) (line : Z)
    : option (list SourceMap.NodeRef) :=
  match m !! file with
  | Some lines => lines !! line
  | None => None
  end.

(** The debug information of [node] is in [file] and spans [line]. *)
Definition spans (file : string) (line : Z) (node : SourceMap.Info) : bool :=
  String.eqb (file_of node) file
  && (SourceMap.d_start_line (SourceMap.i_debuginfo node) <=? line)%Z
  && (line <=? SourceMap.d_end_line (SourceMap.i_debuginfo node))%Z.

(** An entry with more nodes at its end; no entry is made for no node. *)
Definition extended (o : option (list SourceMap.NodeRef))
    (more : list SourceMap.NodeRef) : option (list SourceMap.NodeRef) :=
  match more with
  | [] => o
  | _ => Some (default [] o ++ more)
  end.

(** MapPython.create_mapping, lines 444-461: the body of the loop over the
    records. *)
Definition map_node (m2 : SourceMap.PyMap) (node : SourceMap.Info)
    : SourceMap.PyMap :=
  let src_file := SourceMap.filename (SourceMap.i_debuginfo node) in
  let lines := default ∅ (m2 !! src_file) in
  <[src_file :=
      fold_left (fun (ls : gmap Z (list SourceMap.NodeRef)) (line : Z) =>
                   <[line := default [] (ls !! line)
                             ++ [SourceMap.MapPython.ref_of node]]> ls)
                (SourceMap.MapPython.range_incl
                   (SourceMap.d_start_line (SourceMap.i_debuginfo node))
                   (SourceMap.d_end_line (SourceMap.i_debuginfo node)))
                lines]> m2.

(** MapPython.create_mapping, lines 483-486: the search of the lines after
    [line]. *)
Definition search_after (line : Z) (lines : list Z)
    (src_map : gmap Z (list SourceMap.NodeRef))
    : gmap Z (list SourceMap.NodeRef) :=
  fold_left (fun (sm : gmap Z (list SourceMap.NodeRef)) (line_after : Z) =>
               match sm !! line_after with
               | Some nodes => <[line := nodes]> sm
               | None => sm
               end) lines src_map.

(** A source map with entries for the lines 3 and 5 only, and the record of
    a node of prog.py on line 4. *)
Definition two_lines : gmap Z (list SourceMap.NodeRef) :=
  <[3%Z := [SourceMap.mkNodeRef 0 0 1]]>
    (<[5%Z := [SourceMap.mkNodeRef 0 0 2]]> ∅).

Definition line_four : SourceMap.Info :=
  SourceMap.make_info (SourceMap.mkDebugInfo 4 4 0 0 "prog.py") 0 0 0.

(** ** Vocabulary of the further properties of the transformations *)

(** The subset that [_modify_memlet] hands to [offset]: the internal subset,
    unsqueezed when its rank is below the external one. *)
Definition unsqueezed (internal_memlet external_memlet : Memlet)
    : result Subset :=
  if (length (subset internal_memlet) <? length (subset external_memlet))%nat
  then unsqueeze (subset internal_memlet)
                 (to_unsqueeze internal_memlet external_memlet)
  else Ok (subset internal_memlet).

(** An access node of a transient array of the table, or no access node. *)
Definition skipped (arrs : gmap string ArrayDesc) (n : Node) : Prop :=
  match kind n with
  | AccessNode k => exists desc, arrs !! k = Some desc /\ transient desc = true
  | _ => True
  end.

(** A state whose only access node, of the non-transient array X, has no
    edge. *)
Definition isolated_state : SDFGState :=
  mkState "s" [mkNode 0 (Tasklet "t") [] []; mkNode 1 (AccessNode "X") [] []] [] 0.

Definition isolated_sdfg : SDFG :=
  mkSDFG "program" (<["X" := float_array [10%Z]]> ∅) [isolated_state] [].

(** A dictionary of NestSDFG.apply: distinct keys, each mapped to itself
    with the suffix. *)
Definition suffixed (suffix : string) (d : list (string * string)) : Prop :=
  List.NoDup (map fst d) /\ forall k v, In (k, v) d -> v = k +:+ suffix.

(** What the first loop of NestSDFG.apply keeps of its three
    dictionaries. *)
Definition dicts_ok (v : NestSDFG.Vars) : Prop :=
  suffixed "_in" (NestSDFG.inputs v)
  /\ suffixed "_out" (NestSDFG.outputs v)
  /\ suffixed "_out" (NestSDFG.transients v).

(** How sending a message ends in the environment [f]: without an
    exception when DACE_port is not set; with ValueError when it is set to
    what [int] does not read as a number; otherwise as connecting to that
    port and sending end. *)
Definition delivery (f : SourceMap.Files) : result unit :=
  match SourceMap.DACE_port f with
  | None => Ok tt
  | Some PORT =>
      match SourceMap.py_int PORT with
      | None => Raise ValueError
      | Some n =>
          match SourceMap.endpoint f n with
          | Some e => Raise e
          | None => Ok tt
          end
      end
  end.

(** What the IDE receives of a message sent in the environment [f]: the
    message when DACE_port is set and the delivery goes through, nothing
    otherwise. *)
Definition announce (f : SourceMap.Files) (msg : SourceMap.Message)
    : list SourceMap.Message :=
  match SourceMap.DACE_port f, delivery f with
  | Some _, Ok _ => [msg]
  | _, _ => []
  end.

(** The files of a program whose temporary record has been written. *)
Definition one_record : SourceMap.Files :=
  SourceMap.mkFiles ["program"]
    (<["program" := SourceMap.mkTmp (Some 1%Z) (Some 9%Z) (Some "program.py")
                      None None (Some ["program.py"]) None]> ∅)
    ∅ ∅ "name" (Some "4242") (fun _ => None) [].

(** The same files when DACE_port is set to a word. *)
Definition bad_port_record : SourceMap.Files :=
  SourceMap.mkFiles ["program"]
    (<["program" := SourceMap.mkTmp (Some 1%Z) (Some 9%Z) (Some "program.py")
                      None None (Some ["program.py"]) None]> ∅)
    ∅ ∅ "name" (Some "vscode") (fun _ => None) [].

(** ** Vocabulary of the frame properties of the inline transformation *)

(** The name that lines 547-564 give to an access node of the non-transient
    array [d]: [stale] is the value of [node_data_name] before. *)
Definition new_name (st : SDFGState) (node : Node) (d : string)
    (stale : option string) : option string :=
  if (0 <? in_degree st (nid node))%nat then Some (d +:+ "_out")
  else if (0 <? out_degree st (nid node))%nat then Some (d +:+ "_in")
  else stale.

(** A computation whose final world is related by [R] to its first one,
    however it ends. *)
Definition keeps (R : InlineSDFG.World -> InlineSDFG.World -> Prop) {A}
    (c : M InlineSDFG.World A) : Prop :=
  forall w w' r, c w = (w', r) -> R w w'.

(** Every array of the table of [w] is still in the table of [w']. *)
Definition keeps_arrays (w w' : InlineSDFG.World) : Prop :=
  forall k, is_Some (InlineSDFG.w_arrays w !! k) ->
            is_Some (InlineSDFG.w_arrays w' !! k).

(** Every node of the outer state of [w] is still in the outer state of
    [w']. *)
Definition keeps_nodes (w w' : InlineSDFG.World) : Prop :=
  forall n, has_node (InlineSDFG.w_state w) n = true ->
            has_node (InlineSDFG.w_state w') n = true.

(** A computation that does not raise NotImplementedError. *)
Definition no_nie {A} (c : M InlineSDFG.World A) : Prop :=
  forall w, snd (c w) <> Raise NotImplementedError.

(** A boundary access node of the nested state with an unsupported pair of
    memlets: a source node whose connector is bound by the incoming edge
    [top], or a sink node whose connector is bound by the outgoing edge
    [top], and an inner edge [inner] at the node. *)
Definition unsupported_boundary (state nstate : SDFGState) (nN : NodeId)
    (node : Node) (d : string) (top inner : Edge) : Prop :=
  (in_degree nstate (nid node) = 0
   /\ In top (in_edges state nN) /\ dst_conn top = Some d
   /\ In inner (out_edges nstate (nid node))
   /\ unsupported (edata inner) (edata top))
  \/ (out_degree nstate (nid node) = 0
      /\ In top (out_edges state nN) /\ src_conn top = Some d
      /\ In inner (in_edges nstate (nid node))
      /\ unsupported (edata inner) (edata top)).

(** A computation whose final world is related by [R] to its first one
    whenever it raises NotImplementedError. *)
Definition nie_keeps (R : InlineSDFG.World -> InlineSDFG.World -> Prop) {A}
    (c : M InlineSDFG.World A) : Prop :=
  forall w w', c w = (w', Raise NotImplementedError) -> R w w'.

(** A computation that ends in a world satisfying [Q] whenever it
    returns. *)
Definition post (Q : InlineSDFG.World -> Prop) {A}
    (c : M InlineSDFG.World A) : Prop :=
  forall w w' a, c w = (w', Ok a) -> Q w'.

(** The source files of the records, each once, in the order of their
    first record. *)
Definition files_of (l : list SourceMap.Info) : list string :=
  fold_left (fun fs i => if mem_str (file_of i) fs then fs
                         else fs ++ [file_of i]) l [].

(** A program whose first tasklet comes from a later line than its
    second. *)
Definition late_first_program : SourceMap.DGraph :=
  SourceMap.mkDGraph "program" 0
    [[SourceMap.DTasklet (Some (SourceMap.mkDebugInfo 5 6 0 10 "program.py"));
      SourceMap.DTasklet (Some (SourceMap.mkDebugInfo 3 6 0 10 "program.py"))]].

(** Every input of the dictionaries is read, and every output written,
    through an access node of one of the states [S]. *)
Definition classified_from (S : list SDFGState) (v : NestSDFG.Vars) : Prop :=
  (forall kv, In kv (NestSDFG.inputs v) ->
     exists s, In s S /\ is_read s (fst kv) = true)
  /\ (forall kv, In kv (NestSDFG.outputs v) ->
        exists s, In s S /\ is_written s (fst kv) = true).

(** The entries of a dictionary of NestSDFG.apply with the keys [keys]. *)
Definition with_suffix (suffix : string) (keys : list string)
    : list (string * string) :=
  map (fun k => (k, k +:+ suffix)) keys.

(** * Properties *)

(** ** Generic facts *)

Lemma opt_str_eqb_eq (a b : option string) : opt_str_eqb a b = true <-> a = b.
Proof.
  destruct a as [x|], b as [y|]; simpl; try (split; congruence).
  rewrite String.eqb_eq. split; congruence.
Qed.

Lemma opt_str_eqb_refl (a : option string) : opt_str_eqb a a = true.
Proof. now apply opt_str_eqb_eq. Qed.

Lemma mem_ostr_In (x : option string) (l : list (option string)) :
  mem_ostr x l = true <-> In x l.
Proof.
  unfold mem_ostr. rewrite existsb_exists. split.
  - intros (y & Hy & E). apply opt_str_eqb_eq in E. now subst.
  - intros H. exists x. split; [assumption | apply opt_str_eqb_refl].
Qed.

Lemma offset_length (s b r : Subset) : offset s b = Ok r -> length r = length s.
Proof.
  unfold offset. destruct (length s =? length b)%nat eqn:E; [| discriminate].
  intros [= <-]. apply Nat.eqb_eq in E.
  rewrite List.length_map, List.length_combine.
  unfold min_element. rewrite List.length_map.
  unfold Subset, Range in *. lia.
Qed.

(** ** Recomputing a boundary memlet *)

(** C5, as the specification states it, fails: in scenario B the recomputed
    memlet is not on [0:10, 0:1].  With the offset of section 4.1 no memlet
    is produced at all, and whatever rank-preserving offset is used, the
    subset of a produced memlet differs from [0:10, 0:1]. *)
Lemma scenario_B_is_not_the_outer_subset :
  _modify_memlet B_inner B_outer = Raise SubsetError
  /\ (forall off : Subset -> Subset -> result Subset,
        (forall s b r, off s b = Ok r -> length r = length s) ->
        forall m, _modify_memlet_with off B_inner B_outer = Ok m ->
                  subset m <> [slice 0 10; slice 0 1]).
Proof.
  split; [reflexivity |].
  intros off Hoff m H. unfold _modify_memlet_with in H. simpl in H.
  destruct (off _ _) as [s|] eqn:E; simpl in H; [| discriminate].
  injection H as <-. simpl. apply Hoff in E. intros ->. discriminate E.
Qed.

(** C5 (amended): in scenario B the special case empties the list of
    positions to unsqueeze, so the inner subset [0:1] keeps rank 1: it is
    not widened to [0:1, 0:1, 0:1], and whatever rank-preserving offset is
    applied, a produced memlet has a subset of rank 1 on the outer array;
    the offset of section 4.1, which requires equal ranks, rejects it. *)
Theorem scenario_B_keeps_rank_one
    (off : Subset -> Subset -> result Subset)
    (Hoff : forall s b r, off s b = Ok r -> length r = length s) :
  to_unsqueeze B_inner B_outer = []
  /\ unsqueeze (subset B_inner) (to_unsqueeze B_inner B_outer)
     = Ok [slice 0 1]
  /\ (forall m, _modify_memlet_with off B_inner B_outer = Ok m ->
        data m = Some "A" /\ exists r, subset m = [r])
  /\ _modify_memlet B_inner B_outer = Raise SubsetError.
Proof.
  split; [reflexivity |]. split; [reflexivity |]. split; [| reflexivity].
  intros m H. unfold _modify_memlet_with in H. simpl in H.
  destruct (off _ _) as [s|] eqn:E; simpl in H; [| discriminate].
  injection H as <-. simpl. split; [reflexivity |].
  apply Hoff in E. simpl in E.
  destruct s as [|r [|r' s']]; simpl in E; try discriminate. now exists r.
Qed.

Lemma shift_leading_length (s : Subset) (by_ : list Z) :
  length (shift_leading s by_) = length s.
Proof.
  revert by_. induction s as [|[[b e] st] s IH]; intros [|o by_]; simpl;
    try reflexivity.
  now rewrite IH.
Qed.

Lemma scenario_B_keeps_rank_one_witness :
  (subset <$> _modify_memlet_with offset_leading B_inner B_outer)
  = Ok [slice 0 1]
  /\ to_unsqueeze B_inner B_outer = []
  /\ unsqueeze (subset B_inner) (to_unsqueeze B_inner B_outer)
     = Ok [slice 0 1]
  /\ (forall m, _modify_memlet_with offset_leading B_inner B_outer = Ok m ->
        data m = Some "A" /\ exists r, subset m = [r])
  /\ _modify_memlet B_inner B_outer = Raise SubsetError.
Proof.
  split; [reflexivity |].
  apply (scenario_B_keeps_rank_one offset_leading).
  intros s b r [= <-]. apply shift_leading_length.
Defined.

(** ** Feasibility of inlining *)

Lemma scan_connectors_spec (l seen : list (option string)) :
  InlineSDFG.scan_connectors l seen = true
  <-> List.NoDup l /\ (forall x, In x l -> ~ In x seen).
Proof.
  revert seen. induction l as [|c l IH]; intros seen; simpl.
  - split; [intros _; split; [constructor | intros x []] | reflexivity].
  - destruct (mem_ostr c seen) eqn:E.
    + split; [discriminate |]. intros [_ H]. exfalso.
      apply (H c); [now left | now apply mem_ostr_In].
    + rewrite IH. rewrite List.NoDup_cons_iff.
      assert (Hc : ~ In c seen).
      { intros Hin. apply mem_ostr_In in Hin. congruence. }
      split.
      * intros [Hnd H]. split; [split; [| exact Hnd] |].
        -- intros Hin. apply (H c Hin). now left.
        -- intros x [<- | Hx]; [exact Hc |].
           intros Hs. apply (H x Hx). now right.
      * intros [[Hnin Hnd] H]. split; [exact Hnd |].
        intros x Hx [<- | Hs]; [now apply Hnin |].
        apply (H x); [now right | exact Hs].
Qed.

Lemma filter_length_pos {A} (p : A -> bool) (l : list A) (x : A) :
  In x l -> p x = true -> 1 <= length (List.filter p l).
Proof.
  induction l as [|a l IH]; simpl; [intros [] |].
  intros [<- | Hin] Hp.
  - rewrite Hp. simpl. lia.
  - destruct (p a); simpl; [lia | now apply IH].
Qed.

Lemma NoDup_map_count {A} (f : A -> option string) (l : list A) :
  List.NoDup (map f l)
  <-> forall c, length (List.filter (fun e => opt_str_eqb (f e) c) l) <= 1.
Proof.
  induction l as [|a l IH]; simpl.
  - split; [intros _ c; lia | intros _; constructor].
  - rewrite List.NoDup_cons_iff, IH. split.
    + intros [Hnin H] c. destruct (opt_str_eqb (f a) c) eqn:E; [| apply H].
      apply opt_str_eqb_eq in E. subst c. simpl.
      destruct (List.filter _ l) as [|e l'] eqn:F; [simpl; lia |].
      exfalso. apply Hnin.
      assert (He : In e (List.filter (fun e => opt_str_eqb (f e) (f a)) l))
        by (rewrite F; now left).
      apply List.filter_In in He as [He Heq]. apply opt_str_eqb_eq in Heq.
      rewrite <- Heq. now apply List.in_map.
    + intros H. split.
      * intros Hin. apply List.in_map_iff in Hin as (e & He & Hin).
        specialize (H (f a)). rewrite opt_str_eqb_refl in H. simpl in H.
        assert (1 <= length (List.filter (fun e => opt_str_eqb (f e) (f a)) l)).
        { apply (filter_length_pos _ l e Hin). now apply opt_str_eqb_eq. }
        lia.
      * intros c. specialize (H c).
        destruct (opt_str_eqb (f a) c); simpl in H; lia.
Qed.

Lemma scan_connectors_count {A} (f : A -> option string) (l : list A) :
  InlineSDFG.scan_connectors (map f l) [] = true
  <-> forall c, length (List.filter (fun e => opt_str_eqb (f e) c) l) <= 1.
Proof.
  rewrite scan_connectors_spec, <- NoDup_map_count. split.
  - now intros [H _].
  - intros H. split; [exact H | intros x _ []].
Qed.

Lemma can_be_applied_run (expr_index : nat) (strict : bool)
    (graph : SDFGState) (candidate : nat) (sdfg : SDFG) (node : Node)
    (l : string) (child : SDFG) :
  nth_error (nodes graph) candidate = Some node ->
  kind node = NestedSDFG l child ->
  InlineSDFG.can_be_applied expr_index strict
    (InlineSDFG.mkMatch graph candidate sdfg)
  = (InlineSDFG.mkMatch graph candidate sdfg,
     Ok ((length (states child) =? 1)%nat
         && InlineSDFG.scan_connectors
              (map dst_conn (in_edges graph (nid node))) []
         && InlineSDFG.scan_connectors
              (map src_conn (out_edges graph (nid node))) [])).
Proof.
  intros Hnode Hkind.
  unfold InlineSDFG.can_be_applied, bindM, gets, lift, retM. simpl.
  rewrite Hnode. simpl. unfold InlineSDFG.child_of. rewrite Hkind.
  destruct (length (states child) =? 1)%nat; simpl; [| reflexivity].
  destruct (InlineSDFG.scan_connectors (map dst_conn _) []); simpl;
    [| reflexivity].
  destruct (InlineSDFG.scan_connectors (map src_conn _) []); reflexivity.
Qed.

(** C3: InlineSDFG.can_be_applied at the state that holds nothing but a
    nested SDFG node with the connectors in and out: no edge is bound to
    the input connector, and the candidate is accepted all the same;
    InlineSDFG.apply then raises KeyError on it. *)
Lemma unbound_connector_is_feasible :
  snd (InlineSDFG.can_be_applied 0 false
         (InlineSDFG.mkMatch unbound_state 0 unbound_sdfg)) = Ok true
  /\ In "in" (in_connectors (A_node A_child))
  /\ bound_in unbound_state (nid (A_node A_child)) (Some "in") = 0
  /\ snd (InlineSDFG.apply (InlineSDFG.mkTransformation 0 0) unbound_sdfg)
     = Raise KeyError.
Proof.
  split; [reflexivity |]. split; [now left |]. split; reflexivity.
Qed.

(** X25: on a candidate bound to a NestedSDFG node,
    InlineSDFG.can_be_applied returns true if and only if the child SDFG has
    exactly one state and no connector of the node is bound to more than
    one incoming edge or to more than one outgoing edge; a connector that
    no edge is bound to is not looked at. *)
Theorem can_be_applied_iff (expr_index : nat) (strict : bool)
    (graph : SDFGState) (candidate : nat) (sdfg : SDFG) (node : Node)
    (l : string) (child : SDFG) :
  nth_error (nodes graph) candidate = Some node ->
  kind node = NestedSDFG l child ->
  exists b : bool,
    snd (InlineSDFG.can_be_applied expr_index strict
           (InlineSDFG.mkMatch graph candidate sdfg)) = Ok b
    /\ (b = true <->
        length (states child) = 1
        /\ (forall c, bound_in graph (nid node) c <= 1)
        /\ (forall c, bound_out graph (nid node) c <= 1)).
Proof.
  intros Hnode Hkind.
  rewrite (can_be_applied_run _ _ _ _ _ _ _ _ Hnode Hkind). simpl.
  eexists. split; [reflexivity |].
  rewrite !andb_true_iff, Nat.eqb_eq, !scan_connectors_count.
  unfold bound_in, bound_out. tauto.
Qed.

Lemma can_be_applied_iff_witness :
  exists b : bool,
    snd (InlineSDFG.can_be_applied 0 false
           (InlineSDFG.mkMatch A_state 1 A_sdfg)) = Ok b
    /\ (b = true <->
        length (states A_child) = 1
        /\ (forall c, bound_in A_state 1 c <= 1)
        /\ (forall c, bound_out A_state 1 c <= 1)).
Proof.
  exact (can_be_applied_iff 0 false A_state 1 A_sdfg (A_node A_child)
           "nested" A_child eq_refl eq_refl).
Defined.

(** ** Feasibility has no side effect *)

Lemma can_be_applied_frame (expr_index : nat) (strict : bool)
    (m : InlineSDFG.Match) :
  fst (InlineSDFG.can_be_applied expr_index strict m) = m.
Proof.
  unfold InlineSDFG.can_be_applied, bindM, gets, lift, retM. simpl.
  destruct (of_option IndexError _) as [node|]; simpl; [| reflexivity].
  destruct (InlineSDFG.child_of node) as [child|]; simpl; [| reflexivity].
  destruct (negb (length (states child) =? 1)%nat); simpl; [reflexivity |].
  destruct (negb (InlineSDFG.scan_connectors (map dst_conn _) [])); simpl;
    [reflexivity |].
  destruct (negb (InlineSDFG.scan_connectors (map src_conn _) []));
    reflexivity.
Qed.

(** C8: InlineSDFG.can_be_applied and NestSDFG.can_be_applied leave the
    graph, the candidate and the SDFG as they were, whatever they are; on a
    candidate bound to a NestedSDFG node they return a boolean, and called
    again on what they left they return the same boolean. *)
Theorem can_be_applied_is_pure (expr_index : nat) (strict : bool)
    (graph : SDFGState) (candidate : nat) (sdfg : SDFG) (node : Node)
    (l : string) (child : SDFG) :
  nth_error (nodes graph) candidate = Some node ->
  kind node = NestedSDFG l child ->
  let m := InlineSDFG.mkMatch graph candidate sdfg in
  (forall m' : InlineSDFG.Match,
     fst (InlineSDFG.can_be_applied expr_index strict m') = m'
     /\ fst (NestSDFG.can_be_applied expr_index strict m') = m')
  /\ (exists b : bool,
     InlineSDFG.can_be_applied expr_index strict m = (m, Ok b)
     /\ InlineSDFG.can_be_applied expr_index strict
          (fst (InlineSDFG.can_be_applied expr_index strict m)) = (m, Ok b))
  /\ (exists b : bool,
        NestSDFG.can_be_applied expr_index strict m = (m, Ok b)
        /\ NestSDFG.can_be_applied expr_index strict
             (fst (NestSDFG.can_be_applied expr_index strict m)) = (m, Ok b)).
Proof.
  intros Hnode Hkind m.
  split; [intros m'; split; [apply can_be_applied_frame | reflexivity] |].
  split.
  - unfold m. rewrite (can_be_applied_run _ _ _ _ _ _ _ _ Hnode Hkind). simpl.
    rewrite (can_be_applied_run _ _ _ _ _ _ _ _ Hnode Hkind).
    eexists. split; reflexivity.
  - exists true. split; reflexivity.
Qed.

Lemma can_be_applied_is_pure_witness :
  let m := InlineSDFG.mkMatch A_state 1 A_sdfg in
  (forall m' : InlineSDFG.Match,
     fst (InlineSDFG.can_be_applied 0 false m') = m'
     /\ fst (NestSDFG.can_be_applied 0 false m') = m')
  /\ (exists b : bool,
     InlineSDFG.can_be_applied 0 false m = (m, Ok b)
     /\ InlineSDFG.can_be_applied 0 false
          (fst (InlineSDFG.can_be_applied 0 false m)) = (m, Ok b))
  /\ (exists b : bool,
        NestSDFG.can_be_applied 0 false m = (m, Ok b)
        /\ NestSDFG.can_be_applied 0 false
             (fst (NestSDFG.can_be_applied 0 false m)) = (m, Ok b)).
Proof.
  exact (can_be_applied_is_pure 0 false A_state 1 A_sdfg (A_node A_child)
           "nested" A_child eq_refl eq_refl).
Defined.

(** ** Inlining scenario A *)

(** C4: inlining the nested SDFG of scenario A succeeds and leaves the state
    A -> Tasklet -> B with the subset [0:10] on both edges; the NestedSDFG
    node and the boundary access nodes of the child are not in it. *)
Theorem scenario_A_inlines :
  InlineSDFG.apply A_match A_sdfg
  = (mkSDFG "program" A_arrays [A_inlined] [], Ok tt)
  /\ map (fun e => (kind_of A_inlined (src e), kind_of A_inlined (dst e),
                    data (edata e), subset (edata e))) (edges A_inlined)
     = [(Some (AccessNode "A"), Some (Tasklet "tasklet"), Some "A", [slice 0 10]);
        (Some (Tasklet "tasklet"), Some (AccessNode "B"), Some "B", [slice 0 10])]
  /\ forallb (fun n => negb (is_nested (kind n))
                       && negb (opt_str_eqb (access_data (kind n)) (Some "in"))
                       && negb (opt_str_eqb (access_data (kind n)) (Some "out")))
             (nodes A_inlined) = true.
Proof. repeat split; vm_compute; reflexivity. Qed.

(** ** Identifiers in the generated code *)

Import SourceMap.

Lemma digit_is_not_colon (c : ascii) :
  MapCpp.is_digit c = true -> Ascii.eqb c ":" = false.
Proof.
  destruct c as [[] [] [] [] [] [] [] []]; vm_compute; congruence.
Qed.

(** The shape of what the expression matches: the prefix, one digit, a
    colon, one digit, a colon, and the node ids. *)
Definition identifier_of (d1 d2 : ascii) (ids : string) : string :=
  MapCpp.prefix +:+ String d1 (String ":" (String d2 (String ":" ids))).

Lemma match_here_shape (s x y rest : string) :
  MapCpp.match_here s = Some (x, y, rest) ->
  exists d1 d2 ids,
    MapCpp.is_digit d1 = true /\ MapCpp.is_digit d2 = true
    /\ x = identifier_of d1 d2 ids.
Proof.
  unfold MapCpp.match_here.
  destruct (strip_prefix MapCpp.prefix s) as [[|d1 [|c1 [|d2 [|c2 r]]]]|];
    try discriminate.
  destruct (MapCpp.is_digit d1) eqn:E1; simpl; [| discriminate].
  destruct (Ascii.eqb c1 ":") eqn:C1; simpl; [| discriminate].
  destruct (MapCpp.is_digit d2) eqn:E2; simpl; [| discriminate].
  destruct (Ascii.eqb c2 ":") eqn:C2; simpl; [| discriminate].
  destruct (MapCpp.star_digit r) as [n rest1].
  destruct (MapCpp.star_comma_digit rest1) as [[m g] rest2].
  intros [= <- _ _]. apply Ascii.eqb_eq in C1, C2. subst c1 c2.
  now exists d1, d2, (n +:+ m).
Qed.

Lemma findall_shape (fuel : nat) (s x y : string) :
  In (x, y) (MapCpp.findall fuel s) ->
  exists d1 d2 ids,
    MapCpp.is_digit d1 = true /\ MapCpp.is_digit d2 = true
    /\ x = identifier_of d1 d2 ids.
Proof.
  revert s. induction fuel as [|fuel IH]; intros s; simpl; [intros [] |].
  destruct (MapCpp.match_here s) as [[[x' y'] rest]|] eqn:E.
  - intros [[= <- <-] | Hin]; [now apply match_here_shape in E | eauto].
  - destruct s; [intros [] | eauto].
Qed.

Lemma split_nonempty (sep : ascii) (s : string) : split sep s <> [].
Proof.
  destruct s as [|c s]; simpl; [discriminate |].
  destruct (Ascii.eqb c sep); [discriminate |].
  destruct (split sep s); discriminate.
Qed.

Lemma split_identifier (d1 d2 : ascii) (ids : string) :
  MapCpp.is_digit d1 = true -> MapCpp.is_digit d2 = true ->
  exists field rest,
    split ":" (identifier_of d1 d2 ids)
    = "////__DACE" :: String d1 "" :: String d2 "" :: field :: rest.
Proof.
  intros H1 H2. unfold identifier_of, MapCpp.prefix.
  destruct (split ":" ids) as [|field rest] eqn:E;
    [now apply split_nonempty in E |].
  exists field, rest.
  change ("////__DACE:" +:+ ?s)
    with (String "/" (String "/" (String "/" (String "/" (String "_"
           (String "_" (String "D" (String "A" (String "C" (String "E"
           (String ":" s))))))))))).
  simpl. rewrite (digit_is_not_colon d1 H1), (digit_is_not_colon d2 H2).
  now rewrite E.
Qed.

Definition single_digit (s : string) : Prop :=
  exists d, MapCpp.is_digit d = true /\ s = String d "".

Lemma get_nodes_fold (ids : list string) (acc locs : list SdfgLocation) :
  (forall i, In i ids ->
     exists d1 d2 rest, MapCpp.is_digit d1 = true /\ MapCpp.is_digit d2 = true
                        /\ i = identifier_of d1 d2 rest) ->
  foldR (fun nodes identifier =>
           let ids_split := split ":" identifier in
           a ← of_option IndexError (nth_error ids_split 1);
           b ← of_option IndexError (nth_error ids_split 2);
           c ← of_option IndexError (nth_error ids_split 3);
           Ok (nodes ++ [mkSdfgLocation a b (split "," c)])) ids acc = Ok locs ->
  forall loc, In loc locs ->
    In loc acc \/ (single_digit (sdfg_id loc) /\ single_digit (state_id loc)).
Proof.
  revert acc. induction ids as [|i ids IH]; intros acc Hshape; simpl.
  - intros [= <-] loc Hin. now left.
  - destruct (Hshape i (or_introl eq_refl)) as (d1 & d2 & rest & H1 & H2 & ->).
    destruct (split_identifier d1 d2 rest H1 H2) as (field & more & ->).
    simpl. intros Hfold loc Hin.
    destruct (IH _ (fun j Hj => Hshape j (or_intror Hj)) Hfold loc Hin)
      as [Hacc | Hd]; [| now right].
    apply in_app_or in Hacc as [Hacc | [<- | []]]; [now left |].
    right. simpl. split; [now exists d1 | now exists d2].
Qed.

(** C10: MapCpp.get_identifiers returns only identifiers whose SDFG id and
    state id are one decimal digit each, so every location that
    MapCpp.get_nodes builds has such ids; a line whose identifier has a
    two-digit SDFG id or state id yields no identifier, and its node gets
    no entry in the mapping. *)
Theorem identifiers_have_single_digit_ids :
  (forall line ident, In ident (MapCpp.get_identifiers line) ->
     exists d1 d2 ids,
       MapCpp.is_digit d1 = true /\ MapCpp.is_digit d2 = true
       /\ ident = identifier_of d1 d2 ids)
  /\ (forall line locs loc,
        MapCpp.get_nodes line = Ok locs -> In loc locs ->
        single_digit (sdfg_id loc) /\ single_digit (state_id loc))
  /\ MapCpp.get_identifiers "////__DACE:10:0:0" = []
  /\ MapCpp.get_identifiers "x = y; ////__DACE:0:10:0" = []
  /\ MapCpp.get_nodes "////__DACE:10:0:0" = Ok []
  /\ MapCpp.mapper "x = y; ////__DACE:10:0:0" = Ok ∅
  /\ MapCpp.get_identifiers "x = y; ////__DACE:1:0:0" = ["////__DACE:1:0:0"].
Proof.
  assert (Hshape : forall line ident, In ident (MapCpp.get_identifiers line) ->
            exists d1 d2 ids,
              MapCpp.is_digit d1 = true /\ MapCpp.is_digit d2 = true
              /\ ident = identifier_of d1 d2 ids).
  { intros line ident Hin. unfold MapCpp.get_identifiers in Hin.
    apply List.in_map_iff in Hin as ([x y] & <- & Hin).
    now apply findall_shape in Hin. }
  split; [exact Hshape |]. split.
  - intros line locs loc Hget Hin. unfold MapCpp.get_nodes in Hget.
    destruct (get_nodes_fold _ _ _ (Hshape line) Hget loc Hin) as [[] | H].
    exact H.
  - repeat split; vm_compute; reflexivity.
Qed.

(** ** Dictionaries *)

Lemma dict_has_keys {V} (k : string) (d : list (string * V)) :
  dict_has String.eqb k d = true <-> In k (map fst d).
Proof.
  unfold dict_has. induction d as [|[k' v'] d IH]; simpl.
  - split; [discriminate | intros []].
  - destruct (String.eqb k' k) eqn:E.
    + apply String.eqb_eq in E. subst. split; [now left | reflexivity].
    + apply String.eqb_neq in E. rewrite IH. split; [now right |].
      intros [H | H]; [contradiction | exact H].
Qed.

Lemma dict_set_absent {V} (k : string) (v : V) (d : list (string * V)) :
  ~ In k (map fst d) -> dict_set String.eqb k v d = d ++ [(k, v)].
Proof.
  induction d as [|[k' v'] d IH]; simpl; [reflexivity |].
  intros H. destruct (String.eqb k' k) eqn:E.
  - apply String.eqb_eq in E. exfalso. apply H. now left.
  - rewrite IH; [reflexivity |]. intros Hin. apply H. now right.
Qed.

Lemma NoDup_keys_snoc {V} (k : string) (v : V) (d : list (string * V)) :
  List.NoDup (map fst d) -> ~ In k (map fst d) ->
  List.NoDup (map fst (d ++ [(k, v)])).
Proof.
  intros Hnd Hk. rewrite List.map_app. simpl.
  apply List.NoDup_app; [exact Hnd | |].
  - constructor; [intros [] | constructor].
  - intros x Hx [<- | []]. contradiction.
Qed.

(** ** Outlining: the first loop *)

Lemma insert_is_Some (m : gmap string ArrayDesc) (k k' : string) (x : ArrayDesc) :
  is_Some (m !! k) -> is_Some (<[k' := x]> m !! k).
Proof.
  intros H. destruct (decide (k' = k)) as [-> | Hne].
  - rewrite lookup_insert_eq. eauto.
  - now rewrite lookup_insert_ne.
Qed.

Lemma entries_ok_insert (P : string -> Prop) (suffix : string)
    (nested outer : gmap string ArrayDesc) (d : list (string * string))
    (k1 k2 : string) (x1 x2 : ArrayDesc) :
  entries_ok P suffix nested outer d ->
  entries_ok P suffix (<[k1 := x1]> nested) (<[k2 := x2]> outer) d.
Proof.
  intros [Hnd H]. split; [exact Hnd |].
  intros k v Hin. destruct (H k v Hin) as (Hp & Hv & Hn & Ho).
  repeat split; try assumption; now apply insert_is_Some.
Qed.

Lemma entries_ok_insert_nested (P : string -> Prop) (suffix : string)
    (nested outer : gmap string ArrayDesc) (d : list (string * string))
    (k1 : string) (x1 : ArrayDesc) :
  entries_ok P suffix nested outer d ->
  entries_ok P suffix (<[k1 := x1]> nested) outer d.
Proof.
  intros [Hnd H]. split; [exact Hnd |].
  intros k v Hin. destruct (H k v Hin) as (Hp & Hv & Hn & Ho).
  repeat split; try assumption; now apply insert_is_Some.
Qed.

Lemma entries_ok_snoc (P : string -> Prop) (suffix : string)
    (nested outer : gmap string ArrayDesc) (d : list (string * string))
    (k : string) :
  entries_ok P suffix nested outer d ->
  ~ In k (map fst d) -> P k ->
  is_Some (nested !! (k +:+ suffix)) -> is_Some (outer !! k) ->
  entries_ok P suffix nested outer (d ++ [(k, k +:+ suffix)]).
Proof.
  intros [Hnd H] Hk Hp Hn Ho. split; [now apply NoDup_keys_snoc |].
  intros k' v' Hin. apply in_app_or in Hin as [Hin | [[= <- <-] | []]].
  - now apply H.
  - now repeat split.
Qed.

Lemma entries_ok_value (P : string -> Prop) (suffix : string)
    (nested outer : gmap string ArrayDesc) (d : list (string * string))
    (k : string) :
  entries_ok P suffix nested outer d -> In k (map fst d) ->
  In (k, k +:+ suffix) d.
Proof.
  intros [_ H] Hin. apply List.in_map_iff in Hin as ([k' v] & Hk & Hin).
  simpl in Hk. subst k'. destruct (H k v Hin) as (_ & -> & _). exact Hin.
Qed.

Lemma stays_non_transient (m : gmap string ArrayDesc) (X k : string)
    (x : ArrayDesc) :
  (exists d, m !! X = Some d /\ transient d = false) ->
  transient x = false ->
  exists d, <[k := x]> m !! X = Some d /\ transient d = false.
Proof.
  intros (d & Hd & Ht) Hx. destruct (decide (k = X)) as [-> | Hne].
  - exists x. now rewrite lookup_insert_eq.
  - exists d. now rewrite lookup_insert_ne.
Qed.

Ltac vars_simpl :=
  cbn [NestSDFG.nested_arrays NestSDFG.outer_arrays NestSDFG.inputs
       NestSDFG.outputs NestSDFG.transients NestSDFG.node_data_name] in *.

Lemma as_input_inv (P : string -> Prop) (X d : string) (desc : ArrayDesc)
    (v v' : NestSDFG.Vars) :
  outline_inv P X v -> P d ->
  NestSDFG.nested_arrays v !! d = Some desc -> transient desc = false ->
  NestSDFG.as_input d v = Ok v' ->
  outline_inv P X v'
  /\ In (d, d +:+ "_in") (NestSDFG.inputs v')
  /\ incl (NestSDFG.inputs v) (NestSDFG.inputs v')
  /\ NestSDFG.outputs v' = NestSDFG.outputs v
  /\ NestSDFG.nested_arrays v' !! d = Some desc
  /\ is_Some (NestSDFG.node_data_name v').
Proof.
  intros (Hin & Hout & Htr & HX) HP Hd Ht. unfold NestSDFG.as_input.
  destruct (NestSDFG.str_has d (NestSDFG.inputs v)) eqn:E; simpl.
  - intros [= <-]. simpl. apply dict_has_keys in E.
    split; [exact (conj Hin (conj Hout (conj Htr HX))) |].
    split; [now apply (entries_ok_value P "_in" _ _ _ d Hin) |].
    split; [apply incl_refl |]. split; [reflexivity |].
    split; [exact Hd | eauto].
  - rewrite Hd. simpl. intros [= <-]. simpl.
    assert (Hk : ~ In d (map fst (NestSDFG.inputs v))).
    { intros Hk. apply dict_has_keys in Hk. unfold NestSDFG.str_has in E.
      congruence. }
    rewrite (dict_set_absent _ _ _ Hk).
    split; [| split; [| split; [| split; [| split]]]].
    + split; [| split; [| split]].
      * vars_simpl. apply entries_ok_snoc; try assumption.
        -- now apply entries_ok_insert.
        -- rewrite lookup_insert_eq. eauto.
        -- rewrite lookup_insert_eq. eauto.
      * now apply entries_ok_insert.
      * exact Htr.
      * now apply stays_non_transient.
    + apply in_or_app. right. now left.
    + intros x Hx. apply in_or_app. now left.
    + reflexivity.
    + destruct (decide (d +:+ "_in" = d)) as [-> | Hne].
      * now rewrite lookup_insert_eq.
      * now rewrite lookup_insert_ne.
    + eauto.
Qed.

Lemma as_output_inv (P : string -> Prop) (X d : string) (desc : ArrayDesc)
    (v v' : NestSDFG.Vars) :
  outline_inv P X v -> P d ->
  NestSDFG.nested_arrays v !! d = Some desc -> transient desc = false ->
  NestSDFG.as_output d v = Ok v' ->
  outline_inv P X v'
  /\ In (d, d +:+ "_out") (NestSDFG.outputs v')
  /\ incl (NestSDFG.outputs v) (NestSDFG.outputs v')
  /\ NestSDFG.inputs v' = NestSDFG.inputs v
  /\ is_Some (NestSDFG.node_data_name v').
Proof.
  intros (Hin & Hout & Htr & HX) HP Hd Ht. unfold NestSDFG.as_output.
  destruct (NestSDFG.str_has d (NestSDFG.outputs v)) eqn:E; simpl.
  - intros [= <-]. simpl. apply dict_has_keys in E.
    split; [exact (conj Hin (conj Hout (conj Htr HX))) |].
    split; [now apply (entries_ok_value P "_out" _ _ _ d Hout) |].
    split; [apply incl_refl |]. split; [reflexivity | eauto].
  - rewrite Hd. simpl. intros [= <-]. simpl.
    assert (Hk : ~ In d (map fst (NestSDFG.outputs v))).
    { intros Hk. apply dict_has_keys in Hk. unfold NestSDFG.str_has in E.
      congruence. }
    rewrite (dict_set_absent _ _ _ Hk).
    destruct (NestSDFG.str_has d (NestSDFG.inputs v)) eqn:E'; simpl.
    + apply dict_has_keys in E'.
      assert (Ho : is_Some (NestSDFG.outer_arrays v !! d)).
      { apply (entries_ok_value P "_in" _ _ _ d Hin) in E'.
        destruct Hin as [_ Hin]. now destruct (Hin _ _ E') as (_ & _ & _ & Ho). }
      split; [| split; [| split; [| split]]].
      * split; [| split; [| split]].
        -- now apply entries_ok_insert_nested.
        -- vars_simpl. apply entries_ok_snoc; try assumption.
           ++ now apply entries_ok_insert_nested.
           ++ rewrite lookup_insert_eq. eauto.
        -- exact Htr.
        -- now apply stays_non_transient.
      * apply in_or_app. right. now left.
      * intros x Hx. apply in_or_app. now left.
      * reflexivity.
      * eauto.
    + split; [| split; [| split; [| split]]].
      * split; [| split; [| split]].
        -- now apply entries_ok_insert.
        -- vars_simpl. apply entries_ok_snoc; try assumption.
           ++ now apply entries_ok_insert.
           ++ rewrite lookup_insert_eq. eauto.
           ++ rewrite lookup_insert_eq. eauto.
        -- exact Htr.
        -- now apply stays_non_transient.
      * apply in_or_app. right. now left.
      * intros x Hx. apply in_or_app. now left.
      * reflexivity.
      * eauto.
Qed.

Lemma classify_inv (P : string -> Prop) (X : string) (st : SDFGState)
    (v v' : NestSDFG.Vars) (n n' : Node) :
  outline_inv P X v ->
  (forall d, kind n = AccessNode d -> P d) ->
  NestSDFG.classify st v n = Ok (v', n') ->
  outline_inv P X v'
  /\ incl (NestSDFG.inputs v) (NestSDFG.inputs v')
  /\ incl (NestSDFG.outputs v) (NestSDFG.outputs v')
  /\ (kind n = AccessNode X -> 0 < out_degree st (nid n) ->
      In (X, X +:+ "_in") (NestSDFG.inputs v'))
  /\ (kind n = AccessNode X -> 0 < in_degree st (nid n) ->
      In (X, X +:+ "_out") (NestSDFG.outputs v')).
Proof.
  intros Hinv HP. unfold NestSDFG.classify.
  destruct (kind n) as [d| | | | |] eqn:K;
    try (intros [= <- <-]; split; [exact Hinv |];
         split; [apply incl_refl |]; split; [apply incl_refl |];
         split; discriminate).
  destruct (NestSDFG.nested_arrays v !! d) as [desc|] eqn:Hd; simpl;
    [| discriminate].
  destruct (transient desc) eqn:Ht; simpl.
  - intros [= <- <-]. split; [exact Hinv |].
    split; [apply incl_refl |]. split; [apply incl_refl |].
    destruct Hinv as (_ & _ & _ & dX & HdX & HtX).
    split; intros [= ->]; congruence.
  - assert (Hin : exists v1,
              (if (0 <? out_degree st (nid n))%nat
               then NestSDFG.as_input d v else Ok v) = Ok v1
              \/ (if (0 <? out_degree st (nid n))%nat
                  then NestSDFG.as_input d v else Ok v) = Raise KeyError).
    { destruct (if (0 <? out_degree st (nid n))%nat
                then NestSDFG.as_input d v else Ok v) as [v1|e] eqn:E.
      - exists v1. now left.
      - exists v. right. destruct (0 <? out_degree st (nid n))%nat;
          [| discriminate].
        unfold NestSDFG.as_input in E.
        destruct (negb _) in E; simpl in E; [| discriminate].
        rewrite Hd in E. discriminate. }
    destruct Hin as (v1 & [E1 | E1]); rewrite E1; simpl; [| discriminate].
    assert (H1 : outline_inv P X v1
                 /\ incl (NestSDFG.inputs v) (NestSDFG.inputs v1)
                 /\ NestSDFG.outputs v1 = NestSDFG.outputs v
                 /\ NestSDFG.nested_arrays v1 !! d = Some desc
                 /\ (0 < out_degree st (nid n) ->
                     In (d, d +:+ "_in") (NestSDFG.inputs v1)
                     /\ is_Some (NestSDFG.node_data_name v1))).
    { destruct (0 <? out_degree st (nid n))%nat eqn:Edeg.
      - destruct (as_input_inv P X d desc v v1 Hinv (HP d eq_refl) Hd Ht E1)
          as (Hi & Hm & Hincl & Ho & Hd1 & Hn).
        split; [exact Hi |]. split; [exact Hincl |]. split; [exact Ho |].
        split; [exact Hd1 |]. intros _. now split.
      - injection E1 as <-. apply Nat.ltb_ge in Edeg.
        split; [exact Hinv |]. split; [apply incl_refl |].
        split; [reflexivity |]. split; [exact Hd |]. lia. }
    destruct H1 as (Hinv1 & Hincl1 & Hout1 & Hd1 & Hread).
    destruct (0 <? in_degree st (nid n))%nat eqn:Edeg2.
    + destruct (NestSDFG.as_output d v1) as [v2|] eqn:E2; simpl;
        [| discriminate].
      destruct (as_output_inv P X d desc v1 v2 Hinv1 (HP d eq_refl) Hd1 Ht E2)
        as (Hinv2 & Hm2 & Hincl2 & Hin2 & Hn2).
      destruct (NestSDFG.node_data_name v2); simpl; [| discriminate].
      intros [= <- <-]. split; [exact Hinv2 |].
      split; [now rewrite Hin2 |].
      split; [now rewrite <- Hout1 |].
      split; intros [= ->] Hdeg.
      * rewrite Hin2. now apply Hread.
      * exact Hm2.
    + simpl. destruct (NestSDFG.node_data_name v1); simpl; [| discriminate].
      intros [= <- <-]. split; [exact Hinv1 |].
      split; [exact Hincl1 |]. split; [rewrite Hout1; apply incl_refl |].
      apply Nat.ltb_ge in Edeg2.
      split; intros [= ->] Hdeg; [now apply Hread | lia].
Qed.

Lemma over_nodes_inv (P : string -> Prop) (X : string) (st : SDFGState)
    (ns ns' : list Node) (v v' : NestSDFG.Vars) :
  outline_inv P X v ->
  (forall n d, In n ns -> kind n = AccessNode d -> P d) ->
  NestSDFG.over_nodes (NestSDFG.classify st) v ns = Ok (v', ns') ->
  outline_inv P X v'
  /\ incl (NestSDFG.inputs v) (NestSDFG.inputs v')
  /\ incl (NestSDFG.outputs v) (NestSDFG.outputs v')
  /\ ((exists n, In n ns /\ kind n = AccessNode X
                 /\ 0 < out_degree st (nid n)) ->
      In (X, X +:+ "_in") (NestSDFG.inputs v'))
  /\ ((exists n, In n ns /\ kind n = AccessNode X
                 /\ 0 < in_degree st (nid n)) ->
      In (X, X +:+ "_out") (NestSDFG.outputs v')).
Proof.
  revert v ns'. induction ns as [|n ns IH]; intros v ns' Hinv HP; simpl.
  - intros [= <- <-]. split; [exact Hinv |].
    split; [apply incl_refl |]. split; [apply incl_refl |].
    split; intros (n & [] & _).
  - destruct (NestSDFG.classify st v n) as [[v1 n1]|] eqn:E1; [| discriminate].
    destruct (NestSDFG.over_nodes _ v1 ns) as [[v2 ns2]|] eqn:E2;
      [| discriminate].
    intros [= <- <-].
    destruct (classify_inv P X st v v1 n n1 Hinv
                (fun d => HP n d (or_introl eq_refl)) E1)
      as (Hinv1 & Hi1 & Ho1 & Hr1 & Hw1).
    destruct (IH v1 ns2 Hinv1 (fun m d Hm => HP m d (or_intror Hm)) E2)
      as (Hinv2 & Hi2 & Ho2 & Hr2 & Hw2).
    split; [exact Hinv2 |].
    split; [eapply incl_tran; eassumption |].
    split; [eapply incl_tran; eassumption |].
    split; intros (m & [<- | Hm] & Hk & Hdeg).
    + apply Hi2. now apply Hr1.
    + apply Hr2. now exists m.
    + apply Ho2. now apply Hw1.
    + apply Hw2. now exists m.
Qed.

Lemma scan_state_inv (P : string -> Prop) (X : string) (st st' : SDFGState)
    (v v' : NestSDFG.Vars) :
  outline_inv P X v ->
  (forall n d, In n (nodes st) -> kind n = AccessNode d -> P d) ->
  NestSDFG.scan_state false v st = Ok (v', st') ->
  outline_inv P X v'
  /\ incl (NestSDFG.inputs v) (NestSDFG.inputs v')
  /\ incl (NestSDFG.outputs v) (NestSDFG.outputs v')
  /\ ((exists n, In n (nodes st) /\ kind n = AccessNode X
                 /\ 0 < out_degree st (nid n)) ->
      In (X, X +:+ "_in") (NestSDFG.inputs v'))
  /\ ((exists n, In n (nodes st) /\ kind n = AccessNode X
                 /\ 0 < in_degree st (nid n)) ->
      In (X, X +:+ "_out") (NestSDFG.outputs v')).
Proof.
  intros Hinv HP. unfold NestSDFG.scan_state.
  destruct (NestSDFG.over_nodes _ v (nodes st)) as [[v1 ns1]|] eqn:E;
    simpl; [| discriminate].
  intros [= <- <-]. exact (over_nodes_inv P X st _ _ v v1 Hinv HP E).
Qed.

(** ** Outlining: the tables and the boundary edges *)

Lemma pops_lookup (d : list (string * string)) (a0 a1 : gmap string ArrayDesc)
    (k : string) :
  foldR (fun a (kv : string * string) => NestSDFG.pop (fst kv) a) d a0 = Ok a1 ->
  ~ In k (map fst d) -> a1 !! k = a0 !! k.
Proof.
  revert a0. induction d as [|[k' v'] d IH]; intros a0; simpl.
  - now intros [= <-].
  - destruct (NestSDFG.pop k' a0) as [a'|] eqn:E; [| discriminate].
    unfold NestSDFG.pop in E. destruct (a0 !! k'); [| discriminate].
    injection E as <-.
    intros H Hk. rewrite (IH _ H); [| tauto].
    apply lookup_delete_ne. tauto.
Qed.

Lemma deletes_lookup (d : list (string * string)) (a0 : gmap string ArrayDesc)
    (k : string) :
  ~ In k (map fst d) ->
  fold_left (fun a (kv : string * string) => delete (fst kv) a) d a0 !! k
  = a0 !! k.
Proof.
  revert a0. induction d as [|[k' v'] d IH]; intros a0 Hk; simpl;
    [reflexivity |].
  simpl in Hk. rewrite IH; [| tauto]. apply lookup_delete_ne. tauto.
Qed.

Lemma find_node_snoc (st : SDFGState) (n : Node) :
  (forall m, In m (nodes st) -> nid m < nid n) ->
  find_node (set_nodes (nodes st ++ [n]) st) (nid n) = Some n.
Proof.
  unfold find_node. destruct st as [l ns es k]. simpl.
  induction ns as [|m ns IH]; intros H; simpl.
  - now rewrite Nat.eqb_refl.
  - destruct (Nat.eqb_spec (nid m) (nid n)) as [E | _].
    + specialize (H m (or_introl eq_refl)). lia.
    + apply IH. intros m' Hm'. apply H. now right.
Qed.

Lemma find_node_app (st : SDFGState) (more : list Node) (i : NodeId) (n : Node) :
  find_node st i = Some n ->
  find_node (set_nodes (nodes st ++ more) st) i = Some n.
Proof.
  unfold find_node. destruct st as [l ns es k]. simpl.
  induction ns as [|m ns IH]; simpl; [discriminate |].
  destruct (nid m =? i)%nat; [trivial | exact IH].
Qed.

Lemma has_node_fresh (st : SDFGState) (i : NodeId) :
  (forall m, In m (nodes st) -> nid m < i) -> has_node st i = false.
Proof.
  intros H. unfold has_node, mem_nat.
  destruct (existsb _ _) eqn:E; [| reflexivity].
  apply existsb_exists in E as (x & Hx & Ex). apply Nat.eqb_eq in Ex. subst x.
  apply List.in_map_iff in Hx as (m & <- & Hm). specialize (H m Hm). lia.
Qed.

Lemma connect_spec (read : bool) (nested : NodeId)
    (arrs : gmap string ArrayDesc) (dict : list (string * string))
    (first fresh' : NodeId) (st st' : SDFGState) :
  (forall m, In m (nodes st) -> nid m < first) ->
  NestSDFG.connect read nested arrs dict first st = Ok (fresh', st') ->
  (exists new, edges st' = edges st ++ new
               /\ Forall2 (boundary_edge read nested st') dict new)
  /\ (forall m, In m (nodes st') -> nid m < fresh')
  /\ (forall i n, find_node st i = Some n -> find_node st' i = Some n).
Proof.
  unfold NestSDFG.connect.
  revert first st. induction dict as [|[k v] dict IH]; intros first st Hlt; simpl.
  - intros [= <- <-]. split; [| split; [exact Hlt | trivial]].
    exists []. split; [now rewrite List.app_nil_r | constructor].
  - destruct (arrs !! k) as [desc|]; simpl; [| discriminate].
    set (node := mkNode first (AccessNode k) [] []).
    set (s1 := add_node node st).
    set (m := NestSDFG.from_array k desc).
    set (s2 := snd (if read then add_edge s1 first None nested (Some v) m
                    else add_edge s1 nested (Some v) first None m)).
    intros H.
    assert (Hs1 : s1 = set_nodes (nodes st ++ [node]) st).
    { unfold s1, add_node.
      replace (has_node st (nid node)) with false; [reflexivity |].
      symmetry. now apply has_node_fresh. }
    assert (Hn2 : nodes s2 = nodes st ++ [node]).
    { unfold s2. destruct read; simpl; now rewrite Hs1. }
    assert (He2 : exists e, edges s2 = edges st ++ [e]
                            /\ data (edata e) = Some k
                            /\ if read then dst e = nested /\ dst_conn e = Some v
                                            /\ src e = first
                               else src e = nested /\ src_conn e = Some v
                                    /\ dst e = first).
    { unfold s2. destruct read; simpl; rewrite Hs1; simpl; eexists;
        (split; [reflexivity |]); simpl; auto. }
    assert (Hk2 : forall i x, find_node st i = Some x -> find_node s2 i = Some x).
    { intros i x F. apply (find_node_app st [node]) in F.
      unfold find_node in *. now rewrite Hn2. }
    assert (Hf2 : find_node s2 first = Some node).
    { unfold find_node. rewrite Hn2.
      pose proof (find_node_snoc st node Hlt) as F.
      unfold find_node in F. simpl in F. exact F. }
    assert (Hlt2 : forall x, In x (nodes s2) -> nid x < S first).
    { intros x. rewrite Hn2. intros Hx.
      apply in_app_or in Hx as [Hx | [<- | []]]; [| simpl; lia].
      specialize (Hlt x Hx). lia. }
    destruct (IH (S first) s2 Hlt2 H) as ((new & Hnew & Hall) & Hlt' & Hmono).
    destruct He2 as (e & He & Hdata & Hends).
    split; [| split; [exact Hlt' | auto]].
    exists (e :: new). split.
    + rewrite Hnew, He, <- List.app_assoc. reflexivity.
    + constructor; [| exact Hall].
      split; [exact Hdata |]. simpl.
      destruct read; destruct Hends as (H1 & H2 & H3);
        (split; [exact H1 |]; split; [exact H2 |]);
        rewrite H3; unfold kind_of; now rewrite (Hmono _ _ Hf2).
Qed.

Lemma boundary_filter_none (read : bool) (nested : NodeId) (st : SDFGState)
    (dict : list (string * string)) (new : list Edge) (X : string) :
  Forall2 (boundary_edge read nested st) dict new ->
  ~ In X (map fst dict) ->
  List.filter (on_array X) new = [].
Proof.
  induction 1 as [|[k v] e dict new [Hd _] _ IH]; simpl; [reflexivity |].
  intros Hk. unfold on_array at 1. rewrite Hd. simpl.
  destruct (String.eqb_spec k X) as [-> | _]; [tauto |].
  apply IH. tauto.
Qed.

Lemma boundary_filter_one (read : bool) (nested : NodeId) (st : SDFGState)
    (dict : list (string * string)) (new : list Edge) (X v : string) :
  Forall2 (boundary_edge read nested st) dict new ->
  List.NoDup (map fst dict) -> In (X, v) dict ->
  exists e, List.filter (on_array X) new = [e]
            /\ boundary_edge read nested st (X, v) e.
Proof.
  induction 1 as [|[k v'] e dict new He Hall IH]; simpl; [intros _ [] |].
  intros Hnd Hin. apply List.NoDup_cons_iff in Hnd as [Hk Hnd].
  unfold on_array at 1. destruct He as [Hd Hends]. rewrite Hd. simpl.
  destruct Hin as [[= -> ->] | Hin].
  - rewrite String.eqb_refl. exists e. split; [| now split].
    now rewrite (boundary_filter_none _ _ _ _ _ _ Hall Hk).
  - destruct (String.eqb_spec k X) as [-> | _].
    + exfalso. apply Hk. apply List.in_map_iff. now exists (X, v).
    + now apply IH.
Qed.

Lemma boundary_edge_mono (read : bool) (nested : NodeId) (st st' : SDFGState)
    (kv : string * string) (e : Edge) :
  (forall i n, find_node st i = Some n -> find_node st' i = Some n) ->
  boundary_edge read nested st kv e -> boundary_edge read nested st' kv e.
Proof.
  intros Hmono [Hd Hends]. split; [exact Hd |].
  assert (Hk : forall i k, kind_of st i = Some k -> kind_of st' i = Some k).
  { intros i k. unfold kind_of.
    destruct (find_node st i) as [n|] eqn:F; [| discriminate].
    now rewrite (Hmono _ _ F). }
  destruct read; destruct Hends as (H1 & H2 & H3); auto.
Qed.

Lemma Forall2_boundary_mono (read : bool) (nested : NodeId)
    (st st' : SDFGState) (dict : list (string * string)) (new : list Edge) :
  (forall i n, find_node st i = Some n -> find_node st' i = Some n) ->
  Forall2 (boundary_edge read nested st) dict new ->
  Forall2 (boundary_edge read nested st') dict new.
Proof.
  intros Hmono. induction 1; constructor; [| assumption].
  now apply (boundary_edge_mono read nested st st').
Qed.

Lemma scan_two_states (sdfg : SDFG) (X : string) (s1 s2 : SDFGState)
    (d : ArrayDesc) (v : NestSDFG.Vars) (ss : list SDFGState) :
  states sdfg = [s1; s2] ->
  arrays sdfg !! X = Some d -> transient d = false ->
  is_read s1 X = true -> is_written s2 X = true ->
  NestSDFG.scan_states false (NestSDFG.mkVars (arrays sdfg) ∅ [] [] [] None)
                       [s1; s2] = Ok (v, ss) ->
  outline_inv (accessed sdfg) X v
  /\ In (X, X +:+ "_in") (NestSDFG.inputs v)
  /\ In (X, X +:+ "_out") (NestSDFG.outputs v).
Proof.
  intros Hst HX Ht Hr Hw. simpl.
  destruct (NestSDFG.scan_state false _ s1) as [[v1 s1']|] eqn:E1;
    [| discriminate].
  destruct (NestSDFG.scan_state false v1 s2) as [[v2 s2']|] eqn:E2;
    [| discriminate].
  intros [= <- <-].
  assert (HP : forall s, In s [s1; s2] -> forall n k,
                 In n (nodes s) -> kind n = AccessNode k -> accessed sdfg k).
  { intros s Hs n k Hn Hk. exists s, n. now rewrite Hst. }
  assert (H0 : outline_inv (accessed sdfg) X
                 (NestSDFG.mkVars (arrays sdfg) ∅ [] [] [] None)).
  { split; [| split; [| split; [reflexivity | now exists d]]];
      (split; [constructor | intros k v []]). }
  destruct (scan_state_inv _ X s1 s1' _ v1 H0 (HP s1 (or_introl eq_refl)) E1)
    as (H1 & _ & _ & Hr1 & _).
  destruct (scan_state_inv _ X s2 s2' _ v2 H1
              (HP s2 (or_intror (or_introl eq_refl))) E2)
    as (H2 & Hi2 & _ & _ & Hw2).
  split; [exact H2 |]. split.
  - apply Hi2, Hr1. unfold is_read in Hr.
    apply existsb_exists in Hr as (n & Hn & Hb).
    apply andb_true_iff in Hb as [Hk Hdeg].
    apply opt_str_eqb_eq in Hk. apply Nat.ltb_lt in Hdeg.
    exists n. split; [exact Hn |]. split; [| exact Hdeg].
    destruct (kind n); simpl in Hk; congruence.
  - apply Hw2. unfold is_written in Hw.
    apply existsb_exists in Hw as (n & Hn & Hb).
    apply andb_true_iff in Hb as [Hk Hdeg].
    apply opt_str_eqb_eq in Hk. apply Nat.ltb_lt in Hdeg.
    exists n. split; [exact Hn |]. split; [| exact Hdeg].
    destruct (kind n); simpl in Hk; congruence.
Qed.

(** C6: NestSDFG.apply on scenario C in an SDFG that also reads an array
    named X_in: X is read in the first state and written in the second,
    NestSDFG.apply completes, and the child table has X_out and no array
    X_in: the entry written for the input X is popped with the old names,
    X_in being one of them. *)
Lemma collision_drops_X_in :
  (arrays collision_sdfg !! "X" = Some (float_array [10%Z])
   /\ is_read collision_state1 "X" = true
   /\ is_written collision_state2 "X" = true)
  /\ ((fun g => (child_has g "X_in", child_has g "X_out"))
      <$> NestSDFG.apply false collision_sdfg)
     = Ok (Some false, Some true).
Proof. split; [repeat split |]; vm_compute; reflexivity. Qed.

(** X26: under the default policy, for every two-state SDFG in
    which the non-transient array X is read in the first state and written
    in the second and no access node is named X_in or X_out, a completed
    NestSDFG.apply leaves one state with the nested SDFG node; X is in the
    outer table, X_in and X_out are in the child table and are connectors
    of the node, and exactly two edges of the outer state carry a memlet on
    X: one from an access node of X into connector X_in, one from connector
    X_out to an access node of X. *)
Theorem outline_classifies_both (X : string) (sdfg g' : SDFG)
    (s1 s2 : SDFGState) (d : ArrayDesc) :
  states sdfg = [s1; s2] ->
  arrays sdfg !! X = Some d -> transient d = false ->
  is_read s1 X = true -> is_written s2 X = true ->
  ~ accessed sdfg (X +:+ "_in") -> ~ accessed sdfg (X +:+ "_out") ->
  NestSDFG.apply false sdfg = Ok g' ->
  exists outer_state nested lbl child e_in e_out,
    states g' = [outer_state]
    /\ find_node outer_state (nid nested) = Some nested
    /\ kind nested = NestedSDFG lbl child
    /\ is_Some (arrays g' !! X)
    /\ is_Some (arrays child !! (X +:+ "_in"))
    /\ is_Some (arrays child !! (X +:+ "_out"))
    /\ In (X +:+ "_in") (in_connectors nested)
    /\ In (X +:+ "_out") (out_connectors nested)
    /\ List.filter (on_array X) (edges outer_state) = [e_in; e_out]
    /\ boundary_edge true (nid nested) outer_state (X, X +:+ "_in") e_in
    /\ boundary_edge false (nid nested) outer_state (X, X +:+ "_out") e_out.
Proof.
  intros Hst HX Ht Hr Hw Hnin Hnout. unfold NestSDFG.apply. rewrite Hst.
  destruct (NestSDFG.scan_states false _ [s1; s2]) as [[v ss]|] eqn:Escan;
    simpl; [| discriminate].
  destruct (scan_two_states sdfg X s1 s2 d v ss Hst HX Ht Hr Hw Escan)
    as ((Hin & Hout & Htr & _) & HXin & HXout).
  destruct (NestSDFG.drop_old_names v) as [narrs|] eqn:Edrop; simpl;
    [| discriminate].
  rewrite Htr. simpl.
  destruct (foldR _ ss []) as [ss'|] eqn:Eupd; simpl; [| discriminate].
  set (fresh := S (NestSDFG.max_nid ss')).
  set (child := mkSDFG (label sdfg) narrs ss' (interstate sdfg)).
  set (nested := mkNode fresh (NestedSDFG (label sdfg) child)
                        (map snd (NestSDFG.inputs v))
                        (map snd (NestSDFG.outputs v))).
  set (st0 := mkState (label sdfg) [nested] [] 0).
  destruct (NestSDFG.connect true fresh _ (NestSDFG.inputs v) (S fresh) st0)
    as [[fresh1 st1]|] eqn:Ec1; simpl; [| discriminate].
  destruct (NestSDFG.connect false fresh _ (NestSDFG.outputs v) fresh1 st1)
    as [[fresh2 st2]|] eqn:Ec2; simpl; [| discriminate].
  intros [= <-].
  assert (Hlt0 : forall m, In m (nodes st0) -> nid m < S fresh).
  { intros m [<- | []]. simpl. lia. }
  destruct (connect_spec true fresh _ _ _ _ _ _ Hlt0 Ec1)
    as ((new1 & He1 & Hall1) & Hlt1 & Hmono1).
  destruct (connect_spec false fresh _ _ _ _ _ _ Hlt1 Ec2)
    as ((new2 & He2 & Hall2) & _ & Hmono2).
  apply (Forall2_boundary_mono true fresh st1 st2 _ _ Hmono2) in Hall1.
  destruct (boundary_filter_one true fresh st2 _ _ X _ Hall1 (proj1 Hin) HXin)
    as (e_in & Hf1 & Hb1).
  destruct (boundary_filter_one false fresh st2 _ _ X _ Hall2 (proj1 Hout) HXout)
    as (e_out & Hf2 & Hb2).
  assert (Hkeys : forall k, ~ accessed sdfg k ->
            ~ In k (map fst (NestSDFG.inputs v))
            /\ ~ In k (map fst (NestSDFG.outputs v))).
  { intros k Hk. split; intros Hi;
      apply List.in_map_iff in Hi as ([k' x] & Hfst & Hi); simpl in Hfst;
      subst k'; [apply (proj2 Hin) in Hi | apply (proj2 Hout) in Hi];
      now destruct Hi as (Hp & _). }
  assert (Hnarrs : forall k, ~ accessed sdfg k ->
            narrs !! k = NestSDFG.nested_arrays v !! k).
  { intros k Hk. destruct (Hkeys k Hk) as [Hki Hko].
    unfold NestSDFG.drop_old_names in Edrop. rewrite Htr in Edrop.
    destruct (foldR _ (NestSDFG.inputs v) _) as [a1|] eqn:Epop;
      simpl in Edrop; [| discriminate].
    injection Edrop as <-.
    rewrite (deletes_lookup _ _ _ Hko). exact (pops_lookup _ _ _ _ Epop Hki). }
  exists st2, nested, (label sdfg), child, e_in, e_out.
  split; [reflexivity |].
  split; [apply Hmono2, Hmono1; simpl; unfold find_node; simpl;
          now rewrite Nat.eqb_refl |].
  split; [reflexivity |].
  split; [exact (proj2 (proj2 (proj2 (proj2 Hin X _ HXin)))) |].
  split; [simpl; rewrite (Hnarrs _ Hnin);
          exact (proj1 (proj2 (proj2 (proj2 Hin X _ HXin)))) |].
  split; [simpl; rewrite (Hnarrs _ Hnout);
          exact (proj1 (proj2 (proj2 (proj2 Hout X _ HXout)))) |].
  split; [simpl; apply List.in_map_iff; now exists (X, X +:+ "_in") |].
  split; [simpl; apply List.in_map_iff; now exists (X, X +:+ "_out") |].
  split; [| split; [exact Hb1 | exact Hb2]].
  rewrite He2, He1. simpl. rewrite List.filter_app, Hf1, Hf2. reflexivity.
Qed.

Lemma C_sdfg_has_no_suffixed_node (k : string) :
  k = "X_in" \/ k = "X_out" -> ~ accessed C_sdfg k.
Proof.
  intros Hk (s & n & Hs & Hn & Hkind). simpl in Hs.
  destruct Hs as [<- | [<- | []]]; simpl in Hn;
    repeat (destruct Hn as [<- | Hn]; [simpl in Hkind |]);
    try contradiction; destruct Hk as [-> | ->]; discriminate.
Qed.

Lemma outline_classifies_both_witness :
  exists outer_state nested lbl child e_in e_out,
    states C_outlined = [outer_state]
    /\ find_node outer_state (nid nested) = Some nested
    /\ kind nested = NestedSDFG lbl child
    /\ is_Some (arrays C_outlined !! "X")
    /\ is_Some (arrays child !! ("X" +:+ "_in"))
    /\ is_Some (arrays child !! ("X" +:+ "_out"))
    /\ In ("X" +:+ "_in") (in_connectors nested)
    /\ In ("X" +:+ "_out") (out_connectors nested)
    /\ List.filter (on_array "X") (edges outer_state) = [e_in; e_out]
    /\ boundary_edge true (nid nested) outer_state ("X", "X" +:+ "_in") e_in
    /\ boundary_edge false (nid nested) outer_state ("X", "X" +:+ "_out") e_out.
Proof.
  apply (outline_classifies_both "X" C_sdfg C_outlined C_state1 C_state2
           (float_array [10%Z])).
  - reflexivity.
  - reflexivity.
  - reflexivity.
  - reflexivity.
  - reflexivity.
  - apply C_sdfg_has_no_suffixed_node. now left.
  - apply C_sdfg_has_no_suffixed_node. now right.
  - vm_compute. reflexivity.
Defined.

(** ** Unsupported memlets are reported *)

Lemma modify_memlet_unsupported (inner outer : Memlet) :
  unsupported inner outer -> exists e, _modify_memlet inner outer = Raise e.
Proof.
  intros Hbad. unfold _modify_memlet, _modify_memlet_with.
  destruct (length (subset inner) <? length (subset outer))%nat eqn:E1.
  - apply Nat.ltb_lt in E1. destruct Hbad as [Hlt | [o Ho]]; [lia |].
    destruct (unsqueeze _ _) as [s|e]; simpl; [| eauto].
    destruct (offset _ _) as [s'|e]; simpl; [| eauto].
    rewrite Ho. eauto.
  - destruct (length (subset outer) <? length (subset inner))%nat eqn:E2;
      simpl; [eauto |].
    apply Nat.ltb_ge in E2. destruct Hbad as [Hlt | [o Ho]]; [lia |].
    destruct (offset _ _) as [s'|e]; simpl; [| eauto].
    rewrite Ho. eauto.
Qed.

Lemma unsupported_same_shape (inner inner' outer : Memlet) :
  same_shape inner inner' -> unsupported inner outer -> unsupported inner' outer.
Proof. intros [Hs _] [H | H]; [left; now rewrite <- Hs | now right]. Qed.

(** ** Computations that raise *)

Lemma bindM_raises {S A B} (c : M S A) (k : A -> M S B) (w : S) :
  (forall a w', c w = (w', Ok a) -> exists e, snd (k a w') = Raise e) ->
  exists e, snd (bindM c k w) = Raise e.
Proof.
  intros H. unfold bindM. destruct (c w) as [w' [a|e]] eqn:E; [| simpl; eauto].
  now apply H.
Qed.

Lemma bindM_ok {S A B} (c : M S A) (k : A -> M S B) (w w2 : S) (b : B) :
  bindM c k w = (w2, Ok b) ->
  exists a w1, c w = (w1, Ok a) /\ k a w1 = (w2, Ok b).
Proof.
  unfold bindM. destruct (c w) as [w1 [a|e]]; [eauto | discriminate].
Qed.

(** A loop whose body keeps an invariant raises as soon as one of its
    items makes the body raise under the invariant. *)
Lemma foldM_raises {S A B} (I : S -> Prop) (f : B -> A -> M S B)
    (l : list A) (x : A) :
  (forall b y w w' b', In y l -> I w -> f b y w = (w', Ok b') -> I w') ->
  In x l ->
  (forall b w, I w -> exists e, snd (f b x w) = Raise e) ->
  forall b w, I w -> exists e, snd (foldM f l b w) = Raise e.
Proof.
  induction l as [|y l IH]; intros Hkeep Hin Hx b w Hw; [destruct Hin |].
  simpl. apply bindM_raises. intros b' w' E.
  destruct Hin as [-> | Hin].
  - destruct (Hx b w Hw) as [e He]. rewrite E in He. discriminate.
  - apply IH; try assumption.
    + intros b0 y0 w0 w0' b0' Hy0. apply Hkeep. now right.
    + apply (Hkeep b y w w' b'); [now left | assumption | assumption].
Qed.

Lemma foldM_keeps {S A B} (I : S -> Prop) (f : B -> A -> M S B) (l : list A) :
  (forall b y w w' b', In y l -> I w -> f b y w = (w', Ok b') -> I w') ->
  forall b w w' b', I w -> foldM f l b w = (w', Ok b') -> I w'.
Proof.
  induction l as [|y l IH]; intros Hkeep b w w' b' Hw; simpl.
  - unfold retM. now intros [= <- <-].
  - intros H. apply bindM_ok in H as (b1 & w1 & E1 & E2).
    apply (IH (fun b0 y0 w0 w0' b0' Hy0 => Hkeep b0 y0 w0 w0' b0' (or_intror Hy0))
              b1 w1 w' b'); [| exact E2].
    apply (Hkeep b y w w1 b1); [now left | assumption | assumption].
Qed.

(** ** Edges of a state under the operations of apply *)

Lemma find_unique (l : list Edge) (x : Edge) :
  List.NoDup (map eid l) -> In x l ->
  List.find (fun e => eid e =? eid x)%nat l = Some x.
Proof.
  induction l as [|y l IH]; simpl; [intros _ [] |].
  intros Hnd Hin. apply List.NoDup_cons_iff in Hnd as [Hy Hnd].
  destruct Hin as [-> | Hin]; [now rewrite Nat.eqb_refl |].
  destruct (Nat.eqb_spec (eid y) (eid x)) as [E | _]; [| now apply IH].
  exfalso. apply Hy. rewrite E. now apply List.in_map.
Qed.

Lemma current_kept (st : SDFGState) (t : Edge) :
  ids_ok st -> In t (edges st) -> current st t = t.
Proof.
  intros [Hnd _] Hin. unfold current, find_edge.
  now rewrite (find_unique _ _ Hnd Hin).
Qed.

Lemma same_eid_same_edge (st : SDFGState) (e e' : Edge) :
  ids_ok st -> In e (edges st) -> In e' (edges st) -> eid e = eid e' -> e = e'.
Proof.
  intros [Hnd _] He He' E.
  pose proof (find_unique _ _ Hnd He) as F1.
  pose proof (find_unique _ _ Hnd He') as F2.
  rewrite E in F1. congruence.
Qed.

Lemma add_edge_spec (st st' : SDFGState) (s d : NodeId)
    (sc dc : option string) (m : Memlet) (e : Edge) :
  add_edge st s sc d dc m = (e, st') ->
  e = mkEdge (next_eid st) s sc d dc m
  /\ edges st' = edges st ++ [e]
  /\ nodes st' = nodes st
  /\ next_eid st' = S (next_eid st).
Proof. unfold add_edge. intros [= <- <-]. now repeat split. Qed.

Lemma ids_ok_add (st st' : SDFGState) (e : Edge) :
  ids_ok st -> edges st' = edges st ++ [e] -> eid e = next_eid st ->
  next_eid st' = S (next_eid st) -> ids_ok st'.
Proof.
  intros [Hnd Hlt] He Hid Hn. split.
  - rewrite He, List.map_app. simpl. apply List.NoDup_app; [exact Hnd | |].
    + constructor; [intros [] | constructor].
    + intros x Hx [<- | []]. apply List.in_map_iff in Hx as (y & Hy & Hin).
      specialize (Hlt y Hin). lia.
  - intros x. rewrite He, Hn. intros Hx.
    apply in_app_or in Hx as [Hx | [<- | []]]; [| lia].
    specialize (Hlt x Hx). lia.
Qed.

Lemma rebind_edges (t : Edge) (m : Memlet) (st : SDFGState) (e : Edge) :
  In e (edges (InlineSDFG.rebind t m st)) ->
  exists e0, In e0 (edges st) /\ skeleton e = skeleton e0
             /\ (eid e0 <> eid t -> e = e0).
Proof.
  unfold InlineSDFG.rebind. destruct st as [l ns es k]. simpl.
  intros Hin. apply List.in_map_iff in Hin as (e0 & <- & Hin).
  exists e0. split; [exact Hin |].
  destruct (Nat.eqb_spec (eid e0) (eid t)); split; try reflexivity;
    try contradiction; trivial.
Qed.

Lemma rebind_eids (t : Edge) (m : Memlet) (st : SDFGState) :
  map eid (edges (InlineSDFG.rebind t m st)) = map eid (edges st)
  /\ next_eid (InlineSDFG.rebind t m st) = next_eid st
  /\ nodes (InlineSDFG.rebind t m st) = nodes st.
Proof.
  unfold InlineSDFG.rebind. destruct st as [l ns es k]. simpl.
  split; [| now split]. rewrite List.map_map. apply List.map_ext.
  intros e. now destruct (eid e =? eid t)%nat.
Qed.

Lemma rebind_keeps_edge (t : Edge) (m : Memlet) (st : SDFGState) (e : Edge) :
  In e (edges st) -> eid e <> eid t -> In e (edges (InlineSDFG.rebind t m st)).
Proof.
  unfold InlineSDFG.rebind. destruct st as [l ns es k]. simpl.
  intros Hin Hne. apply List.in_map_iff. exists e.
  destruct (Nat.eqb_spec (eid e) (eid t)); [contradiction | now split].
Qed.

(** ** Memlet trees stay on their side of the nested SDFG node *)

Lemma out_edges_In (st : SDFGState) (n : NodeId) (e : Edge) :
  In e (out_edges st n) <-> In e (edges st) /\ src e = n.
Proof.
  unfold out_edges. rewrite List.filter_In, Nat.eqb_eq. tauto.
Qed.

Lemma in_edges_In (st : SDFGState) (n : NodeId) (e : Edge) :
  In e (in_edges st n) <-> In e (edges st) /\ dst e = n.
Proof.
  unfold in_edges. rewrite List.filter_In, Nat.eqb_eq. tauto.
Qed.

Lemma down_edges_below (Pn : NodeId -> bool) (st : SDFGState) (fuel : nat)
    (e e' : Edge) :
  closed_below Pn st -> Pn (dst e) = false ->
  In e' (down_edges fuel st e) ->
  In e' (edges st) /\ Pn (src e') = false /\ Pn (dst e') = false.
Proof.
  intros HJ. revert e.
  induction fuel as [|fuel IH]; intros e Hd; cbn [down_edges]; [intros [] |].
  destruct (is_scope_node st (dst e)); [| intros []].
  destruct (dst_conn e) as [c|]; [| intros []].
  destruct (strip_prefix "IN_" c) as [x|]; [| intros []].
  intros Hin. apply List.in_flat_map in Hin as (y & Hy & Hin).
  apply List.filter_In in Hy as [Hy _]. apply out_edges_In in Hy as [Hy Hs].
  assert (Hsy : Pn (src y) = false) by now rewrite Hs.
  assert (Hdy : Pn (dst y) = false) by now apply HJ.
  destruct Hin as [<- | Hin]; [now repeat split | now apply (IH y)].
Qed.

Lemma up_edges_within (Pn : NodeId -> bool) (st : SDFGState) (fuel : nat)
    (e e' : Edge) :
  closed_below Pn st -> Pn (src e) = true ->
  In e' (up_edges fuel st e) -> In e' (edges st) /\ Pn (dst e') = true.
Proof.
  intros HJ. revert e.
  induction fuel as [|fuel IH]; intros e Hs; cbn [up_edges]; [intros [] |].
  destruct (is_scope_node st (src e)); [| intros []].
  destruct (src_conn e) as [c|]; [| intros []].
  destruct (strip_prefix "OUT_" c) as [x|]; [| intros []].
  intros Hin. apply List.in_flat_map in Hin as (y & Hy & Hin).
  apply List.filter_In in Hy as [Hy _]. apply in_edges_In in Hy as [Hy Hd].
  assert (Hdy : Pn (dst y) = true) by now rewrite Hd.
  apply in_app_or in Hin as [Hin | [<- | []]]; [| now split].
  apply (IH y); [| exact Hin].
  destruct (Pn (src y)) eqn:E; [reflexivity |].
  rewrite (HJ y Hy E) in Hdy. discriminate.
Qed.

Lemma up_edges_above (Pn : NodeId -> bool) (rank : NodeId -> nat)
    (nN : NodeId) (st : SDFGState) (fuel : nat) (e e' : Edge) :
  closed_above Pn rank nN st -> upstream Pn rank nN (src e) ->
  In e' (up_edges fuel st e) ->
  In e' (edges st) /\ upstream Pn rank nN (src e')
  /\ upstream Pn rank nN (dst e').
Proof.
  intros HK. revert e.
  induction fuel as [|fuel IH]; intros e Hs; cbn [up_edges]; [intros [] |].
  destruct (is_scope_node st (src e)); [| intros []].
  destruct (src_conn e) as [c|]; [| intros []].
  destruct (strip_prefix "OUT_" c) as [x|]; [| intros []].
  intros Hin. apply List.in_flat_map in Hin as (y & Hy & Hin).
  apply List.filter_In in Hy as [Hy _]. apply in_edges_In in Hy as [Hy Hd].
  assert (Hdy : upstream Pn rank nN (dst y)) by now rewrite Hd.
  assert (Hsy : upstream Pn rank nN (src y)) by now apply HK.
  apply in_app_or in Hin as [Hin | [<- | []]]; [now apply (IH y) |].
  now repeat split.
Qed.

Lemma after_edge_app (e : Edge) (up down : list Edge) :
  (forall x, In x up -> eid x <> eid e) ->
  after_edge e (up ++ [e] ++ down) = down.
Proof.
  induction up as [|y up IH]; simpl; intros H.
  - now rewrite Nat.eqb_refl.
  - destruct (Nat.eqb_spec (eid y) (eid e)) as [E | _].
    + exfalso. now apply (H y (or_introl eq_refl)).
    + apply IH. intros x Hx. apply H. now right.
Qed.

Lemma before_edge_app (e : Edge) (up rest : list Edge) (x : Edge) :
  In x (before_edge e (up ++ e :: rest)) -> In x up.
Proof.
  induction up as [|y up IH]; simpl.
  - now rewrite Nat.eqb_refl.
  - destruct (eid y =? eid e)%nat; [intros [] |].
    intros [<- | Hin]; [now left | right; now apply IH].
Qed.

(** ** The loops of _modify_memlet_path *)

Lemma skeleton_eq (e e0 : Edge) :
  skeleton e = skeleton e0 ->
  eid e = eid e0 /\ src e = src e0 /\ dst e = dst e0.
Proof. unfold skeleton. intros [= H1 H2 _ H3 _]. now repeat split. Qed.

Section Reconnect.

Variable Pn : NodeId -> bool.
Variable rank : NodeId -> nat.
Variable nN : NodeId.
Variables state0 ns : SDFGState.

Hypothesis HN : Pn nN = true.
Hypothesis Hns : forall e, In e (edges ns) ->
                   Pn (src e) = false /\ Pn (dst e) = false.

Let Inv := loop_inv Pn rank nN state0 ns.

(** The edges of a memlet tree that are rebound never have the identity of
    an edge at the nested SDFG node. *)
Let targets_ok (slice : list Edge) (w : InlineSDFG.World) : Prop :=
  forall x e, In x slice -> In e (edges (InlineSDFG.w_state w)) ->
              eid e = eid x -> ~ touches nN e.

Lemma modify_tree_edge_keeps (below : bool) (top : Edge) (slice : list Edge)
    (res res' : list EdgeId) (x : Edge) (w w' : InlineSDFG.World) :
  In x slice -> Inv below w /\ targets_ok slice w ->
  InlineSDFG.modify_tree_edge top res x w = (w', Ok res') ->
  Inv below w' /\ targets_ok slice w'.
Proof.
  intros Hx [(Hids & HJ & HK & Hkeep & Hn) Ht]. unfold InlineSDFG.modify_tree_edge.
  intros H. apply bindM_ok in H as (st2 & w1 & E1 & H).
  unfold gets in E1. injection E1 as <- <-.
  apply bindM_ok in H as (m & w1 & E1 & H).
  unfold lift in E1. injection E1 as <- Em.
  apply bindM_ok in H as ([] & w1 & E1 & H).
  unfold modify in E1. injection E1 as <-.
  unfold retM in H. injection H as <- _.
  set (st := InlineSDFG.w_state w) in *.
  destruct (rebind_eids x m st) as (Heids & Hnext & _).
  assert (Hrel : forall e, In e (edges (InlineSDFG.rebind x m st)) ->
            exists e0, In e0 (edges st) /\ eid e = eid e0 /\ src e = src e0
                       /\ dst e = dst e0).
  { intros e He. apply rebind_edges in He as (e0 & He0 & Hsk & _).
    exists e0. split; [exact He0 | now apply skeleton_eq]. }
  split; [split; [| split; [| split; [| split]]] |];
    unfold targets_ok;
    cbn [InlineSDFG.on_state InlineSDFG.w_state InlineSDFG.w_nstate];
    fold st.
  - destruct Hids as [Hnd Hlt]. split; [now rewrite Heids |].
    intros e He. destruct (Hrel e He) as (e0 & He0 & -> & _).
    rewrite Hnext. now apply Hlt.
  - intros Hb e He Hs. destruct (Hrel e He) as (e0 & He0 & _ & Hs0 & Hd0).
    rewrite Hd0. apply (HJ Hb e0 He0). now rewrite <- Hs0.
  - intros e He Hu. destruct (Hrel e He) as (e0 & He0 & _ & Hs0 & Hd0).
    rewrite Hs0. apply (HK e0 He0). now rewrite <- Hd0.
  - intros t Ht0 Htouch. apply rebind_keeps_edge; [now apply Hkeep |].
    intros E. apply (Ht x t Hx (Hkeep t Ht0 Htouch) E Htouch).
  - exact Hn.
  - intros y e Hy He E Htouch.
    destruct (Hrel e He) as (e0 & He0 & Hid & Hs0 & Hd0).
    apply (Ht y e0 Hy He0); [congruence |].
    unfold touches in *. now rewrite <- Hs0, <- Hd0.
Qed.

Lemma modify_tree_keeps (below : bool) (top : Edge) (slice : list Edge)
    (res res' : list EdgeId) (w w' : InlineSDFG.World) :
  Inv below w -> targets_ok slice w ->
  foldM (InlineSDFG.modify_tree_edge top) slice res w = (w', Ok res') ->
  Inv below w'.
Proof.
  intros Hinv Ht H.
  apply (foldM_keeps (fun w => Inv below w /\ targets_ok slice w)
           (InlineSDFG.modify_tree_edge top) slice) in H; [tauto | | tauto].
  intros b y w0 w0' b' Hy Hw0. now apply modify_tree_edge_keeps.
Qed.

Lemma add_edgeM_spec (s d : NodeId) (sc dc : option string) (m : Memlet)
    (w w1 : InlineSDFG.World) (e : Edge) :
  InlineSDFG.add_edgeM s sc d dc m w = (w1, Ok e) ->
  e = mkEdge (next_eid (InlineSDFG.w_state w)) s sc d dc m
  /\ edges (InlineSDFG.w_state w1) = edges (InlineSDFG.w_state w) ++ [e]
  /\ nodes (InlineSDFG.w_state w1) = nodes (InlineSDFG.w_state w)
  /\ next_eid (InlineSDFG.w_state w1) = S (next_eid (InlineSDFG.w_state w))
  /\ InlineSDFG.w_nstate w1 = InlineSDFG.w_nstate w
  /\ InlineSDFG.w_arrays w1 = InlineSDFG.w_arrays w.
Proof.
  unfold InlineSDFG.add_edgeM, add_edge. intros [= <- <-]. now repeat split.
Qed.

Lemma not_upstream_nN : ~ upstream Pn rank nN nN.
Proof. intros [H | H]; [congruence | lia]. Qed.

Lemma reconnect_edge_keeps (inputs : bool) (top inner : Edge)
    (res res' : list EdgeId) (w w' : InlineSDFG.World) :
  (if inputs then dst top = nN else src top = nN) ->
  Pn (src top) = true -> Pn (dst top) = true ->
  rank (src top) < rank (dst top) ->
  In inner (edges ns) ->
  Inv inputs w ->
  InlineSDFG.reconnect_edge inputs top res inner w = (w', Ok res') ->
  Inv inputs w'.
Proof.
  intros Htop Hps Hpd Hrank Hinner (Hids & HJ & HK & Hkeep & Hn).
  destruct (Hns inner Hinner) as [His Hid].
  unfold InlineSDFG.reconnect_edge. intros H.
  apply bindM_ok in H as (st & w0 & E & H). unfold gets in E.
  injection E as <- <-.
  apply bindM_ok in H as (new_memlet & w0 & E & H). unfold lift in E.
  injection E as <- _.
  apply bindM_ok in H as (e & w1 & Eadd & H).
  apply bindM_ok in H as (st1 & w2 & E & H). unfold gets in E.
  injection E as <- <-.
  assert (Hadd : exists s sc d dc,
            InlineSDFG.add_edgeM s sc d dc new_memlet w = (w1, Ok e)
            /\ (if inputs then s = src top /\ d = dst inner
                else s = src inner /\ d = dst top)).
  { destruct inputs; eauto 10. }
  destruct Hadd as (s & sc & d & dc & Hadd & Hsd).
  apply add_edgeM_spec in Hadd as (He & Hedges & _ & Hnext & Hns1 & _).
  assert (Hse : src e = s /\ dst e = d /\ eid e = next_eid (InlineSDFG.w_state w))
    by now rewrite He.
  destruct Hse as (Hse & Hde & Hie).
  set (st1 := InlineSDFG.w_state w1) in *.
  assert (Hin1 : In e (edges st1)).
  { rewrite Hedges. apply in_or_app. right. now left. }
  assert (Hold : forall x, In x (edges st1) ->
                   In x (edges (InlineSDFG.w_state w)) \/ x = e).
  { intros x. rewrite Hedges. intros Hx.
    apply in_app_or in Hx as [Hx | [<- | []]]; auto. }
  assert (Hids1 : ids_ok st1) by now apply (ids_ok_add _ _ e Hids).
  assert (HK1 : closed_above Pn rank nN st1).
  { intros x Hx Hu. destruct (Hold x Hx) as [Hx0 | ->]; [now apply HK |].
    rewrite Hse. rewrite Hde in Hu. destruct inputs; destruct Hsd as [-> ->].
    - right. now rewrite <- Htop.
    - exfalso. destruct Hu as [Hu | Hu]; [congruence |].
      rewrite Htop in Hrank. lia. }
  assert (HJ1 : inputs = true -> closed_below Pn st1).
  { intros -> x Hx Hsx. destruct (Hold x Hx) as [Hx0 | ->]; [now apply HJ |].
    destruct Hsd as [-> ->]. rewrite Hse in Hsx. congruence. }
  assert (Hinv1 : Inv inputs w1).
  { split; [exact Hids1 |]. split; [exact HJ1 |]. split; [exact HK1 |].
    split; [| now rewrite Hns1].
    intros t Ht Htouch. fold st1. rewrite Hedges. apply in_or_app. left.
    now apply Hkeep. }
  apply (modify_tree_keeps inputs top _ _ _ _ _ Hinv1) in H; [exact H |].
  intros x e' Hx He' Eid Htouch. fold st1 in He'.
  assert (Hx' : In x (edges st1)
                /\ ((Pn (src x) = false /\ Pn (dst x) = false)
                    \/ (upstream Pn rank nN (src x)
                        /\ upstream Pn rank nN (dst x)))).
  { unfold memlet_tree in Hx. fold st1 in Hx.
    destruct (is_empty_memlet_edge e).
    - exfalso. destruct inputs; simpl in Hx; rewrite Nat.eqb_refl in Hx;
        exact Hx.
    - destruct inputs; destruct Hsd as [-> ->].
      + rewrite after_edge_app in Hx.
        * apply (down_edges_below Pn st1) in Hx;
            [tauto | now apply HJ1 | now rewrite Hde].
        * intros y Hy E.
          apply (up_edges_within Pn st1) in Hy as [Hy Hdy];
            [| now apply HJ1 | now rewrite Hse].
          rewrite (same_eid_same_edge st1 y e Hids1 Hy Hin1 E) in Hdy.
          rewrite Hde in Hdy. congruence.
      + apply before_edge_app in Hx.
        apply (up_edges_above Pn rank nN st1) in Hx;
          [tauto | exact HK1 | left; now rewrite Hse]. }
  destruct Hx' as [Hx1 Hside].
  rewrite (same_eid_same_edge st1 e' x Hids1 He' Hx1 Eid) in Htouch.
  destruct Hside as [[Hsx Hdx] | [Hsx Hdx]]; destruct Htouch as [Ht | Ht];
    rewrite Ht in *; try congruence; now apply not_upstream_nN.
Qed.

(** What is known of the outer edge of a connector. *)
Let top_ok (inputs : bool) (top : Edge) : Prop :=
  In top (edges state0)
  /\ (if inputs then dst top = nN else src top = nN)
  /\ Pn (src top) = true /\ Pn (dst top) = true
  /\ rank (src top) < rank (dst top).

Lemma top_ok_touches (inputs : bool) (top : Edge) :
  top_ok inputs top -> touches nN top.
Proof. intros (_ & H & _). destruct inputs; [now right | now left]. Qed.

Lemma reconnect_edge_raises (inputs : bool) (top inner : Edge)
    (res : list EdgeId) (w : InlineSDFG.World) :
  top_ok inputs top -> Inv inputs w ->
  unsupported (edata inner) (edata top) ->
  exists e, snd (InlineSDFG.reconnect_edge inputs top res inner w) = Raise e.
Proof.
  intros Htop (Hids & _ & _ & Hkeep & _) Hbad.
  unfold InlineSDFG.reconnect_edge.
  apply bindM_raises. intros st w0 E. unfold gets in E. injection E as <- <-.
  apply bindM_raises. intros m w0 E. unfold lift in E. injection E as <- E.
  rewrite (current_kept _ top Hids) in E.
  - destruct (modify_memlet_unsupported _ _ Hbad) as [e He]. congruence.
  - apply Hkeep; [apply Htop | now apply (top_ok_touches inputs)].
Qed.

Lemma inner_edges_in (inputs : bool) (node : NodeId) (inner : Edge) :
  In inner (if inputs then out_edges ns node else in_edges ns node) ->
  In inner (edges ns).
Proof.
  destruct inputs; intros H;
    [apply out_edges_In in H | apply in_edges_In in H]; tauto.
Qed.

Lemma reconnect_node_keeps (inputs : bool) (node : NodeId) (top : Edge)
    (res res' : list EdgeId) (w w' : InlineSDFG.World) :
  top_ok inputs top -> Inv inputs w ->
  InlineSDFG.reconnect_node inputs res (node, top) w = (w', Ok res') ->
  Inv inputs w'.
Proof.
  intros (Hin & Hside & Hps & Hpd & Hrank) Hinv.
  unfold InlineSDFG.reconnect_node. intros H.
  apply bindM_ok in H as (nstate & w0 & E & H). unfold gets in E.
  injection E as <- <-.
  assert (Hn : InlineSDFG.w_nstate w = ns) by apply Hinv. rewrite Hn in H.
  apply (foldM_keeps (Inv inputs) _ _) in H; [exact H | | exact Hinv].
  intros b y w1 w1' b' Hy Hw1.
  apply (reconnect_edge_keeps inputs top y); try assumption.
  now apply (inner_edges_in inputs node).
Qed.

Lemma reconnect_node_raises (inputs : bool) (node : NodeId)
    (top inner : Edge) (res : list EdgeId) (w : InlineSDFG.World) :
  top_ok inputs top -> Inv inputs w ->
  In inner (if inputs then out_edges ns node else in_edges ns node) ->
  unsupported (edata inner) (edata top) ->
  exists e, snd (InlineSDFG.reconnect_node inputs res (node, top) w) = Raise e.
Proof.
  intros Htop Hinv Hinner Hbad. unfold InlineSDFG.reconnect_node.
  apply bindM_raises. intros nstate w0 E. unfold gets in E.
  injection E as <- <-.
  assert (Hn : InlineSDFG.w_nstate w = ns) by apply Hinv. rewrite Hn.
  apply (foldM_raises (Inv inputs) _ _ inner); try assumption.
  - intros b y w1 w1' b' Hy Hw1. destruct Htop as (Hin & Hside & Hps & Hpd & Hr).
    apply (reconnect_edge_keeps inputs top y); try assumption.
    now apply (inner_edges_in inputs node).
  - intros b w1 Hw1. now apply reconnect_edge_raises.
Qed.

Lemma modify_memlet_path_keeps (inputs : bool)
    (new_edges : list (NodeId * Edge)) (res : list EdgeId)
    (w w' : InlineSDFG.World) :
  (forall item, In item new_edges -> top_ok inputs (snd item)) ->
  Inv inputs w ->
  InlineSDFG._modify_memlet_path new_edges inputs w = (w', Ok res) ->
  Inv inputs w'.
Proof.
  intros Htops Hinv H. unfold InlineSDFG._modify_memlet_path in H.
  apply (foldM_keeps (Inv inputs) _ _) in H; [exact H | | exact Hinv].
  intros b [node top] w1 w1' b' Hy Hw1.
  apply reconnect_node_keeps; [| exact Hw1]. exact (Htops _ Hy).
Qed.

Lemma modify_memlet_path_raises (inputs : bool)
    (new_edges : list (NodeId * Edge)) (node : NodeId) (top inner : Edge)
    (w : InlineSDFG.World) :
  (forall item, In item new_edges -> top_ok inputs (snd item)) ->
  Inv inputs w ->
  In (node, top) new_edges ->
  In inner (if inputs then out_edges ns node else in_edges ns node) ->
  unsupported (edata inner) (edata top) ->
  exists e, snd (InlineSDFG._modify_memlet_path new_edges inputs w) = Raise e.
Proof.
  intros Htops Hinv Hitem Hinner Hbad. unfold InlineSDFG._modify_memlet_path.
  apply (foldM_raises (Inv inputs) _ _ (node, top)); try assumption.
  - intros b [node' top'] w1 w1' b' Hy Hw1.
    apply reconnect_node_keeps; [| exact Hw1]. exact (Htops _ Hy).
  - intros b w1 Hw1. apply (reconnect_node_raises inputs node top inner);
      try assumption. exact (Htops _ Hitem).
Qed.

Lemma loop_inv_weaken (w : InlineSDFG.World) : Inv true w -> Inv false w.
Proof.
  intros (H1 & _ & H3 & H4 & H5). split; [exact H1 |].
  split; [discriminate | now repeat split].
Qed.

End Reconnect.

(** ** What apply does before it reconnects *)

Lemma foldM_inv {S A B} (I : B -> S -> Prop) (f : B -> A -> M S B) (l : list A) :
  (forall b y w w' b', In y l -> I b w -> f b y w = (w', Ok b') -> I b' w') ->
  forall b w w' b', I b w -> foldM f l b w = (w', Ok b') -> I b' w'.
Proof.
  induction l as [|y l IH]; intros Hkeep b w w' b' Hw; simpl.
  - unfold retM. now intros [= <- <-].
  - intros H. apply bindM_ok in H as (b1 & w1 & E1 & E2).
    apply (IH (fun b0 y0 w0 w0' b0' Hy0 => Hkeep b0 y0 w0 w0' b0' (or_intror Hy0))
              b1 w1 w' b'); [| exact E2].
    apply (Hkeep b y w w1 b1); [now left | assumption | assumption].
Qed.

Lemma forM_keeps {S A} (I : S -> Prop) (f : A -> M S unit) (l : list A) :
  (forall y w w', In y l -> I w -> f y w = (w', Ok tt) -> I w') ->
  forall w w', I w -> forM f l w = (w', Ok tt) -> I w'.
Proof.
  induction l as [|y l IH]; intros Hkeep w w' Hw; simpl.
  - unfold retM. now intros [= <-].
  - intros H. apply bindM_ok in H as ([] & w1 & E1 & E2).
    apply (IH (fun y0 w0 w0' Hy0 => Hkeep y0 w0 w0' (or_intror Hy0)) w1 w');
      [| exact E2].
    apply (Hkeep y w w1); [now left | assumption | assumption].
Qed.

Lemma dict_has_set (k k' v : string) (d : list (string * string)) :
  dict_has String.eqb k (dict_set String.eqb k' v d) = true ->
  k = k' \/ dict_has String.eqb k d = true.
Proof.
  unfold dict_has. induction d as [|[a b] d IH]; simpl.
  - destruct (String.eqb_spec k' k); [intros _; now left | discriminate].
  - destruct (String.eqb_spec a k') as [-> | Hne]; simpl.
    + destruct (String.eqb_spec k' k); [now left | now right].
    + destruct (String.eqb_spec a k); [now right | exact IH].
Qed.

(** The transients that are renamed are transients of the nested table;
    the states are not touched. *)
Lemma collect_transients_spec (nlabel : string) (narrays : gmap string ArrayDesc)
    (w w' : InlineSDFG.World) (tr : list (string * string)) :
  InlineSDFG.collect_transients nlabel narrays w = (w', Ok tr) ->
  InlineSDFG.w_state w' = InlineSDFG.w_state w
  /\ InlineSDFG.w_nstate w' = InlineSDFG.w_nstate w
  /\ forall d, dict_has String.eqb d tr = true ->
       exists desc, narrays !! d = Some desc /\ transient desc = true.
Proof.
  unfold InlineSDFG.collect_transients. intros H.
  apply bindM_ok in H as (nstate & w0 & E & H). unfold gets in E.
  injection E as <- <-.
  apply (foldM_inv
           (fun (tr : list (string * string)) w1 =>
              InlineSDFG.w_state w1 = InlineSDFG.w_state w
              /\ InlineSDFG.w_nstate w1 = InlineSDFG.w_nstate w
              /\ forall d, dict_has String.eqb d tr = true ->
                   exists desc, narrays !! d = Some desc
                                /\ transient desc = true)) in H;
    [exact H | | now repeat split].
  clear H. intros b node w1 w1' b' _ (Hs & Hn & Hb).
  destruct (kind node) as [d| | | | |];
    try (unfold retM; intros [= <- <-]; now repeat split).
  intros H. apply bindM_ok in H as (desc & w2 & E & H). unfold lift in E.
  injection E as <- E.
  destruct (narrays !! d) as [desc'|] eqn:Hd; [| discriminate].
  injection E as ->.
  destruct (negb (dict_has String.eqb d b) && transient desc) eqn:C.
  - apply bindM_ok in H as (name & w2 & E & H).
    unfold InlineSDFG.add_datadescM in E.
    destruct (add_datadesc _ _ _) as [name' arrs]. injection E as <- <-.
    unfold retM in H. injection H as <- <-. simpl.
    split; [exact Hs |]. split; [exact Hn |].
    intros d' Hd'. apply dict_has_set in Hd' as [-> | Hd']; [| now apply Hb].
    apply andb_true_iff in C as [_ C]. eauto.
  - unfold retM in H. injection H as <- <-. now repeat split.
Qed.

Section Dicts.

Context {K V : Type} (eqb : K -> K -> bool).
Hypothesis eqb_spec : forall a b, eqb a b = true <-> a = b.

Lemma dict_get_set_eq (k : K) (v : V) (d : list (K * V)) :
  dict_get eqb k (dict_set eqb k v d) = Some v.
Proof.
  induction d as [|[a b] d IH]; simpl.
  - now rewrite (proj2 (eqb_spec k k) eq_refl).
  - destruct (eqb a k) eqn:E; simpl.
    + now rewrite (proj2 (eqb_spec k k) eq_refl).
    + now rewrite E.
Qed.

Lemma dict_get_set_ne (k k' : K) (v : V) (d : list (K * V)) :
  k <> k' -> dict_get eqb k (dict_set eqb k' v d) = dict_get eqb k d.
Proof.
  intros Hne. induction d as [|[a b] d IH]; simpl.
  - destruct (eqb k' k) eqn:E; [| reflexivity].
    apply eqb_spec in E. congruence.
  - destruct (eqb a k') eqn:E; simpl.
    + apply eqb_spec in E. subst a.
      destruct (eqb k' k) eqn:E'; [| reflexivity].
      apply eqb_spec in E'. congruence.
    + destruct (eqb a k); [reflexivity | exact IH].
Qed.

Lemma dict_set_In (k : K) (v : V) (d : list (K * V)) (x : K * V) :
  In x (dict_set eqb k v d) -> x = (k, v) \/ In x d.
Proof.
  induction d as [|[a b] d IH]; simpl.
  - intros [<- | []]. now left.
  - destruct (eqb a k); simpl.
    + intros [<- | H]; [now left | right; now right].
    + intros [<- | H]; [right; now left |].
      destruct (IH H) as [-> | H']; [now left | right; now right].
Qed.

Lemma dict_set_keeps (k n : K) (v t : V) (d : list (K * V)) :
  In (n, t) d -> k <> n -> In (n, t) (dict_set eqb k v d).
Proof.
  intros Hin Hne. induction d as [|[a b] d IH]; simpl; [destruct Hin |].
  destruct (eqb a k) eqn:E; simpl.
  - apply eqb_spec in E. subst a.
    destruct Hin as [[= -> ->] | Hin]; [congruence | now right].
  - destruct Hin as [<- | Hin]; [now left | right; now apply IH].
Qed.

Lemma dict_set_has (k : K) (v : V) (d : list (K * V)) :
  In (k, v) (dict_set eqb k v d).
Proof.
  induction d as [|[a b] d IH]; simpl; [now left |].
  destruct (eqb a k); simpl; [now left | now right].
Qed.

End Dicts.

Lemma nat_eqb_spec (a b : nat) : Nat.eqb a b = true <-> a = b.
Proof. apply Nat.eqb_eq. Qed.

(** The edge recorded for a connector is an edge at that connector; when no
    two edges share a connector, every edge is the one recorded for its
    connector. *)
Lemma collect_values {E} (key : E -> option string) (es : list E)
    (acc : list (option string * E)) (k : option string) (e : E) :
  dict_get opt_str_eqb k
    (fold_left (fun a x => dict_set opt_str_eqb (key x) x a) es acc) = Some e ->
  dict_get opt_str_eqb k acc = Some e \/ (In e es /\ key e = k).
Proof.
  revert acc. induction es as [|x es IH]; intros acc; simpl; [now left |].
  intros H. destruct (IH _ H) as [H' | [Hin Hk]]; [| right; tauto].
  destruct (option_eq_dec k (key x)) as [-> | Hne].
  - rewrite (dict_get_set_eq opt_str_eqb opt_str_eqb_eq) in H'.
    injection H' as <-. right. split; [now left | reflexivity].
  - rewrite (dict_get_set_ne opt_str_eqb opt_str_eqb_eq) in H'; [now left |].
    exact Hne.
Qed.

Lemma collect_recorded {E} (key : E -> option string) (es : list E)
    (acc : list (option string * E)) (e : E) :
  List.NoDup (map key es) -> In e es ->
  dict_get opt_str_eqb (key e)
    (fold_left (fun a x => dict_set opt_str_eqb (key x) x a) es acc) = Some e.
Proof.
  revert acc. induction es as [|x es IH]; intros acc Hnd Hin; simpl;
    [destruct Hin |].
  apply List.NoDup_cons_iff in Hnd as [Hx Hnd].
  destruct Hin as [-> | Hin]; [| now apply IH].
  clear IH. assert (Hget : dict_get opt_str_eqb (key e)
                             (dict_set opt_str_eqb (key e) e acc) = Some e)
    by apply (dict_get_set_eq opt_str_eqb opt_str_eqb_eq).
  revert Hget. generalize (dict_set opt_str_eqb (key e) e acc).
  induction es as [|y es IH]; intros d Hd; simpl; [exact Hd |].
  simpl in Hx, Hnd. apply List.NoDup_cons_iff in Hnd as [_ Hnd].
  apply IH; [tauto | exact Hnd |].
  rewrite (dict_get_set_ne opt_str_eqb opt_str_eqb_eq); [exact Hd |].
  intros E'. apply Hx. now left.
Qed.

Lemma collect_in_fst (st : SDFGState) (n : NodeId) :
  fst (InlineSDFG.collect_in st n)
  = fold_left (fun a x => dict_set opt_str_eqb (dst_conn x) x a)
              (in_edges st n) [].
Proof.
  unfold InlineSDFG.collect_in.
  change (@nil (option string * Edge))
    with (fst (@nil (option string * Edge), @nil (option string * option string)))
    at 2.
  generalize (@nil (option string * Edge), @nil (option string * option string)).
  induction (in_edges st n) as [|e es IH]; intros acc; simpl; [reflexivity |].
  now rewrite IH.
Qed.

Lemma collect_out_fst (st : SDFGState) (n : NodeId) :
  fst (InlineSDFG.collect_out st n)
  = fold_left (fun a x => dict_set opt_str_eqb (src_conn x) x a)
              (out_edges st n) [].
Proof.
  unfold InlineSDFG.collect_out.
  change (@nil (option string * Edge))
    with (fst (@nil (option string * Edge), @nil (option string * option string)))
    at 2.
  generalize (@nil (option string * Edge), @nil (option string * option string)).
  induction (out_edges st n) as [|e es IH]; intros acc; simpl; [reflexivity |].
  now rewrite IH.
Qed.

Lemma boundary_edges_values (cands : list Node) (tr : list (string * string))
    (conn_edges : InlineSDFG.EdgeDict) (l : list (NodeId * Edge)) :
  InlineSDFG.boundary_edges cands tr conn_edges = Ok l ->
  forall item, In item l ->
    exists k, dict_get opt_str_eqb k conn_edges = Some (snd item).
Proof.
  unfold InlineSDFG.boundary_edges.
  assert (H : forall acc,
            (forall item, In item acc ->
               exists k, dict_get opt_str_eqb k conn_edges = Some (snd item)) ->
            foldR (fun (acc : list (NodeId * Edge)) (node : Node) =>
              match kind node with
              | AccessNode d =>
                  if negb (dict_has String.eqb d tr) then
                    e ← of_option KeyError
                          (dict_get opt_str_eqb (Some d) conn_edges);
                    Ok (dict_set Nat.eqb (nid node) e acc)
                  else Ok acc
              | _ => Ok acc
              end) cands acc = Ok l ->
            forall item, In item l ->
              exists k, dict_get opt_str_eqb k conn_edges = Some (snd item)).
  { induction cands as [|node cands IH]; intros acc Hacc; simpl.
    - now intros [= <-].
    - destruct (kind node) as [d| | | | |]; try (apply IH; exact Hacc).
      destruct (negb (dict_has String.eqb d tr)); [| apply IH; exact Hacc].
      destruct (dict_get opt_str_eqb (Some d) conn_edges) as [e|] eqn:E;
        simpl; [| discriminate].
      apply IH. intros item Hitem.
      apply dict_set_In in Hitem as [-> | Hitem]; [now exists (Some d) |].
      now apply Hacc. }
  apply H. intros item [].
Qed.

Lemma boundary_edges_has (cands : list Node) (tr : list (string * string))
    (conn_edges : InlineSDFG.EdgeDict) (l : list (NodeId * Edge))
    (node : Node) (d : string) :
  InlineSDFG.boundary_edges cands tr conn_edges = Ok l ->
  List.NoDup (map nid cands) -> In node cands ->
  kind node = AccessNode d -> dict_has String.eqb d tr = false ->
  exists top, dict_get opt_str_eqb (Some d) conn_edges = Some top
              /\ In (nid node, top) l.
Proof.
  unfold InlineSDFG.boundary_edges.
  set (f := fun (acc : list (NodeId * Edge)) (node : Node) =>
              match kind node with
              | AccessNode d =>
                  if negb (dict_has String.eqb d tr) then
                    e ← of_option KeyError
                          (dict_get opt_str_eqb (Some d) conn_edges);
                    Ok (dict_set Nat.eqb (nid node) e acc)
                  else Ok acc
              | _ => Ok acc
              end).
  assert (Hpersist : forall rest acc n t,
            foldR f rest acc = Ok l -> In (n, t) acc ->
            ~ In n (map nid rest) -> In (n, t) l).
  { induction rest as [|x rest IH]; intros acc n t; simpl.
    - now intros [= <-].
    - intros H Hin Hn. destruct (f acc x) as [acc'|] eqn:E; [| discriminate].
      apply (IH acc' n t H); [| tauto].
      unfold f in E. destruct (kind x) as [dx| | | | |];
        try (injection E as <-; exact Hin).
      destruct (negb (dict_has String.eqb dx tr));
        [| injection E as <-; exact Hin].
      destruct (dict_get opt_str_eqb (Some dx) conn_edges) as [e|];
        simpl in E; [| discriminate].
      injection E as <-.
      apply (dict_set_keeps Nat.eqb nat_eqb_spec); [exact Hin | tauto]. }
  generalize (@nil (NodeId * Edge)).
  induction cands as [|x cands IH]; intros acc H Hnd Hin Hk Ht;
    [destruct Hin |].
  simpl in H, Hnd. apply List.NoDup_cons_iff in Hnd as [Hx Hnd].
  destruct (f acc x) as [acc'|] eqn:E; [| discriminate].
  destruct Hin as [-> | Hin]; [| now apply (IH acc')].
  unfold f in E. rewrite Hk, Ht in E. simpl in E.
  destruct (dict_get opt_str_eqb (Some d) conn_edges) as [e|];
    simpl in E; [| discriminate].
  injection E as <-. exists e. split; [reflexivity |].
  apply (Hpersist cands _ _ _ H); [| exact Hx].
  apply dict_set_has.
Qed.

Lemma same_edges_refl (st : SDFGState) : same_edges st st.
Proof.
  unfold same_edges. induction (edges st); constructor; [| assumption].
  now repeat split.
Qed.

Lemma same_edges_map (st st' : SDFGState) (h : Edge -> Edge) (st'' : SDFGState) :
  same_edges st st' -> edges st'' = map h (edges st') ->
  (forall e, skeleton (h e) = skeleton e /\ same_shape (edata e) (edata (h e))) ->
  same_edges st st''.
Proof.
  unfold same_edges. intros H -> Hh. induction H as [|e e' l l' [Hsk Hsh] _ IH];
    simpl; constructor; [| exact IH].
  destruct (Hh e') as [Hsk' [Hs1 Hs2]]. destruct Hsh as [Hs3 Hs4].
  split; [congruence | split; congruence].
Qed.

Lemma same_edges_In (st st' : SDFGState) (e' : Edge) :
  same_edges st st' -> In e' (edges st') ->
  exists e, In e (edges st) /\ skeleton e = skeleton e'
            /\ same_shape (edata e) (edata e').
Proof.
  unfold same_edges. induction 1 as [|x x' l l' Hx _ IH]; [intros [] |].
  intros [<- | Hin].
  - exists x. split; [now left | exact Hx].
  - destruct (IH Hin) as (e & He & H). exists e. split; [now right | exact H].
Qed.

Lemma same_edges_In_rev (st st' : SDFGState) (e : Edge) :
  same_edges st st' -> In e (edges st) ->
  exists e', In e' (edges st') /\ skeleton e = skeleton e'
             /\ same_shape (edata e) (edata e').
Proof.
  unfold same_edges. induction 1 as [|x x' l l' Hx _ IH]; [intros [] |].
  intros [<- | Hin].
  - exists x'. split; [now left | exact Hx].
  - destruct (IH Hin) as (e' & He & H). exists e'. split; [now right | exact H].
Qed.

Lemma replace_edge_same (a b : option string) (e : Edge) :
  skeleton (InlineSDFG.replace_edge a b e) = skeleton e
  /\ same_shape (edata e) (edata (InlineSDFG.replace_edge a b e)).
Proof.
  unfold InlineSDFG.replace_edge.
  destruct (opt_str_eqb (data (edata e)) a); now repeat split.
Qed.

Lemma replace_in_edges (ns : list NodeId) (es : list EdgeId)
    (a b : option string) (st : SDFGState) :
  edges (InlineSDFG.replace_in ns es a b st)
  = map (fun e => if mem_nat (eid e) es then InlineSDFG.replace_edge a b e
                  else e) (edges st)
  /\ next_eid (InlineSDFG.replace_in ns es a b st) = next_eid st.
Proof. now destruct st. Qed.

Lemma add_node_edges (n : Node) (st : SDFGState) :
  edges (add_node n st) = edges st /\ next_eid (add_node n st) = next_eid st.
Proof.
  unfold add_node. destruct (has_node st (nid n)); [now split |].
  now destruct st.
Qed.

Lemma add_nodes_from_edges (ns : list Node) (st : SDFGState) :
  edges (add_nodes_from ns st) = edges st
  /\ next_eid (add_nodes_from ns st) = next_eid st.
Proof.
  unfold add_nodes_from. revert st.
  induction ns as [|n ns IH]; intros st; simpl; [now split |].
  destruct (IH (add_node n st)) as [-> ->]. apply add_node_edges.
Qed.

(** * Further properties of the source mapping *)

(** ** MapCpp.get_nodes is total *)

Lemma all_chars_app (p : ascii -> bool) (s t : string) :
  all_chars p (s +:+ t) = all_chars p s && all_chars p t.
Proof.
  induction s as [|c s IH]; simpl; [reflexivity |].
  change (String c s +:+ t) with (String c (s +:+ t)). simpl.
  now rewrite IH, andb_assoc.
Qed.

Lemma all_chars_impl (p q : ascii -> bool) (s : string) :
  (forall c, p c = true -> q c = true) ->
  all_chars p s = true -> all_chars q s = true.
Proof.
  intros Hpq. induction s as [|c s IH]; simpl; [reflexivity |].
  intros H. apply andb_prop in H as [H1 H2].
  now rewrite (Hpq c H1), (IH H2).
Qed.

Lemma star_digit_chars (s m rest : string) :
  MapCpp.star_digit s = (m, rest) -> all_chars digit_or_comma m = true.
Proof.
  revert m rest. induction s as [|c s IH]; intros m rest; simpl.
  - now intros [= <- _].
  - destruct (MapCpp.is_digit c) eqn:E; [| now intros [= <- _]].
    destruct (MapCpp.star_digit s) as [m' r']. intros [= <- _]. simpl.
    unfold digit_or_comma at 1. rewrite E. simpl. eauto.
Qed.

Lemma star_comma_digit_chars (s m g rest : string) :
  MapCpp.star_comma_digit s = (m, g, rest) ->
  all_chars digit_or_comma m = true.
Proof.
  remember (String.length s) as n eqn:Hn.
  assert (Hle : String.length s <= n) by lia. clear Hn.
  revert s m g rest Hle.
  induction n as [|n IH]; intros s m g rest Hle.
  - destruct s; [| simpl in Hle; lia]. now intros [= <- _ _].
  - destruct s as [|c1 [|c2 s']]; try now intros [= <- _ _].
    simpl. destruct (Ascii.eqb c1 "," && MapCpp.is_digit c2) eqn:E;
      [| now intros [= <- _ _]].
    destruct (MapCpp.star_comma_digit s') as [[m' g'] r'] eqn:E'.
    intros [= <- _ _]. apply andb_prop in E as [E1 E2]. simpl.
    unfold digit_or_comma at 1 2. rewrite E1, E2, orb_true_r. simpl.
    apply (IH s' m' g' r'); [simpl in Hle; lia | exact E'].
Qed.

Lemma split_without (sep : ascii) (s : string) :
  all_chars (fun c => negb (Ascii.eqb c sep)) s = true -> split sep s = [s].
Proof.
  induction s as [|c s IH]; simpl; [reflexivity |].
  intros H. apply andb_prop in H as [H1 H2].
  apply negb_true_iff in H1. rewrite H1, (IH H2). reflexivity.
Qed.

Lemma digit_or_comma_not_colon (c : ascii) :
  digit_or_comma c = true -> negb (Ascii.eqb c ":") = true.
Proof.
  destruct c as [[] [] [] [] [] [] [] []]; vm_compute; congruence.
Qed.

Lemma match_here_ids (s x y rest : string) :
  MapCpp.match_here s = Some (x, y, rest) ->
  exists d1 d2 ids,
    MapCpp.is_digit d1 = true /\ MapCpp.is_digit d2 = true
    /\ all_chars digit_or_comma ids = true
    /\ x = identifier_of d1 d2 ids.
Proof.
  unfold MapCpp.match_here.
  destruct (strip_prefix MapCpp.prefix s) as [[|d1 [|c1 [|d2 [|c2 r]]]]|];
    try discriminate.
  destruct (MapCpp.is_digit d1) eqn:E1; simpl; [| discriminate].
  destruct (Ascii.eqb c1 ":") eqn:C1; simpl; [| discriminate].
  destruct (MapCpp.is_digit d2) eqn:E2; simpl; [| discriminate].
  destruct (Ascii.eqb c2 ":") eqn:C2; simpl; [| discriminate].
  destruct (MapCpp.star_digit r) as [n rest1] eqn:En.
  destruct (MapCpp.star_comma_digit rest1) as [[m g] rest2] eqn:Em.
  intros [= <- _ _]. apply Ascii.eqb_eq in C1, C2. subst c1 c2.
  exists d1, d2, (n +:+ m). repeat split; try assumption.
  rewrite all_chars_app, (star_digit_chars _ _ _ En),
    (star_comma_digit_chars _ _ _ _ Em). reflexivity.
Qed.

Lemma findall_ids (fuel : nat) (s : string) :
  Forall (fun xy => exists d1 d2 ids,
            MapCpp.is_digit d1 = true /\ MapCpp.is_digit d2 = true
            /\ all_chars digit_or_comma ids = true
            /\ fst xy = identifier_of d1 d2 ids)
         (MapCpp.findall fuel s).
Proof.
  revert s. induction fuel as [|fuel IH]; intros s; simpl; [constructor |].
  destruct (MapCpp.match_here s) as [[[x' y'] rest]|] eqn:E.
  - constructor; [| apply IH]. simpl. now apply match_here_ids in E.
  - destruct s; [constructor | apply IH].
Qed.

Lemma split_identifier_ids (d1 d2 : ascii) (ids : string) :
  MapCpp.is_digit d1 = true -> MapCpp.is_digit d2 = true ->
  all_chars digit_or_comma ids = true ->
  split ":" (identifier_of d1 d2 ids)
  = ["////__DACE"; String d1 ""; String d2 ""; ids].
Proof.
  intros H1 H2 H3. unfold identifier_of, MapCpp.prefix.
  change ("////__DACE:" +:+ ?s)
    with (String "/" (String "/" (String "/" (String "/" (String "_"
           (String "_" (String "D" (String "A" (String "C" (String "E"
           (String ":" s))))))))))).
  simpl. rewrite (digit_is_not_colon d1 H1), (digit_is_not_colon d2 H2).
  rewrite (split_without ":" ids); [reflexivity |].
  eapply all_chars_impl; [| exact H3]. exact digit_or_comma_not_colon.
Qed.

Lemma get_nodes_total (ids : list string) (acc : list SdfgLocation) :
  Forall (fun i => exists d1 d2 rest,
            MapCpp.is_digit d1 = true /\ MapCpp.is_digit d2 = true
            /\ all_chars digit_or_comma rest = true
            /\ i = identifier_of d1 d2 rest) ids ->
  exists locs,
    foldR (fun nodes identifier =>
             let ids_split := split ":" identifier in
             a ← of_option IndexError (nth_error ids_split 1);
             b ← of_option IndexError (nth_error ids_split 2);
             c ← of_option IndexError (nth_error ids_split 3);
             Ok (nodes ++ [mkSdfgLocation a b (split "," c)])) ids acc
    = Ok (acc ++ locs)
    /\ Forall2 located ids locs.
Proof.
  set (f := fun (nodes : list SdfgLocation) (identifier : string) => _).
  intros H. revert acc. induction H as [|i ids Hi _ IH]; intros acc.
  - exists []. simpl. rewrite app_nil_r. split; [reflexivity | constructor].
  - destruct Hi as (d1 & d2 & rest & H1 & H2 & H3 & ->).
    assert (Hstep : f acc (identifier_of d1 d2 rest)
                    = Ok (acc ++ [location_of d1 d2 rest])).
    { unfold f. cbv zeta.
      rewrite (split_identifier_ids d1 d2 rest H1 H2 H3). reflexivity. }
    cbn [foldR]. rewrite Hstep.
    destruct (IH (acc ++ [location_of d1 d2 rest])) as (locs & -> & HF).
    exists (location_of d1 d2 rest :: locs). split.
    + now rewrite <- app_assoc.
    + constructor; [| exact HF]. now exists d1, d2, rest.
Qed.

Lemma identifiers_ids (line : string) :
  Forall (fun i => exists d1 d2 rest,
            MapCpp.is_digit d1 = true /\ MapCpp.is_digit d2 = true
            /\ all_chars digit_or_comma rest = true
            /\ i = identifier_of d1 d2 rest) (MapCpp.get_identifiers line).
Proof.
  unfold MapCpp.get_identifiers. apply List.Forall_map.
  eapply List.Forall_impl; [| apply findall_ids]. intros [x y] H. exact H.
Qed.

Lemma get_nodes_ok (line : string) :
  exists locs, MapCpp.get_nodes line = Ok locs.
Proof.
  unfold MapCpp.get_nodes.
  destruct (get_nodes_total _ [] (identifiers_ids line)) as (locs & E & _).
  now exists locs.
Qed.

(** X1: MapCpp.get_nodes never raises: whatever the line of code, every
    identifier that get_identifiers finds splits at its colons into four
    fields, so no index is out of range; get_nodes returns one location per
    identifier, in order, whose SDFG id and state id are the two digits of
    the identifier and whose node ids are the comma-separated fields of its
    last part. *)
Theorem get_nodes_never_raises (line : string) :
  exists locs,
    MapCpp.get_nodes line = Ok locs
    /\ Forall2 located (MapCpp.get_identifiers line) locs.
Proof.
  unfold MapCpp.get_nodes.
  destruct (get_nodes_total _ [] (identifiers_ids line)) as (locs & E & HF).
  exists locs. split; [exact E | exact HF].
Qed.

(** ** MapCpp.create_mapping and MapCpp.mapper *)

Lemma extend_twice (line_num : nat) (o : option (nat * nat)) :
  extend line_num (Some (extend line_num o)) = extend line_num o.
Proof.
  destruct o as [[f t]|]; simpl.
  - destruct (t + 1 =? line_num)%nat eqn:E; simpl.
    + apply Nat.eqb_eq in E.
      destruct (t + 1 + 1 =? line_num)%nat eqn:E'; [| reflexivity].
      apply Nat.eqb_eq in E'. lia.
    + now rewrite E.
  - destruct (line_num + 1 =? line_num)%nat eqn:E; [| reflexivity].
    apply Nat.eqb_eq in E. lia.
Qed.

Lemma mem_str_In (x : string) (l : list string) :
  mem_str x l = true <-> In x l.
Proof.
  unfold mem_str. rewrite existsb_exists. split.
  - intros (y & Hy & E). apply String.eqb_eq in E. now subst.
  - intros H. exists x. split; [exact H | apply String.eqb_refl].
Qed.

Lemma node_ids_lookup (line_num : nat) (ids : list string)
    (st : gmap string (nat * nat)) (c : string) :
  fold_left (fun (st : gmap string (nat * nat)) (node_id : string) =>
               match st !! node_id with
               | None => <[node_id := (line_num, line_num)]> st
               | Some (from, to) =>
                   if (to + 1 =? line_num)%nat
                   then <[node_id := (from, (to + 1)%nat)]> st
                   else st
               end) ids st !! c
  = if mem_str c ids then Some (extend line_num (st !! c)) else st !! c.
Proof.
  revert st. induction ids as [|i ids IH]; intros st; [reflexivity |].
  cbn [fold_left]. rewrite IH. unfold mem_str. cbn [existsb].
  fold (mem_str c ids).
  set (st' := match st !! i with
              | None => <[i := (line_num, line_num)]> st
              | Some (from, to) =>
                  if (to + 1 =? line_num)%nat
                  then <[i := (from, (to + 1)%nat)]> st else st
              end).
  destruct (String.eqb c i) eqn:E.
  - apply String.eqb_eq in E. subst i.
    assert (Hc : st' !! c = Some (extend line_num (st !! c))).
    { unfold st'. destruct (st !! c) as [[f t]|] eqn:Ec; simpl.
      - destruct (t + 1 =? line_num)%nat; [apply lookup_insert_eq | exact Ec].
      - apply lookup_insert_eq. }
    rewrite Hc, extend_twice. simpl. now destruct (mem_str c ids).
  - assert (Hc : st' !! c = st !! c).
    { apply String.eqb_neq in E. unfold st'.
      destruct (st !! i) as [[f t]|]; [destruct (t + 1 =? line_num)%nat |];
        try reflexivity; now apply lookup_insert_ne. }
    rewrite Hc. reflexivity.
Qed.

Lemma create_mapping_lookup (node : SdfgLocation) (line_num : nat)
    (m : MapCpp.CppMap) (a b c : string) :
  cpp_range (MapCpp.create_mapping node line_num m) a b c
  = if String.eqb a (sdfg_id node) && String.eqb b (state_id node)
       && mem_str c (node_ids node)
    then Some (extend line_num (cpp_range m a b c))
    else cpp_range m a b c.
Proof.
  unfold MapCpp.create_mapping, cpp_range, MapCpp.CppMap in *. cbv zeta.
  destruct (String.eqb a (sdfg_id node)) eqn:Ea.
  - apply String.eqb_eq in Ea. subst a. rewrite lookup_insert_eq.
    destruct (String.eqb b (state_id node)) eqn:Eb.
    + apply String.eqb_eq in Eb. subst b. rewrite lookup_insert_eq.
      rewrite node_ids_lookup. cbn [andb].
      destruct (m !! sdfg_id node) as [by_state|]; simpl;
        [destruct (by_state !! state_id node) as [st|]; simpl |];
        rewrite ?lookup_empty; reflexivity.
    + apply String.eqb_neq in Eb. rewrite lookup_insert_ne by congruence.
      cbn [andb]. destruct (m !! sdfg_id node) as [by_state|]; simpl;
        rewrite ?lookup_empty; reflexivity.
  - apply String.eqb_neq in Ea. rewrite lookup_insert_ne by congruence.
    reflexivity.
Qed.

(** X2: what MapCpp.create_mapping does to every entry of the mapping.  For
    a node id of the location (under its SDFG id and state id): a node seen
    for the first time gets the range (line, line); a node whose range ends
    on the line before gets its range extended by the line; otherwise its
    range stays as it is, so a line that comes after a gap is not recorded,
    and a node id listed twice in the location counts once.  Every other
    entry of the mapping is left as it is. *)
Theorem create_mapping_extends_or_keeps (node : SdfgLocation) (line_num : nat)
    (m : MapCpp.CppMap) (a b c : string) :
  cpp_range (MapCpp.create_mapping node line_num m) a b c
  = if String.eqb a (sdfg_id node) && String.eqb b (state_id node)
       && mem_str c (node_ids node)
    then Some (extend line_num (cpp_range m a b c))
    else cpp_range m a b c.
Proof. apply create_mapping_lookup. Qed.

Lemma create_mapping_within (node : SdfgLocation) (n : nat) (m : MapCpp.CppMap) :
  1 <= n -> ranges_within n m ->
  ranges_within n (MapCpp.create_mapping node n m).
Proof.
  intros Hn Hm a b c from to. rewrite create_mapping_lookup.
  destruct (_ && _ && _); [| apply Hm].
  destruct (cpp_range m a b c) as [[f t]|] eqn:E; simpl.
  - apply Hm in E. destruct (t + 1 =? n)%nat eqn:E'; intros [= <- <-]; [| lia].
    apply Nat.eqb_eq in E'. lia.
  - intros [= <- <-]. lia.
Qed.

Lemma ranges_within_mono (n n' : nat) (m : MapCpp.CppMap) :
  n <= n' -> ranges_within n m -> ranges_within n' m.
Proof. intros Hle Hm a b c from to E. apply Hm in E. lia. Qed.

Lemma mapper_fold (lines : list string) (n : nat) (m : MapCpp.CppMap) :
  1 <= n -> ranges_within (n - 1) m ->
  exists m',
    foldR (fun (acc : nat * MapCpp.CppMap) (line : string) =>
             let '(line_num, m) := acc in
             nodes ← MapCpp.get_nodes line;
             Ok (S line_num,
                 fold_left (fun m' node => MapCpp.create_mapping node line_num m')
                           nodes m)) lines (n, m)
    = Ok (n + length lines, m')
    /\ ranges_within (n + length lines - 1) m'.
Proof.
  revert n m. induction lines as [|line lines IH]; intros n m Hn Hm.
  - exists m. simpl. rewrite Nat.add_0_r. now split.
  - cbn [foldR]. destruct (get_nodes_ok line) as (locs & ->).
    cbn [mbind result_bind].
    set (m1 := fold_left _ locs m).
    assert (H1 : ranges_within n m1).
    { unfold m1. clear m1.
      assert (Hm' : ranges_within n m)
        by (eapply ranges_within_mono; [| exact Hm]; lia).
      clear Hm. revert m Hm'. induction locs as [|loc locs IHl]; intros m Hm;
        [exact Hm |].
      simpl. apply IHl. now apply create_mapping_within. }
    destruct (IH (S n) m1) as (m' & E & Hm'); [lia | |].
    { now replace (S n - 1) with n by lia. }
    exists m'. rewrite E. split.
    + f_equal. f_equal. simpl. lia.
    + now replace (n + length (line :: lines) - 1)
        with (S n + length lines - 1) by (simpl; lia).
Qed.

(** X3: MapCpp.mapper never raises, and every range (from, to) of the
    mapping it builds is a range of lines of the code: 1 <= from <= to, and
    to is at most the number of lines. *)
Theorem cpp_mapper_ranges_are_lines (code : string) :
  exists m,
    MapCpp.mapper code = Ok m
    /\ ranges_within (length (split newline code)) m.
Proof.
  unfold MapCpp.mapper.
  destruct (mapper_fold (split newline code) 1 ∅) as (m & E & Hm); [lia | |].
  - intros a b c from to. unfold cpp_range, MapCpp.CppMap.
    now rewrite lookup_empty.
  - exists m. rewrite E. split; [reflexivity |].
    now replace (1 + length (split newline code) - 1)
      with (length (split newline code)) in Hm by lia.
Qed.

(** ** MapPython.divide *)

Lemma divide_snoc (l : list Info) (x : Info) :
  MapPython.divide (l ++ [x]) = MapPython.add_to_source x (MapPython.divide l).
Proof. unfold MapPython.divide. now rewrite fold_left_app. Qed.

Lemma of_file_snoc (f : string) (l : list Info) (x : Info) :
  of_file f (l ++ [x])
  = of_file f l ++ (if String.eqb (file_of x) f then [x] else []).
Proof. unfold of_file. rewrite List.filter_app. reflexivity. Qed.

Lemma of_file_nonempty (f : string) (l : list Info) :
  In f (map file_of l) ->
  exists first rest, of_file f l = first :: rest /\ file_of first = f.
Proof.
  induction l as [|i l IH]; [intros [] |]. unfold of_file. simpl.
  destruct (String.eqb (file_of i) f) eqn:E.
  - intros _. apply String.eqb_eq in E.
    now exists i, (List.filter (fun i => String.eqb (file_of i) f) l).
  - intros [H | H]; [apply String.eqb_neq in E; contradiction | now apply IH].
Qed.

Lemma of_file_absent (f : string) (l : list Info) :
  ~ In f (map file_of l) -> of_file f l = [].
Proof.
  induction l as [|i l IH]; [reflexivity |]. unfold of_file. simpl. intros H.
  destruct (String.eqb (file_of i) f) eqn:E.
  - apply String.eqb_eq in E. tauto.
  - apply IH. tauto.
Qed.

Lemma of_file_other (files : list string) (l : list Info) (x : Info) :
  ~ In (file_of x) files ->
  map (fun f => of_file f (l ++ [x])) files = map (fun f => of_file f l) files.
Proof.
  intros Hx. apply map_ext_in. intros f Hf. rewrite of_file_snoc.
  destruct (String.eqb (file_of x) f) eqn:E; [| apply app_nil_r].
  apply String.eqb_eq in E. congruence.
Qed.

Lemma add_to_source_map (files : list string) (l : list Info) (x : Info) :
  List.NoDup files -> (forall f, In f files -> In f (map file_of l)) ->
  MapPython.add_to_source x (map (fun f => of_file f l) files)
  = map (fun f => of_file f (l ++ [x])) files
    ++ (if mem_str (file_of x) files then [] else [[x]]).
Proof.
  induction files as [|f files IH]; intros Hnd Hin; [reflexivity |].
  inversion Hnd as [|? ? Hf Hnd']; subst.
  destruct (of_file_nonempty f l (Hin f (or_introl eq_refl)))
    as (first & rest & Eg & Ef).
  cbn [map MapPython.add_to_source]. rewrite Eg. fold (file_of first).
  fold (file_of x). rewrite Ef. unfold mem_str. cbn [existsb].
  fold (mem_str (file_of x) files). rewrite (String.eqb_sym (file_of x) f).
  destruct (String.eqb f (file_of x)) eqn:E.
  - apply String.eqb_eq in E. cbn [orb].
    rewrite of_file_snoc, <- E, String.eqb_refl, Eg.
    rewrite E in Hf. rewrite (of_file_other files l x Hf).
    now rewrite app_nil_r.
  - cbn [orb]. rewrite IH by (auto using in_cons).
    rewrite of_file_snoc, String.eqb_sym, E, app_nil_r, Eg. reflexivity.
Qed.

(** X4: MapPython.divide partitions the records by source file: it returns
    one list per source file that occurs among the records, no file twice,
    and the list of a file holds exactly the records of that file, in the
    order in which they were given. *)
Theorem divide_groups_by_file (debuginfo : list Info) :
  exists files,
    List.NoDup files
    /\ (forall f, In f files <-> In f (map file_of debuginfo))
    /\ MapPython.divide debuginfo = map (fun f => of_file f debuginfo) files.
Proof.
  induction debuginfo as [|x l IH] using rev_ind.
  - exists []. repeat split; try constructor; intros [].
  - destruct IH as (files & Hnd & Hin & Hd). rewrite divide_snoc, Hd.
    rewrite add_to_source_map by (try assumption; intros f; apply Hin).
    destruct (mem_str (file_of x) files) eqn:E.
    + exists files. rewrite app_nil_r. split; [exact Hnd |]. split; [| reflexivity].
      intros f. rewrite List.map_app, in_app_iff, <- Hin. simpl.
      apply mem_str_In in E. split; [tauto |]. intros [H | [<- | []]]; assumption.
    + assert (Hx : ~ In (file_of x) files).
      { intros H. apply mem_str_In in H. congruence. }
      exists (files ++ [file_of x]). split; [| split].
      * apply List.NoDup_app; [exact Hnd | |].
        -- constructor; [intros [] | constructor].
        -- intros f Hf [<- | []]. contradiction.
      * intros f. rewrite List.map_app, !in_app_iff, <- Hin. reflexivity.
      * rewrite List.map_app. f_equal. simpl. rewrite of_file_snoc, String.eqb_refl.
        rewrite of_file_absent; [reflexivity |]. now rewrite <- Hin.
Qed.

(** ** MapPython.create_mapping *)

Lemma range_incl_In (a b l : Z) :
  In l (MapPython.range_incl a b) <-> (a <= l <= b)%Z.
Proof.
  unfold MapPython.range_incl. rewrite List.in_map_iff. split.
  - intros (i & <- & Hi). apply in_seq in Hi. lia.
  - intros H. exists (Z.to_nat (l - a)). split; [lia |]. apply in_seq. lia.
Qed.

Lemma range_incl_NoDup (a b : Z) : List.NoDup (MapPython.range_incl a b).
Proof.
  unfold MapPython.range_incl. apply Finite.Injective_map_NoDup.
  - intros i j H. lia.
  - apply seq_NoDup.
Qed.

Lemma range_incl_empty (a b : Z) : (b < a)%Z -> MapPython.range_incl a b = [].
Proof.
  intros H. unfold MapPython.range_incl.
  now replace (Z.to_nat (b - a + 1)) with 0 by lia.
Qed.

Lemma range_incl_cons (a b : Z) :
  (a <= b)%Z -> MapPython.range_incl a b = a :: MapPython.range_incl (a + 1) b.
Proof.
  intros H. unfold MapPython.range_incl.
  replace (Z.to_nat (b - a + 1)) with (S (Z.to_nat (b - (a + 1) + 1))) by lia.
  cbn [seq map]. f_equal; [lia |]. rewrite <- seq_shift, List.map_map.
  apply map_ext. intros i. lia.
Qed.

Lemma range_incl_snoc (a b : Z) :
  (a <= b)%Z -> MapPython.range_incl a b = MapPython.range_incl a (b - 1) ++ [b].
Proof.
  intros H. unfold MapPython.range_incl.
  replace (Z.to_nat (b - a + 1)) with (Z.to_nat (b - 1 - a + 1) + 1) by lia.
  rewrite seq_app, List.map_app. f_equal. simpl. f_equal. lia.
Qed.

Lemma existsb_range (a b l : Z) :
  existsb (Z.eqb l) (MapPython.range_incl a b) = ((a <=? l) && (l <=? b))%Z.
Proof.
  destruct (existsb _ _) eqn:E.
  - apply existsb_exists in E as (y & Hy & E). apply Z.eqb_eq in E. subst y.
    apply range_incl_In in Hy. symmetry. apply andb_true_iff. lia.
  - destruct ((a <=? l) && (l <=? b))%Z eqn:E'; [| reflexivity].
    apply andb_true_iff in E'. rewrite <- E. apply existsb_exists.
    exists l. split; [apply range_incl_In; lia | apply Z.eqb_refl].
Qed.

Lemma add_lines_lookup (r : NodeRef) (lines : list Z)
    (ls : gmap Z (list NodeRef)) (l : Z) :
  List.NoDup lines ->
  fold_left (fun (ls : gmap Z (list NodeRef)) (line : Z) =>
               <[line := default [] (ls !! line) ++ [r]]> ls) lines ls !! l
  = extended (ls !! l) (if existsb (Z.eqb l) lines then [r] else []).
Proof.
  intros Hnd. revert ls. induction Hnd as [|x lines Hx Hnd IH]; intros ls.
  - reflexivity.
  - cbn [fold_left existsb]. rewrite IH. destruct (Z.eqb l x) eqn:E.
    + apply Z.eqb_eq in E. subst x. rewrite lookup_insert_eq. cbn [orb].
      destruct (existsb (Z.eqb l) lines) eqn:E'; [| reflexivity].
      apply existsb_exists in E' as (y & Hy & E'). apply Z.eqb_eq in E'.
      now subst y.
    + apply Z.eqb_neq in E. rewrite lookup_insert_ne by congruence. reflexivity.
Qed.

Lemma map_node_entry (m : PyMap) (node : Info) (file : string) (line : Z) :
  py_entry (map_node m node) file line
  = extended (py_entry m file line)
             (if spans file line node then [MapPython.ref_of node] else []).
Proof.
  unfold map_node, py_entry, spans, file_of, PyMap in *. cbv zeta.
  destruct (String.eqb (filename (i_debuginfo node)) file) eqn:E.
  - apply String.eqb_eq in E. subst file. rewrite lookup_insert_eq.
    rewrite add_lines_lookup by apply range_incl_NoDup.
    rewrite existsb_range. cbn [andb].
    destruct (m !! filename (i_debuginfo node)); cbn [default];
      rewrite ?lookup_empty; reflexivity.
  - apply String.eqb_neq in E. rewrite lookup_insert_ne by congruence.
    reflexivity.
Qed.

Lemma extended_app (o : option (list NodeRef)) (a b : list NodeRef) :
  extended (extended o a) b = extended o (a ++ b).
Proof.
  destruct a as [|x a]; [reflexivity |]. destruct b as [|y b].
  - now rewrite app_nil_r.
  - simpl. now rewrite <- app_assoc.
Qed.

Lemma map_debuginfo_entry (debuginfo : list (list Info)) (m : PyMap)
    (file : string) (line : Z) :
  py_entry (MapPython.map_debuginfo debuginfo m) file line
  = extended (py_entry m file line)
      (map MapPython.ref_of (List.filter (spans file line) (concat debuginfo))).
Proof.
  unfold MapPython.map_debuginfo. revert m.
  induction debuginfo as [|group debuginfo IH]; intros m; [reflexivity |].
  cbn [fold_left concat].
  rewrite IH, List.filter_app, List.map_app, <- extended_app.
  f_equal. clear IH. revert m. induction group as [|node group IHg]; intros m;
    [reflexivity |].
  cbn [fold_left List.filter]. fold (map_node m node). rewrite IHg.
  rewrite map_node_entry, extended_app. f_equal.
  now destruct (spans file line node).
Qed.

(** X5: without line ranges, MapPython.create_mapping (from the empty
    mapping) maps a line of a file to exactly the nodes whose debug
    information is in that file and spans the line (start_line <= line <=
    end_line), in the order of the records; a line that no record spans has
    no entry, and a record whose end_line is before its start_line adds
    nothing. *)
Theorem py_mapping_lists_spanning_nodes (debuginfo : list (list Info))
    (file : string) (line : Z) :
  py_entry (MapPython.create_mapping debuginfo None ∅) file line
  = extended None
      (map MapPython.ref_of (List.filter (spans file line) (concat debuginfo))).
Proof.
  unfold MapPython.create_mapping. rewrite map_debuginfo_entry.
  unfold py_entry at 1, PyMap. now rewrite lookup_empty.
Qed.

(** ** Filling the lines of a range *)

Lemma search_after_other (line : Z) (lines : list Z)
    (sm : gmap Z (list NodeRef)) (l : Z) :
  l <> line -> search_after line lines sm !! l = sm !! l.
Proof.
  intros Hl. unfold search_after. revert sm.
  induction lines as [|x lines IH]; intros sm; [reflexivity |].
  cbn [fold_left]. rewrite IH. destruct (sm !! x); [| reflexivity].
  now apply lookup_insert_ne.
Qed.

Lemma search_after_snoc (line x : Z) (lines : list Z)
    (sm : gmap Z (list NodeRef)) :
  x <> line ->
  search_after line (lines ++ [x]) sm !! line
  = match sm !! x with
    | Some nodes => Some nodes
    | None => search_after line lines sm !! line
    end.
Proof.
  intros Hx. unfold search_after at 1. rewrite fold_left_app. cbn [fold_left].
  fold (search_after line lines sm). rewrite (search_after_other line lines sm x Hx).
  destruct (sm !! x); [apply lookup_insert_eq | reflexivity].
Qed.

Lemma search_after_last (line k e : Z) (sm : gmap Z (list NodeRef))
    (nodes : list NodeRef) :
  (line < k <= e)%Z -> sm !! k = Some nodes ->
  (forall j, (k < j <= e)%Z -> sm !! j = None) ->
  search_after line (MapPython.range_incl (line + 1) e) sm !! line = Some nodes.
Proof.
  intros Hk Hn Hlast.
  remember (Z.to_nat (e - k)) as n eqn:E. revert e E Hk Hlast.
  induction n as [|n IH]; intros e E Hk Hlast.
  - assert (e = k) by lia. subst e.
    rewrite range_incl_snoc, search_after_snoc by lia. now rewrite Hn.
  - rewrite range_incl_snoc, search_after_snoc by lia.
    rewrite (Hlast e) by lia. apply IH; [lia | lia |].
    intros j Hj. apply Hlast. lia.
Qed.

Lemma search_after_some (line : Z) (lines : list Z)
    (sm : gmap Z (list NodeRef)) :
  ~ In line lines ->
  (exists k, In k lines /\ is_Some (sm !! k)) ->
  is_Some (search_after line lines sm !! line).
Proof.
  induction lines as [|x lines IH] using rev_ind; intros Hl (k & Hk & Hs);
    [destruct Hk |].
  rewrite search_after_snoc by (intros ->; apply Hl, in_or_app; right; now left).
  destruct (sm !! x) as [v|] eqn:E; [eauto |].
  apply IH.
  - intros H. apply Hl, in_or_app. now left.
  - apply in_app_or in Hk as [Hk | [<- | []]]; [eauto |].
    rewrite E in Hs. now destruct Hs.
Qed.

Lemma fill_line_unfold (e : Z) (sm : gmap Z (list NodeRef)) (line : Z) :
  MapPython.fill_line e sm line
  = match sm !! line with
    | Some _ => sm
    | None =>
        match sm !! (line - 1)%Z with
        | Some prev => <[line := prev]> sm
        | None => search_after line (MapPython.range_incl (line + 1) e) sm
        end
    end.
Proof. reflexivity. Qed.

Lemma fill_line_other (e : Z) (sm : gmap Z (list NodeRef)) (line l : Z) :
  l <> line -> MapPython.fill_line e sm line !! l = sm !! l.
Proof.
  intros Hl. rewrite fill_line_unfold. destruct (sm !! line); [reflexivity |].
  destruct (sm !! (line - 1)%Z).
  - now apply lookup_insert_ne.
  - now apply search_after_other.
Qed.

Lemma fill_line_keeps (e : Z) (sm : gmap Z (list NodeRef)) (line l : Z) :
  is_Some (sm !! l) -> is_Some (MapPython.fill_line e sm line !! l).
Proof.
  intros H. destruct (decide (l = line)) as [-> | Hne].
  - rewrite fill_line_unfold. destruct (sm !! line) eqn:E; [now rewrite E |].
    now destruct H.
  - now rewrite fill_line_other.
Qed.

Lemma fill_line_maps (e : Z) (sm : gmap Z (list NodeRef)) (line : Z) :
  is_Some (sm !! (line - 1)%Z)
  \/ (exists k, (line <= k <= e)%Z /\ is_Some (sm !! k)) ->
  is_Some (MapPython.fill_line e sm line !! line).
Proof.
  intros H. rewrite fill_line_unfold.
  destruct (sm !! line) as [v|] eqn:E0; [rewrite E0; eauto |].
  destruct (sm !! (line - 1)%Z) as [p|] eqn:E1;
    [rewrite lookup_insert_eq; eauto |].
  destruct H as [[? [=]] | (k & Hk & Hs)].
  apply search_after_some.
  - rewrite range_incl_In. lia.
  - exists k. split; [| exact Hs]. apply range_incl_In.
    destruct (decide (k = line)) as [-> | ?]; [| lia].
    rewrite E0 in Hs. now destruct Hs.
Qed.

Lemma fill_range_keeps (e : Z) (lines : list Z) (sm : gmap Z (list NodeRef))
    (l : Z) :
  is_Some (sm !! l) ->
  is_Some (fold_left (MapPython.fill_line e) lines sm !! l).
Proof.
  revert sm. induction lines as [|x lines IH]; intros sm H; [exact H |].
  cbn [fold_left]. now apply IH, fill_line_keeps.
Qed.

Lemma fill_range_covers (s e a : Z) (sm : gmap Z (list NodeRef)) :
  (s <= a)%Z ->
  (forall l, (s <= l < a)%Z -> is_Some (sm !! l)) ->
  (exists k, (s <= k <= e)%Z /\ is_Some (sm !! k)) ->
  forall l, (s <= l <= e)%Z ->
    is_Some (fold_left (MapPython.fill_line e) (MapPython.range_incl a e) sm !! l).
Proof.
  remember (Z.to_nat (e - a + 1)) as n eqn:En. revert a sm En.
  induction n as [|n IH]; intros a sm En Ha Hbelow Hex l Hl.
  - rewrite range_incl_empty by lia. apply Hbelow. lia.
  - rewrite range_incl_cons by lia. cbn [fold_left].
    apply (IH (a + 1)%Z); try lia.
    + intros l' Hl'. destruct (decide (l' = a)) as [-> | Hne].
      * apply fill_line_maps. destruct (decide (a = s)) as [-> | Hs].
        -- right. destruct Hex as (k & Hk & Hsome). exists k.
           split; [lia | exact Hsome].
        -- left. apply Hbelow. lia.
      * apply fill_line_keeps, Hbelow. lia.
    + destruct Hex as (k & Hk & Hsome). exists k. split; [exact Hk |].
      now apply fill_line_keeps.
Qed.

(** X6: when a line of a range has no entry and the line before it has
    none either, MapPython.create_mapping gives the line the nodes of the
    last line of the range that has an entry: the search of the following
    lines does not stop at the first entry it finds, so a nearer line with
    an entry is passed over. *)
Theorem fill_line_takes_the_last (e line k : Z) (sm : gmap Z (list NodeRef))
    (nodes : list NodeRef) :
  sm !! line = None -> sm !! (line - 1)%Z = None ->
  (line < k <= e)%Z -> sm !! k = Some nodes ->
  (forall j, (k < j <= e)%Z -> sm !! j = None) ->
  MapPython.fill_line e sm line !! line = Some nodes.
Proof.
  intros H0 H1 Hk Hn Hlast. rewrite fill_line_unfold, H0, H1.
  now apply (search_after_last line k e).
Qed.

Lemma fill_line_takes_the_last_witness :
  two_lines !! 3%Z = Some [mkNodeRef 0 0 1]
  /\ MapPython.fill_line 5 two_lines 1 !! 1%Z = Some [mkNodeRef 0 0 2].
Proof.
  split; [reflexivity |].
  apply (fill_line_takes_the_last 5 1 5 two_lines [mkNodeRef 0 0 2]).
  - reflexivity.
  - reflexivity.
  - lia.
  - reflexivity.
  - intros j Hj. lia.
Defined.

Lemma fill_ranges_cover (ranges : list (Z * Z)) (s e : Z)
    (sm : gmap Z (list NodeRef)) :
  In (s, e) ranges ->
  (exists k, (s <= k <= e)%Z /\ is_Some (sm !! k)) ->
  forall l, (s <= l <= e)%Z ->
    is_Some (fold_left (fun sm (r : Z * Z) =>
                          fold_left (MapPython.fill_line (snd r))
                                    (MapPython.range_incl (fst r) (snd r)) sm)
                       ranges sm !! l).
Proof.
  assert (Hkeep : forall rs sm0 l,
            is_Some (sm0 !! l) ->
            is_Some (fold_left (fun sm (r : Z * Z) =>
                          fold_left (MapPython.fill_line (snd r))
                                    (MapPython.range_incl (fst r) (snd r)) sm)
                       rs sm0 !! l)).
  { induction rs as [|r rs IH]; intros sm0 l H; [exact H |].
    cbn [fold_left]. now apply IH, fill_range_keeps. }
  revert sm. induction ranges as [|r ranges IH]; intros sm Hin Hex l Hl;
    [destruct Hin |].
  cbn [fold_left]. destruct Hin as [-> | Hin].
  - apply Hkeep. cbn [fst snd].
    apply (fill_range_covers s e s); try assumption; [lia |].
    intros l' Hl'. lia.
  - apply IH; try assumption.
    destruct Hex as (k & Hk & Hs). exists k. split; [exact Hk |].
    now apply fill_range_keeps.
Qed.

Lemma py_entry_default (m : PyMap) (file : string) (k : Z)
    (v : list NodeRef) :
  py_entry m file k = Some v -> is_Some (default ∅ (m !! file) !! k).
Proof.
  unfold py_entry. destruct (m !! file); [| discriminate].
  simpl. intros ->. eauto.
Qed.

(** X7: when MapPython.create_mapping is handed the line ranges of a file
    and the debug information of some node of that file spans a line of one
    of the ranges, every line of that range has an entry in the mapping of
    the file afterwards. *)
Theorem range_lines_all_get_entries (debuginfo : list (list Info))
    (file : string) (ranges : list (Z * Z)) (s e k l : Z) (node : Info) :
  In (s, e) ranges ->
  In node (concat debuginfo) -> spans file k node = true ->
  (s <= k <= e)%Z -> (s <= l <= e)%Z ->
  is_Some (py_entry (MapPython.create_mapping debuginfo
                       (Some [(file, ranges)]) ∅) file l).
Proof.
  intros Hr Hnode Hspan Hk Hl. unfold MapPython.create_mapping.
  cbn [fold_left]. unfold py_entry at 1, PyMap. rewrite lookup_insert_eq.
  apply (fill_ranges_cover ranges s e); try assumption.
  exists k. split; [exact Hk |].
  pose proof (map_debuginfo_entry debuginfo ∅ file k) as E.
  destruct (List.filter (spans file k) (concat debuginfo)) as [|x xs] eqn:F.
  - assert (Hin : In node (List.filter (spans file k) (concat debuginfo)))
      by (apply filter_In; now split).
    rewrite F in Hin. destruct Hin.
  - simpl in E. exact (py_entry_default _ _ _ _ E).
Qed.

Lemma range_lines_all_get_entries_witness :
  py_entry (MapPython.create_mapping [[line_four]] None ∅) "prog.py" 2 = None
  /\ is_Some (py_entry (MapPython.create_mapping [[line_four]]
                          (Some [("prog.py", [(2, 6)%Z])]) ∅) "prog.py" 2).
Proof.
  split; [reflexivity |].
  apply (range_lines_all_get_entries _ "prog.py" [(2, 6)%Z] 2 6 4 2 line_four).
  - now left.
  - now left.
  - reflexivity.
  - lia.
  - lia.
Defined.

(** * Further properties of the transformations *)

(** X8: what a successful InlineSDFG._modify_memlet returns, whatever the
    offset of the subset algebra does: the memlet of the inner edge with
    the data name of the outer memlet; its other subset, volume, write
    conflict resolution and dynamic flag are those of the inner memlet; its
    subset is the offset, by the outer subset, of the inner subset
    (unsqueezed first when its rank is below the outer rank).  A call
    succeeds only when the outer memlet has no other subset and the inner
    rank is at most the outer rank. *)
Theorem modify_memlet_result (off : Subset -> Subset -> result Subset)
    (internal_memlet external_memlet r : Memlet) :
  _modify_memlet_with off internal_memlet external_memlet = Ok r ->
  data r = data external_memlet
  /\ other_subset r = other_subset internal_memlet
  /\ volume r = volume internal_memlet
  /\ wcr r = wcr internal_memlet
  /\ dynamic r = dynamic internal_memlet
  /\ other_subset external_memlet = None
  /\ length (subset internal_memlet) <= length (subset external_memlet)
  /\ exists s, unsqueezed internal_memlet external_memlet = Ok s
               /\ off s (subset external_memlet) = Ok (subset r).
Proof.
  unfold _modify_memlet_with, unsqueezed. cbn [set_data subset].
  destruct (length (subset internal_memlet) <? length (subset external_memlet))%nat
    eqn:E1.
  - apply Nat.ltb_lt in E1.
    destruct (unsqueeze _ _) as [s|e] eqn:Eu; simpl; [| discriminate].
    destruct (off s (subset external_memlet)) as [s'|e] eqn:Eo; simpl;
      [| discriminate].
    destruct (other_subset external_memlet); [discriminate |].
    intros [= <-]. simpl. repeat split; try lia. now exists s.
  - destruct (length (subset external_memlet) <? length (subset internal_memlet))%nat
      eqn:E2; simpl; [discriminate |].
    apply Nat.ltb_ge in E1, E2.
    destruct (off _ _) as [s'|e] eqn:Eo; simpl; [| discriminate].
    destruct (other_subset external_memlet); [discriminate |].
    intros [= <-]. simpl. repeat split; try lia. now exists (subset internal_memlet).
Qed.

(** X9: InlineSDFG._modify_memlet never returns a memlet for an unsupported
    pair (an inner subset of greater rank than the outer one, or an outer
    memlet with a second subset), whatever the offset of the subset algebra
    does: a greater inner rank raises ValueError; otherwise, when the
    unsqueeze and the offset go through, the second subset of the outer
    memlet raises NotImplementedError, after both were computed. *)
Theorem modify_memlet_rejects (off : Subset -> Subset -> result Subset)
    (internal_memlet external_memlet : Memlet) :
  unsupported internal_memlet external_memlet ->
  is_ok (_modify_memlet_with off internal_memlet external_memlet) = false
  /\ (length (subset external_memlet) < length (subset internal_memlet) ->
      _modify_memlet_with off internal_memlet external_memlet = Raise ValueError)
  /\ (length (subset internal_memlet) <= length (subset external_memlet) ->
      forall s s',
        unsqueezed internal_memlet external_memlet = Ok s ->
        off s (subset external_memlet) = Ok s' ->
        _modify_memlet_with off internal_memlet external_memlet
        = Raise NotImplementedError).
Proof.
  intros Hbad. unfold _modify_memlet_with, unsqueezed. cbn [set_data subset].
  destruct (length (subset internal_memlet) <? length (subset external_memlet))%nat
    eqn:E1.
  - apply Nat.ltb_lt in E1. destruct Hbad as [Hlt | [o Ho]]; [lia |].
    split; [| split; [lia |]].
    + destruct (unsqueeze _ _) as [s|e]; simpl; [| reflexivity].
      destruct (off _ _) as [s'|e]; simpl; [| reflexivity]. now rewrite Ho.
    + intros _ s s' -> . simpl. intros ->. simpl. now rewrite Ho.
  - destruct (length (subset external_memlet) <? length (subset internal_memlet))%nat
      eqn:E2; simpl.
    + apply Nat.ltb_lt in E2. split; [reflexivity |]. split; [reflexivity | lia].
    + apply Nat.ltb_ge in E1, E2. destruct Hbad as [Hlt | [o Ho]]; [lia |].
      split; [| split; [lia |]].
      * destruct (off _ _) as [s'|e]; simpl; [| reflexivity]. now rewrite Ho.
      * intros _ s s' [= <-] ->. simpl. now rewrite Ho.
Qed.

Lemma modify_memlet_rejects_witness :
  is_ok (_modify_memlet_with offset (memlet_on "in" [slice 0 10]) other_memlet)
  = false
  /\ (length (subset other_memlet) < length (subset (memlet_on "in" [slice 0 10])) ->
      _modify_memlet_with offset (memlet_on "in" [slice 0 10]) other_memlet
      = Raise ValueError)
  /\ (length (subset (memlet_on "in" [slice 0 10])) <= length (subset other_memlet) ->
      forall s s',
        unsqueezed (memlet_on "in" [slice 0 10]) other_memlet = Ok s ->
        offset s (subset other_memlet) = Ok s' ->
        _modify_memlet_with offset (memlet_on "in" [slice 0 10]) other_memlet
        = Raise NotImplementedError).
Proof.
  apply (modify_memlet_rejects offset (memlet_on "in" [slice 0 10]) other_memlet).
  right. simpl. eauto.
Defined.

Lemma modify_memlet_result_witness :
  data (memlet_on "A" [slice 2 12]) = data (memlet_on "A" [slice 2 20])
  /\ other_subset (memlet_on "A" [slice 2 12]) = other_subset (memlet_on "in" [slice 0 10])
  /\ volume (memlet_on "A" [slice 2 12]) = volume (memlet_on "in" [slice 0 10])
  /\ wcr (memlet_on "A" [slice 2 12]) = wcr (memlet_on "in" [slice 0 10])
  /\ dynamic (memlet_on "A" [slice 2 12]) = dynamic (memlet_on "in" [slice 0 10])
  /\ other_subset (memlet_on "A" [slice 2 20]) = None
  /\ length (subset (memlet_on "in" [slice 0 10]))
     <= length (subset (memlet_on "A" [slice 2 20]))
  /\ exists s, unsqueezed (memlet_on "in" [slice 0 10]) (memlet_on "A" [slice 2 20]) = Ok s
               /\ offset s (subset (memlet_on "A" [slice 2 20]))
                  = Ok (subset (memlet_on "A" [slice 2 12])).
Proof.
  apply (modify_memlet_result offset (memlet_on "in" [slice 0 10])
           (memlet_on "A" [slice 2 20])).
  reflexivity.
Defined.

Lemma over_nodes_app (f : NestSDFG.Vars -> Node -> result (NestSDFG.Vars * Node))
    (v : NestSDFG.Vars) (pre l : list Node) :
  (forall n, In n pre -> f v n = Ok (v, n)) ->
  NestSDFG.over_nodes f v (pre ++ l)
  = match NestSDFG.over_nodes f v l with
    | Raise e => Raise e
    | Ok (v', l') => Ok (v', pre ++ l')
    end.
Proof.
  induction pre as [|n pre IH]; intros H; simpl.
  - now destruct (NestSDFG.over_nodes f v l) as [[v' l']|].
  - rewrite (H n (or_introl eq_refl)), IH by (intros m Hm; apply H; now right).
    now destruct (NestSDFG.over_nodes f v l) as [[v' l']|].
Qed.

Lemma classify_skipped (state : SDFGState) (v : NestSDFG.Vars) (n : Node) :
  skipped (NestSDFG.nested_arrays v) n -> NestSDFG.classify state v n = Ok (v, n).
Proof.
  unfold skipped, NestSDFG.classify. destruct (kind n); try reflexivity.
  intros (desc & -> & Ht). simpl. now rewrite Ht.
Qed.

(** X10: NestSDFG.apply raises UnboundLocalError when, in the first state,
    the first access node of a non-transient array has no edge at all: the
    node is neither an input nor an output, so node_data_name has not been
    assigned when the node is renamed.  (Nodes before it that are not access
    nodes, or that access transient arrays, do not assign it.) *)
Theorem isolated_node_is_unbound (promote_global_trans : bool) (sdfg : SDFG)
    (s : SDFGState) (rest : list SDFGState) (pre post : list Node)
    (node : Node) (d : string) (desc : ArrayDesc) :
  states sdfg = s :: rest ->
  nodes s = pre ++ node :: post ->
  (forall n, In n pre -> skipped (arrays sdfg) n) ->
  kind node = AccessNode d ->
  arrays sdfg !! d = Some desc -> transient desc = false ->
  in_degree s (nid node) = 0 -> out_degree s (nid node) = 0 ->
  NestSDFG.apply promote_global_trans sdfg = Raise UnboundLocalError.
Proof.
  intros Hs Hn Hpre Hk Hd Ht Hin Hout. unfold NestSDFG.apply. rewrite Hs.
  cbn [NestSDFG.scan_states]. unfold NestSDFG.scan_state. rewrite Hn.
  rewrite over_nodes_app
    by (intros n Hn'; apply classify_skipped; simpl; now apply Hpre).
  cbn [NestSDFG.over_nodes]. unfold NestSDFG.classify at 1.
  rewrite Hk. cbn [NestSDFG.nested_arrays]. rewrite Hd. simpl.
  rewrite Ht, Hin, Hout. reflexivity.
Qed.

Lemma isolated_node_is_unbound_witness :
  NestSDFG.apply false isolated_sdfg = Raise UnboundLocalError.
Proof.
  apply (isolated_node_is_unbound false isolated_sdfg isolated_state []
           [mkNode 0 (Tasklet "t") [] []] [] (mkNode 1 (AccessNode "X") [] [])
           "X" (float_array [10%Z])); try reflexivity.
  intros n [<- | []]. exact I.
Defined.

Lemma append_length (s t : string) :
  String.length (s +:+ t) = String.length s + String.length t.
Proof.
  induction s as [|c s IH]; [reflexivity |].
  change (String c s +:+ t) with (String c (s +:+ t)). simpl. now rewrite IH.
Qed.

Lemma append_cancel (k k' s : string) : k +:+ s = k' +:+ s -> k = k'.
Proof.
  revert k'. induction k as [|c k IH]; intros [|c' k'] H.
  - reflexivity.
  - apply (f_equal String.length) in H. rewrite !append_length in H.
    simpl in H. lia.
  - apply (f_equal String.length) in H. rewrite !append_length in H.
    simpl in H. lia.
  - change (String c (k +:+ s) = String c' (k' +:+ s)) in H.
    injection H as -> H. now rewrite (IH k' H).
Qed.

Lemma suffixed_values (suffix : string) (d : list (string * string)) :
  suffixed suffix d ->
  map snd d = map (fun k => k +:+ suffix) (map fst d)
  /\ List.NoDup (map snd d).
Proof.
  intros [Hnd Hv].
  assert (E : map snd d = map (fun k => k +:+ suffix) (map fst d)).
  { rewrite List.map_map. apply map_ext_in. intros [k v] Hin. simpl.
    now apply Hv. }
  split; [exact E |]. rewrite E. apply Finite.Injective_map_NoDup; [| exact Hnd].
  intros a b. apply append_cancel.
Qed.

Lemma dict_set_keys (k v : string) (d : list (string * string)) :
  map fst (dict_set String.eqb k v d)
  = if dict_has String.eqb k d then map fst d else map fst d ++ [k].
Proof.
  unfold dict_has. induction d as [|[k' v'] d IH]; simpl; [reflexivity |].
  destruct (String.eqb k' k) eqn:E; simpl.
  - apply String.eqb_eq in E. now subst.
  - rewrite IH. now destruct (dict_get String.eqb k d).
Qed.

Lemma suffixed_set (suffix k : string) (d : list (string * string)) :
  suffixed suffix d -> suffixed suffix (dict_set String.eqb k (k +:+ suffix) d).
Proof.
  intros [Hnd Hv]. split.
  - rewrite dict_set_keys. destruct (dict_has String.eqb k d) eqn:E;
      [exact Hnd |].
    apply List.NoDup_app; [exact Hnd | constructor; [intros [] | constructor] |].
    intros x Hx [<- | []]. apply dict_has_keys in Hx. congruence.
  - intros k' v' Hin.
    apply (dict_set_In String.eqb) in Hin as [[= -> ->] | Hin];
      [reflexivity | now apply Hv].
Qed.

Lemma suffixed_nil (suffix : string) : suffixed suffix [].
Proof. split; [constructor | intros k v []]. Qed.

Lemma as_input_ok (a : string) (v v' : NestSDFG.Vars) :
  dicts_ok v -> NestSDFG.as_input a v = Ok v' -> dicts_ok v'.
Proof.
  intros (Hi & Ho & Ht). unfold NestSDFG.as_input.
  destruct (negb (NestSDFG.str_has a (NestSDFG.inputs v))).
  - destruct (NestSDFG.nested_arrays v !! a); simpl; [| discriminate].
    intros [= <-]. unfold dicts_ok. simpl.
    split; [now apply suffixed_set | now split].
  - simpl. intros [= <-]. unfold dicts_ok. simpl. now split.
Qed.

Lemma as_output_ok (a : string) (v v' : NestSDFG.Vars) :
  dicts_ok v -> NestSDFG.as_output a v = Ok v' -> dicts_ok v'.
Proof.
  intros (Hi & Ho & Ht). unfold NestSDFG.as_output.
  destruct (negb (NestSDFG.str_has a (NestSDFG.outputs v))).
  - destruct (NestSDFG.nested_arrays v !! a); simpl; [| discriminate].
    intros [= <-]. unfold dicts_ok. simpl.
    split; [exact Hi |]. split; [now apply suffixed_set | exact Ht].
  - simpl. intros [= <-]. unfold dicts_ok. simpl. now split.
Qed.

Lemma classify_ok (st : SDFGState) (v v' : NestSDFG.Vars) (n n' : Node) :
  dicts_ok v -> NestSDFG.classify st v n = Ok (v', n') -> dicts_ok v'.
Proof.
  intros Hv. unfold NestSDFG.classify.
  destruct (kind n); try (intros [= <- _]; exact Hv).
  destruct (NestSDFG.nested_arrays v !! adata) as [desc|]; simpl; [| discriminate].
  destruct (negb (transient desc)); [| intros [= <- _]; exact Hv].
  destruct (0 <? out_degree st (nid n))%nat.
  - destruct (NestSDFG.as_input adata v) as [v1|] eqn:E1; simpl; [| discriminate].
    apply as_input_ok in E1; [| exact Hv].
    destruct (0 <? in_degree st (nid n))%nat.
    + destruct (NestSDFG.as_output adata v1) as [v2|] eqn:E2; simpl; [| discriminate].
      apply as_output_ok in E2; [| exact E1].
      destruct (NestSDFG.node_data_name v2); simpl; [| discriminate].
      now intros [= <- _].
    + simpl. destruct (NestSDFG.node_data_name v1); simpl; [| discriminate].
      now intros [= <- _].
  - simpl. destruct (0 <? in_degree st (nid n))%nat.
    + destruct (NestSDFG.as_output adata v) as [v2|] eqn:E2; simpl; [| discriminate].
      apply as_output_ok in E2; [| exact Hv].
      destruct (NestSDFG.node_data_name v2); simpl; [| discriminate].
      now intros [= <- _].
    + simpl. destruct (NestSDFG.node_data_name v); simpl; [| discriminate].
      now intros [= <- _].
Qed.

Lemma promote_ok (st : SDFGState) (v v' : NestSDFG.Vars) (n n' : Node) :
  dicts_ok v -> NestSDFG.promote st v n = Ok (v', n') -> dicts_ok v'.
Proof.
  intros Hv. unfold NestSDFG.promote.
  destruct (kind n); try (intros [= <- _]; exact Hv).
  destruct (NestSDFG.nested_arrays v !! adata) as [desc|]; simpl; [| discriminate].
  destruct (transient desc); [| intros [= <- _]; exact Hv].
  destruct (negb (NestSDFG.str_has adata (NestSDFG.transients v)) && _).
  - simpl. intros [= <- _]. unfold dicts_ok. simpl. destruct Hv as (Hi & Ho & Ht).
    split; [exact Hi |]. split; [exact Ho | now apply suffixed_set].
  - simpl. now intros [= <- _].
Qed.

Lemma over_nodes_ok (f : NestSDFG.Vars -> Node -> result (NestSDFG.Vars * Node))
    (ns ns' : list Node) (v v' : NestSDFG.Vars) :
  (forall v1 v2 n n', dicts_ok v1 -> f v1 n = Ok (v2, n') -> dicts_ok v2) ->
  dicts_ok v -> NestSDFG.over_nodes f v ns = Ok (v', ns') ->
  dicts_ok v' /\ length ns' = length ns.
Proof.
  intros Hf. revert v ns'. induction ns as [|n ns IH]; intros v ns' Hv; simpl.
  - intros [= <- <-]. now split.
  - destruct (f v n) as [[v1 n1]|] eqn:E; [| discriminate].
    destruct (NestSDFG.over_nodes f v1 ns) as [[v2 ns2]|] eqn:E2; [| discriminate].
    intros [= <- <-]. destruct (IH v1 ns2 (Hf _ _ _ _ Hv E) E2) as [H1 H2].
    split; [exact H1 | simpl; now rewrite H2].
Qed.

Lemma scan_state_ok (p : bool) (v v' : NestSDFG.Vars) (st st' : SDFGState) :
  dicts_ok v -> NestSDFG.scan_state p v st = Ok (v', st') -> dicts_ok v'.
Proof.
  intros Hv. unfold NestSDFG.scan_state.
  destruct (NestSDFG.over_nodes (NestSDFG.classify st) v (nodes st))
    as [[v1 ns1]|] eqn:E1; simpl; [| discriminate].
  apply over_nodes_ok in E1 as [H1 _]; [| apply classify_ok | exact Hv].
  destruct p; [| now intros [= <- _]].
  destruct (NestSDFG.over_nodes _ v1 _) as [[v2 ns2]|] eqn:E2; simpl;
    [| discriminate].
  apply over_nodes_ok in E2 as [H2 _]; [| apply promote_ok | exact H1].
  now intros [= <- _].
Qed.

Lemma scan_states_ok (p : bool) (ss ss' : list SDFGState)
    (v v' : NestSDFG.Vars) :
  dicts_ok v -> NestSDFG.scan_states p v ss = Ok (v', ss') ->
  dicts_ok v' /\ length ss' = length ss.
Proof.
  revert v ss'. induction ss as [|s ss IH]; intros v ss' Hv; simpl.
  - intros [= <- <-]. now split.
  - destruct (NestSDFG.scan_state p v s) as [[v1 s1]|] eqn:E; [| discriminate].
    destruct (NestSDFG.scan_states p v1 ss) as [[v2 ss2]|] eqn:E2; [| discriminate].
    intros [= <- <-]. destruct (IH v1 ss2 (scan_state_ok _ _ _ _ _ Hv E) E2) as [H1 H2].
    split; [exact H1 | simpl; now rewrite H2].
Qed.

Lemma suffixed_update (suffix : string) (d new : list (string * string)) :
  suffixed suffix d -> suffixed suffix new ->
  suffixed suffix (dict_update String.eqb d new).
Proof.
  intros Hd [_ Hnew]. unfold dict_update. revert d Hd.
  induction new as [|[k v] new IH]; intros d Hd; [exact Hd |].
  simpl. apply IH.
  - intros k' v' Hin. apply Hnew. now right.
  - rewrite (Hnew k v (or_introl eq_refl)). now apply suffixed_set.
Qed.

Lemma update_memlets_length (ins outs : list (string * string))
    (ss acc ss' : list SDFGState) :
  foldR (fun acc s => s' ← NestSDFG.update_memlets ins outs s;
                      Ok (acc ++ [s'])) ss acc = Ok ss' ->
  length ss' = length acc + length ss.
Proof.
  revert acc. induction ss as [|s ss IH]; intros acc; simpl.
  - intros [= <-]. lia.
  - destruct (NestSDFG.update_memlets ins outs s) as [s'|]; simpl; [| discriminate].
    intros H. apply IH in H. rewrite length_app in H. simpl in H. lia.
Qed.

Lemma connect_nodes (read : bool) (nested : NodeId)
    (arrs : gmap string ArrayDesc) (dict : list (string * string))
    (first fresh' : NodeId) (st st' : SDFGState) :
  (forall m, In m (nodes st) -> nid m < first) ->
  NestSDFG.connect read nested arrs dict first st = Ok (fresh', st') ->
  exists more,
    nodes st' = nodes st ++ more
    /\ map kind more = map (fun kv => AccessNode (fst kv)) dict
    /\ (forall kv, In kv dict -> is_Some (arrs !! fst kv)).
Proof.
  unfold NestSDFG.connect.
  revert first st. induction dict as [|[k v] dict IH]; intros first st Hlt; simpl.
  - intros [= <- <-]. exists []. rewrite app_nil_r.
    split; [reflexivity |]. split; [reflexivity | intros kv []].
  - destruct (arrs !! k) as [desc|] eqn:Ek; simpl; [| discriminate].
    set (node := mkNode first (AccessNode k) [] []).
    set (s1 := add_node node st).
    set (m := NestSDFG.from_array k desc).
    set (s2 := snd (if read then add_edge s1 first None nested (Some v) m
                    else add_edge s1 nested (Some v) first None m)).
    intros H.
    assert (Hs1 : s1 = set_nodes (nodes st ++ [node]) st).
    { unfold s1, add_node.
      replace (has_node st (nid node)) with false; [reflexivity |].
      symmetry. now apply has_node_fresh. }
    assert (Hn2 : nodes s2 = nodes st ++ [node]).
    { unfold s2. destruct read; simpl; now rewrite Hs1. }
    assert (Hlt2 : forall x, In x (nodes s2) -> nid x < S first).
    { intros x. rewrite Hn2. intros Hx.
      apply in_app_or in Hx as [Hx | [<- | []]]; [| simpl; lia].
      specialize (Hlt x Hx). lia. }
    destruct (IH (S first) s2 Hlt2 H) as (more & Hm & Hk & Harr).
    exists (node :: more). split; [| split].
    + rewrite Hm, Hn2, <- app_assoc. reflexivity.
    + simpl. now rewrite Hk.
    + intros kv [<- | Hin]; [simpl; rewrite Ek; eauto | now apply Harr].
Qed.

Lemma boundary_in (nested : NodeId) (st : SDFGState) (l : string) (c : SDFG)
    (dict : list (string * string)) (new : list Edge) :
  kind_of st nested = Some (NestedSDFG l c) ->
  Forall2 (boundary_edge true nested st) dict new ->
  List.filter (fun e => dst e =? nested)%nat new = new
  /\ List.filter (fun e => src e =? nested)%nat new = []
  /\ map dst_conn new = map (fun kv => Some (snd kv)) dict.
Proof.
  intros Hk. induction 1 as [|kv e dict new [_ (Hd & Hc & Hs)] _ IH];
    [now repeat split |].
  destruct IH as (H1 & H2 & H3). simpl.
  rewrite Hd, Nat.eqb_refl, H1, H2, Hc, H3.
  destruct (Nat.eqb_spec (src e) nested) as [E | _]; [| now repeat split].
  rewrite E, Hk in Hs. discriminate.
Qed.

Lemma boundary_out (nested : NodeId) (st : SDFGState) (l : string) (c : SDFG)
    (dict : list (string * string)) (new : list Edge) :
  kind_of st nested = Some (NestedSDFG l c) ->
  Forall2 (boundary_edge false nested st) dict new ->
  List.filter (fun e => src e =? nested)%nat new = new
  /\ List.filter (fun e => dst e =? nested)%nat new = []
  /\ map src_conn new = map (fun kv => Some (snd kv)) dict.
Proof.
  intros Hk. induction 1 as [|kv e dict new [_ (Hd & Hc & Hs)] _ IH];
    [now repeat split |].
  destruct IH as (H1 & H2 & H3). simpl.
  rewrite Hd, Nat.eqb_refl, H1, H2, Hc, H3.
  destruct (Nat.eqb_spec (dst e) nested) as [E | _]; [| now repeat split].
  rewrite E, Hk in Hs. discriminate.
Qed.

Lemma scan_suffixed (suffix : string) (d : list (string * string)) :
  suffixed suffix d ->
  InlineSDFG.scan_connectors (map (fun kv => Some (snd kv)) d) [] = true.
Proof.
  intros H. apply scan_connectors_spec. split; [| intros x _ []].
  destruct (suffixed_values suffix d H) as [_ Hnd].
  rewrite <- (List.map_map snd Some).
  apply Finite.Injective_map_NoDup; [| exact Hnd]. now intros a b [= ->].
Qed.

(** What NestSDFG.apply has computed when it completes. *)
Lemma apply_run (p : bool) (sdfg g' : SDFG) :
  NestSDFG.apply p sdfg = Ok g' ->
  exists v ss' narrs fresh1 st1 fresh2 st2,
    let outs := dict_update String.eqb (NestSDFG.outputs v) (NestSDFG.transients v) in
    let child := mkSDFG (label sdfg) narrs ss' (interstate sdfg) in
    let fresh := S (NestSDFG.max_nid ss') in
    let nested := mkNode fresh (NestedSDFG (label sdfg) child)
                         (map snd (NestSDFG.inputs v)) (map snd outs) in
    dicts_ok v
    /\ length ss' = length (states sdfg)
    /\ NestSDFG.connect true fresh (NestSDFG.outer_arrays v) (NestSDFG.inputs v)
         (S fresh) (mkState (label sdfg) [nested] [] 0) = Ok (fresh1, st1)
    /\ NestSDFG.connect false fresh (NestSDFG.outer_arrays v) outs fresh1 st1
       = Ok (fresh2, st2)
    /\ g' = mkSDFG (label sdfg) (NestSDFG.outer_arrays v) [st2] [].
Proof.
  unfold NestSDFG.apply.
  destruct (NestSDFG.scan_states p _ (states sdfg)) as [[v ss]|] eqn:Escan;
    simpl; [| discriminate].
  destruct (NestSDFG.drop_old_names v) as [narrs|] eqn:Edrop; simpl;
    [| discriminate].
  destruct (foldR _ ss []) as [ss'|] eqn:Eupd; simpl; [| discriminate].
  destruct (NestSDFG.connect true _ _ (NestSDFG.inputs v) _ _)
    as [[fresh1 st1]|] eqn:Ec1; simpl; [| discriminate].
  destruct (NestSDFG.connect false _ _ _ fresh1 st1)
    as [[fresh2 st2]|] eqn:Ec2; simpl; [| discriminate].
  intros [= <-].
  apply scan_states_ok in Escan as [Hok Hlen];
    [| repeat split; try constructor; intros k x []].
  apply update_memlets_length in Eupd. simpl in Eupd.
  exists v, ss', narrs, fresh1, st1, fresh2, st2. cbv zeta.
  split; [exact Hok |]. split; [congruence |]. now repeat split.
Qed.

(** X12: NestSDFG.apply followed by InlineSDFG.can_be_applied: on the
    nested SDFG node that a completed NestSDFG.apply leaves (node 0 of the
    only state), InlineSDFG.can_be_applied returns true exactly when the
    original SDFG had one state; the connectors never stand in the way,
    since every connector is bound to one edge. *)
Theorem outline_result_is_inline_candidate (promote_global_trans : bool)
    (sdfg g' : SDFG) :
  NestSDFG.apply promote_global_trans sdfg = Ok g' ->
  exists st,
    states g' = [st]
    /\ forall expr_index strict,
         snd (InlineSDFG.can_be_applied expr_index strict
                (InlineSDFG.mkMatch st 0 g'))
         = Ok (length (states sdfg) =? 1)%nat.
Proof.
  intros H. apply apply_run in H
    as (v & ss' & narrs & fresh1 & st1 & fresh2 & st2 & Hok & Hlen & Ec1 & Ec2 & ->).
  set (outs := dict_update String.eqb (NestSDFG.outputs v) (NestSDFG.transients v)) in *.
  set (child := mkSDFG (label sdfg) narrs ss' (interstate sdfg)) in *.
  set (fresh := S (NestSDFG.max_nid ss')) in *.
  set (nested := mkNode fresh (NestedSDFG (label sdfg) child)
                        (map snd (NestSDFG.inputs v)) (map snd outs)) in *.
  set (st0 := mkState (label sdfg) [nested] [] 0) in *.
  assert (Hlt0 : forall m, In m (nodes st0) -> nid m < S fresh).
  { intros m [<- | []]. simpl. lia. }
  destruct (connect_spec true fresh _ _ _ _ _ _ Hlt0 Ec1)
    as ((new1 & He1 & Hall1) & Hlt1 & Hmono1).
  destruct (connect_spec false fresh _ _ _ _ _ _ Hlt1 Ec2)
    as ((new2 & He2 & Hall2) & _ & Hmono2).
  destruct (connect_nodes true fresh _ _ _ _ _ _ Hlt0 Ec1) as (more1 & Hn1 & _).
  destruct (connect_nodes false fresh _ _ _ _ _ _ Hlt1 Ec2) as (more2 & Hn2 & _).
  apply (Forall2_boundary_mono true fresh st1 st2 _ _ Hmono2) in Hall1.
  assert (Hkind : kind_of st2 fresh = Some (NestedSDFG (label sdfg) child)).
  { unfold kind_of. rewrite (Hmono2 _ nested); [reflexivity |].
    apply Hmono1. unfold find_node. simpl. now rewrite Nat.eqb_refl. }
  destruct (boundary_in fresh st2 _ _ _ _ Hkind Hall1) as (Hi1 & Hi2 & Hi3).
  destruct (boundary_out fresh st2 _ _ _ _ Hkind Hall2) as (Ho1 & Ho2 & Ho3).
  destruct Hok as (Hin & Hout & Htr).
  exists st2. split; [reflexivity |]. intros expr_index strict.
  rewrite (can_be_applied_run expr_index strict st2 0 _ nested (label sdfg) child);
    [| rewrite Hn2, Hn1; reflexivity | reflexivity].
  cbn [snd nid nested]. unfold in_edges, out_edges. rewrite He2, He1. simpl.
  rewrite !List.filter_app, Hi1, Hi2, Ho1, Ho2, app_nil_r. simpl.
  rewrite Hi3, Ho3, (scan_suffixed "_in" _ Hin).
  rewrite (scan_suffixed "_out" outs (suffixed_update _ _ _ Hout Htr)).
  rewrite Hlen, !andb_true_r. reflexivity.
Qed.

Lemma outline_result_is_inline_candidate_witness :
  exists st,
    states C_outlined = [st]
    /\ forall expr_index strict,
         snd (InlineSDFG.can_be_applied expr_index strict
                (InlineSDFG.mkMatch st 0 C_outlined))
         = Ok (length (states C_sdfg) =? 1)%nat.
Proof.
  apply (outline_result_is_inline_candidate false C_sdfg C_outlined).
  vm_compute. reflexivity.
Defined.

Lemma foldM_raise_kind {S A B} (x : Exn) (f : B -> A -> M S B) (l : list A) :
  (forall b y w w' e, f b y w = (w', Raise e) -> e = x) ->
  forall b w w' e, foldM f l b w = (w', Raise e) -> e = x.
Proof.
  intros Hf. induction l as [|y l IH]; intros b w w' e; simpl.
  - discriminate.
  - unfold bindM. destruct (f b y w) as [w1 [b1|e1]] eqn:E.
    + apply IH.
    + intros [= <- <-]. now apply Hf in E.
Qed.

Lemma collect_transients_raise (nlabel : string)
    (narrays : gmap string ArrayDesc) (w w' : InlineSDFG.World) (e : Exn) :
  InlineSDFG.collect_transients nlabel narrays w = (w', Raise e) -> e = KeyError.
Proof.
  unfold InlineSDFG.collect_transients, bindM at 1, gets.
  apply foldM_raise_kind. intros tr node w0 w1 e0.
  destruct (kind node); try discriminate.
  unfold bindM, lift. destruct (narrays !! adata) as [desc|]; cbn [of_option].
  - destruct (negb (dict_has String.eqb adata tr) && transient desc);
      [| discriminate].
    unfold InlineSDFG.add_datadescM.
    destruct (add_datadesc (nlabel +:+ "_" +:+ adata) desc (InlineSDFG.w_arrays w0)).
    discriminate.
  - now intros [= _ <-].
Qed.

Lemma boundary_edges_raise (cands : list Node) (tr : list (string * string))
    (conn_edges : InlineSDFG.EdgeDict) (e : Exn) :
  InlineSDFG.boundary_edges cands tr conn_edges = Raise e -> e = KeyError.
Proof.
  unfold InlineSDFG.boundary_edges. generalize (@nil (NodeId * Edge)).
  induction cands as [|n cands IH]; intros acc; simpl; [discriminate |].
  destruct (kind n); try apply IH.
  destruct (negb (dict_has String.eqb adata tr)); [| apply IH].
  destruct (dict_get opt_str_eqb (Some adata) conn_edges); simpl; [apply IH |].
  now intros [= <-].
Qed.

Lemma boundary_edges_unbound (cands : list Node) (tr : list (string * string))
    (conn_edges : InlineSDFG.EdgeDict) (node : Node) (d : string) :
  In node cands -> kind node = AccessNode d ->
  dict_has String.eqb d tr = false ->
  dict_get opt_str_eqb (Some d) conn_edges = None ->
  InlineSDFG.boundary_edges cands tr conn_edges = Raise KeyError.
Proof.
  intros Hin Hk Ht Hg.
  destruct (InlineSDFG.boundary_edges cands tr conn_edges) as [l|e] eqn:E;
    [| f_equal; now apply boundary_edges_raise in E].
  exfalso. revert E. unfold InlineSDFG.boundary_edges.
  generalize (@nil (NodeId * Edge)). revert Hin.
  induction cands as [|n cands IH]; intros Hin acc; [destruct Hin |].
  simpl. destruct Hin as [-> | Hin].
  - rewrite Hk, Ht, Hg. simpl. discriminate.
  - destruct (kind n); try now apply IH.
    destruct (negb (dict_has String.eqb adata tr)); [| now apply IH].
    destruct (dict_get opt_str_eqb (Some adata) conn_edges); simpl;
      [now apply IH | discriminate].
Qed.

Lemma unbound_in (st : SDFGState) (n : NodeId) (d : string) :
  (forall e, In e (in_edges st n) -> dst_conn e <> Some d) ->
  dict_get opt_str_eqb (Some d) (fst (InlineSDFG.collect_in st n)) = None.
Proof.
  intros H. rewrite collect_in_fst.
  destruct (dict_get _ _ _) as [e|] eqn:E; [| reflexivity].
  apply collect_values in E as [E | [Hin Hc]]; [discriminate |].
  now apply H in Hin.
Qed.

Lemma unbound_out (st : SDFGState) (n : NodeId) (d : string) :
  (forall e, In e (out_edges st n) -> src_conn e <> Some d) ->
  dict_get opt_str_eqb (Some d) (fst (InlineSDFG.collect_out st n)) = None.
Proof.
  intros H. rewrite collect_out_fst.
  destruct (dict_get _ _ _) as [e|] eqn:E; [| reflexivity].
  apply collect_values in E as [E | [Hin Hc]]; [discriminate |].
  now apply H in Hin.
Qed.

(** X13: InlineSDFG.apply raises KeyError when the nested state has a
    source access node of a non-transient array that no incoming edge of
    the nested SDFG node binds (or a sink access node of a non-transient
    array that no outgoing edge binds), for a nested SDFG node outside
    every scope: the lookup inputs[node.data] (outputs[node.data]) fails.
    InlineSDFG.can_be_applied does not exclude such a candidate. *)
Theorem unbound_boundary_node_raises (self : InlineSDFG.Transformation)
    (sdfg : SDFG) (state : SDFGState) (nsdfg_node : Node) (lbl : string)
    (nsdfg : SDFG) (nstate : SDFGState) (node : Node) (d : string)
    (desc : ArrayDesc) :
  nth_error (states sdfg) (InlineSDFG.state_id self) = Some state ->
  nth_error (nodes state) (InlineSDFG.subgraph self) = Some nsdfg_node ->
  kind nsdfg_node = NestedSDFG lbl nsdfg ->
  nth_error (states nsdfg) 0 = Some nstate ->
  entry_node state (nid nsdfg_node) = None ->
  In node (nodes nstate) -> kind node = AccessNode d ->
  arrays nsdfg !! d = Some desc -> transient desc = false ->
  (in_degree nstate (nid node) = 0
   /\ forall e, In e (in_edges state (nid nsdfg_node)) -> dst_conn e <> Some d)
  \/ (out_degree nstate (nid node) = 0
      /\ forall e, In e (out_edges state (nid nsdfg_node)) -> src_conn e <> Some d) ->
  snd (InlineSDFG.apply self sdfg) = Raise KeyError.
Proof.
  intros Hst Hnode Hkind Hns Hentry Hin Hk Hd Ht Hside.
  unfold InlineSDFG.apply. rewrite Hst, Hnode. unfold InlineSDFG.child_of.
  rewrite Hkind, Hns.
  destruct (InlineSDFG.apply_body _ _ _) as [w r] eqn:E. cbn [snd].
  unfold InlineSDFG.apply_body in E. unfold bindM at 1, gets at 1 in E.
  cbn [InlineSDFG.w_state] in E. rewrite Hentry in E.
  unfold bindM at 1, lift at 1 in E.
  destruct (InlineSDFG.collect_in state (nid nsdfg_node)) as [inputs input_set] eqn:Ei.
  destruct (InlineSDFG.collect_out state (nid nsdfg_node)) as [outputs output_set] eqn:Eo.
  unfold bindM at 1 in E.
  destruct (InlineSDFG.collect_transients _ _ _) as [w1 [tr|e]] eqn:Et.
  2:{ injection E as _ <-. f_equal. now apply collect_transients_raise in Et. }
  destruct (collect_transients_spec _ _ _ _ _ Et) as (_ & Hn1 & Htr).
  unfold bindM at 1, gets at 1 in E. rewrite Hn1 in E.
  cbn [InlineSDFG.w_nstate] in E.
  assert (Hnot : dict_has String.eqb d tr = false).
  { destruct (dict_has String.eqb d tr) eqn:Eh; [| reflexivity].
    destruct (Htr d Eh) as (desc' & Hd' & Ht'). congruence. }
  unfold bindM at 1, lift at 1 in E.
  destruct (InlineSDFG.boundary_edges (source_nodes nstate) tr inputs)
    as [new_in|e] eqn:Eb1.
  2:{ injection E as _ <-. f_equal. now apply boundary_edges_raise in Eb1. }
  destruct Hside as [[Hdeg Hconn] | [Hdeg Hconn]].
  - exfalso.
    rewrite (boundary_edges_unbound _ tr inputs node d) in Eb1; try assumption;
      [discriminate | |].
    + apply filter_In. split; [exact Hin |]. now rewrite Hdeg.
    + replace inputs with (fst (InlineSDFG.collect_in state (nid nsdfg_node)))
        by now rewrite Ei.
      now apply unbound_in.
  - unfold bindM at 1, lift at 1 in E.
    rewrite (boundary_edges_unbound _ tr outputs node d) in E; try assumption.
    + now injection E as _ <-.
    + apply filter_In. split; [exact Hin |]. now rewrite Hdeg.
    + replace outputs with (fst (InlineSDFG.collect_out state (nid nsdfg_node)))
        by now rewrite Eo.
      now apply unbound_out.
Qed.

Lemma cpp_mapper_ok (code : string) : exists m, MapCpp.mapper code = Ok m.
Proof.
  unfold MapCpp.mapper.
  destruct (mapper_fold (split newline code) 1 ∅) as (m & E & _); [lia | |].
  - intros a b c from to. unfold cpp_range, MapCpp.CppMap.
    now rewrite lookup_empty.
  - exists m. now rewrite E.
Qed.

Lemma create_cache_has (name : string) (f : Files) :
  mem_str name (folders (create_cache name f)) = true.
Proof.
  unfold create_cache. destruct (mem_str name (folders f)) eqn:E; [exact E |].
  simpl. unfold mem_str. rewrite existsb_app. simpl.
  now rewrite String.eqb_refl, orb_true_r.
Qed.

Lemma create_cache_fields (name : string) (f : Files) :
  saved_py (create_cache name f) = saved_py f
  /\ saved_cpp (create_cache name f) = saved_cpp f
  /\ cache (create_cache name f) = cache f
  /\ DACE_port (create_cache name f) = DACE_port f
  /\ sent (create_cache name f) = sent f.
Proof. unfold create_cache. now destruct (mem_str name (folders f)). Qed.

Lemma unbound_boundary_node_raises_witness :
  snd (InlineSDFG.can_be_applied 0 false
         (InlineSDFG.mkMatch unbound_state 0 unbound_sdfg)) = Ok true
  /\ snd (InlineSDFG.apply (InlineSDFG.mkTransformation 0 0) unbound_sdfg)
     = Raise KeyError.
Proof.
  split; [reflexivity |].
  apply (unbound_boundary_node_raises (InlineSDFG.mkTransformation 0 0)
           unbound_sdfg unbound_state (A_node A_child) "nested" A_child
           A_child_state (mkNode 10 (AccessNode "in") [] []) "in"
           (float_array [10%Z])); try reflexivity.
  - now left.
  - left. split; [reflexivity |]. intros e [].
Defined.

(** * Frame and error properties of the transformations *)

(** ** The temporary record *)

Lemma remove_str_absent (name : string) (l : list string) :
  mem_str name l = false -> remove_str name l = l.
Proof.
  unfold remove_str, mem_str. induction l as [|x l IH]; simpl; [reflexivity |].
  intros H. apply orb_false_iff in H as [H1 H2].
  rewrite String.eqb_sym in H1. rewrite H1. simpl. now rewrite IH.
Qed.

Lemma remove_str_snoc (name : string) (l : list string) :
  mem_str name l = false -> remove_str name (l ++ [name]) = l.
Proof.
  intros H. unfold remove_str. rewrite List.filter_app. simpl.
  rewrite String.eqb_refl. simpl. rewrite app_nil_r.
  now apply remove_str_absent.
Qed.

(** X16: round trip of the temporary record.  get_tmp after temporaryInfo
    returns the data written.  For an SDFG that has no cache folder, no
    record and no saved mapping yet, remove_tmp with remove_cache set undoes
    temporaryInfo exactly (the folder created for the record is removed
    again), and get_tmp then returns None. *)
Theorem temporary_record_round_trip (f : Files) (name : string) (data : Tmp) :
  mem_str name (folders f) = false ->
  tmps f !! name = None ->
  saved_py f !! name = None -> saved_cpp f !! name = None ->
  snd ((temporaryInfo name data ;;; get_tmp name) f) = Ok (Some data)
  /\ (temporaryInfo name data ;;; remove_tmp name true) f = (f, Ok tt)
  /\ (temporaryInfo name data ;;; remove_tmp name true ;;; get_tmp name) f
     = (f, Ok None).
Proof.
  intros Hdir Hrec Hpy Hcpp.
  assert (Hround : (temporaryInfo name data ;;; remove_tmp name true) f = (f, Ok tt)).
  { unfold temporaryInfo, remove_tmp, bindM, modify, gets, create_cache.
    rewrite Hdir. cbn [folders with_tmps with_folders tmps saved_py saved_cpp].
    unfold mem_str at 1. rewrite existsb_app. cbn [existsb].
    rewrite String.eqb_refl, orb_true_r. cbn [negb].
    rewrite lookup_insert_eq, Hpy, Hcpp. simpl.
    rewrite remove_str_snoc by exact Hdir.
    rewrite delete_insert_eq, delete_id by exact Hrec.
    now destruct f. }
  split; [| split; [exact Hround |]].
  - unfold temporaryInfo, get_tmp, bindM, modify, gets. simpl.
    now rewrite lookup_insert_eq.
  - change ((temporaryInfo name data ;;; remove_tmp name true ;;; get_tmp name) f)
      with (bindM (temporaryInfo name data)
              (fun _ => bindM (remove_tmp name true) (fun _ => get_tmp name)) f).
    unfold bindM at 1 in Hround. unfold bindM at 1.
    destruct (temporaryInfo name data f) as [f1 [[]|e]]; [| discriminate].
    unfold bindM. rewrite Hround. unfold get_tmp, gets. now rewrite Hrec.
Qed.


Lemma temporary_record_round_trip_witness :
  snd ((temporaryInfo "program" (mkTmp (Some 1%Z) (Some 9%Z) (Some "program.py")
                                   None None (Some ["program.py"]) None) ;;;
        get_tmp "program") no_records)
  = Ok (Some (mkTmp (Some 1%Z) (Some 9%Z) (Some "program.py") None None
                    (Some ["program.py"]) None))
  /\ (temporaryInfo "program" (mkTmp (Some 1%Z) (Some 9%Z) (Some "program.py")
                                 None None (Some ["program.py"]) None) ;;;
      remove_tmp "program" true) no_records = (no_records, Ok tt)
  /\ (temporaryInfo "program" (mkTmp (Some 1%Z) (Some 9%Z) (Some "program.py")
                                 None None (Some ["program.py"]) None) ;;;
      remove_tmp "program" true ;;; get_tmp "program") no_records
     = (no_records, Ok None).
Proof.
  apply (temporary_record_round_trip no_records "program"
           (mkTmp (Some 1%Z) (Some 9%Z) (Some "program.py") None None
                  (Some ["program.py"]) None)); reflexivity.
Defined.

(** ** The names of the outline transformation *)

Lemma as_input_name (a : string) (v v' : NestSDFG.Vars) :
  NestSDFG.as_input a v = Ok v' ->
  NestSDFG.node_data_name v' = Some (a +:+ "_in").
Proof.
  unfold NestSDFG.as_input.
  destruct (negb (NestSDFG.str_has a (NestSDFG.inputs v)));
    [destruct (NestSDFG.nested_arrays v !! a); simpl; [| discriminate] | simpl];
    now intros [= <-].
Qed.

Lemma as_output_name (a : string) (v v' : NestSDFG.Vars) :
  NestSDFG.as_output a v = Ok v' ->
  NestSDFG.node_data_name v' = Some (a +:+ "_out").
Proof.
  unfold NestSDFG.as_output.
  destruct (negb (NestSDFG.str_has a (NestSDFG.outputs v)));
    [destruct (NestSDFG.nested_arrays v !! a); simpl; [| discriminate] | simpl];
    now intros [= <-].
Qed.

(** X17: the first loop of NestSDFG.apply renames an access node of a
    non-transient array d to d_out when the node has an incoming edge (also
    when it has outgoing edges as well), to d_in when it has outgoing edges
    only, and, when it has no edge at all, to whatever name the previous
    renamed node left in node_data_name.  That name is also the value of
    node_data_name afterwards. *)
Theorem classify_renames (st : SDFGState) (v v' : NestSDFG.Vars)
    (node node' : Node) (d : string) (desc : ArrayDesc) :
  kind node = AccessNode d ->
  NestSDFG.nested_arrays v !! d = Some desc -> transient desc = false ->
  NestSDFG.classify st v node = Ok (v', node') ->
  exists name,
    new_name st node d (NestSDFG.node_data_name v) = Some name
    /\ node' = mkNode (nid node) (AccessNode name) (in_connectors node)
                      (out_connectors node)
    /\ NestSDFG.node_data_name v' = Some name.
Proof.
  intros Hk Hd Ht. unfold NestSDFG.classify, new_name. rewrite Hk, Hd. simpl.
  rewrite Ht. simpl.
  assert (Hset : forall name, set_node_data name node
            = mkNode (nid node) (AccessNode name) (in_connectors node)
                     (out_connectors node)).
  { intros name. unfold set_node_data. now rewrite Hk. }
  destruct (0 <? out_degree st (nid node))%nat.
  - destruct (NestSDFG.as_input d v) as [v1|] eqn:E1; simpl; [| discriminate].
    destruct (0 <? in_degree st (nid node))%nat.
    + destruct (NestSDFG.as_output d v1) as [v2|] eqn:E2; simpl; [| discriminate].
      rewrite (as_output_name _ _ _ E2). simpl. intros [= <- <-].
      exists (d +:+ "_out"). rewrite Hset. split; [reflexivity |].
      split; [reflexivity | now apply as_output_name in E2].
    + simpl. rewrite (as_input_name _ _ _ E1). simpl. intros [= <- <-].
      exists (d +:+ "_in"). rewrite Hset. split; [reflexivity |].
      split; [reflexivity | now apply as_input_name in E1].
  - simpl. destruct (0 <? in_degree st (nid node))%nat.
    + destruct (NestSDFG.as_output d v) as [v2|] eqn:E2; simpl; [| discriminate].
      rewrite (as_output_name _ _ _ E2). simpl. intros [= <- <-].
      exists (d +:+ "_out"). rewrite Hset. split; [reflexivity |].
      split; [reflexivity | now apply as_output_name in E2].
    + simpl. destruct (NestSDFG.node_data_name v) as [name|] eqn:En; simpl;
        [| discriminate].
      intros [= <- <-]. exists name. rewrite Hset. now repeat split.
Qed.


Lemma classify_renames_witness :
  exists name,
    new_name isolated_state (mkNode 1 (AccessNode "X") [] []) "X" (Some "W_in")
    = Some name
    /\ mkNode 1 (AccessNode "W_in") [] []
       = mkNode 1 (AccessNode name) [] []
    /\ Some "W_in" = Some name.
Proof.
  apply (classify_renames isolated_state
           (NestSDFG.mkVars (<["X" := float_array [10%Z]]> ∅) ∅ [] [] []
                            (Some "W_in"))
           (NestSDFG.mkVars (<["X" := float_array [10%Z]]> ∅) ∅ [] [] []
                            (Some "W_in"))
           (mkNode 1 (AccessNode "X") [] [])
           (mkNode 1 (AccessNode "W_in") [] [])
           "X" (float_array [10%Z])); reflexivity.
Defined.

Lemma as_input_transients (a : string) (v v' : NestSDFG.Vars) :
  NestSDFG.as_input a v = Ok v' -> NestSDFG.transients v' = NestSDFG.transients v.
Proof.
  unfold NestSDFG.as_input.
  destruct (negb (NestSDFG.str_has a (NestSDFG.inputs v)));
    [destruct (NestSDFG.nested_arrays v !! a); simpl; [| discriminate] | simpl];
    now intros [= <-].
Qed.

Lemma as_output_transients (a : string) (v v' : NestSDFG.Vars) :
  NestSDFG.as_output a v = Ok v' -> NestSDFG.transients v' = NestSDFG.transients v.
Proof.
  unfold NestSDFG.as_output.
  destruct (negb (NestSDFG.str_has a (NestSDFG.outputs v)));
    [destruct (NestSDFG.nested_arrays v !! a); simpl; [| discriminate] | simpl];
    now intros [= <-].
Qed.

Lemma classify_transients (st : SDFGState) (v v' : NestSDFG.Vars) (n n' : Node) :
  NestSDFG.classify st v n = Ok (v', n') ->
  NestSDFG.transients v' = NestSDFG.transients v.
Proof.
  unfold NestSDFG.classify.
  destruct (kind n); try (now intros [= <- _]).
  destruct (NestSDFG.nested_arrays v !! adata) as [desc|]; simpl; [| discriminate].
  destruct (negb (transient desc)); [| now intros [= <- _]].
  destruct (if (0 <? out_degree st (nid n))%nat then NestSDFG.as_input adata v
            else Ok v) as [v1|] eqn:E1; simpl; [| discriminate].
  destruct (if (0 <? in_degree st (nid n))%nat then NestSDFG.as_output adata v1
            else Ok v1) as [v2|] eqn:E2; simpl; [| discriminate].
  destruct (NestSDFG.node_data_name v2); simpl; [| discriminate].
  intros [= <- _].
  transitivity (NestSDFG.transients v1).
  - destruct (0 <? in_degree st (nid n))%nat;
      [now apply as_output_transients in E2 | now injection E2 as <-].
  - destruct (0 <? out_degree st (nid n))%nat;
      [now apply as_input_transients in E1 | now injection E1 as <-].
Qed.

Lemma over_nodes_transients (st : SDFGState) (ns ns' : list Node)
    (v v' : NestSDFG.Vars) :
  NestSDFG.over_nodes (NestSDFG.classify st) v ns = Ok (v', ns') ->
  NestSDFG.transients v' = NestSDFG.transients v.
Proof.
  revert v ns'. induction ns as [|n ns IH]; intros v ns'; simpl.
  - now intros [= <- _].
  - destruct (NestSDFG.classify st v n) as [[v1 n1]|] eqn:E; [| discriminate].
    destruct (NestSDFG.over_nodes _ v1 ns) as [[v2 ns2]|] eqn:E2; [| discriminate].
    intros [= <- _]. rewrite (IH _ _ E2). now apply classify_transients in E.
Qed.

Lemma scan_states_transients (ss ss' : list SDFGState) (v v' : NestSDFG.Vars) :
  NestSDFG.scan_states false v ss = Ok (v', ss') ->
  NestSDFG.transients v' = NestSDFG.transients v.
Proof.
  revert v ss'. induction ss as [|s ss IH]; intros v ss'; simpl.
  - now intros [= <- _].
  - unfold NestSDFG.scan_state at 1.
    destruct (NestSDFG.over_nodes _ v (nodes s)) as [[v1 ns1]|] eqn:E; simpl;
      [| discriminate].
    destruct (NestSDFG.scan_states false v1 ss) as [[v2 ss2]|] eqn:E2;
      [| discriminate].
    intros [= <- _]. rewrite (IH _ _ E2). now apply over_nodes_transients in E.
Qed.

Lemma pops_delete (d : list (string * string)) (a0 a1 : gmap string ArrayDesc) :
  foldR (fun a kv => NestSDFG.pop (fst kv) a) d a0 = Ok a1 ->
  forall k, a1 !! k = if mem_str k (map fst d) then None else a0 !! k.
Proof.
  revert a0. induction d as [|[k' x] d IH]; intros a0; simpl.
  - now intros [= <-].
  - unfold NestSDFG.pop at 1. simpl. destruct (a0 !! k'); [| discriminate].
    intros H k. rewrite (IH _ H k). destruct (String.eqb k k') eqn:E; simpl.
    + apply String.eqb_eq in E. subst k'. rewrite lookup_delete_eq.
      now destruct (mem_str k (map fst d)).
    + apply String.eqb_neq in E. now rewrite lookup_delete_ne by congruence.
Qed.

Lemma deletes_delete (d : list (string * string)) (a0 : gmap string ArrayDesc)
    (k : string) :
  fold_left (fun a kv => delete (fst kv) a) d a0 !! k
  = if mem_str k (map fst d) then None else a0 !! k.
Proof.
  revert a0. induction d as [|[k' x] d IH]; intros a0; simpl; [reflexivity |].
  rewrite IH. destruct (String.eqb k k') eqn:E; simpl.
  - apply String.eqb_eq in E. subst k'. rewrite lookup_delete_eq.
    now destruct (mem_str k (map fst d)).
  - apply String.eqb_neq in E. now rewrite lookup_delete_ne by congruence.
Qed.

(** X18: when NestSDFG.apply completes without promoting transients, every
    access node of the new state names an array that is in the outer table
    and is no longer in the table of the nested SDFG: the nested table keeps
    the arrays of the inputs and outputs only under their new names. *)
Theorem outline_drops_old_names (sdfg g' : SDFG) :
  NestSDFG.apply false sdfg = Ok g' ->
  exists st nested lbl child,
    states g' = [st]
    /\ nth_error (nodes st) 0 = Some nested
    /\ kind nested = NestedSDFG lbl child
    /\ forall n k, In n (nodes st) -> kind n = AccessNode k ->
         is_Some (arrays g' !! k) /\ arrays child !! k = None.
Proof.
  unfold NestSDFG.apply.
  destruct (NestSDFG.scan_states false _ (states sdfg)) as [[v ss]|] eqn:Escan;
    simpl; [| discriminate].
  destruct (NestSDFG.drop_old_names v) as [narrs|] eqn:Edrop; simpl;
    [| discriminate].
  pose proof (scan_states_transients _ _ _ _ Escan) as Htr. simpl in Htr.
  rewrite Htr. simpl.
  destruct (foldR _ ss []) as [ss'|] eqn:Eupd; simpl; [| discriminate].
  set (fresh := S (NestSDFG.max_nid ss')).
  set (child := mkSDFG (label sdfg) narrs ss' (interstate sdfg)).
  set (nested := mkNode fresh (NestedSDFG (label sdfg) child)
                        (map snd (NestSDFG.inputs v))
                        (map snd (NestSDFG.outputs v))).
  set (st0 := mkState (label sdfg) [nested] [] 0).
  destruct (NestSDFG.connect true fresh _ (NestSDFG.inputs v) (S fresh) st0)
    as [[fresh1 st1]|] eqn:Ec1; simpl; [| discriminate].
  destruct (NestSDFG.connect false fresh _ (NestSDFG.outputs v) fresh1 st1)
    as [[fresh2 st2]|] eqn:Ec2; simpl; [| discriminate].
  intros [= <-].
  assert (Hlt0 : forall m, In m (nodes st0) -> nid m < S fresh).
  { intros m [<- | []]. simpl. lia. }
  destruct (connect_spec true fresh _ _ _ _ _ _ Hlt0 Ec1) as (_ & Hlt1 & _).
  destruct (connect_nodes true fresh _ _ _ _ _ _ Hlt0 Ec1) as (more1 & Hn1 & Hk1 & Ha1).
  destruct (connect_nodes false fresh _ _ _ _ _ _ Hlt1 Ec2) as (more2 & Hn2 & Hk2 & Ha2).
  assert (Hnarrs : forall k, In k (map fst (NestSDFG.inputs v))
                             \/ In k (map fst (NestSDFG.outputs v)) ->
                             narrs !! k = None).
  { intros k Hk. unfold NestSDFG.drop_old_names in Edrop. rewrite Htr in Edrop.
    destruct (foldR _ (NestSDFG.inputs v) _) as [a1|] eqn:Epop;
      simpl in Edrop; [| discriminate].
    injection Edrop as <-. rewrite deletes_delete, (pops_delete _ _ _ Epop).
    destruct Hk as [Hk | Hk]; apply mem_str_In in Hk; rewrite Hk;
      [now destruct (mem_str k (map fst (NestSDFG.outputs v))) | reflexivity]. }
  exists st2, nested, (label sdfg), child.
  split; [reflexivity |]. split; [now rewrite Hn2, Hn1 |]. split; [reflexivity |].
  intros n k Hin Hkind. rewrite Hn2, Hn1 in Hin. simpl in Hin.
  assert (Hkey : (exists kv, In kv (NestSDFG.inputs v) /\ fst kv = k)
                 \/ (exists kv, In kv (NestSDFG.outputs v) /\ fst kv = k)).
  { destruct Hin as [<- | Hin]; [discriminate |].
    apply in_app_or in Hin as [Hin | Hin]; [left | right].
    - apply (in_map kind) in Hin. rewrite Hk1, Hkind in Hin.
      apply List.in_map_iff in Hin as (kv & [= E] & Hkv). now exists kv.
    - apply (in_map kind) in Hin. rewrite Hk2, Hkind in Hin.
      apply List.in_map_iff in Hin as (kv & [= E] & Hkv). now exists kv. }
  split.
  - simpl. destruct Hkey as [(kv & Hkv & <-) | (kv & Hkv & <-)];
      [now apply Ha1 | now apply Ha2].
  - simpl. apply Hnarrs.
    destruct Hkey as [(kv & Hkv & <-) | (kv & Hkv & <-)]; [left | right];
      apply List.in_map_iff; now exists kv.
Qed.


Lemma outline_drops_old_names_witness :
  exists st nested lbl child,
    states C_outlined = [st]
    /\ nth_error (nodes st) 0 = Some nested
    /\ kind nested = NestedSDFG lbl child
    /\ forall n k, In n (nodes st) -> kind n = AccessNode k ->
         is_Some (arrays C_outlined !! k) /\ arrays child !! k = None.
Proof.
  apply (outline_drops_old_names C_sdfg C_outlined).
  vm_compute. reflexivity.
Defined.

(** ** The inline transformation up to the reconnection *)

Section Prefix.

Variables state0 nstate0 : SDFGState.
Variable rank : NodeId -> nat.
Variable nN : NodeId.

Let Pn := has_node state0.

Hypothesis Hids0 : ids_ok state0.
Hypothesis Hends : forall e, In e (edges state0) ->
                     Pn (src e) = true /\ Pn (dst e) = true.
Hypothesis Hrank : forall e, In e (edges state0) -> rank (src e) < rank (dst e).

Let PInv := pre_inv Pn rank nN state0 nstate0.

Lemma pre_inv_init (arrs : gmap string ArrayDesc) :
  PInv (InlineSDFG.mkWorld arrs state0 nstate0).
Proof.
  split; [| split; [simpl; lia | apply same_edges_refl]].
  split; [exact Hids0 |]. split; [| split; [| split; [| reflexivity]]]; simpl.
  - intros _ e He Hs. destruct (Hends e He) as [H _]. congruence.
  - intros e He [Hu | Hu].
    + destruct (Hends e He) as [_ H]. congruence.
    + right. specialize (Hrank e He). lia.
  - intros t Ht _. exact Ht.
Qed.

Lemma pre_inv_same_edges (w w' : InlineSDFG.World) :
  PInv w ->
  edges (InlineSDFG.w_state w') = edges (InlineSDFG.w_state w) ->
  next_eid (InlineSDFG.w_state w') = next_eid (InlineSDFG.w_state w) ->
  InlineSDFG.w_nstate w' = InlineSDFG.w_nstate w ->
  PInv w'.
Proof.
  intros ((Hids & HJ & HK & Hkeep & _) & Hnext & Hsame) He Hn Hns.
  split; [| split; [now rewrite Hn | now rewrite Hns]].
  split; [| split; [| split; [| split; [| reflexivity]]]].
  - destruct Hids as [Hnd Hlt]. split; [now rewrite He |].
    intros e. rewrite He, Hn. apply Hlt.
  - intros Hb e. rewrite He. now apply HJ.
  - intros e. rewrite He. apply HK.
  - intros t Ht Htouch. rewrite He. now apply Hkeep.
Qed.

Lemma pre_inv_add_edge (w w' : InlineSDFG.World) (s d : NodeId)
    (sc dc : option string) (m : Memlet) (e : Edge) :
  PInv w -> Pn s = false -> Pn d = false ->
  InlineSDFG.add_edgeM s sc d dc m w = (w', Ok e) ->
  PInv w' /\ next_eid state0 <= eid e.
Proof.
  intros ((Hids & HJ & HK & Hkeep & _) & Hnext & Hsame) Hs Hd H.
  apply add_edgeM_spec in H as (-> & He & _ & Hn & Hns & _).
  split; [| simpl; exact Hnext].
  split; [| split; [rewrite Hn; lia | now rewrite Hns]].
  split; [| split; [| split; [| split; [| reflexivity]]]].
  - eapply ids_ok_add; [exact Hids | exact He | reflexivity | exact Hn].
  - intros Hb x. rewrite He. intros Hx Hsx.
    apply in_app_or in Hx as [Hx | [<- | []]]; [now apply (HJ Hb) | exact Hd].
  - intros x. rewrite He. intros Hx Hu.
    apply in_app_or in Hx as [Hx | [<- | []]]; [now apply HK | now left].
  - intros t Ht Htouch. rewrite He. apply in_or_app. left. now apply Hkeep.
Qed.

Lemma pre_inv_copy (l : list Edge) (acc copied : list EdgeId)
    (w w' : InlineSDFG.World) :
  (forall edge, In edge l -> Pn (src edge) = false /\ Pn (dst edge) = false) ->
  PInv w -> (forall i, In i acc -> next_eid state0 <= i) ->
  foldM (fun (acc : list EdgeId) (edge : Edge) =>
           e <- InlineSDFG.add_edgeM (src edge) (src_conn edge) (dst edge)
                                     (dst_conn edge) (edata edge) ;;
           retM (acc ++ [eid e])) l acc w = (w', Ok copied) ->
  PInv w' /\ forall i, In i copied -> next_eid state0 <= i.
Proof.
  intros Hl Hw Hacc H.
  apply (foldM_inv (fun acc w => PInv w /\ forall i, In i acc -> next_eid state0 <= i)
           _ _) in H; [exact H | | now split].
  intros b edge w1 w2 b' Hin [Hw1 Hb] Hstep.
  apply bindM_ok in Hstep as (e & w3 & Hadd & Hret).
  unfold retM in Hret. injection Hret as <- <-.
  destruct (Hl edge Hin) as [Hs Hd].
  destruct (pre_inv_add_edge _ _ _ _ _ _ _ _ Hw1 Hs Hd Hadd) as [Hw3 He].
  split; [exact Hw3 |]. intros i Hi.
  apply in_app_or in Hi as [Hi | [<- | []]]; [now apply Hb | exact He].
Qed.

Lemma mem_nat_In (x : nat) (l : list nat) : mem_nat x l = true <-> In x l.
Proof.
  unfold mem_nat. rewrite existsb_exists. split.
  - intros (y & Hy & E). apply Nat.eqb_eq in E. now subst.
  - intros H. exists x. split; [exact H | apply Nat.eqb_refl].
Qed.

Lemma pre_inv_replace (sub : list NodeId) (copied : list EdgeId)
    (a b : option string) (w : InlineSDFG.World) :
  (forall i, In i copied -> next_eid state0 <= i) ->
  PInv w -> PInv (InlineSDFG.replace_shared sub copied a b w).
Proof.
  intros Hcopied ((Hids & HJ & HK & Hkeep & _) & Hnext & Hsame).
  unfold InlineSDFG.replace_shared.
  set (g := fun e : Edge => if mem_nat (eid e) copied
                            then InlineSDFG.replace_edge a b e else e).
  assert (Hg : forall e, skeleton (g e) = skeleton e).
  { intros e. unfold g. destruct (mem_nat (eid e) copied); [| reflexivity].
    apply replace_edge_same. }
  destruct (replace_in_edges sub copied a b (InlineSDFG.w_state w)) as [He Hn].
  fold g in He.
  assert (Hrel : forall e, In e (edges (InlineSDFG.replace_in sub copied a b
                                          (InlineSDFG.w_state w))) ->
            exists e0, In e0 (edges (InlineSDFG.w_state w)) /\ eid e = eid e0
                       /\ src e = src e0 /\ dst e = dst e0).
  { intros e. rewrite He. intros Hin.
    apply List.in_map_iff in Hin as (e0 & <- & Hin). exists e0.
    split; [exact Hin | apply skeleton_eq, Hg]. }
  unfold PInv, pre_inv, loop_inv.
  cbn [InlineSDFG.w_state InlineSDFG.w_nstate].
  split; [| split].
  - split; [| split; [| split; [| split; [| reflexivity]]]].
    + destruct Hids as [Hnd Hlt]. split.
      * rewrite He, List.map_map.
        erewrite map_ext; [exact Hnd |]. intros e. simpl.
        now destruct (skeleton_eq _ _ (Hg e)) as (-> & _).
      * intros e Hin. destruct (Hrel e Hin) as (e0 & Hin0 & -> & _).
        rewrite Hn. now apply Hlt.
    + intros Hb e Hin Hs. destruct (Hrel e Hin) as (e0 & Hin0 & _ & Hs0 & Hd0).
      rewrite Hd0. apply (HJ Hb e0 Hin0). now rewrite <- Hs0.
    + intros e Hin Hu. destruct (Hrel e Hin) as (e0 & Hin0 & _ & Hs0 & Hd0).
      rewrite Hs0. apply (HK e0 Hin0). now rewrite <- Hd0.
    + intros t Ht Htouch. rewrite He. apply List.in_map_iff. exists t.
      split; [| now apply Hkeep]. unfold g.
      destruct (mem_nat (eid t) copied) eqn:E; [| reflexivity].
      apply mem_nat_In, Hcopied in E. destruct Hids0 as [_ Hlt0].
      specialize (Hlt0 t Ht). lia.
  - now rewrite Hn.
  - destruct (replace_in_edges sub
                (map eid (InlineSDFG.subgraph_edges (InlineSDFG.w_nstate w) sub))
                a b (InlineSDFG.w_nstate w)) as [He' _].
    eapply same_edges_map; [exact Hsame | exact He' |].
    intros e. simpl. destruct (mem_nat (eid e) _).
    + apply replace_edge_same.
    + now repeat split.
Qed.

Lemma pre_inv_replace_all (sub : list NodeId) (copied : list EdgeId)
    (repl : list (option string * option string)) (w w' : InlineSDFG.World) :
  (forall i, In i copied -> next_eid state0 <= i) ->
  PInv w ->
  forM (fun kv : option string * option string =>
          modify (InlineSDFG.replace_shared sub copied (fst kv) (snd kv)))
       repl w = (w', Ok tt) ->
  PInv w'.
Proof.
  intros Hcopied Hw H.
  apply (forM_keeps PInv _ _) in H; [exact H | | exact Hw].
  intros kv w1 w2 _ Hw1 [= <-]. now apply pre_inv_replace.
Qed.

End Prefix.

Lemma bindM_raises_first {S A B} (c : M S A) (k : A -> M S B) (w : S) :
  (exists e, snd (c w) = Raise e) -> exists e, snd (bindM c k w) = Raise e.
Proof.
  intros [e He]. unfold bindM. destruct (c w) as [w' [a|e']]; simpl in *;
    [discriminate | eauto].
Qed.

Lemma NoDup_filter_map {A B} (f : A -> B) (p : A -> bool) (l : list A) :
  List.NoDup (map f l) -> List.NoDup (map f (List.filter p l)).
Proof.
  induction l as [|x l IH]; simpl; [trivial |].
  intros H. apply List.NoDup_cons_iff in H as [Hx Hnd].
  destruct (p x); [| now apply IH]. simpl. constructor; [| now apply IH].
  intros Hin. apply Hx. apply List.in_map_iff in Hin as (y & E & Hy).
  apply List.in_map_iff. exists y. split; [exact E |].
  now apply List.filter_In in Hy as [Hy _].
Qed.

Lemma tops_of (side : bool) (state : SDFGState) (nN : NodeId)
    (cands : list Node) (tr : list (string * string))
    (l : list (NodeId * Edge)) (rank : NodeId -> nat) (nstate : SDFGState) :
  well_formed state nstate ->
  (forall e, In e (edges state) -> rank (src e) < rank (dst e)) ->
  InlineSDFG.boundary_edges cands tr
    (fst (if side then InlineSDFG.collect_in state nN
          else InlineSDFG.collect_out state nN)) = Ok l ->
  forall item, In item l ->
    In (snd item) (edges state)
    /\ (if side then dst (snd item) = nN else src (snd item) = nN)
    /\ has_node state (src (snd item)) = true
    /\ has_node state (dst (snd item)) = true
    /\ rank (src (snd item)) < rank (dst (snd item)).
Proof.
  intros Hwf Hrank Hb item Hin.
  destruct (boundary_edges_values _ _ _ _ Hb item Hin) as [k Hk].
  assert (Hedge : In (snd item) (edges state)
                  /\ if side then dst (snd item) = nN else src (snd item) = nN).
  { destruct side.
    - rewrite collect_in_fst in Hk.
      apply collect_values in Hk as [Hk | [Hk _]]; [discriminate |].
      now apply in_edges_In in Hk.
    - rewrite collect_out_fst in Hk.
      apply collect_values in Hk as [Hk | [Hk _]]; [discriminate |].
      now apply out_edges_In in Hk. }
  destruct Hedge as [He Hside]. split; [exact He |]. split; [exact Hside |].
  destruct (wf_ends _ _ Hwf _ He) as [H1 H2]. split; [exact H1 |].
  split; [exact H2 | now apply Hrank].
Qed.

Lemma has_node_nth (st : SDFGState) (i : nat) (n : Node) :
  nth_error (nodes st) i = Some n -> has_node st (nid n) = true.
Proof.
  intros H. apply nth_error_In in H. unfold has_node. apply mem_nat_In.
  now apply in_map.
Qed.

(** The body of InlineSDFG.apply raises when a boundary access node has an
    unsupported pair of memlets. *)
Lemma apply_body_raises (state nstate : SDFGState) (nsdfg_node : Node)
    (nsdfg : SDFG) (arrs : gmap string ArrayDesc) (node : Node) (d : string)
    (top inner : Edge) :
  has_node state (nid nsdfg_node) = true ->
  well_formed state nstate ->
  List.NoDup (map dst_conn (in_edges state (nid nsdfg_node))) ->
  List.NoDup (map src_conn (out_edges state (nid nsdfg_node))) ->
  In node (nodes nstate) -> kind node = AccessNode d ->
  (forall desc, arrays nsdfg !! d = Some desc -> transient desc = false) ->
  unsupported_boundary state nstate (nid nsdfg_node) node d top inner ->
  exists e,
    snd (InlineSDFG.apply_body nsdfg_node nsdfg
           (InlineSDFG.mkWorld arrs state nstate)) = Raise e.
Proof.
  intros HN Hwf Hin_nd Hout_nd Hnode Hkind Hnt Hbad.
  destruct (wf_acyclic _ _ Hwf) as [rank Hrank].
  pose proof (mk_ids_ok := conj (wf_eids _ _ Hwf) (wf_fresh _ _ Hwf) : ids_ok state).
  unfold InlineSDFG.apply_body.
  apply bindM_raises. intros state0 w E. unfold gets in E.
  injection E as <- <-. cbn [InlineSDFG.w_state].
  apply bindM_raises. intros ex w E. unfold lift in E. injection E as <- _.
  destruct (InlineSDFG.collect_in state (nid nsdfg_node)) as [inputs input_set] eqn:Ei.
  destruct (InlineSDFG.collect_out state (nid nsdfg_node)) as [outputs output_set] eqn:Eo.
  apply bindM_raises. intros tr w1 Et.
  destruct (collect_transients_spec _ _ _ _ _ Et) as (Hs1 & Hn1 & Htr).
  cbn [InlineSDFG.w_state InlineSDFG.w_nstate] in Hs1, Hn1.
  apply bindM_raises. intros ns' w E. unfold gets in E. injection E as <- <-.
  rewrite Hn1.
  apply bindM_raises. intros new_in w E. unfold lift in E. injection E as <- Ein.
  apply bindM_raises. intros new_out w E. unfold lift in E. injection E as <- Eout.
  cbv zeta.
  set (sub_nodes := List.filter _ (nodes nstate)).
  set (sub := map nid sub_nodes).
  apply bindM_raises. intros [] w2 E. unfold modify in E. injection E as <-.
  apply bindM_raises. intros copied w3 Ecopy.
  apply bindM_raises. intros [] w4 Erepl.
  (* the invariant up to the reconnection *)
  assert (Hends : forall e, In e (edges state) ->
            has_node state (src e) = true /\ has_node state (dst e) = true)
    by exact (wf_ends _ _ Hwf).
  assert (Hapart : forall e, In e (edges nstate) ->
            has_node state (src e) = false /\ has_node state (dst e) = false)
    by exact (wf_apart _ _ Hwf).
  assert (H1 : pre_inv (has_node state) rank (nid nsdfg_node) state nstate w1).
  { apply (pre_inv_same_edges state nstate rank (nid nsdfg_node)
             (InlineSDFG.mkWorld (InlineSDFG.w_arrays w1) state nstate) w1);
      [apply pre_inv_init; assumption | | |]; simpl; congruence. }
  assert (H2 : pre_inv (has_node state) rank (nid nsdfg_node) state nstate
                 (InlineSDFG.on_state (add_nodes_from sub_nodes) w1)).
  { destruct (add_nodes_from_edges sub_nodes (InlineSDFG.w_state w1)) as [He Hn].
    now apply (pre_inv_same_edges state nstate rank (nid nsdfg_node) w1). }
  destruct (pre_inv_copy state nstate rank (nid nsdfg_node)
              _ _ _ _ _ (fun edge Hedge =>
                 Hapart edge (proj1 (proj1 (List.filter_In _ _ _) Hedge)))
              H2 (fun i (Hi : In i []) => match Hi with end) Ecopy)
    as [H3 Hcopied].
  pose proof (pre_inv_replace_all state nstate rank (nid nsdfg_node) mk_ids_ok
                _ _ _ _ _ Hcopied H3 Erepl) as H4.
  destruct H4 as (Hloop & _ & Hsame).
  set (ns := InlineSDFG.w_nstate w4) in *.
  assert (Hns : forall e, In e (edges ns) ->
            has_node state (src e) = false /\ has_node state (dst e) = false).
  { intros e He. destruct (same_edges_In _ _ _ Hsame He) as (e0 & He0 & Hsk & _).
    destruct (skeleton_eq _ _ Hsk) as (_ & Hs & Hd). rewrite <- Hs, <- Hd.
    now apply Hapart. }
  assert (Hin_tops := tops_of true state (nid nsdfg_node) (source_nodes nstate) tr new_in rank nstate
                        Hwf Hrank).
  assert (Hout_tops := tops_of false state (nid nsdfg_node) (sink_nodes nstate) tr new_out rank nstate
                         Hwf Hrank).
  cbn [fst] in Hin_tops, Hout_tops. rewrite Ei in Hin_tops. rewrite Eo in Hout_tops.
  specialize (Hin_tops Ein). specialize (Hout_tops Eout).
  assert (Hnot : dict_has String.eqb d tr = false).
  { destruct (dict_has String.eqb d tr) eqn:Eh; [| reflexivity].
    destruct (Htr d Eh) as (desc & Hd & Ht). rewrite (Hnt desc Hd) in Ht.
    discriminate. }
  assert (Hinner : forall inner0, In inner0 (edges nstate) ->
            unsupported (edata inner0) (edata top) ->
            exists inner', In inner' (edges ns) /\ src inner' = src inner0
                           /\ dst inner' = dst inner0
                           /\ unsupported (edata inner') (edata top)).
  { intros inner0 Hi Hu.
    destruct (same_edges_In_rev _ _ _ Hsame Hi) as (inner' & Hi' & Hsk & Hsh).
    destruct (skeleton_eq _ _ Hsk) as (_ & Hs & Hd).
    exists inner'. split; [exact Hi' |]. split; [congruence |].
    split; [congruence |]. now apply (unsupported_same_shape (edata inner0)). }
  destruct Hbad as [(Hdeg & Htop & Hconn & Hi & Hu) | (Hdeg & Htop & Hconn & Hi & Hu)].
  - apply bindM_raises_first.
    destruct (boundary_edges_has _ _ _ _ node d Ein) as (top' & Hget & Hitem);
      try assumption.
    { apply NoDup_filter_map, (wf_nids _ _ Hwf). }
    { apply List.filter_In. split; [exact Hnode | now rewrite Hdeg]. }
    assert (top' = top).
    { replace inputs with (fst (InlineSDFG.collect_in state (nid nsdfg_node)))
        in Hget by now rewrite Ei.
      rewrite collect_in_fst, <- Hconn in Hget.
      rewrite (collect_recorded dst_conn _ [] top Hin_nd Htop) in Hget.
      congruence. }
    subst top'.
    apply out_edges_In in Hi as [Hi Hsrc].
    destruct (Hinner inner Hi Hu) as (inner' & Hi' & Hs' & _ & Hu').
    apply (modify_memlet_path_raises (has_node state) rank (nid nsdfg_node)
             state ns HN Hns true new_in (nid node) top inner');
      try assumption.
    apply out_edges_In. split; [exact Hi' | congruence].
  - apply bindM_raises. intros modified_in w5 E5.
    apply (modify_memlet_path_keeps (has_node state) rank (nid nsdfg_node)
             state ns HN Hns true new_in) in E5; [| exact Hin_tops | exact Hloop].
    apply loop_inv_weaken in E5.
    apply bindM_raises_first.
    destruct (boundary_edges_has _ _ _ _ node d Eout) as (top' & Hget & Hitem);
      try assumption.
    { apply NoDup_filter_map, (wf_nids _ _ Hwf). }
    { apply List.filter_In. split; [exact Hnode | now rewrite Hdeg]. }
    assert (top' = top).
    { replace outputs with (fst (InlineSDFG.collect_out state (nid nsdfg_node)))
        in Hget by now rewrite Eo.
      rewrite collect_out_fst, <- Hconn in Hget.
      rewrite (collect_recorded src_conn _ [] top Hout_nd Htop) in Hget.
      congruence. }
    subst top'.
    apply in_edges_In in Hi as [Hi Hdst].
    destruct (Hinner inner Hi Hu) as (inner' & Hi' & _ & Hd' & Hu').
    apply (modify_memlet_path_raises (has_node state) rank (nid nsdfg_node)
             state ns HN Hns false new_out (nid node) top inner');
      try assumption.
    apply in_edges_In. split; [exact Hi' | congruence].
Qed.

(** ** What the inline transformation keeps *)

Section Frame.

Variable R : InlineSDFG.World -> InlineSDFG.World -> Prop.
Hypothesis R_refl : forall w, R w w.
Hypothesis R_trans : forall w1 w2 w3, R w1 w2 -> R w2 w3 -> R w1 w3.

Lemma keeps_ret {A} (a : A) : keeps R (retM a).
Proof. intros w w' r [= <- _]. apply R_refl. Qed.

Lemma keeps_gets {A} (f : InlineSDFG.World -> A) : keeps R (gets f).
Proof. intros w w' r [= <- _]. apply R_refl. Qed.

Lemma keeps_lift {A} (x : result A) : keeps R (lift x).
Proof. intros w w' r [= <- _]. apply R_refl. Qed.

Lemma keeps_modify (f : InlineSDFG.World -> InlineSDFG.World) :
  (forall w, R w (f w)) -> keeps R (modify f).
Proof. intros Hf w w' r [= <- _]. apply Hf. Qed.

Lemma keeps_bind {A B} (c : M InlineSDFG.World A)
    (k : A -> M InlineSDFG.World B) :
  keeps R c -> (forall a, keeps R (k a)) -> keeps R (bindM c k).
Proof.
  intros Hc Hk w w' r. unfold bindM.
  destruct (c w) as [w1 [a|e]] eqn:E.
  - intros H. eapply R_trans; [exact (Hc _ _ _ E) | exact (Hk _ _ _ _ H)].
  - intros [= <- _]. exact (Hc _ _ _ E).
Qed.

Lemma keeps_forM {A} (f : A -> M InlineSDFG.World unit) (l : list A) :
  (forall x, keeps R (f x)) -> keeps R (forM f l).
Proof.
  intros Hf. induction l as [|x l IH]; simpl; [apply keeps_ret |].
  apply keeps_bind; [apply Hf | intros _; exact IH].
Qed.

Lemma keeps_foldM {A B} (f : B -> A -> M InlineSDFG.World B) (l : list A)
    (b : B) :
  (forall b x, keeps R (f b x)) -> keeps R (foldM f l b).
Proof.
  intros Hf. revert b. induction l as [|x l IH]; intros b; simpl;
    [apply keeps_ret |].
  apply keeps_bind; [apply Hf | intros b'; apply IH].
Qed.

End Frame.

Lemma keeps_arrays_refl (w : InlineSDFG.World) : keeps_arrays w w.
Proof. now intros k H. Qed.

Lemma keeps_arrays_trans (w1 w2 w3 : InlineSDFG.World) :
  keeps_arrays w1 w2 -> keeps_arrays w2 w3 -> keeps_arrays w1 w3.
Proof. intros H1 H2 k H. now apply H2, H1. Qed.

Lemma keeps_nodes_refl (w : InlineSDFG.World) : keeps_nodes w w.
Proof. now intros k H. Qed.

Lemma keeps_nodes_trans (w1 w2 w3 : InlineSDFG.World) :
  keeps_nodes w1 w2 -> keeps_nodes w2 w3 -> keeps_nodes w1 w3.
Proof. intros H1 H2 k H. now apply H2, H1. Qed.

Lemma keeps_arrays_modify (f : InlineSDFG.World -> InlineSDFG.World) :
  (forall w, InlineSDFG.w_arrays (f w) = InlineSDFG.w_arrays w) ->
  keeps keeps_arrays (modify f).
Proof. intros Hf. apply keeps_modify. intros w k. now rewrite Hf. Qed.

Lemma keeps_arrays_add_edgeM (s : NodeId) (sc : option string) (d : NodeId)
    (dc : option string) (m : Memlet) :
  keeps keeps_arrays (InlineSDFG.add_edgeM s sc d dc m).
Proof. intros w w' r [= <- _] k H. exact H. Qed.

Lemma keeps_arrays_add_datadescM (name : string) (desc : ArrayDesc) :
  keeps keeps_arrays (InlineSDFG.add_datadescM name desc).
Proof.
  intros w w' r. unfold InlineSDFG.add_datadescM, add_datadesc.
  intros [= <- _] k H. simpl. now apply insert_is_Some.
Qed.

Lemma keeps_nodes_add_edgeM (s : NodeId) (sc : option string) (d : NodeId)
    (dc : option string) (m : Memlet) :
  keeps keeps_nodes (InlineSDFG.add_edgeM s sc d dc m).
Proof. intros w w' r [= <- _] k H. exact H. Qed.

Lemma keeps_nodes_add_datadescM (name : string) (desc : ArrayDesc) :
  keeps keeps_nodes (InlineSDFG.add_datadescM name desc).
Proof. intros w w' r [= <- _] k H. exact H. Qed.

Lemma keeps_nodes_rebind (e : Edge) (m : Memlet) :
  keeps keeps_nodes (modify (InlineSDFG.on_state (InlineSDFG.rebind e m))).
Proof. apply keeps_modify. intros w n H. exact H. Qed.

Lemma has_node_add_node (x : Node) (st : SDFGState) (n : NodeId) :
  has_node (add_node x st) n = has_node st n || (nid x =? n)%nat.
Proof.
  unfold add_node. destruct (has_node st (nid x)) eqn:E.
  - destruct (nid x =? n)%nat eqn:En; [| now rewrite orb_false_r].
    apply Nat.eqb_eq in En. subst n. now rewrite E.
  - unfold has_node, mem_nat. simpl. rewrite List.map_app, existsb_app. simpl.
    now rewrite orb_false_r, Nat.eqb_sym.
Qed.

Lemma has_node_add_nodes_from (xs : list Node) (st : SDFGState) (n : NodeId) :
  has_node (add_nodes_from xs st) n = has_node st n || mem_nat n (map nid xs).
Proof.
  unfold add_nodes_from. revert st.
  induction xs as [|x xs IH]; intros st; simpl; [now rewrite orb_false_r |].
  rewrite IH, has_node_add_node. unfold mem_nat. simpl.
  rewrite <- orb_assoc. f_equal. f_equal. apply Nat.eqb_sym.
Qed.

Lemma keeps_nodes_add_nodes_from (xs : list Node) :
  keeps keeps_nodes (modify (InlineSDFG.on_state (add_nodes_from xs))).
Proof.
  apply keeps_modify. intros w n H. simpl.
  now rewrite has_node_add_nodes_from, H.
Qed.

Lemma replace_node_nid (a b : option string) (n : Node) :
  nid (InlineSDFG.replace_node a b n) = nid n.
Proof.
  unfold InlineSDFG.replace_node, set_node_data.
  destruct a as [a|], b as [b|], (kind n); try reflexivity.
  now destruct (String.eqb adata a).
Qed.

Lemma keeps_nodes_replace_shared (sub : list NodeId) (copied : list EdgeId)
    (a b : option string) :
  keeps keeps_nodes (modify (InlineSDFG.replace_shared sub copied a b)).
Proof.
  apply keeps_modify. intros w n H. simpl. unfold has_node in *. simpl.
  rewrite List.map_map. erewrite map_ext; [exact H |].
  intros x. simpl. destruct (mem_nat (nid x) sub); [| reflexivity].
  apply replace_node_nid.
Qed.

Ltac keeps_step Hr Ht :=
  cbv beta zeta;
  lazymatch goal with
  | |- keeps _ (bindM _ _) => apply (keeps_bind _ Ht); [| intros ?]
  | |- keeps _ (retM _) => apply (keeps_ret _ Hr)
  | |- keeps _ (gets _) => apply (keeps_gets _ Hr)
  | |- keeps _ (lift _) => apply (keeps_lift _ Hr)
  | |- keeps _ (foldM _ _ _) => apply (keeps_foldM _ Hr Ht); intros ? ?
  | |- keeps _ (forM _ _) => apply (keeps_forM _ Hr Ht); intros ?
  | |- keeps keeps_arrays (modify _) =>
      apply keeps_arrays_modify; intros ?; reflexivity
  | |- keeps keeps_arrays (InlineSDFG.add_edgeM _ _ _ _ _) =>
      apply keeps_arrays_add_edgeM
  | |- keeps keeps_arrays (InlineSDFG.add_datadescM _ _) =>
      apply keeps_arrays_add_datadescM
  | |- keeps keeps_nodes (modify (InlineSDFG.on_state (InlineSDFG.rebind _ _))) =>
      apply keeps_nodes_rebind
  | |- keeps keeps_nodes (modify (InlineSDFG.on_state (add_nodes_from _))) =>
      apply keeps_nodes_add_nodes_from
  | |- keeps keeps_nodes (modify (InlineSDFG.replace_shared _ _ _ _)) =>
      apply keeps_nodes_replace_shared
  | |- keeps keeps_nodes (InlineSDFG.add_edgeM _ _ _ _ _) =>
      apply keeps_nodes_add_edgeM
  | |- keeps keeps_nodes (InlineSDFG.add_datadescM _ _) =>
      apply keeps_nodes_add_datadescM
  | |- keeps _ (if ?b then _ else _) => destruct b
  | |- keeps _ (match ?x with _ => _ end) => destruct x
  end.

Ltac keeps_arrays_step := keeps_step keeps_arrays_refl keeps_arrays_trans.
Ltac keeps_nodes_step := keeps_step keeps_nodes_refl keeps_nodes_trans.

Lemma arrays_collect_transients (nlabel : string)
    (narrays : gmap string ArrayDesc) :
  keeps keeps_arrays (InlineSDFG.collect_transients nlabel narrays).
Proof. unfold InlineSDFG.collect_transients. repeat keeps_arrays_step. Qed.

Lemma arrays_modify_memlet_path (new_edges : list (NodeId * Edge))
    (inputs : bool) :
  keeps keeps_arrays (InlineSDFG._modify_memlet_path new_edges inputs).
Proof.
  unfold InlineSDFG._modify_memlet_path, InlineSDFG.reconnect_node,
    InlineSDFG.reconnect_edge, InlineSDFG.modify_tree_edge.
  repeat keeps_arrays_step.
Qed.

Lemma arrays_modify_other (side : bool) (conn_edges : InlineSDFG.EdgeDict)
    (name_set : InlineSDFG.NameDict) (modified : list EdgeId) (node : NodeId)
    (d : string) :
  keeps keeps_arrays
    (InlineSDFG.modify_other side conn_edges name_set modified node d).
Proof. unfold InlineSDFG.modify_other. repeat keeps_arrays_step. Qed.

Lemma arrays_remove_along (reverse : bool) (path : list Edge) :
  keeps keeps_arrays (InlineSDFG.remove_along reverse path).
Proof.
  induction path as [|pedge path IH]; simpl;
    [apply (keeps_ret _ keeps_arrays_refl) |].
  repeat keeps_arrays_step. exact IH.
Qed.

Lemma arrays_remove_edge_path (edge_map : list (option string * Edge))
    (unused : list (option string)) (reverse : bool) :
  keeps keeps_arrays (InlineSDFG._remove_edge_path edge_map unused reverse).
Proof.
  unfold InlineSDFG._remove_edge_path.
  repeat first [apply arrays_remove_along | keeps_arrays_step].
Qed.

(** The body of InlineSDFG.apply removes no array, however it ends. *)
Lemma arrays_apply_body (nsdfg_node : Node) (nsdfg : SDFG) :
  keeps keeps_arrays (InlineSDFG.apply_body nsdfg_node nsdfg).
Proof.
  unfold InlineSDFG.apply_body.
  repeat first [apply arrays_collect_transients | apply arrays_modify_memlet_path
               | apply arrays_modify_other | apply arrays_remove_edge_path
               | keeps_arrays_step].
Qed.

Lemma nodes_collect_transients (nlabel : string)
    (narrays : gmap string ArrayDesc) :
  keeps keeps_nodes (InlineSDFG.collect_transients nlabel narrays).
Proof. unfold InlineSDFG.collect_transients. repeat keeps_nodes_step. Qed.

Lemma nodes_modify_memlet_path (new_edges : list (NodeId * Edge))
    (inputs : bool) :
  keeps keeps_nodes (InlineSDFG._modify_memlet_path new_edges inputs).
Proof.
  unfold InlineSDFG._modify_memlet_path, InlineSDFG.reconnect_node,
    InlineSDFG.reconnect_edge, InlineSDFG.modify_tree_edge.
  repeat keeps_nodes_step.
Qed.

Lemma nodes_modify_other (side : bool) (conn_edges : InlineSDFG.EdgeDict)
    (name_set : InlineSDFG.NameDict) (modified : list EdgeId) (node : NodeId)
    (d : string) :
  keeps keeps_nodes
    (InlineSDFG.modify_other side conn_edges name_set modified node d).
Proof. unfold InlineSDFG.modify_other. repeat keeps_nodes_step. Qed.

Lemma set_nth_other {A} (i j : nat) (x : A) (l : list A) :
  j <> i -> nth_error (InlineSDFG.set_nth i x l) j = nth_error l j.
Proof.
  unfold InlineSDFG.set_nth. revert i j.
  induction l as [|y l IH]; intros i j Hne; [now destruct i |].
  destruct i as [|i]; destruct j as [|j]; simpl; try reflexivity; try lia.
  apply IH. lia.
Qed.

Lemma set_nth_same {A} (i : nat) (x y : A) (l : list A) :
  nth_error l i = Some y -> nth_error (InlineSDFG.set_nth i x l) i = Some x.
Proof.
  unfold InlineSDFG.set_nth. revert i.
  induction l as [|z l IH]; intros i; [now destruct i |].
  destruct i as [|i]; simpl; [reflexivity | apply IH].
Qed.

Lemma set_nth_length {A} (i : nat) (x : A) (l : list A) :
  length (InlineSDFG.set_nth i x l) = length l.
Proof. unfold InlineSDFG.set_nth. apply length_insert. Qed.

(** X19: however InlineSDFG.apply ends (also when it raises), the SDFG keeps
    its label, its inter-state edges and the number of its states, every
    state other than the matched one is unchanged, and no array is removed
    from the array table. *)
Theorem inline_touches_one_state (self : InlineSDFG.Transformation)
    (sdfg : SDFG) :
  label (fst (InlineSDFG.apply self sdfg)) = label sdfg
  /\ interstate (fst (InlineSDFG.apply self sdfg)) = interstate sdfg
  /\ length (states (fst (InlineSDFG.apply self sdfg))) = length (states sdfg)
  /\ (forall j, j <> InlineSDFG.state_id self ->
        nth_error (states (fst (InlineSDFG.apply self sdfg))) j
        = nth_error (states sdfg) j)
  /\ (forall k, is_Some (arrays sdfg !! k) ->
        is_Some (arrays (fst (InlineSDFG.apply self sdfg)) !! k)).
Proof.
  unfold InlineSDFG.apply.
  destruct (nth_error (states sdfg) (InlineSDFG.state_id self)) as [state|];
    [| now repeat split].
  destruct (nth_error (nodes state) (InlineSDFG.subgraph self)) as [nsdfg_node|];
    [| now repeat split].
  destruct (InlineSDFG.child_of nsdfg_node) as [nsdfg|]; [| now repeat split].
  destruct (nth_error (states nsdfg) 0) as [nstate|]; [| now repeat split].
  destruct (InlineSDFG.apply_body _ _ _) as [w r] eqn:E. cbn [fst].
  unfold InlineSDFG.commit. cbn [label interstate states arrays].
  split; [reflexivity |]. split; [reflexivity |].
  split; [apply set_nth_length |]. split; [intros j Hj; now apply set_nth_other |].
  intros k Hk. exact (arrays_apply_body _ _ _ _ _ E k Hk).
Qed.

Lemma A_other_well_formed : well_formed A_other_state A_child_state.
Proof.
  split.
  - simpl. repeat constructor; simpl; intuition lia.
  - intros e [<- | [<- | []]]; simpl; lia.
  - intros e [<- | [<- | []]]; now split.
  - exists (fun n => n). intros e [<- | [<- | []]]; simpl; lia.
  - intros e [<- | [<- | []]]; now split.
  - simpl. repeat constructor; simpl; intuition lia.
Qed.

(** X20: for a candidate that InlineSDFG.can_be_applied accepts, in a
    well-formed pair of states, InlineSDFG.apply raises an exception
    whenever a source (sink) access node of a non-transient array in the
    nested state has an inner edge whose memlet, against the memlet of the
    outer edge bound to the node's connector, is an unsupported pair (the
    outer memlet has an other_subset, or the inner rank exceeds the outer
    rank): no step before the reconnection of that node fails to reach
    it. *)
Theorem unsupported_pair_is_reported (self : InlineSDFG.Transformation)
    (sdfg : SDFG) (state : SDFGState) (nsdfg_node : Node) (lbl : string)
    (nsdfg : SDFG) (nstate : SDFGState) (node : Node) (d : string)
    (top inner : Edge) :
  nth_error (states sdfg) (InlineSDFG.state_id self) = Some state ->
  nth_error (nodes state) (InlineSDFG.subgraph self) = Some nsdfg_node ->
  kind nsdfg_node = NestedSDFG lbl nsdfg ->
  nth_error (states nsdfg) 0 = Some nstate ->
  snd (InlineSDFG.can_be_applied 0 false
         (InlineSDFG.mkMatch state (InlineSDFG.subgraph self) sdfg)) = Ok true ->
  well_formed state nstate ->
  In node (nodes nstate) -> kind node = AccessNode d ->
  (forall desc, arrays nsdfg !! d = Some desc -> transient desc = false) ->
  unsupported_boundary state nstate (nid nsdfg_node) node d top inner ->
  exists e, snd (InlineSDFG.apply self sdfg) = Raise e.
Proof.
  intros Hst Hn Hk Hns Hcan Hwf Hnode Hkind Hnt Hbad.
  rewrite (can_be_applied_run 0 false state _ sdfg nsdfg_node lbl nsdfg Hn Hk)
    in Hcan.
  cbn [snd] in Hcan. injection Hcan as Hcan.
  apply andb_true_iff in Hcan as [Hcan Hout].
  apply andb_true_iff in Hcan as [_ Hin].
  apply scan_connectors_spec in Hin as [Hin _].
  apply scan_connectors_spec in Hout as [Hout _].
  unfold InlineSDFG.apply. rewrite Hst, Hn. unfold InlineSDFG.child_of.
  rewrite Hk, Hns.
  destruct (apply_body_raises state nstate nsdfg_node nsdfg (arrays sdfg)
              node d top inner (has_node_nth _ _ _ Hn) Hwf Hin Hout Hnode
              Hkind Hnt Hbad) as [e He].
  exists e. now destruct (InlineSDFG.apply_body _ _ _).
Qed.

Lemma unsupported_pair_is_reported_witness :
  exists e, snd (InlineSDFG.apply A_match A_other_sdfg) = Raise e.
Proof.
  apply (unsupported_pair_is_reported A_match A_other_sdfg A_other_state
           (A_node A_child) "nested" A_child A_child_state
           (mkNode 10 (AccessNode "in") [] []) "in"
           (mkEdge 0 0 None 1 (Some "in") other_memlet)
           (mkEdge 0 10 None 11 (Some "a") (memlet_on "in" [slice 0 10])));
    try reflexivity.
  - exact A_other_well_formed.
  - now left.
  - intros desc [= <-]. reflexivity.
  - left. split; [reflexivity |]. split; [now left |]. split; [reflexivity |].
    split; [now left |]. right. simpl. eauto.
Defined.

(** ** The inline transformation after NotImplementedError *)

Lemma no_nie_ret {A} (a : A) : no_nie (retM a).
Proof. intros w. discriminate. Qed.

Lemma no_nie_gets {A} (f : InlineSDFG.World -> A) : no_nie (gets f).
Proof. intros w. discriminate. Qed.

Lemma no_nie_modify (f : InlineSDFG.World -> InlineSDFG.World) :
  no_nie (modify f).
Proof. intros w. discriminate. Qed.

Lemma no_nie_lift {A} (x : result A) :
  x <> Raise NotImplementedError -> no_nie (lift x).
Proof. intros H w. exact H. Qed.

Lemma no_nie_of_option {A} (e : Exn) (o : option A) :
  e <> NotImplementedError -> no_nie (lift (of_option e o)).
Proof. intros H. apply no_nie_lift. destruct o; simpl; congruence. Qed.

Lemma no_nie_bind {A B} (c : M InlineSDFG.World A)
    (k : A -> M InlineSDFG.World B) :
  no_nie c -> (forall a, no_nie (k a)) -> no_nie (bindM c k).
Proof.
  intros Hc Hk w. unfold bindM. specialize (Hc w).
  destruct (c w) as [w1 [a|e]]; [apply Hk |].
  simpl in *. congruence.
Qed.

Lemma no_nie_forM {A} (f : A -> M InlineSDFG.World unit) (l : list A) :
  (forall x, no_nie (f x)) -> no_nie (forM f l).
Proof.
  intros Hf. induction l as [|x l IH]; simpl; [apply no_nie_ret |].
  apply no_nie_bind; [apply Hf | intros _; exact IH].
Qed.

Lemma no_nie_foldM {A B} (f : B -> A -> M InlineSDFG.World B) (l : list A)
    (b : B) :
  (forall b x, no_nie (f b x)) -> no_nie (foldM f l b).
Proof.
  intros Hf. revert b. induction l as [|x l IH]; intros b; simpl;
    [apply no_nie_ret |].
  apply no_nie_bind; [apply Hf | intros b'; apply IH].
Qed.

Lemma no_nie_add_edgeM (s : NodeId) (sc : option string) (d : NodeId)
    (dc : option string) (m : Memlet) :
  no_nie (InlineSDFG.add_edgeM s sc d dc m).
Proof. intros w. discriminate. Qed.

Lemma path_up_no_nie (fuel : nat) (st : SDFGState) (cur : Edge)
    (acc : list Edge) :
  path_up fuel st cur acc <> Raise NotImplementedError.
Proof.
  revert cur acc. induction fuel as [|fuel IH]; intros cur acc;
    cbn [path_up]; [discriminate |].
  destruct (is_scope_node st (src cur)); [| discriminate].
  destruct (src_conn cur) as [c|]; [| discriminate].
  destruct (strip_prefix "OUT_" c) as [x|]; [| discriminate].
  destruct (List.find _ _); [apply IH | discriminate].
Qed.

Lemma path_down_no_nie (fuel : nat) (st : SDFGState) (cur : Edge)
    (acc : list Edge) :
  path_down fuel st cur acc <> Raise NotImplementedError.
Proof.
  revert cur acc. induction fuel as [|fuel IH]; intros cur acc;
    cbn [path_down]; [discriminate |].
  destruct (is_scope_node st (dst cur)); [| discriminate].
  destruct (dst_conn cur) as [c|]; [| discriminate].
  destruct (strip_prefix "IN_" c) as [x|]; [| discriminate].
  destruct (List.find _ _); [apply IH | discriminate].
Qed.

Lemma memlet_path_no_nie (st : SDFGState) (e : Edge) :
  memlet_path st e <> Raise NotImplementedError.
Proof.
  unfold memlet_path. destruct (is_empty_memlet_edge e); [discriminate |].
  pose proof (path_up_no_nie (S (length (edges st))) st e [e]) as Hup.
  destruct (path_up _ st e [e]) as [up|x]; cbn -[path_down];
    [apply path_down_no_nie | exact Hup].
Qed.

Lemma no_nie_remove_along (reverse : bool) (path : list Edge) :
  no_nie (InlineSDFG.remove_along reverse path).
Proof.
  induction path as [|pedge path IH]; simpl; [apply no_nie_ret |].
  apply no_nie_bind; [apply no_nie_gets | intros st].
  destruct (_ =? 1)%nat; [| apply no_nie_ret].
  apply no_nie_bind; [apply no_nie_modify | intros _; exact IH].
Qed.

Ltac no_nie_step :=
  cbv beta zeta;
  lazymatch goal with
  | |- no_nie (bindM _ _) => apply no_nie_bind; [| intros ?]
  | |- no_nie (retM _) => apply no_nie_ret
  | |- no_nie (gets _) => apply no_nie_gets
  | |- no_nie (modify _) => apply no_nie_modify
  | |- no_nie (lift (of_option _ _)) => apply no_nie_of_option; discriminate
  | |- no_nie (lift (memlet_path _ _)) => apply no_nie_lift, memlet_path_no_nie
  | |- no_nie (foldM _ _ _) => apply no_nie_foldM; intros ? ?
  | |- no_nie (forM _ _) => apply no_nie_forM; intros ?
  | |- no_nie (InlineSDFG.add_edgeM _ _ _ _ _) => apply no_nie_add_edgeM
  | |- no_nie (InlineSDFG.remove_along _ _) => apply no_nie_remove_along
  | |- no_nie (if ?b then _ else _) => destruct b
  | |- no_nie (match ?x with _ => _ end) => destruct x
  end.

Lemma no_nie_remove_edge_path (edge_map : list (option string * Edge))
    (unused : list (option string)) (reverse : bool) :
  no_nie (InlineSDFG._remove_edge_path edge_map unused reverse).
Proof. unfold InlineSDFG._remove_edge_path. repeat no_nie_step. Qed.

Section NieFrame.

Variable R : InlineSDFG.World -> InlineSDFG.World -> Prop.
Hypothesis R_trans : forall w1 w2 w3, R w1 w2 -> R w2 w3 -> R w1 w3.

Lemma nie_keeps_of_keeps {A} (c : M InlineSDFG.World A) :
  keeps R c -> nie_keeps R c.
Proof. intros H w w' E. exact (H _ _ _ E). Qed.

Lemma nie_keeps_of_no_nie {A} (c : M InlineSDFG.World A) :
  no_nie c -> nie_keeps R c.
Proof. intros H w w' E. specialize (H w). rewrite E in H. now destruct H. Qed.

Lemma nie_keeps_bind {A B} (c : M InlineSDFG.World A)
    (k : A -> M InlineSDFG.World B) :
  keeps R c -> (forall a, nie_keeps R (k a)) -> nie_keeps R (bindM c k).
Proof.
  intros Hc Hk w w'. unfold bindM.
  destruct (c w) as [w1 [a|e]] eqn:E.
  - intros H. eapply R_trans; [exact (Hc _ _ _ E) | exact (Hk _ _ _ H)].
  - intros [= <- _]. exact (Hc _ _ _ E).
Qed.

End NieFrame.

Lemma bindM_nie {A B} (c : M InlineSDFG.World A)
    (k : A -> M InlineSDFG.World B) (w w' : InlineSDFG.World) :
  no_nie c -> bindM c k w = (w', Raise NotImplementedError) ->
  exists a w1, c w = (w1, Ok a) /\ k a w1 = (w', Raise NotImplementedError).
Proof.
  intros Hc. unfold bindM. specialize (Hc w).
  destruct (c w) as [w1 [a|e]]; [eauto |].
  intros [= _ ->]. now destruct Hc.
Qed.

Lemma no_nie_collect_transients (nlabel : string)
    (narrays : gmap string ArrayDesc) :
  no_nie (InlineSDFG.collect_transients nlabel narrays).
Proof.
  intros w Hw.
  destruct (InlineSDFG.collect_transients nlabel narrays w) as [w' r] eqn:E.
  simpl in Hw. subst r. now apply collect_transients_raise in E.
Qed.

Lemma no_nie_boundary_edges (cands : list Node) (tr : list (string * string))
    (conn_edges : InlineSDFG.EdgeDict) :
  no_nie (lift (InlineSDFG.boundary_edges cands tr conn_edges)).
Proof.
  apply no_nie_lift. intros E. now apply boundary_edges_raise in E.
Qed.

Lemma boundary_edges_keys (cands : list Node) (tr : list (string * string))
    (conn_edges : InlineSDFG.EdgeDict) (l : list (NodeId * Edge)) :
  InlineSDFG.boundary_edges cands tr conn_edges = Ok l ->
  forall item, In item l ->
    exists node, In node cands /\ nid node = fst item
                 /\ is_access (kind node) = true.
Proof.
  unfold InlineSDFG.boundary_edges.
  assert (H : forall cs acc,
            (forall item, In item acc ->
               exists node, In node cands /\ nid node = fst item
                            /\ is_access (kind node) = true) ->
            (forall c, In c cs -> In c cands) ->
            foldR (fun (acc : list (NodeId * Edge)) (node : Node) =>
              match kind node with
              | AccessNode d =>
                  if negb (dict_has String.eqb d tr) then
                    e ← of_option KeyError
                          (dict_get opt_str_eqb (Some d) conn_edges);
                    Ok (dict_set Nat.eqb (nid node) e acc)
                  else Ok acc
              | _ => Ok acc
              end) cs acc = Ok l ->
            forall item, In item l ->
              exists node, In node cands /\ nid node = fst item
                           /\ is_access (kind node) = true).
  { induction cs as [|n cs IH]; intros acc Hacc Hsub; simpl.
    - now intros [= <-].
    - assert (Hcs : forall c, In c cs -> In c cands)
        by (intros c Hc; apply Hsub; now right).
      destruct (kind n) eqn:Ek; try (now apply IH).
      destruct (negb (dict_has String.eqb adata tr)); [| now apply IH].
      destruct (dict_get opt_str_eqb (Some adata) conn_edges) as [e|]; simpl;
        [| discriminate].
      apply IH; [| exact Hcs]. intros item Hitem.
      apply dict_set_In in Hitem as [-> | Hitem]; [| now apply Hacc].
      exists n. split; [apply Hsub; now left |]. split; [reflexivity |].
      now rewrite Ek. }
  apply H; [intros item [] | trivial].
Qed.

Lemma NoDup_map_eq {A B} (f : A -> B) (l : list A) (x y : A) :
  List.NoDup (map f l) -> In x l -> In y l -> f x = f y -> x = y.
Proof.
  induction l as [|a l IH]; simpl; [intros _ [] |].
  intros H. apply List.NoDup_cons_iff in H as [Ha Hnd].
  intros [-> | Hx] [-> | Hy] E; [reflexivity | | | now apply IH].
  - exfalso. apply Ha. rewrite E. now apply in_map.
  - exfalso. apply Ha. rewrite <- E. now apply in_map.
Qed.

Lemma not_boundary (nstate : SDFGState) (p : Node -> bool)
    (tr : list (string * string)) (conn_edges : InlineSDFG.EdgeDict)
    (l : list (NodeId * Edge)) (n : Node) :
  List.NoDup (map nid (nodes nstate)) ->
  InlineSDFG.boundary_edges (List.filter p (nodes nstate)) tr conn_edges = Ok l ->
  In n (nodes nstate) -> is_access (kind n) = false ->
  mem_nat (nid n) (map fst l) = false.
Proof.
  intros Hnd Hb Hn Hk. destruct (mem_nat (nid n) (map fst l)) eqn:E;
    [| reflexivity].
  apply mem_nat_In, List.in_map_iff in E as (item & Hfst & Hitem).
  destruct (boundary_edges_keys _ _ _ _ Hb item Hitem) as (node & Hnode & Hid & Ha).
  apply List.filter_In in Hnode as [Hnode _].
  assert (node = n) by (apply (NoDup_map_eq nid (nodes nstate)); congruence).
  subst node. congruence.
Qed.

Ltac nie_keeps_nodes_step :=
  cbv beta zeta;
  lazymatch goal with
  | |- nie_keeps _ (bindM _ _) =>
      apply (nie_keeps_bind _ keeps_nodes_trans); [| intros ?]
  | |- nie_keeps _ (if ?b then _ else _) => destruct b
  | |- nie_keeps _ (match ?x with _ => _ end) => destruct x
  end.

(** The part of InlineSDFG.apply_body after the nodes have been added
    (lines 232-318). *)
Lemma apply_body_nie (nsdfg_node : Node) (nsdfg : SDFG)
    (w0 w' : InlineSDFG.World) :
  List.NoDup (map nid (nodes (InlineSDFG.w_nstate w0))) ->
  InlineSDFG.apply_body nsdfg_node nsdfg w0 = (w', Raise NotImplementedError) ->
  keeps_nodes w0 w'
  /\ forall n, In n (nodes (InlineSDFG.w_nstate w0)) ->
       is_access (kind n) = false ->
       has_node (InlineSDFG.w_state w') (nid n) = true.
Proof.
  intros Hnd. unfold InlineSDFG.apply_body. intros H.
  apply bindM_nie in H as (state0 & w & E & H); [| apply no_nie_gets].
  unfold gets in E. injection E as <- <-.
  apply bindM_nie in H as (ex & w & E & H).
  2:{ apply no_nie_lift. destruct (entry_node _ _); [| discriminate].
      unfold exit_nodes. destruct (kind_of _ _) as [[]|]; try discriminate.
      simpl. destruct (List.find _ _); discriminate. }
  unfold lift in E. injection E as <- _.
  destruct (InlineSDFG.collect_in _ _) as [inputs input_set].
  destruct (InlineSDFG.collect_out _ _) as [outputs output_set].
  apply bindM_nie in H as (tr & w1 & Et & H);
    [| apply no_nie_collect_transients].
  destruct (collect_transients_spec _ _ _ _ _ Et) as (Hs1 & Hn1 & _).
  apply bindM_nie in H as (ns & w & E & H); [| apply no_nie_gets].
  unfold gets in E. injection E as <- <-. rewrite Hn1 in H.
  apply bindM_nie in H as (new_in & w & E & H);
    [| apply no_nie_boundary_edges].
  unfold lift in E. injection E as <- Ein.
  apply bindM_nie in H as (new_out & w & E & H);
    [| apply no_nie_boundary_edges].
  unfold lift in E. injection E as <- Eout.
  cbv zeta in H.
  set (sub_nodes := List.filter _ (nodes (InlineSDFG.w_nstate w0))) in H.
  apply bindM_nie in H as ([] & w2 & E & H); [| apply no_nie_modify].
  unfold modify in E. injection E as <-.
  assert (Htail : keeps_nodes
                    (InlineSDFG.on_state (add_nodes_from sub_nodes) w1) w').
  { revert H. generalize (InlineSDFG.on_state (add_nodes_from sub_nodes) w1).
    intros w2 H. revert w2 w' H.
    match goal with
    | |- forall w2 w', ?c w2 = _ -> _ => change (nie_keeps keeps_nodes c)
    end.
    nie_keeps_nodes_step; [repeat keeps_nodes_step |].
    nie_keeps_nodes_step; [repeat keeps_nodes_step |].
    nie_keeps_nodes_step; [apply nodes_modify_memlet_path |].
    nie_keeps_nodes_step; [apply nodes_modify_memlet_path |].
    nie_keeps_nodes_step;
      [repeat first [apply nodes_modify_other | keeps_nodes_step] |].
    nie_keeps_nodes_step; [repeat keeps_nodes_step |].
    apply nie_keeps_of_no_nie.
    repeat first [apply no_nie_remove_edge_path | no_nie_step]. }
  split.
  - intros n Hn. apply Htail. simpl.
    rewrite has_node_add_nodes_from, Hs1, Hn. reflexivity.
  - intros n Hn Hk. apply Htail. simpl. rewrite has_node_add_nodes_from.
    apply orb_true_iff. right. apply mem_nat_In, in_map.
    apply List.filter_In. split; [exact Hn |].
    unfold source_nodes in Ein. unfold sink_nodes in Eout.
    pose proof (not_boundary _ _ _ _ _ n Hnd Ein Hn Hk) as H1.
    pose proof (not_boundary _ _ _ _ _ n Hnd Eout Hn Hk) as H2.
    unfold mem_nat in *. rewrite List.existsb_app.
    apply negb_true_iff, orb_false_iff. split; [exact H1 | exact H2].
Qed.

Lemma has_node_store_child (N : NodeId) (nstate st : SDFGState) (n : NodeId) :
  has_node (InlineSDFG.store_child N nstate st) n = has_node st n.
Proof.
  unfold InlineSDFG.store_child, has_node. simpl. rewrite List.map_map.
  f_equal. apply map_ext. intros x. destruct (kind x); try reflexivity.
  now destruct (nid x =? N)%nat.
Qed.

Lemma edges_store_child (N : NodeId) (nstate st : SDFGState) :
  edges (InlineSDFG.store_child N nstate st) = edges st.
Proof. reflexivity. Qed.

(** X21: when InlineSDFG.apply raises NotImplementedError, the matched
    state is left half-transformed: the nested SDFG node is still in it, and
    so is every node of the nested state that is not an access node (node
    ids of the nested state being distinct).  The exception is raised after
    the nodes have been added and nothing is rolled back. *)
Theorem failed_inline_is_not_rolled_back (self : InlineSDFG.Transformation)
    (sdfg : SDFG) (state : SDFGState) (nsdfg_node : Node) (lbl : string)
    (nsdfg : SDFG) (nstate : SDFGState) :
  nth_error (states sdfg) (InlineSDFG.state_id self) = Some state ->
  nth_error (nodes state) (InlineSDFG.subgraph self) = Some nsdfg_node ->
  kind nsdfg_node = NestedSDFG lbl nsdfg ->
  nth_error (states nsdfg) 0 = Some nstate ->
  List.NoDup (map nid (nodes nstate)) ->
  snd (InlineSDFG.apply self sdfg) = Raise NotImplementedError ->
  exists st',
    nth_error (states (fst (InlineSDFG.apply self sdfg)))
              (InlineSDFG.state_id self) = Some st'
    /\ has_node st' (nid nsdfg_node) = true
    /\ forall n, In n (nodes nstate) -> is_access (kind n) = false ->
         has_node st' (nid n) = true.
Proof.
  intros Hst Hn Hk Hns Hnd. unfold InlineSDFG.apply.
  rewrite Hst, Hn. unfold InlineSDFG.child_of. rewrite Hk, Hns.
  destruct (InlineSDFG.apply_body _ _ _) as [w r] eqn:E. cbn [fst snd].
  intros ->.
  apply apply_body_nie in E as [Hkeep Hsub]; [| exact Hnd].
  eexists. split; [| split].
  - unfold InlineSDFG.commit. cbn [states].
    apply (set_nth_same _ _ _ _ Hst).
  - rewrite has_node_store_child. apply Hkeep. simpl.
    now apply (has_node_nth _ _ _ Hn).
  - intros n Hin Hacc. rewrite has_node_store_child. now apply Hsub.
Qed.

Lemma failed_inline_is_not_rolled_back_witness :
  has_node A_other_state (nid A_tasklet) = false
  /\ exists st',
       nth_error (states (fst (InlineSDFG.apply A_match A_other_sdfg))) 0
       = Some st'
       /\ has_node st' 1 = true
       /\ forall n, In n (nodes A_child_state) -> is_access (kind n) = false ->
            has_node st' (nid n) = true.
Proof.
  split; [reflexivity |].
  apply (failed_inline_is_not_rolled_back A_match A_other_sdfg A_other_state
           (A_node A_child) "nested" A_child A_child_state);
    try reflexivity.
  simpl. repeat constructor; simpl; intuition lia.
Defined.

Lemma post_bind (Q : InlineSDFG.World -> Prop) {A B}
    (c : M InlineSDFG.World A) (k : A -> M InlineSDFG.World B) :
  (forall a, post Q (k a)) -> post Q (bindM c k).
Proof.
  intros Hk w w' b. unfold bindM. destruct (c w) as [w1 [a|e]];
    [apply Hk | discriminate].
Qed.

Lemma has_node_remove_node (n : NodeId) (st : SDFGState) :
  has_node (remove_node n st) n = false.
Proof.
  unfold has_node, remove_node, mem_nat. simpl.
  induction (nodes st) as [|x l IH]; simpl; [reflexivity |].
  destruct (nid x =? n)%nat eqn:E; simpl; [exact IH |].
  rewrite Nat.eqb_sym, E. exact IH.
Qed.

Lemma apply_body_removes (nsdfg_node : Node) (nsdfg : SDFG) :
  post (fun w => has_node (InlineSDFG.w_state w) (nid nsdfg_node) = false
                 /\ forall e, In e (edges (InlineSDFG.w_state w)) ->
                      src e <> nid nsdfg_node /\ dst e <> nid nsdfg_node)
       (InlineSDFG.apply_body nsdfg_node nsdfg).
Proof.
  unfold InlineSDFG.apply_body.
  repeat (cbv beta zeta;
          lazymatch goal with
          | |- post _ (bindM _ _) => apply post_bind; intros ?
          | |- post _ (match ?x with _ => _ end) => destruct x
          end).
  intros w0 w1 r [= <- _]. simpl. split; [apply has_node_remove_node |].
  intros x Hx. apply List.filter_In in Hx as [_ Hx].
  apply andb_true_iff in Hx as [H1 H2].
  apply negb_true_iff in H1, H2. apply Nat.eqb_neq in H1, H2. now split.
Qed.

(** X22: when InlineSDFG.apply completes, the matched state no longer
    contains the nested SDFG node, and no edge of the state starts or ends
    at it. *)
Theorem inlined_node_is_removed (self : InlineSDFG.Transformation)
    (sdfg g' : SDFG) (state : SDFGState) (nsdfg_node : Node) :
  nth_error (states sdfg) (InlineSDFG.state_id self) = Some state ->
  nth_error (nodes state) (InlineSDFG.subgraph self) = Some nsdfg_node ->
  InlineSDFG.apply self sdfg = (g', Ok tt) ->
  exists st',
    nth_error (states g') (InlineSDFG.state_id self) = Some st'
    /\ has_node st' (nid nsdfg_node) = false
    /\ forall e, In e (edges st') ->
         src e <> nid nsdfg_node /\ dst e <> nid nsdfg_node.
Proof.
  intros Hst Hn. unfold InlineSDFG.apply. rewrite Hst, Hn.
  destruct (InlineSDFG.child_of nsdfg_node) as [nsdfg|]; [| discriminate].
  destruct (nth_error (states nsdfg) 0) as [nstate|]; [| discriminate].
  destruct (InlineSDFG.apply_body _ _ _) as [w r] eqn:E.
  intros [= <- ->]. apply apply_body_removes in E as [Hgone Hedges].
  eexists. split; [| split].
  - unfold InlineSDFG.commit. cbn [states]. apply (set_nth_same _ _ _ _ Hst).
  - now rewrite has_node_store_child.
  - intros e. rewrite edges_store_child. apply Hedges.
Qed.

Lemma inlined_node_is_removed_witness :
  exists st',
    nth_error (states (fst (InlineSDFG.apply A_match A_sdfg))) 0 = Some st'
    /\ has_node st' 1 = false
    /\ forall e, In e (edges st') -> src e <> 1 /\ dst e <> 1.
Proof.
  apply (inlined_node_is_removed A_match A_sdfg
           (fst (InlineSDFG.apply A_match A_sdfg)) A_state (A_node A_child));
    [reflexivity | reflexivity |].
  vm_compute. reflexivity.
Defined.

(** ** The order of the nodes of a line *)

Lemma files_of_snoc (l : list Info) (x : Info) :
  files_of (l ++ [x])
  = files_of l ++ (if mem_str (file_of x) (files_of l) then [] else [file_of x]).
Proof.
  unfold files_of. rewrite fold_left_app. simpl.
  destruct (mem_str (file_of x) _); [now rewrite app_nil_r | reflexivity].
Qed.

Lemma files_of_spec (l : list Info) :
  List.NoDup (files_of l)
  /\ forall f, In f (files_of l) <-> In f (map file_of l).
Proof.
  induction l as [|x l [Hnd Hin]] using rev_ind.
  - split; [constructor | intros f; reflexivity].
  - rewrite files_of_snoc. destruct (mem_str (file_of x) (files_of l)) eqn:E.
    + rewrite app_nil_r. split; [exact Hnd |]. intros f.
      rewrite List.map_app, in_app_iff, <- Hin. simpl.
      apply mem_str_In in E. split; [tauto |].
      intros [H | [<- | []]]; assumption.
    + assert (Hx : ~ In (file_of x) (files_of l)).
      { intros H. apply mem_str_In in H. congruence. }
      split.
      * apply List.NoDup_app; [exact Hnd | |].
        -- constructor; [intros [] | constructor].
        -- intros f Hf [<- | []]. contradiction.
      * intros f. rewrite List.map_app, !in_app_iff, <- Hin. reflexivity.
Qed.

Lemma divide_files_of (l : list Info) :
  MapPython.divide l = map (fun f => of_file f l) (files_of l).
Proof.
  induction l as [|x l IH] using rev_ind; [reflexivity |].
  destruct (files_of_spec l) as [Hnd Hin].
  rewrite divide_snoc, IH, files_of_snoc.
  rewrite add_to_source_map by (try assumption; intros f; apply Hin).
  destruct (mem_str (file_of x) (files_of l)) eqn:E;
    [now rewrite !app_nil_r |].
  rewrite List.map_app. f_equal. simpl.
  rewrite of_file_snoc, String.eqb_refl, of_file_absent; [reflexivity |].
  rewrite <- Hin. intros H. apply mem_str_In in H. congruence.
Qed.

Lemma filter_of_file (p : Info -> bool) (f file : string) (l : list Info) :
  (forall x, p x = true -> file_of x = file) ->
  List.filter p (of_file f l)
  = if String.eqb f file then List.filter p l else [].
Proof.
  intros Hp. unfold of_file. induction l as [|x l IH]; simpl.
  - now destruct (String.eqb f file).
  - destruct (String.eqb (file_of x) f) eqn:E; simpl.
    + rewrite IH. apply String.eqb_eq in E. subst f.
      destruct (p x) eqn:Ep; [| reflexivity].
      now rewrite (Hp x Ep), String.eqb_refl.
    + rewrite IH. destruct (p x) eqn:Ep; [| reflexivity].
      rewrite (Hp x Ep) in E. rewrite String.eqb_sym in E. now rewrite E.
Qed.

Lemma filter_groups (p : Info -> bool) (file : string) (l : list Info)
    (files : list string) :
  List.NoDup files -> (forall x, p x = true -> file_of x = file) ->
  List.filter p (concat (map (fun f => of_file f l) files))
  = if mem_str file files then List.filter p l else [].
Proof.
  intros Hnd Hp. induction files as [|f files IH]; [reflexivity |].
  apply List.NoDup_cons_iff in Hnd as [Hf Hnd].
  cbn [map concat]. rewrite List.filter_app, (filter_of_file p f file l Hp), IH
    by exact Hnd.
  unfold mem_str. cbn [existsb]. fold (mem_str file files).
  rewrite (String.eqb_sym file f).
  destruct (String.eqb f file) eqn:E; simpl; [| reflexivity].
  apply String.eqb_eq in E. subst f.
  destruct (mem_str file files) eqn:Em; [| apply app_nil_r].
  apply mem_str_In in Em. contradiction.
Qed.

Lemma filter_none {A} (p : A -> bool) (l : list A) :
  (forall x, In x l -> p x = false) -> List.filter p l = [].
Proof.
  induction l as [|x l IH]; [reflexivity |]. intros H. simpl.
  rewrite (H x (or_introl eq_refl)). apply IH. intros y Hy. apply H. now right.
Qed.

Lemma filter_divide (p : Info -> bool) (file : string) (l : list Info) :
  (forall x, p x = true -> file_of x = file) ->
  List.filter p (concat (MapPython.divide l)) = List.filter p l.
Proof.
  intros Hp. destruct (files_of_spec l) as [Hnd Hin].
  rewrite divide_files_of, (filter_groups p file l _ Hnd Hp).
  destruct (mem_str file (files_of l)) eqn:E; [reflexivity |].
  symmetry. apply filter_none. intros x Hx.
  destruct (p x) eqn:Ep; [| reflexivity].
  exfalso. assert (Hfile : In file (files_of l)).
  { apply Hin. rewrite <- (Hp x Ep). now apply in_map. }
  apply mem_str_In in Hfile. congruence.
Qed.

Lemma spans_file (file : string) (line : Z) (x : Info) :
  spans file line x = true -> file_of x = file.
Proof.
  unfold spans. intros H. apply andb_true_iff in H as [H _].
  apply andb_true_iff in H as [H _]. now apply String.eqb_eq in H.
Qed.

(** X23: when the temporary record is missing or lacks start_line, end_line
    or src_file, MapPython.mapper completes without touching the files, and
    the entry of a line of a file lists exactly the nodes whose debug
    information is in that file and spans the line, in the order in which
    sdfg_debuginfo visits them: dividing by file keeps that order, and the
    result of sorter is not used. *)
Theorem mapping_is_in_traversal_order (sdfg : DGraph) (line_info : option Tmp)
    (f : Files) (file : string) (line : Z) :
  (forall t, line_info = Some t -> MapPython.provenance t = None) ->
  exists m,
    MapPython.mapper sdfg line_info f = (f, Ok m)
    /\ py_entry m file line
       = extended None
           (map MapPython.ref_of
                (List.filter (spans file line) (MapPython.sdfg_debuginfo sdfg))).
Proof.
  intros Hinfo. unfold MapPython.mapper. cbv zeta.
  assert (E : line_info ≫= (fun t => pair t <$> MapPython.provenance t) = None).
  { destruct line_info as [t|]; [| reflexivity]. simpl.
    now rewrite (Hinfo t eq_refl). }
  rewrite E. eexists. split; [reflexivity |].
  unfold MapPython.create_mapping. rewrite map_debuginfo_entry.
  unfold py_entry at 1, PyMap. rewrite lookup_empty.
  now rewrite (filter_divide _ file _ (spans_file file line)).
Qed.

Lemma mapping_is_in_traversal_order_witness :
  exists m,
    MapPython.mapper late_first_program None no_records = (no_records, Ok m)
    /\ py_entry m "program.py" 5
       = Some [mkNodeRef 0 0 0; mkNodeRef 0 0 1].
Proof.
  apply (mapping_is_in_traversal_order late_first_program None no_records
           "program.py" 5).
  intros t. discriminate.
Defined.

(** ** Removing the temporary record twice *)

Lemma remove_tmp_raise (name : string) (b : bool) (f f' : Files) (e : Exn) :
  remove_tmp name b f = (f', Raise e) ->
  e = FileNotFoundError /\ f' = f
  /\ mem_str name (folders f) = true /\ tmps f !! name = None.
Proof.
  unfold remove_tmp, bindM, gets, modify, throw, retM.
  destruct (mem_str name (folders f)) eqn:Ed; simpl; [| discriminate].
  destruct (tmps f !! name) eqn:Er.
  - destruct (b && _ && _); discriminate.
  - now intros [= <- <-].
Qed.

Lemma remove_tmp_keep (name : string) (rec : Tmp) (f : Files) :
  tmps f !! name = Some rec -> mem_str name (folders f) = true ->
  remove_tmp name false f = (with_tmps (delete name (tmps f)) f, Ok tt).
Proof.
  intros Hr Hd. unfold remove_tmp, bindM, gets. rewrite Hd. cbn [negb].
  now rewrite Hr.
Qed.

(** X24: remove_tmp raises exactly when the cache folder of the SDFG is
    there and its tmp.json is not; the exception is FileNotFoundError and
    nothing has been changed.  In particular, after temporaryInfo, a
    remove_tmp that keeps the folder makes the next remove_tmp raise. *)
Theorem second_remove_tmp_raises (name : string) (b : bool) (f : Files) :
  (snd (remove_tmp name b f) = Raise FileNotFoundError
   <-> mem_str name (folders f) = true /\ tmps f !! name = None)
  /\ (forall e, snd (remove_tmp name b f) = Raise e ->
        e = FileNotFoundError /\ fst (remove_tmp name b f) = f)
  /\ forall data,
       snd ((temporaryInfo name data ;;; remove_tmp name false ;;;
             remove_tmp name b) f) = Raise FileNotFoundError.
Proof.
  split; [split |split].
  - destruct (remove_tmp name b f) as [f' [[]|e]] eqn:E; simpl; [discriminate |].
    intros _. now apply remove_tmp_raise in E.
  - intros [Hd Hr]. unfold remove_tmp, bindM, gets. rewrite Hd. simpl.
    now rewrite Hr.
  - destruct (remove_tmp name b f) as [f' [[]|e']] eqn:E; simpl; [discriminate |].
    intros e [= ->]. now apply remove_tmp_raise in E.
  - intros data.
    change ((temporaryInfo name data ;;; remove_tmp name false ;;;
             remove_tmp name b) f)
      with (bindM (remove_tmp name false) (fun _ => remove_tmp name b)
              (with_tmps (<[name := data]> (tmps f)) (create_cache name f))).
    unfold bindM.
    rewrite (remove_tmp_keep name data)
      by (try apply create_cache_has; apply lookup_insert_eq).
    unfold remove_tmp, bindM, gets. cbn [folders with_tmps tmps].
    rewrite create_cache_has. cbn [negb]. now rewrite lookup_delete_eq.
Qed.

(** * What the outline transformation leaves *)

Lemma is_read_node (s : SDFGState) (n : Node) (k : string) :
  In n (nodes s) -> kind n = AccessNode k -> 0 < out_degree s (nid n) ->
  is_read s k = true.
Proof.
  intros Hn Hk Hdeg. unfold is_read. apply existsb_exists. exists n.
  split; [exact Hn |]. rewrite Hk. cbn [access_data].
  rewrite opt_str_eqb_refl. cbn [andb]. now apply Nat.ltb_lt.
Qed.

Lemma is_written_node (s : SDFGState) (n : Node) (k : string) :
  In n (nodes s) -> kind n = AccessNode k -> 0 < in_degree s (nid n) ->
  is_written s k = true.
Proof.
  intros Hn Hk Hdeg. unfold is_written. apply existsb_exists. exists n.
  split; [exact Hn |]. rewrite Hk. cbn [access_data].
  rewrite opt_str_eqb_refl. cbn [andb]. now apply Nat.ltb_lt.
Qed.

Lemma node_of_read (s : SDFGState) (k : string) :
  is_read s k = true ->
  exists n, In n (nodes s) /\ kind n = AccessNode k /\ 0 < out_degree s (nid n).
Proof.
  unfold is_read. intros H. apply existsb_exists in H as (n & Hn & Hb).
  apply andb_true_iff in Hb as [Hk Hdeg].
  apply opt_str_eqb_eq in Hk. apply Nat.ltb_lt in Hdeg.
  exists n. split; [exact Hn |]. split; [| exact Hdeg].
  destruct (kind n); simpl in Hk; congruence.
Qed.

Lemma node_of_written (s : SDFGState) (k : string) :
  is_written s k = true ->
  exists n, In n (nodes s) /\ kind n = AccessNode k /\ 0 < in_degree s (nid n).
Proof.
  unfold is_written. intros H. apply existsb_exists in H as (n & Hn & Hb).
  apply andb_true_iff in Hb as [Hk Hdeg].
  apply opt_str_eqb_eq in Hk. apply Nat.ltb_lt in Hdeg.
  exists n. split; [exact Hn |]. split; [| exact Hdeg].
  destruct (kind n); simpl in Hk; congruence.
Qed.

Lemma as_input_from (S : list SDFGState) (s : SDFGState) (a : string)
    (v v' : NestSDFG.Vars) :
  In s S -> is_read s a = true -> classified_from S v ->
  NestSDFG.as_input a v = Ok v' -> classified_from S v'.
Proof.
  intros Hs Hr [Hi Ho]. unfold NestSDFG.as_input.
  destruct (negb (NestSDFG.str_has a (NestSDFG.inputs v))).
  - destruct (NestSDFG.nested_arrays v !! a); simpl; [| discriminate].
    intros [= <-]. split; simpl; [| exact Ho].
    intros kv Hkv. apply dict_set_In in Hkv as [-> | Hkv]; [| now apply Hi].
    now exists s.
  - simpl. intros [= <-]. now split.
Qed.

Lemma as_output_from (S : list SDFGState) (s : SDFGState) (a : string)
    (v v' : NestSDFG.Vars) :
  In s S -> is_written s a = true -> classified_from S v ->
  NestSDFG.as_output a v = Ok v' -> classified_from S v'.
Proof.
  intros Hs Hw [Hi Ho]. unfold NestSDFG.as_output.
  destruct (negb (NestSDFG.str_has a (NestSDFG.outputs v))).
  - destruct (NestSDFG.nested_arrays v !! a); simpl; [| discriminate].
    intros [= <-]. split; simpl; [exact Hi |].
    intros kv Hkv. apply dict_set_In in Hkv as [-> | Hkv]; [| now apply Ho].
    now exists s.
  - simpl. intros [= <-]. now split.
Qed.

Lemma classify_from (S : list SDFGState) (s : SDFGState)
    (v v' : NestSDFG.Vars) (n n' : Node) :
  In s S -> In n (nodes s) -> classified_from S v ->
  NestSDFG.classify s v n = Ok (v', n') -> classified_from S v'.
Proof.
  intros Hs Hn Hv. unfold NestSDFG.classify.
  destruct (kind n) as [d| | | | |] eqn:K; try (intros [= <- _]; exact Hv).
  destruct (NestSDFG.nested_arrays v !! d) as [desc|]; simpl; [| discriminate].
  destruct (negb (transient desc)); [| intros [= <- _]; exact Hv].
  assert (H1 : forall v1,
            (if (0 <? out_degree s (nid n))%nat then NestSDFG.as_input d v
             else Ok v) = Ok v1 -> classified_from S v1).
  { intros v1. destruct (0 <? out_degree s (nid n))%nat eqn:E.
    - apply Nat.ltb_lt in E.
      apply (as_input_from S s); [exact Hs | | exact Hv].
      now apply (is_read_node s n).
    - now intros [= <-]. }
  destruct (if (0 <? out_degree s (nid n))%nat then NestSDFG.as_input d v
            else Ok v) as [v1|]; simpl; [| discriminate].
  specialize (H1 v1 eq_refl).
  assert (H2 : forall v2,
            (if (0 <? in_degree s (nid n))%nat then NestSDFG.as_output d v1
             else Ok v1) = Ok v2 -> classified_from S v2).
  { intros v2. destruct (0 <? in_degree s (nid n))%nat eqn:E.
    - apply Nat.ltb_lt in E.
      apply (as_output_from S s); [exact Hs | | exact H1].
      now apply (is_written_node s n).
    - now intros [= <-]. }
  destruct (if (0 <? in_degree s (nid n))%nat then NestSDFG.as_output d v1
            else Ok v1) as [v2|]; simpl; [| discriminate].
  specialize (H2 v2 eq_refl).
  destruct (NestSDFG.node_data_name v2); simpl; [| discriminate].
  now intros [= <- _].
Qed.

Lemma promote_same (s : SDFGState) (v v' : NestSDFG.Vars) (n n' : Node) :
  NestSDFG.promote s v n = Ok (v', n') ->
  NestSDFG.inputs v' = NestSDFG.inputs v
  /\ NestSDFG.outputs v' = NestSDFG.outputs v.
Proof.
  unfold NestSDFG.promote.
  destruct (kind n); try (now intros [= <- _]).
  destruct (NestSDFG.nested_arrays v !! adata) as [desc|]; simpl; [| discriminate].
  destruct (transient desc); [| now intros [= <- _]].
  destruct (negb (NestSDFG.str_has adata (NestSDFG.transients v)) && _);
    simpl; now intros [= <- _].
Qed.

Lemma over_nodes_keeps (I : NestSDFG.Vars -> Prop)
    (f : NestSDFG.Vars -> Node -> result (NestSDFG.Vars * Node))
    (ns ns' : list Node) (v v' : NestSDFG.Vars) :
  (forall v1 v2 n n', In n ns -> I v1 -> f v1 n = Ok (v2, n') -> I v2) ->
  I v -> NestSDFG.over_nodes f v ns = Ok (v', ns') -> I v'.
Proof.
  revert v ns'. induction ns as [|n ns IH]; intros v ns' Hf Hv; simpl.
  - now intros [= <- _].
  - destruct (f v n) as [[v1 n1]|] eqn:E; [| discriminate].
    destruct (NestSDFG.over_nodes f v1 ns) as [[v2 ns2]|] eqn:E2; [| discriminate].
    intros [= <- _].
    apply (IH v1 ns2); [| | exact E2].
    + intros a b m m' Hm. apply Hf. now right.
    + apply (Hf v v1 n n1); [now left | exact Hv | exact E].
Qed.

Lemma scan_state_from (S : list SDFGState) (p : bool) (s s' : SDFGState)
    (v v' : NestSDFG.Vars) :
  In s S -> classified_from S v ->
  NestSDFG.scan_state p v s = Ok (v', s') -> classified_from S v'.
Proof.
  intros Hs Hv. unfold NestSDFG.scan_state.
  destruct (NestSDFG.over_nodes (NestSDFG.classify s) v (nodes s))
    as [[v1 ns1]|] eqn:E1; simpl; [| discriminate].
  apply (over_nodes_keeps (classified_from S)) in E1; [| | exact Hv].
  2:{ intros a b n n' Hn Ha. now apply (classify_from S s). }
  destruct p; [| now intros [= <- _]].
  destruct (NestSDFG.over_nodes _ v1 _) as [[v2 ns2]|] eqn:E2; simpl;
    [| discriminate].
  apply (over_nodes_keeps (classified_from S)) in E2; [| | exact E1].
  - now intros [= <- _].
  - intros a b n n' _ [Hi Ho] Hp. apply promote_same in Hp as [Ei Eo].
    unfold classified_from. rewrite Ei, Eo. now split.
Qed.

Lemma scan_states_from (S : list SDFGState) (p : bool)
    (ss ss' : list SDFGState) (v v' : NestSDFG.Vars) :
  incl ss S -> classified_from S v ->
  NestSDFG.scan_states p v ss = Ok (v', ss') -> classified_from S v'.
Proof.
  revert v ss'. induction ss as [|s ss IH]; intros v ss' Hincl Hv; simpl.
  - now intros [= <- _].
  - destruct (NestSDFG.scan_state p v s) as [[v1 s1]|] eqn:E; [| discriminate].
    destruct (NestSDFG.scan_states p v1 ss) as [[v2 ss2]|] eqn:E2;
      [| discriminate].
    intros [= <- _]. apply (IH v1 ss2); [| | exact E2].
    + intros x Hx. apply Hincl. now right.
    + apply (scan_state_from S p s s1 v); [| exact Hv | exact E].
      apply Hincl. now left.
Qed.

Lemma scan_states_inv (P : string -> Prop) (X : string)
    (ss ss' : list SDFGState) (v v' : NestSDFG.Vars) :
  outline_inv P X v ->
  (forall s n d, In s ss -> In n (nodes s) -> kind n = AccessNode d -> P d) ->
  NestSDFG.scan_states false v ss = Ok (v', ss') ->
  outline_inv P X v'
  /\ incl (NestSDFG.inputs v) (NestSDFG.inputs v')
  /\ incl (NestSDFG.outputs v) (NestSDFG.outputs v')
  /\ ((exists s, In s ss /\ is_read s X = true) ->
      In (X, X +:+ "_in") (NestSDFG.inputs v'))
  /\ ((exists s, In s ss /\ is_written s X = true) ->
      In (X, X +:+ "_out") (NestSDFG.outputs v')).
Proof.
  revert v ss'. induction ss as [|s ss IH]; intros v ss' Hinv HP; simpl.
  - intros [= <- <-]. split; [exact Hinv |].
    split; [apply incl_refl |]. split; [apply incl_refl |].
    split; intros (s & [] & _).
  - destruct (NestSDFG.scan_state false v s) as [[v1 s1]|] eqn:E1;
      [| discriminate].
    destruct (NestSDFG.scan_states false v1 ss) as [[v2 ss2]|] eqn:E2;
      [| discriminate].
    intros [= <- <-].
    destruct (scan_state_inv P X s s1 v v1 Hinv
                (fun n d => HP s n d (or_introl eq_refl)) E1)
      as (Hinv1 & Hi1 & Ho1 & Hr1 & Hw1).
    destruct (IH v1 ss2 Hinv1 (fun t n d Ht => HP t n d (or_intror Ht)) E2)
      as (Hinv2 & Hi2 & Ho2 & Hr2 & Hw2).
    split; [exact Hinv2 |].
    split; [eapply incl_tran; eassumption |].
    split; [eapply incl_tran; eassumption |].
    split; intros (t & [<- | Ht] & Hb).
    + apply Hi2, Hr1. apply node_of_read in Hb as (n & Hn & Hk & Hd). eauto.
    + apply Hr2. eauto.
    + apply Ho2, Hw1. apply node_of_written in Hb as (n & Hn & Hk & Hd). eauto.
    + apply Hw2. eauto.
Qed.

Lemma suffixed_entries (suffix : string) (d : list (string * string)) :
  suffixed suffix d -> d = with_suffix suffix (map fst d).
Proof.
  intros [_ Hv]. unfold with_suffix. rewrite List.map_map.
  induction d as [|[k x] d IH]; [reflexivity |]. simpl.
  rewrite (Hv k x (or_introl eq_refl)). f_equal. apply IH.
  intros k' v' Hin. apply Hv. now right.
Qed.

Lemma dict_update_nil (d : list (string * string)) :
  dict_update String.eqb d [] = d.
Proof. reflexivity. Qed.

(** X11: when NestSDFG.apply completes, under either policy, the SDFG has
    the label it had, no inter-state edges and one state.  Its first node
    is the nested SDFG node, whose input connectors are the inputs with the
    suffix _in and whose output connectors are the outputs with the suffix
    _out, no input and no output twice; the other nodes are one access
    node per input and then one per output (so no map entry or exit), each
    naming an array of the outer table; the edges are one per input, from
    its access node to its connector with a memlet on the input, and then
    one per output, from its connector to its access node.  Every input is
    read through an access node of a state of the original SDFG.  Under
    the default policy every output is written through one, and every
    non-transient array that is read (written) in some state is an input
    (an output).  The nested SDFG has the label, the inter-state edges and
    the number of states of the original. *)
Theorem outline_leaves_one_nested_node (promote_global_trans : bool)
    (sdfg g' : SDFG) :
  NestSDFG.apply promote_global_trans sdfg = Ok g' ->
  exists st nested child ins outs new_in new_out,
    states g' = [st] /\ label g' = label sdfg /\ interstate g' = []
    /\ nth_error (nodes st) 0 = Some nested
    /\ kind nested = NestedSDFG (label sdfg) child
    /\ in_connectors nested = map (fun k => k +:+ "_in") ins
    /\ out_connectors nested = map (fun k => k +:+ "_out") outs
    /\ List.NoDup ins /\ List.NoDup outs
    /\ map kind (nodes st)
       = NestedSDFG (label sdfg) child :: map AccessNode (ins ++ outs)
    /\ (forall k, In k (ins ++ outs) -> is_Some (arrays g' !! k))
    /\ edges st = new_in ++ new_out
    /\ Forall2 (boundary_edge true (nid nested) st) (with_suffix "_in" ins)
               new_in
    /\ Forall2 (boundary_edge false (nid nested) st) (with_suffix "_out" outs)
               new_out
    /\ length (edges st) = length (ins ++ outs)
    /\ (forall k, In k ins ->
          exists s, In s (states sdfg) /\ is_read s k = true)
    /\ (promote_global_trans = false ->
        (forall k, In k outs ->
           exists s, In s (states sdfg) /\ is_written s k = true)
        /\ forall X d, arrays sdfg !! X = Some d -> transient d = false ->
             ((exists s, In s (states sdfg) /\ is_read s X = true) ->
              In X ins)
             /\ ((exists s, In s (states sdfg) /\ is_written s X = true) ->
                 In X outs))
    /\ length (states child) = length (states sdfg)
    /\ interstate child = interstate sdfg
    /\ label child = label sdfg.
Proof.
  unfold NestSDFG.apply.
  destruct (NestSDFG.scan_states promote_global_trans _ (states sdfg))
    as [[v ss]|] eqn:Escan; simpl; [| discriminate].
  destruct (NestSDFG.drop_old_names v) as [narrs|] eqn:Edrop; simpl;
    [| discriminate].
  destruct (foldR _ ss []) as [ss'|] eqn:Eupd; simpl; [| discriminate].
  set (outs := dict_update String.eqb (NestSDFG.outputs v) (NestSDFG.transients v)).
  set (child := mkSDFG (label sdfg) narrs ss' (interstate sdfg)).
  set (fresh := S (NestSDFG.max_nid ss')).
  set (nested := mkNode fresh (NestedSDFG (label sdfg) child)
                        (map snd (NestSDFG.inputs v)) (map snd outs)).
  set (st0 := mkState (label sdfg) [nested] [] 0).
  destruct (NestSDFG.connect true fresh _ (NestSDFG.inputs v) (S fresh) st0)
    as [[fresh1 st1]|] eqn:Ec1; simpl; [| discriminate].
  destruct (NestSDFG.connect false fresh _ outs fresh1 st1)
    as [[fresh2 st2]|] eqn:Ec2; simpl; [| discriminate].
  intros [= <-].
  assert (H0 : dicts_ok (NestSDFG.mkVars (arrays sdfg) ∅ [] [] [] None)).
  { repeat split; try constructor; intros k x []. }
  pose proof (scan_states_ok _ _ _ _ _ H0 Escan) as [(Hsi & Hso & Hst) Hlen].
  assert (Hsouts : suffixed "_out" outs) by now apply suffixed_update.
  apply update_memlets_length in Eupd. simpl in Eupd.
  assert (Hfrom : classified_from (states sdfg) v).
  { apply (scan_states_from (states sdfg) _ _ _ _ _ (incl_refl _)) in Escan;
      [exact Escan |]. split; intros kv []. }
  assert (Hlt0 : forall m, In m (nodes st0) -> nid m < S fresh).
  { intros m [<- | []]. simpl. lia. }
  destruct (connect_spec true fresh _ _ _ _ _ _ Hlt0 Ec1)
    as ((new1 & He1 & Hall1) & Hlt1 & Hmono1).
  destruct (connect_spec false fresh _ _ _ _ _ _ Hlt1 Ec2)
    as ((new2 & He2 & Hall2) & _ & Hmono2).
  apply (Forall2_boundary_mono true fresh st1 st2 _ _ Hmono2) in Hall1.
  destruct (connect_nodes true fresh _ _ _ _ _ _ Hlt0 Ec1)
    as (more1 & Hn1 & Hk1 & Ha1).
  destruct (connect_nodes false fresh _ _ _ _ _ _ Hlt1 Ec2)
    as (more2 & Hn2 & Hk2 & Ha2).
  exists st2, nested, child, (map fst (NestSDFG.inputs v)), (map fst outs),
    new1, new2.
  split; [reflexivity |]. split; [reflexivity |]. split; [reflexivity |].
  split; [now rewrite Hn2, Hn1 |]. split; [reflexivity |].
  split; [exact (proj1 (suffixed_values _ _ Hsi)) |].
  split; [exact (proj1 (suffixed_values _ _ Hsouts)) |].
  split; [exact (proj1 Hsi) |]. split; [exact (proj1 Hsouts) |].
  split.
  { rewrite Hn2, Hn1. simpl. rewrite List.map_app, Hk1, Hk2.
    now rewrite List.map_app, !List.map_map. }
  split.
  { intros k Hk. simpl.
    apply in_app_or in Hk as [Hk | Hk];
      apply List.in_map_iff in Hk as (kv & <- & Hin);
      [now apply Ha1 | now apply Ha2]. }
  split; [rewrite He2, He1; reflexivity |].
  split; [rewrite <- (suffixed_entries _ _ Hsi); exact Hall1 |].
  split; [rewrite <- (suffixed_entries _ _ Hsouts); exact Hall2 |].
  split.
  { rewrite He2, He1. simpl. rewrite !length_app, !length_map.
    now rewrite (Forall2_length _ _ _ Hall1), (Forall2_length _ _ _ Hall2). }
  split.
  { intros k Hk. apply List.in_map_iff in Hk as (kv & <- & Hin).
    now apply (proj1 Hfrom). }
  split; [| split; [simpl; congruence | now split]].
  intros ->.
  assert (Htr : NestSDFG.transients v = []).
  { now apply scan_states_transients in Escan. }
  assert (Eouts : outs = NestSDFG.outputs v).
  { unfold outs. now rewrite Htr. }
  split.
  - intros k Hk. rewrite Eouts in Hk.
    apply List.in_map_iff in Hk as (kv & <- & Hin). now apply (proj2 Hfrom).
  - intros X d HX Ht.
    assert (Hinv0 : outline_inv (accessed sdfg) X
                      (NestSDFG.mkVars (arrays sdfg) ∅ [] [] [] None)).
    { split; [| split; [| split; [reflexivity | now exists d]]];
        (split; [constructor | intros k x []]). }
    destruct (scan_states_inv (accessed sdfg) X _ _ _ _ Hinv0
                (fun s n k Hs Hn Hk => ex_intro _ s
                   (ex_intro _ n (conj Hs (conj Hn Hk)))) Escan)
      as (_ & _ & _ & Hr & Hw).
    split; intros Hex.
    + apply (in_map fst) in Hr; [exact Hr | exact Hex].
    + rewrite Eouts. apply (in_map fst) in Hw; [exact Hw | exact Hex].
Qed.

Lemma outline_leaves_one_nested_node_witness :
  exists st nested child ins outs new_in new_out,
    states C_outlined = [st] /\ label C_outlined = label C_sdfg
    /\ interstate C_outlined = []
    /\ nth_error (nodes st) 0 = Some nested
    /\ kind nested = NestedSDFG (label C_sdfg) child
    /\ in_connectors nested = map (fun k => k +:+ "_in") ins
    /\ out_connectors nested = map (fun k => k +:+ "_out") outs
    /\ List.NoDup ins /\ List.NoDup outs
    /\ map kind (nodes st)
       = NestedSDFG (label C_sdfg) child :: map AccessNode (ins ++ outs)
    /\ (forall k, In k (ins ++ outs) -> is_Some (arrays C_outlined !! k))
    /\ edges st = new_in ++ new_out
    /\ Forall2 (boundary_edge true (nid nested) st) (with_suffix "_in" ins)
               new_in
    /\ Forall2 (boundary_edge false (nid nested) st) (with_suffix "_out" outs)
               new_out
    /\ length (edges st) = length (ins ++ outs)
    /\ (forall k, In k ins ->
          exists s, In s (states C_sdfg) /\ is_read s k = true)
    /\ (false = false ->
        (forall k, In k outs ->
           exists s, In s (states C_sdfg) /\ is_written s k = true)
        /\ forall X d, arrays C_sdfg !! X = Some d -> transient d = false ->
             ((exists s, In s (states C_sdfg) /\ is_read s X = true) ->
              In X ins)
             /\ ((exists s, In s (states C_sdfg) /\ is_written s X = true) ->
                 In X outs))
    /\ length (states child) = length (states C_sdfg)
    /\ interstate child = interstate C_sdfg
    /\ label child = label C_sdfg.
Proof.
  apply (outline_leaves_one_nested_node false C_sdfg C_outlined).
  vm_compute. reflexivity.
Defined.

(** * The mapping passes and the IDE *)

(** ** Sending to the IDE *)

Lemma send_run (msg : Message) (f : Files) :
  exists f', send msg f = (f', delivery f)
    /\ sent f' = sent f ++ announce f msg
    /\ folders f' = folders f /\ tmps f' = tmps f
    /\ saved_py f' = saved_py f /\ saved_cpp f' = saved_cpp f.
Proof.
  unfold send, announce, delivery, bindM, gets, lift, throw, modify.
  destruct (DACE_port f) as [PORT|]; simpl.
  - destruct (py_int PORT) as [n|]; simpl.
    + destruct (endpoint f n) as [e|]; simpl.
      * exists f. rewrite app_nil_r. now repeat split.
      * eexists. split; [reflexivity |]. now repeat split.
    + exists f. rewrite app_nil_r. now repeat split.
  - exists f. rewrite app_nil_r. now repeat split.
Qed.

Lemma remove_tmp_run (name : string) (rec : Tmp) (f : Files) :
  tmps f !! name = Some rec -> mem_str name (folders f) = true ->
  exists f', remove_tmp name true f = (f', Ok tt)
    /\ tmps f' = delete name (tmps f)
    /\ saved_py f' = saved_py f /\ saved_cpp f' = saved_cpp f
    /\ cache f' = cache f /\ DACE_port f' = DACE_port f
    /\ endpoint f' = endpoint f /\ sent f' = sent f.
Proof.
  intros Hrec Hdir. unfold remove_tmp, bindM, gets. rewrite Hdir. simpl.
  rewrite Hrec. unfold modify.
  destruct (negb (bool_decide (is_Some (saved_py f !! name)))
            && negb (bool_decide (is_Some (saved_cpp f !! name)))); simpl;
    (eexists; split; [reflexivity |]; now repeat split).
Qed.

Lemma delivery_ext (f f' : Files) :
  DACE_port f' = DACE_port f -> endpoint f' = endpoint f ->
  delivery f' = delivery f.
Proof. unfold delivery. now intros -> ->. Qed.

Lemma announce_ext (f f' : Files) (msg : Message) :
  DACE_port f' = DACE_port f -> endpoint f' = endpoint f ->
  announce f' msg = announce f msg.
Proof. unfold announce, delivery. now intros -> ->. Qed.

Lemma create_cpp_map_run (f : Files) (name : string) (rec : Tmp)
    (code target_name : string) :
  tmps f !! name = Some rec -> mem_str name (folders f) = true ->
  exists f2,
    create_cpp_map code name target_name f = (f2, delivery f)
    /\ tmps f2 = delete name (tmps f)
    /\ saved_py f2 = saved_py f
    /\ (cache f = "hash" ->
        saved_cpp f2 = saved_cpp f
        /\ sent f2 = sent f ++ announce f (restrictedFeatures "config.cache.hash"))
    /\ (cache f <> "hash" ->
        exists m,
          MapCpp.mapper code = Ok m
          /\ saved_cpp f2 = <[name := (target_name, m)]> (saved_cpp f)
          /\ sent f2
             = sent f ++ announce f
                 (registerFunction name (default name (build_folder rec))
                    (src_files rec) target_name
                    (default false (made_with_api rec)))).
Proof.
  intros Hrec Hdir. unfold create_cpp_map.
  unfold bindM at 1, get_tmp at 1, gets at 1. rewrite Hrec.
  destruct (remove_tmp_run name rec f Hrec Hdir)
    as (f1 & E1 & Ht1 & Hp1 & Hc1 & Hs1 & Hport1 & Hend1 & Hsent1).
  unfold bindM at 1. rewrite E1.
  unfold bindM at 1, gets at 1. rewrite Hs1.
  destruct (String.eqb (cache f) "hash") eqn:Eh; cbn [negb].
  - apply String.eqb_eq in Eh.
    destruct (send_run (restrictedFeatures "config.cache.hash") f1)
      as (f2 & E2 & Hsent2 & _ & Ht2 & Hp2 & Hc2).
    exists f2. rewrite (delivery_ext f f1 Hport1 Hend1) in E2.
    split; [exact E2 |]. split; [congruence |]. split; [congruence |].
    split; [| congruence]. intros _. split; [congruence |].
    rewrite Hsent2, Hsent1. f_equal. now apply announce_ext.
  - apply String.eqb_neq in Eh. destruct (cpp_mapper_ok code) as [m Hm].
    unfold bindM at 1, lift at 1. rewrite Hm.
    unfold bindM at 1, save_cpp at 1, bindM at 1, modify at 1, retM at 1.
    set (f1' := mkFiles _ _ _ _ _ _ _ _).
    destruct (send_run (registerFunction name (default name (build_folder rec))
                          (src_files rec) target_name
                          (default false (made_with_api rec))) f1')
      as (f2 & E2 & Hsent2 & _ & Ht2 & Hp2 & Hc2).
    assert (Hport : DACE_port f1' = DACE_port f) by exact Hport1.
    assert (Hend : endpoint f1' = endpoint f) by exact Hend1.
    rewrite (delivery_ext f f1' Hport Hend) in E2.
    exists f2. split; [exact E2 |].
    split; [rewrite Ht2; exact Ht1 |]. split; [rewrite Hp2; exact Hp1 |].
    split; [congruence |]. intros _. exists m. split; [reflexivity |].
    split; [rewrite Hc2; simpl; now rewrite Hc1 |].
    rewrite Hsent2. simpl. rewrite Hsent1. f_equal. now apply announce_ext.
Qed.

(** X14: when create_cpp_map finds the temporary record of the SDFG (in
    the cache folder of the SDFG), the record is gone afterwards, so that a
    second call does nothing, and the call ends as the sending of its
    message ends: without an exception when DACE_port is not set or the
    IDE takes the message, with ValueError when DACE_port is no number,
    with the exception of the socket otherwise.  Under the cache setting
    'hash' no mapping is saved and the message is about the restricted
    features; otherwise the C++ mapping is saved, also when the sending
    fails, and the message registers the function with the build folder
    and the source files of the record, as made with the API only if the
    record says so.  The IDE receives the message only when the port is
    set and the delivery goes through. *)
Theorem create_cpp_map_consumes_record (f : Files) (name : string) (rec : Tmp)
    (code target_name : string) :
  tmps f !! name = Some rec -> mem_str name (folders f) = true ->
  exists f2,
    create_cpp_map code name target_name f = (f2, delivery f)
    /\ tmps f2 = delete name (tmps f)
    /\ create_cpp_map code name target_name f2 = (f2, Ok tt)
    /\ saved_py f2 = saved_py f
    /\ (cache f = "hash" ->
        saved_cpp f2 = saved_cpp f
        /\ sent f2 = sent f ++ announce f (restrictedFeatures "config.cache.hash"))
    /\ (cache f <> "hash" ->
        exists m,
          MapCpp.mapper code = Ok m
          /\ saved_cpp f2 = <[name := (target_name, m)]> (saved_cpp f)
          /\ sent f2
             = sent f ++ announce f
                 (registerFunction name (default name (build_folder rec))
                    (src_files rec) target_name
                    (default false (made_with_api rec)))).
Proof.
  intros Hrec Hdir.
  destruct (create_cpp_map_run f name rec code target_name Hrec Hdir)
    as (f2 & E & Ht & Hp & Hh & Hn).
  exists f2. split; [exact E |]. split; [exact Ht |].
  split; [| split; [exact Hp | split; [exact Hh | exact Hn]]].
  unfold create_cpp_map, bindM, get_tmp, gets. rewrite Ht.
  now rewrite lookup_delete_eq.
Qed.

Lemma create_cpp_map_consumes_record_witness :
  exists f2,
    create_cpp_map "x = y; ////__DACE:0:0:1" "program" "cpu" bad_port_record
    = (f2, Raise ValueError)
    /\ tmps f2 = delete "program" (tmps bad_port_record)
    /\ create_cpp_map "x = y; ////__DACE:0:0:1" "program" "cpu" f2 = (f2, Ok tt)
    /\ saved_py f2 = saved_py bad_port_record
    /\ (cache bad_port_record = "hash" ->
        saved_cpp f2 = saved_cpp bad_port_record
        /\ sent f2 = sent bad_port_record
                     ++ announce bad_port_record
                          (restrictedFeatures "config.cache.hash"))
    /\ (cache bad_port_record <> "hash" ->
        exists m,
          MapCpp.mapper "x = y; ////__DACE:0:0:1" = Ok m
          /\ saved_cpp f2
             = <["program" := ("cpu", m)]> (saved_cpp bad_port_record)
          /\ sent f2 = sent bad_port_record ++ []).
Proof.
  apply (create_cpp_map_consumes_record bad_port_record "program"
           (mkTmp (Some 1%Z) (Some 9%Z) (Some "program.py") None None
                  (Some ["program.py"]) None)).
  - reflexivity.
  - reflexivity.
Defined.

(** ** The source files of an SDFG *)

Lemma own_info_file (dbg : option DebugInfo) (id state_id sdfg_id : nat)
    (i : Info) :
  In i (MapPython.own_info dbg id state_id sdfg_id) ->
  file_of i ∈ own_file dbg.
Proof.
  destruct dbg as [d|]; simpl; [| intros []].
  intros [<- | []]. unfold file_of. simpl. set_solver.
Qed.

Lemma node_debuginfo_files (n : DNode) :
  forall (id state_id sdfg_id : nat) (i : Info),
    In i (MapPython.node_debuginfo n id state_id sdfg_id) ->
    file_of i ∈ node_files n.
Proof.
  revert n. fix IH 1. intros n id state_id sdfg_id i.
  destruct n as [dbg|dbg|dbg|dbg|dbg|dbg [name nested_id sts]];
    try apply own_info_file.
  cbn [MapPython.node_debuginfo node_files].
  intros Hin. apply elem_of_union_r. revert Hin.
  generalize 0%nat at 1. generalize 0%nat.
  induction sts as [|st sts IHs]; intros a b; [intros [] |].
  intros Hin. apply in_app_or in Hin as [Hin | Hin].
  - clear IHs. apply elem_of_union_l.
    revert Hin. generalize b.
    induction st as [|x st IHn]; intros j; [intros [] |].
    intros Hin. apply in_app_or in Hin as [Hin | Hin].
    + apply elem_of_union_l. exact (IH x _ _ _ _ Hin).
    + apply elem_of_union_r. exact (IHn _ Hin).
  - apply elem_of_union_r. exact (IHs _ _ Hin).
Qed.

Lemma debuginfo_files (sdfg : DGraph) (i : Info) :
  In i (MapPython.sdfg_debuginfo sdfg) -> file_of i ∈ get_src_files sdfg.
Proof.
  unfold MapPython.sdfg_debuginfo, get_src_files. destruct sdfg as [n k sts].
  intros H. apply node_debuginfo_files in H. exact H.
Qed.

Lemma create_py_map_api (f : Files) (sdfg : DGraph) (folder : option string) :
  tmps f !! gname sdfg = None -> cache f <> "hash" ->
  exists f1,
    create_py_map sdfg folder f = (f1, Ok tt)
    /\ tmps f1 !! gname sdfg
       = Some (mkTmp None None None None folder
                     (Some (elements (get_src_files sdfg))) (Some true))
    /\ mem_str (gname sdfg) (folders f1) = true
    /\ saved_py f1 !! gname sdfg
       = Some (MapPython.create_mapping
                 (MapPython.divide (MapPython.sdfg_debuginfo sdfg)) None ∅)
    /\ saved_cpp f1 = saved_cpp f
    /\ cache f1 = cache f /\ DACE_port f1 = DACE_port f
    /\ endpoint f1 = endpoint f /\ sent f1 = sent f.
Proof.
  intros Hnone Hcache.
  assert (Hc : String.eqb (cache f) "hash" = false) by now apply String.eqb_neq.
  eexists. split.
  - unfold create_py_map. unfold bindM at 1, gets at 1. rewrite Hc. cbn [negb].
    unfold bindM at 1, get_tmp at 1, gets at 1. rewrite Hnone.
    unfold bindM at 1. unfold MapPython.mapper. cbn. reflexivity.
  - cbn [tmps with_tmps folders saved_py saved_cpp cache DACE_port endpoint sent].
    split; [apply lookup_insert_eq |]. split; [apply create_cache_has |].
    unfold create_cache. cbn [folders].
    destruct (mem_str (gname sdfg) _);
      cbn [with_folders saved_py saved_cpp cache DACE_port endpoint sent];
      (split; [apply lookup_insert_eq | now repeat split]).
Qed.

(** X15: create_py_map followed by create_cpp_map for an SDFG that has no
    temporary record (one built with the API), when the cache setting is
    not 'hash': create_py_map completes and writes the record that
    create_cpp_map reads and removes; both mappings are saved;
    create_cpp_map ends as the sending of its message ends; and the
    message registers the function as made with the API, with a listing
    without repetition (in no order in particular) of the set of source
    files that get_src_files finds in the SDFG, among them every file that
    has an entry in the Python mapping. *)
Theorem api_sdfg_is_registered (f : Files) (sdfg : DGraph)
    (folder : option string) (code target_name : string) :
  tmps f !! gname sdfg = None -> cache f <> "hash" ->
  exists f1 f2 files,
    create_py_map sdfg folder f = (f1, Ok tt)
    /\ create_cpp_map code (gname sdfg) target_name f1 = (f2, delivery f)
    /\ List.NoDup files
    /\ (forall x, In x files <-> x ∈ get_src_files sdfg)
    /\ (forall i, In i (MapPython.sdfg_debuginfo sdfg) -> In (file_of i) files)
    /\ sent f2
       = sent f ++ announce f
           (registerFunction (gname sdfg) (default (gname sdfg) folder)
              (Some files) target_name true)
    /\ tmps f2 !! gname sdfg = None
    /\ is_Some (saved_py f2 !! gname sdfg)
    /\ is_Some (saved_cpp f2 !! gname sdfg).
Proof.
  intros Hnone Hcache.
  destruct (create_py_map_api f sdfg folder Hnone Hcache)
    as (f1 & E1 & Hrec & Hdir & Hpy & Hcpp1 & Hc1 & Hport1 & Hend1 & Hsent1).
  destruct (create_cpp_map_run f1 (gname sdfg) _ code target_name Hrec Hdir)
    as (f2 & E2 & Ht2 & Hp2 & _ & Hrun).
  destruct Hrun as (m & _ & Hcpp & Hsent2); [congruence |].
  rewrite (delivery_ext f f1 Hport1 Hend1) in E2.
  assert (Hfiles : forall x, In x (elements (get_src_files sdfg))
                             <-> x ∈ get_src_files sdfg).
  { intros x. rewrite <- list_elem_of_In. apply elem_of_elements. }
  exists f1, f2, (elements (get_src_files sdfg)).
  split; [exact E1 |]. split; [exact E2 |].
  split; [apply NoDup_ListNoDup, NoDup_elements |].
  split; [exact Hfiles |].
  split; [intros i Hi; now apply Hfiles, debuginfo_files |].
  split; [| split; [| split]].
  - rewrite Hsent2, Hsent1. simpl. f_equal. now apply announce_ext.
  - rewrite Ht2. apply lookup_delete_eq.
  - rewrite Hp2, Hpy. eauto.
  - rewrite Hcpp, lookup_insert_eq. eauto.
Qed.

Lemma api_sdfg_is_registered_witness :
  exists f1 f2 files,
    create_py_map api_program None no_records = (f1, Ok tt)
    /\ create_cpp_map "x = y; ////__DACE:0:0:1" (gname api_program) "cpu" f1
       = (f2, Ok tt)
    /\ List.NoDup files
    /\ (forall x, In x files <-> x ∈ get_src_files api_program)
    /\ (forall i, In i (MapPython.sdfg_debuginfo api_program) ->
          In (file_of i) files)
    /\ sent f2
       = sent no_records
         ++ [registerFunction "program" "program" (Some files) "cpu" true]
    /\ tmps f2 !! gname api_program = None
    /\ is_Some (saved_py f2 !! gname api_program)
    /\ is_Some (saved_cpp f2 !! gname api_program).
Proof.
  apply (api_sdfg_is_registered no_records api_program None
           "x = y; ////__DACE:0:0:1" "cpu").
  - reflexivity.
  - discriminate.
Defined.



(** * Inlining an unsupported pair of memlets *)

(** C2, as the specification states it, fails: in scenario A with an outer
    memlet that carries a second subset, the candidate is feasible,
    InlineSDFG.apply raises NotImplementedError, and the SDFG is not what
    it was: the tasklet of the nested state, which was not in the outer
    state, is in it afterwards. *)
Lemma unsupported_inline_modifies_state :
  snd (InlineSDFG.can_be_applied 0 false
         (InlineSDFG.mkMatch A_other_state 1 A_other_sdfg)) = Ok true
  /\ unsupported_boundary A_other_state A_child_state 1
       (mkNode 10 (AccessNode "in") [] []) "in"
       (mkEdge 0 0 None 1 (Some "in") other_memlet)
       (mkEdge 0 10 None 11 (Some "a") (memlet_on "in" [slice 0 10]))
  /\ snd (InlineSDFG.apply A_match A_other_sdfg) = Raise NotImplementedError
  /\ fst (InlineSDFG.apply A_match A_other_sdfg) <> A_other_sdfg
  /\ has_node A_other_state 11 = false
  /\ exists st',
       nth_error (states (fst (InlineSDFG.apply A_match A_other_sdfg))) 0
       = Some st'
       /\ has_node st' 11 = true
       /\ length (nodes A_other_state) < length (nodes st').
Proof.
  split; [reflexivity |]. split.
  { left. split; [reflexivity |]. split; [now left |]. split; [reflexivity |].
    split; [now left |]. right. simpl. eauto. }
  split; [reflexivity |]. split.
  { intros E. apply (f_equal (fun g => length (flat_map nodes (states g)))) in E.
    vm_compute in E. discriminate. }
  split; [reflexivity |]. eexists. split; [reflexivity |].
  split; [reflexivity |]. vm_compute. lia.
Qed.

(** C2 (amended): for a candidate that InlineSDFG.can_be_applied accepts,
    in a well-formed pair of states, whenever a source (sink) access node
    of a non-transient array of the nested state has an inner edge whose
    memlet, against the memlet of the outer edge bound to the node's
    connector, has a greater rank, or that outer memlet carries a second
    subset, InlineSDFG.apply raises an exception.  Nothing is undone: no
    array is removed from the table and the other states are as they were,
    but when the exception is NotImplementedError the matched state still
    holds the nested SDFG node together with the nodes of the nested state
    that have been added to it. *)
Theorem unsupported_inline_stops_midway (self : InlineSDFG.Transformation)
    (sdfg : SDFG) (state : SDFGState) (nsdfg_node : Node) (lbl : string)
    (nsdfg : SDFG) (nstate : SDFGState) (node : Node) (d : string)
    (top inner : Edge) :
  nth_error (states sdfg) (InlineSDFG.state_id self) = Some state ->
  nth_error (nodes state) (InlineSDFG.subgraph self) = Some nsdfg_node ->
  kind nsdfg_node = NestedSDFG lbl nsdfg ->
  nth_error (states nsdfg) 0 = Some nstate ->
  snd (InlineSDFG.can_be_applied 0 false
         (InlineSDFG.mkMatch state (InlineSDFG.subgraph self) sdfg)) = Ok true ->
  well_formed state nstate ->
  In node (nodes nstate) -> kind node = AccessNode d ->
  (forall desc, arrays nsdfg !! d = Some desc -> transient desc = false) ->
  unsupported_boundary state nstate (nid nsdfg_node) node d top inner ->
  (exists e, snd (InlineSDFG.apply self sdfg) = Raise e)
  /\ (forall k, is_Some (arrays sdfg !! k) ->
        is_Some (arrays (fst (InlineSDFG.apply self sdfg)) !! k))
  /\ (forall j, j <> InlineSDFG.state_id self ->
        nth_error (states (fst (InlineSDFG.apply self sdfg))) j
        = nth_error (states sdfg) j)
  /\ (snd (InlineSDFG.apply self sdfg) = Raise NotImplementedError ->
      exists st',
        nth_error (states (fst (InlineSDFG.apply self sdfg)))
                  (InlineSDFG.state_id self) = Some st'
        /\ has_node st' (nid nsdfg_node) = true
        /\ forall n, In n (nodes nstate) -> is_access (kind n) = false ->
             has_node st' (nid n) = true).
Proof.
  intros Hst Hn Hk Hns Hcan Hwf Hnode Hkind Hnt Hbad.
  rewrite (can_be_applied_run 0 false state _ sdfg nsdfg_node lbl nsdfg Hn Hk)
    in Hcan.
  cbn [snd] in Hcan. injection Hcan as Hcan.
  apply andb_true_iff in Hcan as [Hcan Hout].
  apply andb_true_iff in Hcan as [_ Hin].
  apply scan_connectors_spec in Hin as [Hin _].
  apply scan_connectors_spec in Hout as [Hout _].
  unfold InlineSDFG.apply. rewrite Hst, Hn. unfold InlineSDFG.child_of.
  rewrite Hk, Hns.
  destruct (apply_body_raises state nstate nsdfg_node nsdfg (arrays sdfg)
              node d top inner (has_node_nth _ _ _ Hn) Hwf Hin Hout Hnode
              Hkind Hnt Hbad) as [e He].
  destruct (InlineSDFG.apply_body _ _ _) as [w r] eqn:E. cbn [fst snd] in *.
  split; [now exists e |]. split; [| split].
  - intros k Hsome. exact (arrays_apply_body _ _ _ _ _ E k Hsome).
  - intros j Hj. unfold InlineSDFG.commit. cbn [states].
    now apply set_nth_other.
  - intros ->. apply apply_body_nie in E as [Hkeep Hsub];
      [| exact (wf_nids _ _ Hwf)].
    eexists. split; [| split].
    + unfold InlineSDFG.commit. cbn [states]. apply (set_nth_same _ _ _ _ Hst).
    + rewrite has_node_store_child. apply Hkeep. simpl.
      now apply (has_node_nth _ _ _ Hn).
    + intros n Hi Hacc. rewrite has_node_store_child. now apply Hsub.
Qed.

Lemma unsupported_inline_stops_midway_witness :
  (exists e, snd (InlineSDFG.apply A_match A_other_sdfg) = Raise e)
  /\ (forall k, is_Some (arrays A_other_sdfg !! k) ->
        is_Some (arrays (fst (InlineSDFG.apply A_match A_other_sdfg)) !! k))
  /\ (forall j, j <> 0 ->
        nth_error (states (fst (InlineSDFG.apply A_match A_other_sdfg))) j
        = nth_error (states A_other_sdfg) j)
  /\ (snd (InlineSDFG.apply A_match A_other_sdfg) = Raise NotImplementedError ->
      exists st',
        nth_error (states (fst (InlineSDFG.apply A_match A_other_sdfg))) 0
        = Some st'
        /\ has_node st' 1 = true
        /\ forall n, In n (nodes A_child_state) -> is_access (kind n) = false ->
             has_node st' (nid n) = true).
Proof.
  apply (unsupported_inline_stops_midway A_match A_other_sdfg A_other_state
           (A_node A_child) "nested" A_child A_child_state
           (mkNode 10 (AccessNode "in") [] []) "in"
           (mkEdge 0 0 None 1 (Some "in") other_memlet)
           (mkEdge 0 10 None 11 (Some "a") (memlet_on "in" [slice 0 10])));
    try reflexivity.
  - exact A_other_well_formed.
  - now left.
  - intros desc [= <-]. reflexivity.
  - left. split; [reflexivity |]. split; [now left |]. split; [reflexivity |].
    split; [now left |]. right. simpl. eauto.
Defined.
